(** * Two-level tree tour representation: model and verification

    A shallow embedding of [node.h], [two_level_tree.h] and
    [two_level_tree.cpp].

    Conventions of the embedding.
    - The two arenas [_nodes] and [_parent_nodes] are finite maps from an
      index to a record.  A [Node*] is the index of the node in [_nodes]
      (which, by [get_node], is the city bound to it); a [ParentNode*] is
      the index of the record in [_parent_nodes].  [nullptr] is the index
      [-1], which designates no element.  Reading through a pointer that
      designates no element is undefined in the source; the model reads the
      default-constructed record there.
    - [int] is modelled by [Z]; signed overflow is undefined in the source
      and is not modelled.
    - [assert] is a no-op (as under NDEBUG); the asserted preconditions
      appear as hypotheses of the theorems.
    - [while] and [do ... while] loops whose exit depends on the pointer
      structure take a fuel argument and return [None] when it runs out.
    - The scratch vectors [_temp_nodes] and [_temp_parent_nodes] are cleared
      at the start of every use, so they are local values of the operation
      that uses them.  A vector used as a stack is held back-first: the head
      of the list is [back()]. *)

From stdpp Require Import gmap list.

Local Open Scope Z_scope.

(** List reversal; the name [reverse] is used below for the tree operation. *)
Abbreviation lrev := reverse.

(** ** Data model ([node.h]) *)

Definition nullptr : Z := -1.

Record ParentNode := mkParentNode {
  p_reverse : bool;
  p_size : Z;
  p_id : Z;
  p_prev : Z;
  p_next : Z;
  segment_begin_node : Z;
  segment_end_node : Z
}.

Record Node := mkNode {
  n_id : Z;
  n_city : Z;
  n_prev : Z;
  n_next : Z;
  n_parent : Z
}.

Definition default_ParentNode : ParentNode :=
  mkParentNode false 0 0 nullptr nullptr nullptr nullptr.

Definition default_Node : Node :=
  mkNode 0 (-1) nullptr nullptr nullptr.

Definition forward_end_node (p : ParentNode) : Z :=
  if p_reverse p then segment_begin_node p else segment_end_node p.

Definition forward_begin_node (p : ParentNode) : Z :=
  if p_reverse p then segment_end_node p else segment_begin_node p.

Definition backward_begin_node (p : ParentNode) : Z :=
  if p_reverse p then segment_begin_node p else segment_end_node p.

Definition backward_end_node (p : ParentNode) : Z :=
  if p_reverse p then segment_end_node p else segment_begin_node p.

(** ** The tree ([two_level_tree.h]) *)

Inductive Direction := forward | backward.

Record TwoLevelTree := mkTree {
  _parent_nodes : gmap Z ParentNode;
  _nodes : gmap Z Node;
  _n_parents : Z;            (* _parent_nodes.size() *)
  _n_cities : Z;
  _origin_city : Z;
  _nominal_segment_length : Z
}.

(** Reading [*p] for a node pointer and a parent pointer. *)
Definition nd (t : TwoLevelTree) (x : Z) : Node :=
  default default_Node (_nodes t !! x).

Definition pa (t : TwoLevelTree) (p : Z) : ParentNode :=
  default default_ParentNode (_parent_nodes t !! p).

(** Writing [*p = v]. *)
Definition set_nd (t : TwoLevelTree) (x : Z) (v : Node) : TwoLevelTree :=
  mkTree (_parent_nodes t) (<[x := v]> (_nodes t)) (_n_parents t)
         (_n_cities t) (_origin_city t) (_nominal_segment_length t).

Definition set_pa (t : TwoLevelTree) (p : Z) (v : ParentNode) : TwoLevelTree :=
  mkTree (<[p := v]> (_parent_nodes t)) (_nodes t) (_n_parents t)
         (_n_cities t) (_origin_city t) (_nominal_segment_length t).

(** Field assignments [x->f = v]. *)
Definition set_n_id t x v :=
  let r := nd t x in set_nd t x (mkNode v (n_city r) (n_prev r) (n_next r) (n_parent r)).
Definition set_n_city t x v :=
  let r := nd t x in set_nd t x (mkNode (n_id r) v (n_prev r) (n_next r) (n_parent r)).
Definition set_n_prev t x v :=
  let r := nd t x in set_nd t x (mkNode (n_id r) (n_city r) v (n_next r) (n_parent r)).
Definition set_n_next t x v :=
  let r := nd t x in set_nd t x (mkNode (n_id r) (n_city r) (n_prev r) v (n_parent r)).
Definition set_n_parent t x v :=
  let r := nd t x in set_nd t x (mkNode (n_id r) (n_city r) (n_prev r) (n_next r) v).

Definition set_p_reverse t p v :=
  let r := pa t p in
  set_pa t p (mkParentNode v (p_size r) (p_id r) (p_prev r) (p_next r)
                           (segment_begin_node r) (segment_end_node r)).
Definition set_p_size t p v :=
  let r := pa t p in
  set_pa t p (mkParentNode (p_reverse r) v (p_id r) (p_prev r) (p_next r)
                           (segment_begin_node r) (segment_end_node r)).
Definition set_p_id t p v :=
  let r := pa t p in
  set_pa t p (mkParentNode (p_reverse r) (p_size r) v (p_prev r) (p_next r)
                           (segment_begin_node r) (segment_end_node r)).
Definition set_p_prev t p v :=
  let r := pa t p in
  set_pa t p (mkParentNode (p_reverse r) (p_size r) (p_id r) v (p_next r)
                           (segment_begin_node r) (segment_end_node r)).
Definition set_p_next t p v :=
  let r := pa t p in
  set_pa t p (mkParentNode (p_reverse r) (p_size r) (p_id r) (p_prev r) v
                           (segment_begin_node r) (segment_end_node r)).
Definition set_segment_begin_node t p v :=
  let r := pa t p in
  set_pa t p (mkParentNode (p_reverse r) (p_size r) (p_id r) (p_prev r) (p_next r)
                           v (segment_end_node r)).
Definition set_segment_end_node t p v :=
  let r := pa t p in
  set_pa t p (mkParentNode (p_reverse r) (p_size r) (p_id r) (p_prev r) (p_next r)
                           (segment_begin_node r) v).

(** Field reads through a pointer, [x->f]. *)
Abbreviation id_of t x := (n_id (nd t x)).
Abbreviation city_of t x := (n_city (nd t x)).
Abbreviation prev_of t x := (n_prev (nd t x)).
Abbreviation next_of t x := (n_next (nd t x)).
Abbreviation parent_of t x := (n_parent (nd t x)).

Abbreviation rev_of t p := (p_reverse (pa t p)).
Abbreviation size_of t p := (p_size (pa t p)).
Abbreviation pid_of t p := (p_id (pa t p)).
Abbreviation pprev_of t p := (p_prev (pa t p)).
Abbreviation pnext_of t p := (p_next (pa t p)).
Abbreviation begin_of t p := (segment_begin_node (pa t p)).
Abbreviation end_of t p := (segment_end_node (pa t p)).

(** [TwoLevelTree(int n_cities, int origin_city)]: [n_cities + origin_city]
    default nodes and [(int) sqrt(n_cities) + 1] default parents. *)
Definition default_arena {A} (d : A) (len : Z) : gmap Z A :=
  list_to_map (map (fun i => (Z.of_nat i, d)) (seq 0 (Z.to_nat len))).

Definition new_tree (n_cities origin_city : Z) : TwoLevelTree :=
  let np := Z.sqrt n_cities + 1 in
  mkTree (default_arena default_ParentNode np)
         (default_arena default_Node (n_cities + origin_city))
         np n_cities origin_city (Z.quot n_cities np).

Definition get_node (t : TwoLevelTree) (city : Z) : Z := city.
Definition get_parent_node (t : TwoLevelTree) (city : Z) : Z :=
  parent_of t (get_node t city).
Definition head_parent_node (t : TwoLevelTree) : Z := 0.
Definition tail_parent_node (t : TwoLevelTree) : Z := _n_parents t - 1.
Definition origin_city_node (t : TwoLevelTree) : Z := _origin_city t.
Definition n_segments (t : TwoLevelTree) : Z := _n_parents t.

Definition get_next (t : TwoLevelTree) (current : Z) : Z :=
  if rev_of t (parent_of t current) then prev_of t current else next_of t current.

Definition get_prev (t : TwoLevelTree) (current : Z) : Z :=
  if rev_of t (parent_of t current) then next_of t current else prev_of t current.

Definition is_city_valid (t : TwoLevelTree) (city : Z) : bool :=
  bool_decide (_origin_city t <= city) && bool_decide (city < _origin_city t + _n_cities t).

(** ** Loops *)

(** [for (i = start; i < start + count; i++) body], a counted loop. *)
Fixpoint for_loop {S : Type} (count : nat) (i : Z) (body : Z -> S -> S) (s : S) : S :=
  match count with
  | O => s
  | S c => for_loop c (i + 1) body (body i s)
  end.

(** [order[i]] for a [std::vector<int>]. *)
Definition at_ (order : list Z) (i : Z) : Z := default 0 (order !! Z.to_nat i).

(** ** Construction ([set_raw_tour]) *)

Definition set_raw_tour_node (order : list Z) (first_city last_city parent i_begin : Z)
    (i : Z) (t : TwoLevelTree) : TwoLevelTree :=
  let city := at_ order i in
  let node := get_node t city in
  let t := set_n_city t node city in
  let t := set_n_parent t node parent in
  let t := set_n_prev t node
             (if bool_decide (i = 0) then get_node t last_city
              else get_node t (at_ order (i - 1))) in
  let t := set_n_next t node
             (if bool_decide (i + 1 = _n_cities t) then get_node t first_city
              else get_node t (at_ order (i + 1))) in
  set_n_id t node (i - i_begin).

Definition set_raw_tour_segment (order : list Z) (n segment_length first_city last_city : Z)
    (current_segment : Z) (t : TwoLevelTree) : TwoLevelTree :=
  let parent := current_segment in
  let t := set_p_id t parent current_segment in
  let t := set_p_prev t parent
             (if bool_decide (current_segment > 0) then current_segment - 1
              else tail_parent_node t) in
  let t := set_p_next t parent
             (if bool_decide (current_segment + 1 < n) then current_segment + 1
              else head_parent_node t) in
  let t := set_p_reverse t parent false in
  let i_begin := current_segment * segment_length in
  let i_end := i_begin + segment_length in
  let i_end := if bool_decide (current_segment = n - 1) then _n_cities t else i_end in
  let t := set_segment_begin_node t parent (at_ order i_begin) in
  let t := set_segment_end_node t parent (at_ order (i_end - 1)) in
  let t := set_p_size t parent (i_end - i_begin) in
  for_loop (Z.to_nat (i_end - i_begin)) i_begin
           (set_raw_tour_node order first_city last_city parent i_begin) t.

Definition set_raw_tour (t : TwoLevelTree) (order : list Z) : TwoLevelTree :=
  let n := n_segments t in
  let segment_length := Z.quot (_n_cities t) n in
  let first_city := at_ order 0 in
  let last_city := at_ order (Z.of_nat (length order) - 1) in
  for_loop (Z.to_nat n) 0
           (set_raw_tour_segment order n segment_length first_city last_city) t.

(** ** Queries *)

Definition is_between (t : TwoLevelTree) (a b c : Z) : bool :=
  let pa_ := parent_of t a in
  let pb := parent_of t b in
  let pc := parent_of t c in
  if bool_decide (pa_ = pb) && bool_decide (pb = pc) then
    if rev_of t pa_ then
      if bool_decide (id_of t c < id_of t a)
      then bool_decide (id_of t b < id_of t a) && bool_decide (id_of t b > id_of t c)
      else bool_decide (id_of t b < id_of t a) || bool_decide (id_of t b > id_of t c)
    else
      if bool_decide (id_of t c > id_of t a)
      then bool_decide (id_of t b > id_of t a) && bool_decide (id_of t b < id_of t c)
      else bool_decide (id_of t b > id_of t a) || bool_decide (id_of t b < id_of t c)
  else if bool_decide (pa_ <> pb) && bool_decide (pa_ <> pc) && bool_decide (pb <> pc) then
    if bool_decide (pid_of t pc > pid_of t pa_)
    then bool_decide (pid_of t pb > pid_of t pa_) && bool_decide (pid_of t pb < pid_of t pc)
    else bool_decide (pid_of t pb > pid_of t pa_) || bool_decide (pid_of t pb < pid_of t pc)
  else
    let can_reach_in_current_segment u v :=
      if rev_of t (parent_of t u) then bool_decide (id_of t v < id_of t u)
      else bool_decide (id_of t u < id_of t v) in
    if bool_decide (pa_ = pb) then can_reach_in_current_segment a b
    else if bool_decide (pb = pc) then
      if rev_of t pb then bool_decide (id_of t b > id_of t c)
      else bool_decide (id_of t b < id_of t c)
    else negb (can_reach_in_current_segment a c).

Fixpoint raw_tour_loop (t : TwoLevelTree) (direction : Direction) (count : nat) (node : Z)
    : list Z :=
  match count with
  | O => []
  | S c =>
      city_of t node ::
      raw_tour_loop t direction c
        (match direction with forward => get_next t node | backward => get_prev t node end)
  end.

Definition get_raw_tour (t : TwoLevelTree) (start_city : Z) (direction : Direction) : list Z :=
  let start_city := if bool_decide (start_city < 0) then _origin_city t else start_city in
  raw_tour_loop t direction (Z.to_nat (_n_cities t)) (get_node t start_city).

Fixpoint segment_sizes_loop (fuel : nat) (t : TwoLevelTree) (start_parent p : Z)
    : option (list Z) :=
  match fuel with
  | O => None
  | S f =>
      let p' := pnext_of t p in
      if bool_decide (p' <> start_parent)
      then rest ← segment_sizes_loop f t start_parent p'; Some (size_of t p :: rest)
      else Some [size_of t p]
  end.

Definition actual_segment_sizes (fuel : nat) (t : TwoLevelTree) (start_city : Z)
    : option (list Z) :=
  if is_city_valid t start_city then
    let start_parent := get_parent_node t start_city in
    segment_sizes_loop fuel t start_parent start_parent
  else
    Some (for_loop (Z.to_nat (_n_parents t)) 0 (fun i acc => acc ++ [size_of t i]) []).

Definition count_n_segments (t : TwoLevelTree) (a b : Z) : Z :=
  let n := n_segments t in
  let apid := pid_of t (parent_of t a) in
  let bpid := pid_of t (parent_of t b) in
  if bool_decide (apid = bpid) then
    let ap := parent_of t a in
    if (negb (rev_of t ap) && bool_decide (id_of t a < id_of t b))
       || (rev_of t ap && bool_decide (id_of t a > id_of t b))
    then 1 else n
  else if bool_decide (bpid > apid) then bpid - apid + 1
  else bpid + n - apid + 1.

Definition is_approximately_shorter (t : TwoLevelTree) (a b c d : Z) : bool :=
  let n_segments_ab := count_n_segments t a b in
  let n_segments_cd := count_n_segments t c d in
  if bool_decide (n_segments_ab <> n_segments_cd)
  then bool_decide (n_segments_ab < n_segments_cd)
  else
    let excluded_length_a :=
      Z.abs (id_of t a - id_of t (forward_begin_node (pa t (parent_of t a)))) in
    let excluded_length_b :=
      Z.abs (id_of t b - id_of t (forward_end_node (pa t (parent_of t b)))) in
    let excluded_length_c :=
      Z.abs (id_of t c - id_of t (forward_begin_node (pa t (parent_of t c)))) in
    let excluded_length_d :=
      Z.abs (id_of t d - id_of t (forward_end_node (pa t (parent_of t d)))) in
    bool_decide (excluded_length_a + excluded_length_b
                 > excluded_length_c + excluded_length_d).

Definition has_edge (t : TwoLevelTree) (a b : Z) : bool :=
  bool_decide (get_next t a = b) || bool_decide (get_prev t a = b).

Definition is_path_in_single_segment (t : TwoLevelTree) (a b : Z) : bool :=
  if bool_decide (parent_of t a = parent_of t b) then
    if rev_of t (parent_of t a) then bool_decide (id_of t a > id_of t b)
    else bool_decide (id_of t a < id_of t b)
  else false.

(** ** Mutators *)

Definition connect_arc_forward (t : TwoLevelTree) (p q : Z) : TwoLevelTree :=
  let t := if rev_of t (parent_of t p) then set_n_prev t p q else set_n_next t p q in
  if rev_of t (parent_of t q) then set_n_next t q p else set_n_prev t q p.

Fixpoint relabel_loop (fuel : nat) (t : TwoLevelTree) (a b : Z) : option TwoLevelTree :=
  match fuel with
  | O => None
  | S f =>
      if bool_decide (a <> b) then
        let t := set_n_id t (next_of t a) (id_of t a + 1) in
        relabel_loop f t (next_of t a) b
      else Some t
  end.

Definition relabel_id (fuel : nat) (t : TwoLevelTree) (a b a_id : Z) : option TwoLevelTree :=
  relabel_loop fuel (set_n_id t a a_id) a b.

(** The two collecting loops of [split_and_merge]:
    [while (p->parent == s->parent) { push_back(p); p = step(p); }]. *)
Fixpoint collect_segment (fuel : nat) (t : TwoLevelTree) (direction : Direction)
    (s p : Z) (temp : list Z) : option (list Z) :=
  match fuel with
  | O => None
  | S f =>
      if bool_decide (parent_of t p = parent_of t s) then
        collect_segment f t direction s
          (match direction with forward => get_next t p | backward => get_prev t p end)
          (p :: temp)
      else Some temp
  end.

(** [while (!_temp_nodes.empty())] of the forward merge. *)
Fixpoint merge_forward (t : TwoLevelTree) (temp : list Z) (neighbor_parent q delta_id : Z)
    : TwoLevelTree * Z :=
  match temp with
  | [] => (t, q)
  | p :: temp =>
      let t := set_n_parent t p neighbor_parent in
      let t := connect_arc_forward t p q in
      let t := set_n_id t p (id_of t q + delta_id) in
      merge_forward t temp neighbor_parent p delta_id
  end.

(** [while (!_temp_nodes.empty())] of the backward merge. *)
Fixpoint merge_backward (t : TwoLevelTree) (temp : list Z) (neighbor_parent q delta_id : Z)
    : TwoLevelTree * Z :=
  match temp with
  | [] => (t, q)
  | p :: temp =>
      let t := set_n_parent t p neighbor_parent in
      let t := connect_arc_forward t q p in
      let t := set_n_id t p (id_of t q + delta_id) in
      merge_backward t temp neighbor_parent p delta_id
  end.

Definition split_and_merge (fuel : nat) (t : TwoLevelTree) (s : Z) (include_self : bool)
    (direction : Direction) : option TwoLevelTree :=
  let parent := parent_of t s in
  let neighbor_parent :=
    match direction with forward => pnext_of t parent | backward => pprev_of t parent end in
  let temp := if include_self then [s] else [] in
  temp ← collect_segment fuel t direction s
            (match direction with forward => get_next t s | backward => get_prev t s end)
            temp;
  let boundary :=
    match direction with
    | forward => if include_self then get_prev t s else s
    | backward => if include_self then get_next t s else s
    end in
  match temp with
  | [] => Some t
  | _ :: _ =>
      let n_temp := Z.of_nat (length temp) in
      let t := set_p_size t neighbor_parent (size_of t neighbor_parent + n_temp) in
      let t := set_p_size t parent (size_of t parent - n_temp) in
      match direction with
      | forward =>
          let q := if rev_of t neighbor_parent then end_of t neighbor_parent
                   else begin_of t neighbor_parent in
          let delta_id := if rev_of t neighbor_parent then 1 else -1 in
          let '(t, q) := merge_forward t temp neighbor_parent q delta_id in
          let t := if rev_of t neighbor_parent
                   then set_segment_end_node t neighbor_parent q
                   else set_segment_begin_node t neighbor_parent q in
          let t := connect_arc_forward t boundary q in
          Some (if rev_of t parent then set_segment_begin_node t parent boundary
                else set_segment_end_node t parent boundary)
      | backward =>
          let q := if rev_of t neighbor_parent then begin_of t neighbor_parent
                   else end_of t neighbor_parent in
          let delta_id := if rev_of t neighbor_parent then -1 else 1 in
          let '(t, q) := merge_backward t temp neighbor_parent q delta_id in
          let t := if rev_of t neighbor_parent
                   then set_segment_begin_node t neighbor_parent q
                   else set_segment_end_node t neighbor_parent q in
          let t := connect_arc_forward t q boundary in
          Some (if rev_of t parent then set_segment_end_node t parent boundary
                else set_segment_begin_node t parent boundary)
      end
  end.

Definition reverse_complete_segment (t : TwoLevelTree) (a b : Z) : TwoLevelTree :=
  let parent := parent_of t a in
  let prev_a := forward_end_node (pa t (pprev_of t (parent_of t a))) in
  let next_b := forward_begin_node (pa t (pnext_of t (parent_of t b))) in
  let t := set_p_reverse t parent (negb (rev_of t parent)) in
  let t := if rev_of t (parent_of t prev_a) then set_n_prev t prev_a b
           else set_n_next t prev_a b in
  let t := if rev_of t parent then set_n_prev t a next_b else set_n_next t a next_b in
  let t := if rev_of t (parent_of t next_b) then set_n_next t next_b a
           else set_n_prev t next_b a in
  if rev_of t parent then set_n_next t b prev_a else set_n_prev t b prev_a.

(** [while (p != b) { push_back(p); p = get_next(p); }] *)
Fixpoint collect_path (fuel : nat) (t : TwoLevelTree) (p b : Z) (temp : list Z)
    : option (list Z) :=
  match fuel with
  | O => None
  | S f =>
      if bool_decide (p <> b) then collect_path f t (get_next t p) b (p :: temp)
      else Some temp
  end.

(** [while (!_temp_nodes.empty()) { q = back(); pop_back(); connect_arc_forward(p, q); p = q; }] *)
Fixpoint connect_path (t : TwoLevelTree) (temp : list Z) (p : Z) : TwoLevelTree :=
  match temp with
  | [] => t
  | q :: temp => connect_path (connect_arc_forward t p q) temp q
  end.

Definition reverse_partial_segment (fuel : nat) (t : TwoLevelTree) (a b : Z)
    : option TwoLevelTree :=
  let parent := parent_of t a in
  let prev_a := get_prev t a in
  let next_b := get_next t b in
  let partial_segment_length := Z.abs (id_of t a - id_of t b) + 1 in
  temp ← collect_path fuel t (get_next t a) b [a; next_b];
  let temp := b :: temp in
  let t := connect_path t temp prev_a in
  let t :=
    if bool_decide (a = begin_of t parent) then set_segment_begin_node t parent b
    else if bool_decide (a = end_of t parent) then set_segment_end_node t parent b
    else if bool_decide (b = begin_of t parent) then set_segment_begin_node t parent a
    else if bool_decide (b = end_of t parent) then set_segment_end_node t parent a
    else t in
  if rev_of t parent then
    let a_id :=
      if bool_decide (a = begin_of t parent)
      then id_of t (next_of t b) - partial_segment_length
      else id_of t (prev_of t a) + 1 in
    relabel_id fuel t a b a_id
  else
    let b_id :=
      if bool_decide (b = begin_of t parent)
      then id_of t (next_of t a) - partial_segment_length
      else id_of t (prev_of t b) + 1 in
    relabel_id fuel t b a b_id.

Definition reverse_segment (fuel : nat) (t : TwoLevelTree) (a b : Z) : option TwoLevelTree :=
  let parent := parent_of t a in
  if (bool_decide (a = begin_of t parent) && bool_decide (b = end_of t parent))
     || (bool_decide (b = begin_of t parent) && bool_decide (a = end_of t parent))
  then Some (reverse_complete_segment t a b)
  else
    let path_length := Z.abs (id_of t a - id_of t b) + 1 in
    if bool_decide (path_length <= Z.quot (_nominal_segment_length t * 3) 4)
    then reverse_partial_segment fuel t a b
    else
      t ← split_and_merge fuel t a false backward;
      t ← split_and_merge fuel t b false forward;
      Some (reverse_complete_segment t a b).

(** The lambdas [split_and_merge_a] and [split_and_merge_b] of [reverse]. *)
Definition split_and_merge_a (fuel : nat) (t : TwoLevelTree) (a : Z) : option TwoLevelTree :=
  if bool_decide (a = forward_begin_node (pa t (parent_of t a))) then Some t
  else
    let a_forward_end := forward_end_node (pa t (parent_of t a)) in
    let a_forward_half_length := Z.abs (id_of t a_forward_end - id_of t a) + 1 in
    if bool_decide (a_forward_half_length <= Z.quot (size_of t (parent_of t a)) 2)
    then split_and_merge fuel t a true forward
    else split_and_merge fuel t a false backward.

Definition split_and_merge_b (fuel : nat) (t : TwoLevelTree) (a b : Z) : option TwoLevelTree :=
  if bool_decide (b = backward_begin_node (pa t (parent_of t b))) then Some t
  else if bool_decide (pnext_of t (parent_of t b) = parent_of t a)
  then split_and_merge fuel t b true backward
  else
    let b_backward_end := backward_end_node (pa t (parent_of t b)) in
    let b_backward_half_length := Z.abs (id_of t b_backward_end - id_of t b) + 1 in
    if bool_decide (b_backward_half_length <= Z.quot (size_of t (parent_of t b)) 2)
    then split_and_merge fuel t b true backward
    else split_and_merge fuel t b false forward.

(** [while (p != s2) { p->reverse = !p->reverse; push_back(p); p = p->next; }] *)
Fixpoint toggle_segments (fuel : nat) (t : TwoLevelTree) (p s2 : Z) (temp : list Z)
    : option (TwoLevelTree * list Z) :=
  match fuel with
  | O => None
  | S f =>
      if bool_decide (p <> s2) then
        let t := set_p_reverse t p (negb (rev_of t p)) in
        toggle_segments f t (pnext_of t p) s2 (p :: temp)
      else Some (t, temp)
  end.

(** The reconnecting loop of the multi-segment branch of [reverse]. *)
Fixpoint reconnect_segments (t : TwoLevelTree) (temp : list Z) (p n_parents : Z)
    : TwoLevelTree * Z :=
  match temp with
  | [] => (t, p)
  | q :: temp =>
      let t := set_p_next t p q in
      let t := set_p_prev t q p in
      let t := set_p_id t q (Z.rem (pid_of t p + 1) n_parents) in
      let p_last := forward_end_node (pa t p) in
      let q_first := forward_begin_node (pa t q) in
      let t := connect_arc_forward t p_last q_first in
      reconnect_segments t temp q n_parents
  end.

Definition reverse (fuel : nat) (t : TwoLevelTree) (a b : Z) : option TwoLevelTree :=
  if bool_decide (a = b) || bool_decide (get_next t b = a) then Some t
  else if is_path_in_single_segment t a b then reverse_segment fuel t a b
  else
    t ← split_and_merge_a fuel t a;
    if is_path_in_single_segment t a b then reverse_segment fuel t a b
    else
      t ← split_and_merge_b fuel t a b;
      if is_path_in_single_segment t a b then reverse_segment fuel t a b
      else
        let s1 := pprev_of t (parent_of t a) in
        let s2 := pnext_of t (parent_of t b) in
        '(t, temp) ← toggle_segments fuel t (parent_of t a) s2 [s2];
        let n_parents := _n_parents t in
        Some (reconnect_segments t temp s1 n_parents).1.

Definition flip (fuel : nat) (t : TwoLevelTree) (a b c d : Z) : option TwoLevelTree :=
  let is_forward := bool_decide (get_next t a = b) in
  if bool_decide (b = c) || bool_decide (d = a) then Some t
  else if is_approximately_shorter t b c d a then
    if is_forward then reverse fuel t b c else reverse fuel t c b
  else
    if is_forward then reverse fuel t d a else reverse fuel t a d.

(** The lambda [sam] of [double_bridge_move]. *)
Definition sam (fuel : nat) (t : TwoLevelTree) (p : Z) : option TwoLevelTree :=
  if bool_decide (parent_of t p = parent_of t (get_next t p))
  then split_and_merge fuel t p false forward
  else Some t.

(** The lambda [connect_forward] of [double_bridge_move]. *)
Definition connect_forward (t : TwoLevelTree) (p q : Z) : TwoLevelTree :=
  let t := connect_arc_forward t p q in
  let t := set_p_next t (parent_of t p) (parent_of t q) in
  set_p_prev t (parent_of t q) (parent_of t p).

(** [do { p->id = id; id++; p = p->next; } while (p != head_parent_node());] *)
Fixpoint renumber_parents (fuel : nat) (t : TwoLevelTree) (p id : Z) : option TwoLevelTree :=
  match fuel with
  | O => None
  | S f =>
      let t := set_p_id t p id in
      let id := id + 1 in
      let p := pnext_of t p in
      if bool_decide (p <> head_parent_node t) then renumber_parents f t p id
      else Some t
  end.

Definition double_bridge_move (fuel : nat) (t : TwoLevelTree) (a b c d : Z)
    : option TwoLevelTree :=
  let an := get_next t a in
  let bn := get_next t b in
  let cn := get_next t c in
  let dn := get_next t d in
  t ← sam fuel t a;
  t ← sam fuel t b;
  t ← sam fuel t c;
  t ← sam fuel t d;
  let t := connect_forward t a cn in
  let t := connect_forward t d bn in
  let t := connect_forward t c an in
  let t := connect_forward t b dn in
  renumber_parents fuel t (head_parent_node t) 0.

(** ** Representation invariant

    The tree encodes a cyclic list of segments.  A segment is a parent
    together with its nodes in logical-forward order; the segments are listed
    in the order of the parents' [next] pointers.  Both lists are cyclic: the
    invariant does not depend on where the lists are cut. *)

Fixpoint chain {A : Type} (R : A -> A -> Prop) (l : list A) : Prop :=
  match l with
  | x :: l' => match l' with y :: _ => R x y /\ chain R l' | [] => True end
  | [] => True
  end.

Definition cchain {A : Type} (R : A -> A -> Prop) (l : list A) : Prop :=
  match l with
  | [] => True
  | x :: _ => chain R (l ++ [x])
  end.

(** [x] is followed by [y] on the forward tour. *)
Definition link (t : TwoLevelTree) (x y : Z) : Prop :=
  get_next t x = y /\ get_prev t y = x.

(** The local ID read in the logical-forward direction of the node's segment. *)
Definition lid (t : TwoLevelTree) (x : Z) : Z :=
  if rev_of t (parent_of t x) then - id_of t x else id_of t x.

(** Parent [p] is followed by parent [q]. *)
Definition plink (t : TwoLevelTree) (p q : Z) : Prop :=
  pnext_of t p = q /\ pprev_of t q = p /\
  pid_of t q = Z.rem (pid_of t p + 1) (_n_parents t).

Definition segment : Type := Z * list Z.

Definition parents_of (segs : list segment) : list Z := segs.*1.
Definition tour_of (segs : list segment) : list Z := concat (segs.*2).

Definition seg_ok (t : TwoLevelTree) (s : segment) : Prop :=
  size_of t s.1 = Z.of_nat (length s.2) /\
  head s.2 = Some (forward_begin_node (pa t s.1)) /\
  last s.2 = Some (forward_end_node (pa t s.1)) /\
  Forall (fun x => parent_of t x = s.1) s.2 /\
  chain (fun x y => lid t y = lid t x + 1) s.2.

Record Rep (t : TwoLevelTree) (segs : list segment) : Prop := mkRep {
  rep_n_parents : 2 <= _n_parents t;
  rep_parents : parents_of segs ≡ₚ seqZ 0 (_n_parents t);
  rep_tour : tour_of segs ≡ₚ seqZ (_origin_city t) (_n_cities t);
  rep_plink : cchain (plink t) (parents_of segs);
  rep_pid : Forall (fun p => 0 <= pid_of t p < _n_parents t) (parents_of segs);
  rep_segs : Forall (seg_ok t) segs;
  rep_link : cchain (link t) (tour_of segs);
  rep_city : Forall (fun x => city_of t x = x) (tour_of segs)
}.

(** A tree is valid when its origin city is not negative (as the
    constructor asserts) and it encodes some cyclic list of segments. *)
Definition valid (t : TwoLevelTree) : Prop :=
  0 <= _origin_city t /\ exists segs, Rep t segs.

(** The tree encodes the cyclic tour [L]: the list is cut at an arbitrary
    node and follows [get_next]. *)
Definition tour_rep (t : TwoLevelTree) (L : list Z) : Prop :=
  cchain (link t) L /\
  L ≡ₚ seqZ (_origin_city t) (_n_cities t) /\
  Forall (fun x => city_of t x = x) L.

(** Writes of the pointer that is logically forward (resp. backward) of a
    node, and of the logical-forward begin (resp. end) of a segment: the
    patterns [if (x->parent->reverse) x->prev = y; else x->next = y;] of the
    source. *)
Definition set_fw (t : TwoLevelTree) (x y : Z) : TwoLevelTree :=
  if rev_of t (parent_of t x) then set_n_prev t x y else set_n_next t x y.

Definition set_bw (t : TwoLevelTree) (x y : Z) : TwoLevelTree :=
  if rev_of t (parent_of t x) then set_n_next t x y else set_n_prev t x y.

Definition set_fbegin (t : TwoLevelTree) (p x : Z) : TwoLevelTree :=
  if rev_of t p then set_segment_end_node t p x else set_segment_begin_node t p x.

Definition set_fend (t : TwoLevelTree) (p x : Z) : TwoLevelTree :=
  if rev_of t p then set_segment_begin_node t p x else set_segment_end_node t p x.

Abbreviation fbegin_of t p := (forward_begin_node (pa t p)).
Abbreviation fend_of t p := (forward_end_node (pa t p)).

(** One iteration of the reconnecting loop of [reverse], with the reads
    taken from the state before the iteration. *)
Definition reconnect_step (t : TwoLevelTree) (p q n_parents : Z) : TwoLevelTree :=
  connect_arc_forward
    (set_p_id (set_p_prev (set_p_next t p q) q p) q (Z.rem (pid_of t p + 1) n_parents))
    (fend_of t p) (fbegin_of t q).

(** A segment read backwards. *)
Definition reverse_seg (s : segment) : segment := (s.1, lrev s.2).

(** The fixed parameters of a tree: the sizes of the two arenas, the origin
    city and the nominal segment length. *)
Definition same_shape (t t' : TwoLevelTree) : Prop :=
  _n_parents t' = _n_parents t /\ _n_cities t' = _n_cities t /\
  _origin_city t' = _origin_city t /\
  _nominal_segment_length t' = _nominal_segment_length t.

(** The precondition of [split_and_merge]: the move leaves at least one node
    in the segment of [s] (the source asserts [parent->size > 0]).  The nodes
    moved are those strictly beyond [s] in the given direction, and [s]
    itself when [include_self] is set. *)
Definition keeps_segment (t : TwoLevelTree) (s : Z) (include_self : bool)
    (direction : Direction) : Prop :=
  include_self = true ->
  s <> match direction with
       | forward => fbegin_of t (parent_of t s)
       | backward => fend_of t (parent_of t s)
       end.

(** ** Reading the segments off a tree *)

Fixpoint walk (t : TwoLevelTree) (count : nat) (x : Z) : list Z :=
  match count with
  | O => []
  | S c => x :: walk t c (get_next t x)
  end.

Fixpoint parent_walk (t : TwoLevelTree) (count : nat) (p : Z) : list Z :=
  match count with
  | O => []
  | S c => p :: parent_walk t c (pnext_of t p)
  end.

Definition segment_of (t : TwoLevelTree) (p : Z) : segment :=
  (p, walk t (Z.to_nat (size_of t p)) (fbegin_of t p)).

Definition segments_of (t : TwoLevelTree) : list segment :=
  map (segment_of t) (parent_walk t (Z.to_nat (_n_parents t)) (head_parent_node t)).

(** ** Deciding the invariant *)

#[global] Instance chain_dec {A : Type} (R : A -> A -> Prop) `{!RelDecision R}
  (l : list A) : Decision (chain R l).
Proof.
  induction l as [|x l IH]; [left; exact I|].
  destruct l as [|y l]; [left; exact I|].
  destruct (decide (R x y)) as [H1|H1].
  - destruct IH as [H2|H2].
    + left. exact (conj H1 H2).
    + right. intros [_ H]. exact (H2 H).
  - right. intros [H _]. exact (H1 H).
Defined.

#[global] Instance cchain_dec {A : Type} (R : A -> A -> Prop) `{!RelDecision R}
  (l : list A) : Decision (cchain R l).
Proof. destruct l; unfold cchain; apply _. Defined.

#[global] Instance link_dec (t : TwoLevelTree) : RelDecision (link t).
Proof. intros x y. unfold link. apply _. Defined.

#[global] Instance plink_dec (t : TwoLevelTree) : RelDecision (plink t).
Proof. intros p q. unfold plink. apply _. Defined.

#[global] Instance seg_ok_dec (t : TwoLevelTree) (s : segment) : Decision (seg_ok t s).
Proof.
  unfold seg_ok.
  assert (RelDecision (fun x y => lid t y = lid t x + 1)) by (intros x y; apply _).
  apply _.
Defined.

#[global] Instance Rep_dec (t : TwoLevelTree) (segs : list segment) : Decision (Rep t segs).
Proof.
  destruct (decide (2 <= _n_parents t)) as [H1|H1]; [|right; intros []; exact (H1 rep_n_parents0)].
  destruct (decide (parents_of segs ≡ₚ seqZ 0 (_n_parents t))) as [H2|H2];
    [|right; intros []; exact (H2 rep_parents0)].
  destruct (decide (tour_of segs ≡ₚ seqZ (_origin_city t) (_n_cities t))) as [H3|H3];
    [|right; intros []; exact (H3 rep_tour0)].
  destruct (decide (cchain (plink t) (parents_of segs))) as [H4|H4];
    [|right; intros []; exact (H4 rep_plink0)].
  destruct (decide (Forall (fun p => 0 <= pid_of t p < _n_parents t) (parents_of segs)))
    as [H5|H5]; [|right; intros []; exact (H5 rep_pid0)].
  destruct (decide (Forall (seg_ok t) segs)) as [H6|H6];
    [|right; intros []; exact (H6 rep_segs0)].
  destruct (decide (cchain (link t) (tour_of segs))) as [H7|H7];
    [|right; intros []; exact (H7 rep_link0)].
  destruct (decide (Forall (fun x => city_of t x = x) (tour_of segs))) as [H8|H8];
    [|right; intros []; exact (H8 rep_city0)].
  left. exact (mkRep t segs H1 H2 H3 H4 H5 H6 H7 H8).
Defined.

(** The executable validity check: the segments read off the tree satisfy
    the invariant. *)
Definition check_valid (t : TwoLevelTree) : bool :=
  bool_decide (0 <= _origin_city t) && bool_decide (Rep t (segments_of t)).

(** ** The tours of the test suite *)

Definition order10 : list Z := [3; 6; 8; 4; 1; 2; 5; 9; 10; 7].
Definition order12 : list Z := [3; 6; 8; 4; 1; 12; 2; 5; 9; 10; 7; 11].
Definition order14 : list Z := [11; 13; 6; 8; 4; 1; 2; 5; 9; 10; 7; 12; 14; 3].
Definition order23 : list Z :=
  [11; 13; 6; 8; 4; 1; 2; 5; 9; 10; 7; 12; 14; 3; 15; 16; 17; 18; 20; 19; 23; 22; 21].

Definition tree10 : TwoLevelTree := set_raw_tour (new_tree 10 1) order10.
Definition tree12 : TwoLevelTree := set_raw_tour (new_tree 12 1) order12.
Definition tree14 : TwoLevelTree := set_raw_tour (new_tree 14 1) order14.
Definition tree23 : TwoLevelTree := set_raw_tour (new_tree 23 1) order23.

(** ** The state written by [set_raw_tour]

    Segment [k] takes the cities [order[raw_begin k .. raw_end k)]; the last
    segment takes all the remaining ones. *)

Definition raw_begin (t : TwoLevelTree) (k : Z) : Z :=
  k * Z.quot (_n_cities t) (_n_parents t).

Definition raw_end (t : TwoLevelTree) (k : Z) : Z :=
  if bool_decide (k = _n_parents t - 1) then _n_cities t
  else raw_begin t k + Z.quot (_n_cities t) (_n_parents t).

Definition raw_node (t : TwoLevelTree) (order : list Z) (k i : Z) : Node :=
  mkNode (i - raw_begin t k) (at_ order i)
    (if bool_decide (i = 0) then at_ order (Z.of_nat (length order) - 1)
     else at_ order (i - 1))
    (if bool_decide (i + 1 = _n_cities t) then at_ order 0 else at_ order (i + 1))
    k.

Definition raw_parent (t : TwoLevelTree) (order : list Z) (k : Z) : ParentNode :=
  mkParentNode false (raw_end t k - raw_begin t k) k
    (if bool_decide (k > 0) then k - 1 else _n_parents t - 1)
    (if bool_decide (k + 1 < _n_parents t) then k + 1 else 0)
    (at_ order (raw_begin t k)) (at_ order (raw_end t k - 1)).

Definition raw_segments (t : TwoLevelTree) (order : list Z) : list segment :=
  (fun k => (k, at_ order <$> seqZ (raw_begin t k) (raw_end t k - raw_begin t k)))
    <$> seqZ 0 (_n_parents t).

(** ** The trees a client can build

    A call of a public mutator under the preconditions that the source
    asserts or documents, with fuel for every loop to run to completion. *)

Inductive mutation (t t' : TwoLevelTree) : Prop :=
  | mutation_reverse fuel a b :
      is_city_valid t a = true -> is_city_valid t b = true ->
      (Z.to_nat (_n_cities t) < fuel)%nat ->
      reverse fuel t a b = Some t' -> mutation t t'
  | mutation_flip fuel a b c d :
      is_city_valid t a = true -> is_city_valid t c = true ->
      (get_next t a = b /\ get_next t c = d) \/ (get_prev t a = b /\ get_prev t c = d) ->
      (a, b) <> (c, d) ->
      (Z.to_nat (_n_cities t) < fuel)%nat ->
      flip fuel t a b c d = Some t' -> mutation t t'
  | mutation_double_bridge fuel a b c d L1 L2 L3 L4 :
      get_raw_tour t a forward = a :: L1 ++ b :: L2 ++ c :: L3 ++ d :: L4 ->
      NoDup [parent_of t a; parent_of t b; parent_of t c; parent_of t d] ->
      (Z.to_nat (_n_cities t) < fuel)%nat ->
      double_bridge_move fuel t a b c d = Some t' -> mutation t t'
  | mutation_split_and_merge fuel s include_self direction :
      is_city_valid t s = true -> keeps_segment t s include_self direction ->
      (Z.to_nat (_n_cities t) < fuel)%nat ->
      split_and_merge fuel t s include_self direction = Some t' -> mutation t t'.

(** [set_raw_tour] on a fresh tree with a permutation of the cities, followed
    by any sequence of mutations. *)
Inductive reachable : TwoLevelTree -> Prop :=
  | reachable_init n origin order :
      2 <= n -> 0 <= origin -> order ≡ₚ seqZ origin n ->
      reachable (set_raw_tour (new_tree n origin) order)
  | reachable_step t t' : reachable t -> mutation t t' -> reachable t'.

(** ** Frame of the mutators

    The fixed parameters of the tree and the [city] field of every node are
    the same in [t] and [t']. *)
Definition keeps_cities (t t' : TwoLevelTree) : Prop :=
  same_shape t t' /\ forall x, city_of t' x = city_of t x.

(** A three-city tour whose first segment holds a single city. *)
Definition order3 : list Z := [2; 0; 1].
Definition tree3 : TwoLevelTree := set_raw_tour (new_tree 3 0) order3.

(** ** Order of two elements in a list *)

(** [b] occurs in [T] strictly before [c]. *)
Definition before {A} (T : list A) (b c : A) : Prop :=
  exists L1 L2 L3, T = L1 ++ b :: L2 ++ c :: L3.

(** ** Copy construction

    [TwoLevelTree(const TwoLevelTree& other)]: fresh arenas of the sizes of
    [other], the same parameters, and [set_raw_tour(other.get_raw_tour())]. *)
Definition copy_tree (other : TwoLevelTree) : TwoLevelTree :=
  set_raw_tour
    (mkTree (default_arena default_ParentNode (_n_parents other))
            (default_arena default_Node (_n_cities other + _origin_city other))
            (_n_parents other) (_n_cities other) (_origin_city other)
            (_nominal_segment_length other))
    (get_raw_tour other (-1) forward).

#[local] Set Warnings "-clear-no-such-hyp".

(** * Reading after writing *)

Lemma nd_set_nd t x v y : nd (set_nd t x v) y = if decide (y = x) then v else nd t y.
Proof.
  unfold nd, set_nd; simpl. destruct (decide (y = x)) as [->|].
  - by rewrite lookup_insert_eq.
  - by rewrite lookup_insert_ne.
Qed.

Lemma pa_set_nd t x v p : pa (set_nd t x v) p = pa t p.
Proof. reflexivity. Qed.

Lemma pa_set_pa t p v q : pa (set_pa t p v) q = if decide (q = p) then v else pa t q.
Proof.
  unfold pa, set_pa; simpl. destruct (decide (q = p)) as [->|].
  - by rewrite lookup_insert_eq.
  - by rewrite lookup_insert_ne.
Qed.

Lemma nd_set_pa t p v x : nd (set_pa t p v) x = nd t x.
Proof. reflexivity. Qed.

Global Arguments nd : simpl never.
Global Arguments pa : simpl never.
Global Arguments set_nd : simpl never.
Global Arguments set_pa : simpl never.

Ltac unfold_writes :=
  unfold set_fw, set_bw, set_fbegin, set_fend,
    set_n_id, set_n_city, set_n_prev, set_n_next, set_n_parent,
    set_p_reverse, set_p_size, set_p_id, set_p_prev, set_p_next,
    set_segment_begin_node, set_segment_end_node in *.

Ltac rw_state :=
  repeat (rewrite ?nd_set_nd, ?pa_set_nd, ?pa_set_pa, ?nd_set_pa in * ).

Ltac split_if :=
  first
    [ case_decide; simplify_eq
    | match goal with
      | |- context [if ?b then _ else _] => destruct b eqn:?; simplify_eq
      | H : context [if ?b then _ else _] |- _ => destruct b eqn:?; simplify_eq
      end ].

Ltac bf_unfold :=
  unfold connect_arc_forward, link, plink, lid, get_next, get_prev,
    forward_begin_node, forward_end_node,
    backward_begin_node, backward_end_node in *;
  unfold_writes.

Ltac bf :=
  bf_unfold; rw_state; simpl in *;
  repeat (split_if; rw_state; simpl in * );
  try done; try congruence; try lia.

Lemma connect_arc_forward_eq t p q :
  connect_arc_forward t p q = set_bw (set_fw t p q) q p.
Proof. reflexivity. Qed.

(** ** Reads of the logical view after each write *)

Lemma pa_set_fw t x y q :
  pa (set_fw t x y) q = pa t q.
Proof. bf. Qed.

Lemma n_parents_set_fw t x y :
  _n_parents (set_fw t x y) = _n_parents t.
Proof. bf. Qed.

Lemma n_cities_set_fw t x y :
  _n_cities (set_fw t x y) = _n_cities t.
Proof. bf. Qed.

Lemma origin_city_set_fw t x y :
  _origin_city (set_fw t x y) = _origin_city t.
Proof. bf. Qed.

Lemma nominal_segment_length_set_fw t x y :
  _nominal_segment_length (set_fw t x y) = _nominal_segment_length t.
Proof. bf. Qed.

Lemma get_next_set_fw t x y z :
  get_next (set_fw t x y) z = (if decide (z = x) then y else get_next t z).
Proof. bf. Qed.

Lemma get_prev_set_fw t x y z :
  get_prev (set_fw t x y) z = get_prev t z.
Proof. bf. Qed.

Lemma lid_set_fw t x y z :
  lid (set_fw t x y) z = lid t z.
Proof. bf. Qed.

Lemma parent_of_set_fw t x y z :
  parent_of (set_fw t x y) z = parent_of t z.
Proof. bf. Qed.

Lemma id_of_set_fw t x y z :
  id_of (set_fw t x y) z = id_of t z.
Proof. bf. Qed.

Lemma city_of_set_fw t x y z :
  city_of (set_fw t x y) z = city_of t z.
Proof. bf. Qed.

Lemma pa_set_bw t x y q :
  pa (set_bw t x y) q = pa t q.
Proof. bf. Qed.

Lemma n_parents_set_bw t x y :
  _n_parents (set_bw t x y) = _n_parents t.
Proof. bf. Qed.

Lemma n_cities_set_bw t x y :
  _n_cities (set_bw t x y) = _n_cities t.
Proof. bf. Qed.

Lemma origin_city_set_bw t x y :
  _origin_city (set_bw t x y) = _origin_city t.
Proof. bf. Qed.

Lemma nominal_segment_length_set_bw t x y :
  _nominal_segment_length (set_bw t x y) = _nominal_segment_length t.
Proof. bf. Qed.

Lemma get_next_set_bw t x y z :
  get_next (set_bw t x y) z = get_next t z.
Proof. bf. Qed.

Lemma get_prev_set_bw t x y z :
  get_prev (set_bw t x y) z = (if decide (z = x) then y else get_prev t z).
Proof. bf. Qed.

Lemma lid_set_bw t x y z :
  lid (set_bw t x y) z = lid t z.
Proof. bf. Qed.

Lemma parent_of_set_bw t x y z :
  parent_of (set_bw t x y) z = parent_of t z.
Proof. bf. Qed.

Lemma id_of_set_bw t x y z :
  id_of (set_bw t x y) z = id_of t z.
Proof. bf. Qed.

Lemma city_of_set_bw t x y z :
  city_of (set_bw t x y) z = city_of t z.
Proof. bf. Qed.

Lemma pa_connect_arc_forward t x y q :
  pa (connect_arc_forward t x y) q = pa t q.
Proof. bf. Qed.

Lemma n_parents_connect_arc_forward t x y :
  _n_parents (connect_arc_forward t x y) = _n_parents t.
Proof. bf. Qed.

Lemma n_cities_connect_arc_forward t x y :
  _n_cities (connect_arc_forward t x y) = _n_cities t.
Proof. bf. Qed.

Lemma origin_city_connect_arc_forward t x y :
  _origin_city (connect_arc_forward t x y) = _origin_city t.
Proof. bf. Qed.

Lemma nominal_segment_length_connect_arc_forward t x y :
  _nominal_segment_length (connect_arc_forward t x y) = _nominal_segment_length t.
Proof. bf. Qed.

Lemma get_next_connect_arc_forward t x y z :
  get_next (connect_arc_forward t x y) z = (if decide (z = x) then y else get_next t z).
Proof. bf. Qed.

Lemma get_prev_connect_arc_forward t x y z :
  get_prev (connect_arc_forward t x y) z = (if decide (z = y) then x else get_prev t z).
Proof. bf. Qed.

Lemma lid_connect_arc_forward t x y z :
  lid (connect_arc_forward t x y) z = lid t z.
Proof. bf. Qed.

Lemma parent_of_connect_arc_forward t x y z :
  parent_of (connect_arc_forward t x y) z = parent_of t z.
Proof. bf. Qed.

Lemma id_of_connect_arc_forward t x y z :
  id_of (connect_arc_forward t x y) z = id_of t z.
Proof. bf. Qed.

Lemma city_of_connect_arc_forward t x y z :
  city_of (connect_arc_forward t x y) z = city_of t z.
Proof. bf. Qed.

Lemma pa_set_n_id t x v q :
  pa (set_n_id t x v) q = pa t q.
Proof. bf. Qed.

Lemma n_parents_set_n_id t x v :
  _n_parents (set_n_id t x v) = _n_parents t.
Proof. bf. Qed.

Lemma n_cities_set_n_id t x v :
  _n_cities (set_n_id t x v) = _n_cities t.
Proof. bf. Qed.

Lemma origin_city_set_n_id t x v :
  _origin_city (set_n_id t x v) = _origin_city t.
Proof. bf. Qed.

Lemma nominal_segment_length_set_n_id t x v :
  _nominal_segment_length (set_n_id t x v) = _nominal_segment_length t.
Proof. bf. Qed.

Lemma get_next_set_n_id t x v z :
  get_next (set_n_id t x v) z = get_next t z.
Proof. bf. Qed.

Lemma get_prev_set_n_id t x v z :
  get_prev (set_n_id t x v) z = get_prev t z.
Proof. bf. Qed.

Lemma lid_set_n_id t x v z :
  lid (set_n_id t x v) z = (if decide (z = x) then (if rev_of t (parent_of t x) then - v else v) else lid t z).
Proof. bf. Qed.

Lemma parent_of_set_n_id t x v z :
  parent_of (set_n_id t x v) z = parent_of t z.
Proof. bf. Qed.

Lemma id_of_set_n_id t x v z :
  id_of (set_n_id t x v) z = (if decide (z = x) then v else id_of t z).
Proof. bf. Qed.

Lemma city_of_set_n_id t x v z :
  city_of (set_n_id t x v) z = city_of t z.
Proof. bf. Qed.

Lemma next_of_set_n_id t x v z :
  next_of (set_n_id t x v) z = next_of t z.
Proof. bf. Qed.

Lemma prev_of_set_n_id t x v z :
  prev_of (set_n_id t x v) z = prev_of t z.
Proof. bf. Qed.

Lemma pa_set_n_parent t x v q :
  pa (set_n_parent t x v) q = pa t q.
Proof. bf. Qed.

Lemma n_parents_set_n_parent t x v :
  _n_parents (set_n_parent t x v) = _n_parents t.
Proof. bf. Qed.

Lemma n_cities_set_n_parent t x v :
  _n_cities (set_n_parent t x v) = _n_cities t.
Proof. bf. Qed.

Lemma origin_city_set_n_parent t x v :
  _origin_city (set_n_parent t x v) = _origin_city t.
Proof. bf. Qed.

Lemma nominal_segment_length_set_n_parent t x v :
  _nominal_segment_length (set_n_parent t x v) = _nominal_segment_length t.
Proof. bf. Qed.

Lemma get_next_set_n_parent t x v z :
  get_next (set_n_parent t x v) z = (if decide (z = x) then (if rev_of t v then prev_of t x else next_of t x) else get_next t z).
Proof. bf. Qed.

Lemma get_prev_set_n_parent t x v z :
  get_prev (set_n_parent t x v) z = (if decide (z = x) then (if rev_of t v then next_of t x else prev_of t x) else get_prev t z).
Proof. bf. Qed.

Lemma lid_set_n_parent t x v z :
  lid (set_n_parent t x v) z = (if decide (z = x) then (if rev_of t v then - id_of t x else id_of t x) else lid t z).
Proof. bf. Qed.

Lemma parent_of_set_n_parent t x v z :
  parent_of (set_n_parent t x v) z = (if decide (z = x) then v else parent_of t z).
Proof. bf. Qed.

Lemma id_of_set_n_parent t x v z :
  id_of (set_n_parent t x v) z = id_of t z.
Proof. bf. Qed.

Lemma city_of_set_n_parent t x v z :
  city_of (set_n_parent t x v) z = city_of t z.
Proof. bf. Qed.

Lemma next_of_set_n_parent t x v z :
  next_of (set_n_parent t x v) z = next_of t z.
Proof. bf. Qed.

Lemma prev_of_set_n_parent t x v z :
  prev_of (set_n_parent t x v) z = prev_of t z.
Proof. bf. Qed.

Lemma pa_set_n_next t x v q :
  pa (set_n_next t x v) q = pa t q.
Proof. bf. Qed.

Lemma n_parents_set_n_next t x v :
  _n_parents (set_n_next t x v) = _n_parents t.
Proof. bf. Qed.

Lemma n_cities_set_n_next t x v :
  _n_cities (set_n_next t x v) = _n_cities t.
Proof. bf. Qed.

Lemma origin_city_set_n_next t x v :
  _origin_city (set_n_next t x v) = _origin_city t.
Proof. bf. Qed.

Lemma nominal_segment_length_set_n_next t x v :
  _nominal_segment_length (set_n_next t x v) = _nominal_segment_length t.
Proof. bf. Qed.

Lemma get_next_set_n_next t x v z :
  get_next (set_n_next t x v) z = (if decide (z = x) then (if rev_of t (parent_of t x) then prev_of t x else v) else get_next t z).
Proof. bf. Qed.

Lemma get_prev_set_n_next t x v z :
  get_prev (set_n_next t x v) z = (if decide (z = x) then (if rev_of t (parent_of t x) then v else prev_of t x) else get_prev t z).
Proof. bf. Qed.

Lemma lid_set_n_next t x v z :
  lid (set_n_next t x v) z = lid t z.
Proof. bf. Qed.

Lemma parent_of_set_n_next t x v z :
  parent_of (set_n_next t x v) z = parent_of t z.
Proof. bf. Qed.

Lemma id_of_set_n_next t x v z :
  id_of (set_n_next t x v) z = id_of t z.
Proof. bf. Qed.

Lemma city_of_set_n_next t x v z :
  city_of (set_n_next t x v) z = city_of t z.
Proof. bf. Qed.

Lemma next_of_set_n_next t x v z :
  next_of (set_n_next t x v) z = (if decide (z = x) then v else next_of t z).
Proof. bf. Qed.

Lemma prev_of_set_n_next t x v z :
  prev_of (set_n_next t x v) z = prev_of t z.
Proof. bf. Qed.

Lemma pa_set_n_prev t x v q :
  pa (set_n_prev t x v) q = pa t q.
Proof. bf. Qed.

Lemma n_parents_set_n_prev t x v :
  _n_parents (set_n_prev t x v) = _n_parents t.
Proof. bf. Qed.

Lemma n_cities_set_n_prev t x v :
  _n_cities (set_n_prev t x v) = _n_cities t.
Proof. bf. Qed.

Lemma origin_city_set_n_prev t x v :
  _origin_city (set_n_prev t x v) = _origin_city t.
Proof. bf. Qed.

Lemma nominal_segment_length_set_n_prev t x v :
  _nominal_segment_length (set_n_prev t x v) = _nominal_segment_length t.
Proof. bf. Qed.

Lemma get_next_set_n_prev t x v z :
  get_next (set_n_prev t x v) z = (if decide (z = x) then (if rev_of t (parent_of t x) then v else next_of t x) else get_next t z).
Proof. bf. Qed.

Lemma get_prev_set_n_prev t x v z :
  get_prev (set_n_prev t x v) z = (if decide (z = x) then (if rev_of t (parent_of t x) then next_of t x else v) else get_prev t z).
Proof. bf. Qed.

Lemma lid_set_n_prev t x v z :
  lid (set_n_prev t x v) z = lid t z.
Proof. bf. Qed.

Lemma parent_of_set_n_prev t x v z :
  parent_of (set_n_prev t x v) z = parent_of t z.
Proof. bf. Qed.

Lemma id_of_set_n_prev t x v z :
  id_of (set_n_prev t x v) z = id_of t z.
Proof. bf. Qed.

Lemma city_of_set_n_prev t x v z :
  city_of (set_n_prev t x v) z = city_of t z.
Proof. bf. Qed.

Lemma next_of_set_n_prev t x v z :
  next_of (set_n_prev t x v) z = next_of t z.
Proof. bf. Qed.

Lemma prev_of_set_n_prev t x v z :
  prev_of (set_n_prev t x v) z = (if decide (z = x) then v else prev_of t z).
Proof. bf. Qed.

Lemma pa_set_n_city t x v q :
  pa (set_n_city t x v) q = pa t q.
Proof. bf. Qed.

Lemma n_parents_set_n_city t x v :
  _n_parents (set_n_city t x v) = _n_parents t.
Proof. bf. Qed.

Lemma n_cities_set_n_city t x v :
  _n_cities (set_n_city t x v) = _n_cities t.
Proof. bf. Qed.

Lemma origin_city_set_n_city t x v :
  _origin_city (set_n_city t x v) = _origin_city t.
Proof. bf. Qed.

Lemma nominal_segment_length_set_n_city t x v :
  _nominal_segment_length (set_n_city t x v) = _nominal_segment_length t.
Proof. bf. Qed.

Lemma get_next_set_n_city t x v z :
  get_next (set_n_city t x v) z = get_next t z.
Proof. bf. Qed.

Lemma get_prev_set_n_city t x v z :
  get_prev (set_n_city t x v) z = get_prev t z.
Proof. bf. Qed.

Lemma lid_set_n_city t x v z :
  lid (set_n_city t x v) z = lid t z.
Proof. bf. Qed.

Lemma parent_of_set_n_city t x v z :
  parent_of (set_n_city t x v) z = parent_of t z.
Proof. bf. Qed.

Lemma id_of_set_n_city t x v z :
  id_of (set_n_city t x v) z = id_of t z.
Proof. bf. Qed.

Lemma city_of_set_n_city t x v z :
  city_of (set_n_city t x v) z = (if decide (z = x) then v else city_of t z).
Proof. bf. Qed.

Lemma next_of_set_n_city t x v z :
  next_of (set_n_city t x v) z = next_of t z.
Proof. bf. Qed.

Lemma prev_of_set_n_city t x v z :
  prev_of (set_n_city t x v) z = prev_of t z.
Proof. bf. Qed.

Lemma nd_set_p_size t p v z :
  nd (set_p_size t p v) z = nd t z.
Proof. bf. Qed.

Lemma n_parents_set_p_size t p v :
  _n_parents (set_p_size t p v) = _n_parents t.
Proof. bf. Qed.

Lemma n_cities_set_p_size t p v :
  _n_cities (set_p_size t p v) = _n_cities t.
Proof. bf. Qed.

Lemma origin_city_set_p_size t p v :
  _origin_city (set_p_size t p v) = _origin_city t.
Proof. bf. Qed.

Lemma nominal_segment_length_set_p_size t p v :
  _nominal_segment_length (set_p_size t p v) = _nominal_segment_length t.
Proof. bf. Qed.

Lemma rev_of_set_p_size t p v q :
  rev_of (set_p_size t p v) q = rev_of t q.
Proof. bf. Qed.

Lemma size_of_set_p_size t p v q :
  size_of (set_p_size t p v) q = (if decide (q = p) then v else size_of t q).
Proof. bf. Qed.

Lemma pid_of_set_p_size t p v q :
  pid_of (set_p_size t p v) q = pid_of t q.
Proof. bf. Qed.

Lemma pprev_of_set_p_size t p v q :
  pprev_of (set_p_size t p v) q = pprev_of t q.
Proof. bf. Qed.

Lemma pnext_of_set_p_size t p v q :
  pnext_of (set_p_size t p v) q = pnext_of t q.
Proof. bf. Qed.

Lemma begin_of_set_p_size t p v q :
  begin_of (set_p_size t p v) q = begin_of t q.
Proof. bf. Qed.

Lemma end_of_set_p_size t p v q :
  end_of (set_p_size t p v) q = end_of t q.
Proof. bf. Qed.

Lemma fbegin_of_set_p_size t p v q :
  fbegin_of (set_p_size t p v) q = fbegin_of t q.
Proof. bf. Qed.

Lemma fend_of_set_p_size t p v q :
  fend_of (set_p_size t p v) q = fend_of t q.
Proof. bf. Qed.

Lemma get_next_set_p_size t p v z :
  get_next (set_p_size t p v) z = get_next t z.
Proof. bf. Qed.

Lemma get_prev_set_p_size t p v z :
  get_prev (set_p_size t p v) z = get_prev t z.
Proof. bf. Qed.

Lemma lid_set_p_size t p v z :
  lid (set_p_size t p v) z = lid t z.
Proof. bf. Qed.

Lemma nd_set_p_id t p v z :
  nd (set_p_id t p v) z = nd t z.
Proof. bf. Qed.

Lemma n_parents_set_p_id t p v :
  _n_parents (set_p_id t p v) = _n_parents t.
Proof. bf. Qed.

Lemma n_cities_set_p_id t p v :
  _n_cities (set_p_id t p v) = _n_cities t.
Proof. bf. Qed.

Lemma origin_city_set_p_id t p v :
  _origin_city (set_p_id t p v) = _origin_city t.
Proof. bf. Qed.

Lemma nominal_segment_length_set_p_id t p v :
  _nominal_segment_length (set_p_id t p v) = _nominal_segment_length t.
Proof. bf. Qed.

Lemma rev_of_set_p_id t p v q :
  rev_of (set_p_id t p v) q = rev_of t q.
Proof. bf. Qed.

Lemma size_of_set_p_id t p v q :
  size_of (set_p_id t p v) q = size_of t q.
Proof. bf. Qed.

Lemma pid_of_set_p_id t p v q :
  pid_of (set_p_id t p v) q = (if decide (q = p) then v else pid_of t q).
Proof. bf. Qed.

Lemma pprev_of_set_p_id t p v q :
  pprev_of (set_p_id t p v) q = pprev_of t q.
Proof. bf. Qed.

Lemma pnext_of_set_p_id t p v q :
  pnext_of (set_p_id t p v) q = pnext_of t q.
Proof. bf. Qed.

Lemma begin_of_set_p_id t p v q :
  begin_of (set_p_id t p v) q = begin_of t q.
Proof. bf. Qed.

Lemma end_of_set_p_id t p v q :
  end_of (set_p_id t p v) q = end_of t q.
Proof. bf. Qed.

Lemma fbegin_of_set_p_id t p v q :
  fbegin_of (set_p_id t p v) q = fbegin_of t q.
Proof. bf. Qed.

Lemma fend_of_set_p_id t p v q :
  fend_of (set_p_id t p v) q = fend_of t q.
Proof. bf. Qed.

Lemma get_next_set_p_id t p v z :
  get_next (set_p_id t p v) z = get_next t z.
Proof. bf. Qed.

Lemma get_prev_set_p_id t p v z :
  get_prev (set_p_id t p v) z = get_prev t z.
Proof. bf. Qed.

Lemma lid_set_p_id t p v z :
  lid (set_p_id t p v) z = lid t z.
Proof. bf. Qed.

Lemma nd_set_p_prev t p v z :
  nd (set_p_prev t p v) z = nd t z.
Proof. bf. Qed.

Lemma n_parents_set_p_prev t p v :
  _n_parents (set_p_prev t p v) = _n_parents t.
Proof. bf. Qed.

Lemma n_cities_set_p_prev t p v :
  _n_cities (set_p_prev t p v) = _n_cities t.
Proof. bf. Qed.

Lemma origin_city_set_p_prev t p v :
  _origin_city (set_p_prev t p v) = _origin_city t.
Proof. bf. Qed.

Lemma nominal_segment_length_set_p_prev t p v :
  _nominal_segment_length (set_p_prev t p v) = _nominal_segment_length t.
Proof. bf. Qed.

Lemma rev_of_set_p_prev t p v q :
  rev_of (set_p_prev t p v) q = rev_of t q.
Proof. bf. Qed.

Lemma size_of_set_p_prev t p v q :
  size_of (set_p_prev t p v) q = size_of t q.
Proof. bf. Qed.

Lemma pid_of_set_p_prev t p v q :
  pid_of (set_p_prev t p v) q = pid_of t q.
Proof. bf. Qed.

Lemma pprev_of_set_p_prev t p v q :
  pprev_of (set_p_prev t p v) q = (if decide (q = p) then v else pprev_of t q).
Proof. bf. Qed.

Lemma pnext_of_set_p_prev t p v q :
  pnext_of (set_p_prev t p v) q = pnext_of t q.
Proof. bf. Qed.

Lemma begin_of_set_p_prev t p v q :
  begin_of (set_p_prev t p v) q = begin_of t q.
Proof. bf. Qed.

Lemma end_of_set_p_prev t p v q :
  end_of (set_p_prev t p v) q = end_of t q.
Proof. bf. Qed.

Lemma fbegin_of_set_p_prev t p v q :
  fbegin_of (set_p_prev t p v) q = fbegin_of t q.
Proof. bf. Qed.

Lemma fend_of_set_p_prev t p v q :
  fend_of (set_p_prev t p v) q = fend_of t q.
Proof. bf. Qed.

Lemma get_next_set_p_prev t p v z :
  get_next (set_p_prev t p v) z = get_next t z.
Proof. bf. Qed.

Lemma get_prev_set_p_prev t p v z :
  get_prev (set_p_prev t p v) z = get_prev t z.
Proof. bf. Qed.

Lemma lid_set_p_prev t p v z :
  lid (set_p_prev t p v) z = lid t z.
Proof. bf. Qed.

Lemma nd_set_p_next t p v z :
  nd (set_p_next t p v) z = nd t z.
Proof. bf. Qed.

Lemma n_parents_set_p_next t p v :
  _n_parents (set_p_next t p v) = _n_parents t.
Proof. bf. Qed.

Lemma n_cities_set_p_next t p v :
  _n_cities (set_p_next t p v) = _n_cities t.
Proof. bf. Qed.

Lemma origin_city_set_p_next t p v :
  _origin_city (set_p_next t p v) = _origin_city t.
Proof. bf. Qed.

Lemma nominal_segment_length_set_p_next t p v :
  _nominal_segment_length (set_p_next t p v) = _nominal_segment_length t.
Proof. bf. Qed.

Lemma rev_of_set_p_next t p v q :
  rev_of (set_p_next t p v) q = rev_of t q.
Proof. bf. Qed.

Lemma size_of_set_p_next t p v q :
  size_of (set_p_next t p v) q = size_of t q.
Proof. bf. Qed.

Lemma pid_of_set_p_next t p v q :
  pid_of (set_p_next t p v) q = pid_of t q.
Proof. bf. Qed.

Lemma pprev_of_set_p_next t p v q :
  pprev_of (set_p_next t p v) q = pprev_of t q.
Proof. bf. Qed.

Lemma pnext_of_set_p_next t p v q :
  pnext_of (set_p_next t p v) q = (if decide (q = p) then v else pnext_of t q).
Proof. bf. Qed.

Lemma begin_of_set_p_next t p v q :
  begin_of (set_p_next t p v) q = begin_of t q.
Proof. bf. Qed.

Lemma end_of_set_p_next t p v q :
  end_of (set_p_next t p v) q = end_of t q.
Proof. bf. Qed.

Lemma fbegin_of_set_p_next t p v q :
  fbegin_of (set_p_next t p v) q = fbegin_of t q.
Proof. bf. Qed.

Lemma fend_of_set_p_next t p v q :
  fend_of (set_p_next t p v) q = fend_of t q.
Proof. bf. Qed.

Lemma get_next_set_p_next t p v z :
  get_next (set_p_next t p v) z = get_next t z.
Proof. bf. Qed.

Lemma get_prev_set_p_next t p v z :
  get_prev (set_p_next t p v) z = get_prev t z.
Proof. bf. Qed.

Lemma lid_set_p_next t p v z :
  lid (set_p_next t p v) z = lid t z.
Proof. bf. Qed.

Lemma nd_set_segment_begin_node t p v z :
  nd (set_segment_begin_node t p v) z = nd t z.
Proof. bf. Qed.

Lemma n_parents_set_segment_begin_node t p v :
  _n_parents (set_segment_begin_node t p v) = _n_parents t.
Proof. bf. Qed.

Lemma n_cities_set_segment_begin_node t p v :
  _n_cities (set_segment_begin_node t p v) = _n_cities t.
Proof. bf. Qed.

Lemma origin_city_set_segment_begin_node t p v :
  _origin_city (set_segment_begin_node t p v) = _origin_city t.
Proof. bf. Qed.

Lemma nominal_segment_length_set_segment_begin_node t p v :
  _nominal_segment_length (set_segment_begin_node t p v) = _nominal_segment_length t.
Proof. bf. Qed.

Lemma rev_of_set_segment_begin_node t p v q :
  rev_of (set_segment_begin_node t p v) q = rev_of t q.
Proof. bf. Qed.

Lemma size_of_set_segment_begin_node t p v q :
  size_of (set_segment_begin_node t p v) q = size_of t q.
Proof. bf. Qed.

Lemma pid_of_set_segment_begin_node t p v q :
  pid_of (set_segment_begin_node t p v) q = pid_of t q.
Proof. bf. Qed.

Lemma pprev_of_set_segment_begin_node t p v q :
  pprev_of (set_segment_begin_node t p v) q = pprev_of t q.
Proof. bf. Qed.

Lemma pnext_of_set_segment_begin_node t p v q :
  pnext_of (set_segment_begin_node t p v) q = pnext_of t q.
Proof. bf. Qed.

Lemma begin_of_set_segment_begin_node t p v q :
  begin_of (set_segment_begin_node t p v) q = (if decide (q = p) then v else begin_of t q).
Proof. bf. Qed.

Lemma end_of_set_segment_begin_node t p v q :
  end_of (set_segment_begin_node t p v) q = end_of t q.
Proof. bf. Qed.

Lemma fbegin_of_set_segment_begin_node t p v q :
  fbegin_of (set_segment_begin_node t p v) q = (if decide (q = p) then (if rev_of t p then end_of t p else v) else fbegin_of t q).
Proof. bf. Qed.

Lemma fend_of_set_segment_begin_node t p v q :
  fend_of (set_segment_begin_node t p v) q = (if decide (q = p) then (if rev_of t p then v else end_of t p) else fend_of t q).
Proof. bf. Qed.

Lemma get_next_set_segment_begin_node t p v z :
  get_next (set_segment_begin_node t p v) z = get_next t z.
Proof. bf. Qed.

Lemma get_prev_set_segment_begin_node t p v z :
  get_prev (set_segment_begin_node t p v) z = get_prev t z.
Proof. bf. Qed.

Lemma lid_set_segment_begin_node t p v z :
  lid (set_segment_begin_node t p v) z = lid t z.
Proof. bf. Qed.

Lemma nd_set_segment_end_node t p v z :
  nd (set_segment_end_node t p v) z = nd t z.
Proof. bf. Qed.

Lemma n_parents_set_segment_end_node t p v :
  _n_parents (set_segment_end_node t p v) = _n_parents t.
Proof. bf. Qed.

Lemma n_cities_set_segment_end_node t p v :
  _n_cities (set_segment_end_node t p v) = _n_cities t.
Proof. bf. Qed.

Lemma origin_city_set_segment_end_node t p v :
  _origin_city (set_segment_end_node t p v) = _origin_city t.
Proof. bf. Qed.

Lemma nominal_segment_length_set_segment_end_node t p v :
  _nominal_segment_length (set_segment_end_node t p v) = _nominal_segment_length t.
Proof. bf. Qed.

Lemma rev_of_set_segment_end_node t p v q :
  rev_of (set_segment_end_node t p v) q = rev_of t q.
Proof. bf. Qed.

Lemma size_of_set_segment_end_node t p v q :
  size_of (set_segment_end_node t p v) q = size_of t q.
Proof. bf. Qed.

Lemma pid_of_set_segment_end_node t p v q :
  pid_of (set_segment_end_node t p v) q = pid_of t q.
Proof. bf. Qed.

Lemma pprev_of_set_segment_end_node t p v q :
  pprev_of (set_segment_end_node t p v) q = pprev_of t q.
Proof. bf. Qed.

Lemma pnext_of_set_segment_end_node t p v q :
  pnext_of (set_segment_end_node t p v) q = pnext_of t q.
Proof. bf. Qed.

Lemma begin_of_set_segment_end_node t p v q :
  begin_of (set_segment_end_node t p v) q = begin_of t q.
Proof. bf. Qed.

Lemma end_of_set_segment_end_node t p v q :
  end_of (set_segment_end_node t p v) q = (if decide (q = p) then v else end_of t q).
Proof. bf. Qed.

Lemma fbegin_of_set_segment_end_node t p v q :
  fbegin_of (set_segment_end_node t p v) q = (if decide (q = p) then (if rev_of t p then v else begin_of t p) else fbegin_of t q).
Proof. bf. Qed.

Lemma fend_of_set_segment_end_node t p v q :
  fend_of (set_segment_end_node t p v) q = (if decide (q = p) then (if rev_of t p then begin_of t p else v) else fend_of t q).
Proof. bf. Qed.

Lemma get_next_set_segment_end_node t p v z :
  get_next (set_segment_end_node t p v) z = get_next t z.
Proof. bf. Qed.

Lemma get_prev_set_segment_end_node t p v z :
  get_prev (set_segment_end_node t p v) z = get_prev t z.
Proof. bf. Qed.

Lemma lid_set_segment_end_node t p v z :
  lid (set_segment_end_node t p v) z = lid t z.
Proof. bf. Qed.

Lemma nd_set_fbegin t p v z :
  nd (set_fbegin t p v) z = nd t z.
Proof. bf. Qed.

Lemma n_parents_set_fbegin t p v :
  _n_parents (set_fbegin t p v) = _n_parents t.
Proof. bf. Qed.

Lemma n_cities_set_fbegin t p v :
  _n_cities (set_fbegin t p v) = _n_cities t.
Proof. bf. Qed.

Lemma origin_city_set_fbegin t p v :
  _origin_city (set_fbegin t p v) = _origin_city t.
Proof. bf. Qed.

Lemma nominal_segment_length_set_fbegin t p v :
  _nominal_segment_length (set_fbegin t p v) = _nominal_segment_length t.
Proof. bf. Qed.

Lemma rev_of_set_fbegin t p v q :
  rev_of (set_fbegin t p v) q = rev_of t q.
Proof. bf. Qed.

Lemma size_of_set_fbegin t p v q :
  size_of (set_fbegin t p v) q = size_of t q.
Proof. bf. Qed.

Lemma pid_of_set_fbegin t p v q :
  pid_of (set_fbegin t p v) q = pid_of t q.
Proof. bf. Qed.

Lemma pprev_of_set_fbegin t p v q :
  pprev_of (set_fbegin t p v) q = pprev_of t q.
Proof. bf. Qed.

Lemma pnext_of_set_fbegin t p v q :
  pnext_of (set_fbegin t p v) q = pnext_of t q.
Proof. bf. Qed.

Lemma begin_of_set_fbegin t p v q :
  begin_of (set_fbegin t p v) q = (if decide (q = p) then (if rev_of t p then begin_of t p else v) else begin_of t q).
Proof. bf. Qed.

Lemma end_of_set_fbegin t p v q :
  end_of (set_fbegin t p v) q = (if decide (q = p) then (if rev_of t p then v else end_of t p) else end_of t q).
Proof. bf. Qed.

Lemma fbegin_of_set_fbegin t p v q :
  fbegin_of (set_fbegin t p v) q = (if decide (q = p) then v else fbegin_of t q).
Proof. bf. Qed.

Lemma fend_of_set_fbegin t p v q :
  fend_of (set_fbegin t p v) q = fend_of t q.
Proof. bf. Qed.

Lemma get_next_set_fbegin t p v z :
  get_next (set_fbegin t p v) z = get_next t z.
Proof. bf. Qed.

Lemma get_prev_set_fbegin t p v z :
  get_prev (set_fbegin t p v) z = get_prev t z.
Proof. bf. Qed.

Lemma lid_set_fbegin t p v z :
  lid (set_fbegin t p v) z = lid t z.
Proof. bf. Qed.

Lemma nd_set_fend t p v z :
  nd (set_fend t p v) z = nd t z.
Proof. bf. Qed.

Lemma n_parents_set_fend t p v :
  _n_parents (set_fend t p v) = _n_parents t.
Proof. bf. Qed.

Lemma n_cities_set_fend t p v :
  _n_cities (set_fend t p v) = _n_cities t.
Proof. bf. Qed.

Lemma origin_city_set_fend t p v :
  _origin_city (set_fend t p v) = _origin_city t.
Proof. bf. Qed.

Lemma nominal_segment_length_set_fend t p v :
  _nominal_segment_length (set_fend t p v) = _nominal_segment_length t.
Proof. bf. Qed.

Lemma rev_of_set_fend t p v q :
  rev_of (set_fend t p v) q = rev_of t q.
Proof. bf. Qed.

Lemma size_of_set_fend t p v q :
  size_of (set_fend t p v) q = size_of t q.
Proof. bf. Qed.

Lemma pid_of_set_fend t p v q :
  pid_of (set_fend t p v) q = pid_of t q.
Proof. bf. Qed.

Lemma pprev_of_set_fend t p v q :
  pprev_of (set_fend t p v) q = pprev_of t q.
Proof. bf. Qed.

Lemma pnext_of_set_fend t p v q :
  pnext_of (set_fend t p v) q = pnext_of t q.
Proof. bf. Qed.

Lemma begin_of_set_fend t p v q :
  begin_of (set_fend t p v) q = (if decide (q = p) then (if rev_of t p then v else begin_of t p) else begin_of t q).
Proof. bf. Qed.

Lemma end_of_set_fend t p v q :
  end_of (set_fend t p v) q = (if decide (q = p) then (if rev_of t p then end_of t p else v) else end_of t q).
Proof. bf. Qed.

Lemma fbegin_of_set_fend t p v q :
  fbegin_of (set_fend t p v) q = fbegin_of t q.
Proof. bf. Qed.

Lemma fend_of_set_fend t p v q :
  fend_of (set_fend t p v) q = (if decide (q = p) then v else fend_of t q).
Proof. bf. Qed.

Lemma get_next_set_fend t p v z :
  get_next (set_fend t p v) z = get_next t z.
Proof. bf. Qed.

Lemma get_prev_set_fend t p v z :
  get_prev (set_fend t p v) z = get_prev t z.
Proof. bf. Qed.

Lemma lid_set_fend t p v z :
  lid (set_fend t p v) z = lid t z.
Proof. bf. Qed.

Lemma nd_set_p_reverse t p v z :
  nd (set_p_reverse t p v) z = nd t z.
Proof. bf. Qed.

Lemma n_parents_set_p_reverse t p v :
  _n_parents (set_p_reverse t p v) = _n_parents t.
Proof. bf. Qed.

Lemma n_cities_set_p_reverse t p v :
  _n_cities (set_p_reverse t p v) = _n_cities t.
Proof. bf. Qed.

Lemma origin_city_set_p_reverse t p v :
  _origin_city (set_p_reverse t p v) = _origin_city t.
Proof. bf. Qed.

Lemma nominal_segment_length_set_p_reverse t p v :
  _nominal_segment_length (set_p_reverse t p v) = _nominal_segment_length t.
Proof. bf. Qed.

Lemma rev_of_set_p_reverse t p v q :
  rev_of (set_p_reverse t p v) q = (if decide (q = p) then v else rev_of t q).
Proof. bf. Qed.

Lemma size_of_set_p_reverse t p v q :
  size_of (set_p_reverse t p v) q = size_of t q.
Proof. bf. Qed.

Lemma pid_of_set_p_reverse t p v q :
  pid_of (set_p_reverse t p v) q = pid_of t q.
Proof. bf. Qed.

Lemma pprev_of_set_p_reverse t p v q :
  pprev_of (set_p_reverse t p v) q = pprev_of t q.
Proof. bf. Qed.

Lemma pnext_of_set_p_reverse t p v q :
  pnext_of (set_p_reverse t p v) q = pnext_of t q.
Proof. bf. Qed.

Lemma begin_of_set_p_reverse t p v q :
  begin_of (set_p_reverse t p v) q = begin_of t q.
Proof. bf. Qed.

Lemma end_of_set_p_reverse t p v q :
  end_of (set_p_reverse t p v) q = end_of t q.
Proof. bf. Qed.

Lemma fbegin_of_set_p_reverse t p v q :
  fbegin_of (set_p_reverse t p v) q = (if decide (q = p) then (if v then end_of t p else begin_of t p) else fbegin_of t q).
Proof. bf. Qed.

Lemma fend_of_set_p_reverse t p v q :
  fend_of (set_p_reverse t p v) q = (if decide (q = p) then (if v then begin_of t p else end_of t p) else fend_of t q).
Proof. bf. Qed.

Lemma get_next_set_p_reverse t p v z :
  get_next (set_p_reverse t p v) z = (if decide (parent_of t z = p) then (if v then prev_of t z else next_of t z) else get_next t z).
Proof. bf. Qed.

Lemma get_prev_set_p_reverse t p v z :
  get_prev (set_p_reverse t p v) z = (if decide (parent_of t z = p) then (if v then next_of t z else prev_of t z) else get_prev t z).
Proof. bf. Qed.

Lemma lid_set_p_reverse t p v z :
  lid (set_p_reverse t p v) z = (if decide (parent_of t z = p) then (if v then - id_of t z else id_of t z) else lid t z).
Proof. bf. Qed.

Create HintDb tlt.

#[export] Hint Rewrite
  pa_set_fw n_parents_set_fw n_cities_set_fw origin_city_set_fw nominal_segment_length_set_fw get_next_set_fw
  get_prev_set_fw lid_set_fw parent_of_set_fw id_of_set_fw city_of_set_fw pa_set_bw
  n_parents_set_bw n_cities_set_bw origin_city_set_bw nominal_segment_length_set_bw get_next_set_bw get_prev_set_bw
  lid_set_bw parent_of_set_bw id_of_set_bw city_of_set_bw pa_connect_arc_forward n_parents_connect_arc_forward
  n_cities_connect_arc_forward origin_city_connect_arc_forward nominal_segment_length_connect_arc_forward get_next_connect_arc_forward get_prev_connect_arc_forward lid_connect_arc_forward
  parent_of_connect_arc_forward id_of_connect_arc_forward city_of_connect_arc_forward pa_set_n_id n_parents_set_n_id n_cities_set_n_id
  origin_city_set_n_id nominal_segment_length_set_n_id get_next_set_n_id get_prev_set_n_id lid_set_n_id parent_of_set_n_id
  id_of_set_n_id city_of_set_n_id next_of_set_n_id prev_of_set_n_id pa_set_n_parent n_parents_set_n_parent
  n_cities_set_n_parent origin_city_set_n_parent nominal_segment_length_set_n_parent get_next_set_n_parent get_prev_set_n_parent lid_set_n_parent
  parent_of_set_n_parent id_of_set_n_parent city_of_set_n_parent next_of_set_n_parent prev_of_set_n_parent pa_set_n_next
  n_parents_set_n_next n_cities_set_n_next origin_city_set_n_next nominal_segment_length_set_n_next get_next_set_n_next get_prev_set_n_next
  lid_set_n_next parent_of_set_n_next id_of_set_n_next city_of_set_n_next next_of_set_n_next prev_of_set_n_next
  pa_set_n_prev n_parents_set_n_prev n_cities_set_n_prev origin_city_set_n_prev nominal_segment_length_set_n_prev get_next_set_n_prev
  get_prev_set_n_prev lid_set_n_prev parent_of_set_n_prev id_of_set_n_prev city_of_set_n_prev next_of_set_n_prev
  prev_of_set_n_prev pa_set_n_city n_parents_set_n_city n_cities_set_n_city origin_city_set_n_city nominal_segment_length_set_n_city
  get_next_set_n_city get_prev_set_n_city lid_set_n_city parent_of_set_n_city id_of_set_n_city city_of_set_n_city
  next_of_set_n_city prev_of_set_n_city nd_set_p_size n_parents_set_p_size n_cities_set_p_size origin_city_set_p_size
  nominal_segment_length_set_p_size rev_of_set_p_size size_of_set_p_size pid_of_set_p_size pprev_of_set_p_size pnext_of_set_p_size
  begin_of_set_p_size end_of_set_p_size fbegin_of_set_p_size fend_of_set_p_size get_next_set_p_size get_prev_set_p_size
  lid_set_p_size nd_set_p_id n_parents_set_p_id n_cities_set_p_id origin_city_set_p_id nominal_segment_length_set_p_id
  rev_of_set_p_id size_of_set_p_id pid_of_set_p_id pprev_of_set_p_id pnext_of_set_p_id begin_of_set_p_id
  end_of_set_p_id fbegin_of_set_p_id fend_of_set_p_id get_next_set_p_id get_prev_set_p_id lid_set_p_id
  nd_set_p_prev n_parents_set_p_prev n_cities_set_p_prev origin_city_set_p_prev nominal_segment_length_set_p_prev rev_of_set_p_prev
  size_of_set_p_prev pid_of_set_p_prev pprev_of_set_p_prev pnext_of_set_p_prev begin_of_set_p_prev end_of_set_p_prev
  fbegin_of_set_p_prev fend_of_set_p_prev get_next_set_p_prev get_prev_set_p_prev lid_set_p_prev nd_set_p_next
  n_parents_set_p_next n_cities_set_p_next origin_city_set_p_next nominal_segment_length_set_p_next rev_of_set_p_next size_of_set_p_next
  pid_of_set_p_next pprev_of_set_p_next pnext_of_set_p_next begin_of_set_p_next end_of_set_p_next fbegin_of_set_p_next
  fend_of_set_p_next get_next_set_p_next get_prev_set_p_next lid_set_p_next nd_set_segment_begin_node n_parents_set_segment_begin_node
  n_cities_set_segment_begin_node origin_city_set_segment_begin_node nominal_segment_length_set_segment_begin_node rev_of_set_segment_begin_node size_of_set_segment_begin_node pid_of_set_segment_begin_node
  pprev_of_set_segment_begin_node pnext_of_set_segment_begin_node begin_of_set_segment_begin_node end_of_set_segment_begin_node fbegin_of_set_segment_begin_node fend_of_set_segment_begin_node
  get_next_set_segment_begin_node get_prev_set_segment_begin_node lid_set_segment_begin_node nd_set_segment_end_node n_parents_set_segment_end_node n_cities_set_segment_end_node
  origin_city_set_segment_end_node nominal_segment_length_set_segment_end_node rev_of_set_segment_end_node size_of_set_segment_end_node pid_of_set_segment_end_node pprev_of_set_segment_end_node
  pnext_of_set_segment_end_node begin_of_set_segment_end_node end_of_set_segment_end_node fbegin_of_set_segment_end_node fend_of_set_segment_end_node get_next_set_segment_end_node
  get_prev_set_segment_end_node lid_set_segment_end_node nd_set_fbegin n_parents_set_fbegin n_cities_set_fbegin origin_city_set_fbegin
  nominal_segment_length_set_fbegin rev_of_set_fbegin size_of_set_fbegin pid_of_set_fbegin pprev_of_set_fbegin pnext_of_set_fbegin
  begin_of_set_fbegin end_of_set_fbegin fbegin_of_set_fbegin fend_of_set_fbegin get_next_set_fbegin get_prev_set_fbegin
  lid_set_fbegin nd_set_fend n_parents_set_fend n_cities_set_fend origin_city_set_fend nominal_segment_length_set_fend
  rev_of_set_fend size_of_set_fend pid_of_set_fend pprev_of_set_fend pnext_of_set_fend begin_of_set_fend
  end_of_set_fend fbegin_of_set_fend fend_of_set_fend get_next_set_fend get_prev_set_fend lid_set_fend
  nd_set_p_reverse n_parents_set_p_reverse n_cities_set_p_reverse origin_city_set_p_reverse nominal_segment_length_set_p_reverse rev_of_set_p_reverse
  size_of_set_p_reverse pid_of_set_p_reverse pprev_of_set_p_reverse pnext_of_set_p_reverse begin_of_set_p_reverse end_of_set_p_reverse
  fbegin_of_set_p_reverse fend_of_set_p_reverse get_next_set_p_reverse get_prev_set_p_reverse lid_set_p_reverse
  : tlt.

(** ** Node writes leave the other nodes alone *)

Lemma nd_set_n_id_ne t x v y : y <> x -> nd (set_n_id t x v) y = nd t y.
Proof. intros. bf. Qed.

Lemma nd_set_n_city_ne t x v y : y <> x -> nd (set_n_city t x v) y = nd t y.
Proof. intros. bf. Qed.

Lemma nd_set_n_prev_ne t x v y : y <> x -> nd (set_n_prev t x v) y = nd t y.
Proof. intros. bf. Qed.

Lemma nd_set_n_next_ne t x v y : y <> x -> nd (set_n_next t x v) y = nd t y.
Proof. intros. bf. Qed.

Lemma nd_set_n_parent_ne t x v y : y <> x -> nd (set_n_parent t x v) y = nd t y.
Proof. intros. bf. Qed.

Lemma nd_set_fw_ne t x v y : y <> x -> nd (set_fw t x v) y = nd t y.
Proof. intros. unfold set_fw. destruct (rev_of t (parent_of t x)); bf. Qed.

Lemma nd_set_bw_ne t x v y : y <> x -> nd (set_bw t x v) y = nd t y.
Proof. intros. unfold set_bw. destruct (rev_of t (parent_of t x)); bf. Qed.

Lemma nd_connect_arc_forward_ne t p q y :
  y <> p -> y <> q -> nd (connect_arc_forward t p q) y = nd t y.
Proof.
  intros. rewrite connect_arc_forward_eq.
  by rewrite nd_set_bw_ne, nd_set_fw_ne.
Qed.

(** * Chains *)

Section chain.
Context {A : Type}.
Implicit Types (R : A -> A -> Prop) (l : list A).

Lemma chain_nil R : chain R [].
Proof. exact I. Qed.

Lemma chain_singleton R x : chain R [x].
Proof. exact I. Qed.

Lemma chain_cons R x y l : chain R (x :: y :: l) <-> R x y /\ chain R (y :: l).
Proof. reflexivity. Qed.

Lemma chain_cons_head R a l :
  chain R (a :: l) <-> chain R l /\ (forall x, head l = Some x -> R a x).
Proof.
  destruct l as [|b l].
  - split; [|done]. intros _. split; [done|]. by intros.
  - rewrite chain_cons. split.
    + intros [Hab Hc]. split; [done|]. by intros ? [= <-].
    + intros [Hc Hab]. split; [|done]. by apply Hab.
Qed.

Global Arguments chain : simpl never.
Global Arguments cchain : simpl never.

Lemma chain_tail R x l : chain R (x :: l) -> chain R l.
Proof. rewrite chain_cons_head. tauto. Qed.

Lemma chain_app R l1 l2 :
  chain R (l1 ++ l2) <->
  chain R l1 /\ chain R l2 /\
  (forall x y, last l1 = Some x -> head l2 = Some y -> R x y).
Proof.
  induction l1 as [|a l1 IH].
  - simpl. split; [|tauto]. intros Hc. split_and!; [apply chain_nil|done|done].
  - simpl. rewrite !chain_cons_head, IH. clear IH. split.
    + intros ((H1 & H2 & H3) & H4). split_and!; try done.
      * intros x Hx. apply H4. destruct l1; [done|]. simpl in *. done.
      * intros x y Hl Hh. destruct l1 as [|b l1].
        -- simpl in *. simplify_eq. by apply H4.
        -- rewrite last_cons_cons in Hl. by apply H3.
    + intros ((H1 & H2) & H3 & H4). split_and!; try done.
      * intros x y Hl Hh. apply H4; [|done].
        destruct l1; [done|]. by rewrite last_cons_cons.
      * intros x Hx. destruct l1 as [|b l1]; simpl in *.
        -- by apply H4.
        -- by apply H2.
Qed.

Lemma chain_app_l R l1 l2 : chain R (l1 ++ l2) -> chain R l1.
Proof. rewrite chain_app. tauto. Qed.

Lemma chain_app_r R l1 l2 : chain R (l1 ++ l2) -> chain R l2.
Proof. rewrite chain_app. tauto. Qed.

Lemma chain_elem R l1 x y l2 : chain R (l1 ++ x :: y :: l2) -> R x y.
Proof. intros Hc%chain_app_r. by apply chain_cons in Hc as [? _]. Qed.

Lemma chain_snoc_last R l a :
  chain R (l ++ [a]) <-> chain R l /\ (forall x, last l = Some x -> R x a).
Proof.
  rewrite chain_app. split.
  - intros (Hc & _ & Hj). split; [done|]. intros x Hx. by apply Hj.
  - intros [Hc Hj]. split_and!; [done|exact I|]. intros x y Hx [= <-]. by apply Hj.
Qed.

Lemma chain_join R l1 x l2 :
  chain R (l1 ++ [x]) -> chain R (x :: l2) -> chain R (l1 ++ x :: l2).
Proof.
  rewrite !chain_app. intros (Ha & _ & Hj) Hb. split_and!; done.
Qed.

Lemma chain_mono_in R R' l :
  (forall x y, x ∈ l -> y ∈ l -> R x y -> R' x y) -> chain R l -> chain R' l.
Proof.
  induction l as [|a l IH]; [done|].
  rewrite !chain_cons_head. intros Hm [Hc Hh]. split.
  - apply IH; [|done]. intros x y Hx Hy. apply Hm; set_solver.
  - intros x Hx. apply Hm; [set_solver| |by apply Hh].
    destruct l; simplify_eq/=. set_solver.
Qed.

Lemma chain_mono R R' l :
  (forall x y, R x y -> R' x y) -> chain R l -> chain R' l.
Proof. intros Hm. apply chain_mono_in. auto. Qed.

Lemma chain_and R R' l : chain R l -> chain R' l -> chain (fun x y => R x y /\ R' x y) l.
Proof.
  induction l as [|a l IH]; [done|]. rewrite !chain_cons_head. naive_solver.
Qed.

Lemma chain_reverse R l : chain R (lrev l) <-> chain (fun x y => R y x) l.
Proof.
  induction l as [|a l IH]; [done|].
  rewrite reverse_cons, chain_snoc_last, chain_cons_head, IH, last_reverse. done.
Qed.

Lemma cchain_cons R x l : cchain R (x :: l) <-> chain R (x :: l ++ [x]).
Proof. reflexivity. Qed.

Lemma cchain_rotate R l1 l2 : cchain R (l1 ++ l2) -> cchain R (l2 ++ l1).
Proof.
  destruct l1 as [|a l1]; [by rewrite app_nil_r|].
  destruct l2 as [|b l2]; [by rewrite app_nil_r|].
  simpl. rewrite !cchain_cons. intros Hc.
  assert (chain R ((a :: l1) ++ (b :: l2 ++ [a]))) as Hc'.
  { simpl. by rewrite <-app_assoc in Hc. }
  apply chain_app in Hc' as (H1 & H2 & H3).
  assert (chain R ((b :: l2) ++ a :: (l1 ++ [b]))) as Hg.
  { apply chain_join; [done|].
    change (chain R ((a :: l1) ++ [b])). apply chain_snoc_last. split; [done|].
    intros x Hx. by apply H3. }
  simpl in Hg. by rewrite <-app_assoc.
Qed.

Lemma cchain_mono_in R R' l :
  (forall x y, x ∈ l -> y ∈ l -> R x y -> R' x y) -> cchain R l -> cchain R' l.
Proof.
  destruct l as [|a l]; [done|]. intros Hm. rewrite !cchain_cons.
  apply chain_mono_in. intros x y Hx Hy. apply Hm; set_solver.
Qed.

Lemma cchain_chain R l : cchain R l -> chain R l.
Proof.
  destruct l; [done|]. rewrite cchain_cons, app_comm_cons. apply chain_app_l.
Qed.

Lemma cchain_wrap R l x y : cchain R l -> head l = Some y -> last l = Some x -> R x y.
Proof.
  destruct l as [|a l]; [done|]. rewrite cchain_cons, app_comm_cons.
  intros Hc [= ->] Hl.
  apply chain_app in Hc as (_ & _ & Hc). by apply Hc.
Qed.

Lemma cchain_intro R l :
  chain R l -> (forall x y, head l = Some y -> last l = Some x -> R x y) -> cchain R l.
Proof.
  destruct l as [|a l]; [done|]. intros H1 H2. rewrite cchain_cons, app_comm_cons.
  apply chain_app. split_and!; try done. intros x y Hl [= <-]. by apply H2.
Qed.
End chain.

Lemma chain_mono_pos {A} (R R' : A -> A -> Prop) (l : list A) :
  NoDup l ->
  (forall x y, x ∈ l -> y ∈ l -> last l <> Some x -> head l <> Some y -> R x y -> R' x y) ->
  chain R l -> chain R' l.
Proof.
  induction l as [|a l IH]; [done|].
  rewrite !chain_cons_head, NoDup_cons. intros [Ha Hnd] Hm [Hc Hh]. split.
  - apply IH; [done| |done]. intros x y Hx Hy Hlx Hhy. apply Hm; [set_solver..| |].
    + destruct l; [set_solver|]. by rewrite last_cons_cons.
    + simpl. intros [= ->]. done.
  - intros x Hx. destruct l as [|b l]; simplify_eq/=.
    apply Hm; [set_solver..| | |by apply Hh].
    + intros Hl%last_Some_elem_of. done.
    + intros [= ->]. set_solver.
Qed.

(** * Frames for the logical view *)

Lemma view_frame t t' x :
  nd t' x = nd t x -> (forall p, rev_of t' p = rev_of t p) ->
  get_next t' x = get_next t x /\ get_prev t' x = get_prev t x /\ lid t' x = lid t x.
Proof. intros Hn Hp. unfold get_next, get_prev, lid. rewrite Hn, !Hp. done. Qed.

Lemma link_chain_frame t t' L :
  NoDup L -> chain (link t) L ->
  (forall x, x ∈ L -> last L <> Some x -> get_next t' x = get_next t x) ->
  (forall y, y ∈ L -> head L <> Some y -> get_prev t' y = get_prev t y) ->
  chain (link t') L.
Proof.
  intros Hnd Hc Hf Hb. revert Hc. apply chain_mono_pos; [done|].
  intros x y Hx Hy Hlx Hhy [H1 H2]. split.
  - by rewrite Hf.
  - by rewrite Hb.
Qed.

(** * The merging loops of [split_and_merge] *)

Ltac tlt := autorewrite with tlt in *.

Lemma merge_forward_spec temp : forall t np q delta t' q',
  parent_of t q = np -> NoDup (q :: temp) ->
  delta = (if rev_of t np then 1 else -1) ->
  merge_forward t temp np q delta = (t', q') ->
  last (q :: temp) = Some q' /\
  (forall p, pa t' p = pa t p) /\
  _n_parents t' = _n_parents t /\ _n_cities t' = _n_cities t /\
  _origin_city t' = _origin_city t /\
  _nominal_segment_length t' = _nominal_segment_length t /\
  (forall x, x ∉ q :: temp -> nd t' x = nd t x) /\
  (forall x, x ∈ temp -> parent_of t' x = np) /\
  (forall x, city_of t' x = city_of t x) /\
  parent_of t' q = np /\ lid t' q = lid t q /\ get_next t' q = get_next t q /\
  chain (fun x y => get_next t' y = x /\ get_prev t' x = y /\ lid t' y = lid t' x - 1)
        (q :: temp).
Proof.
  induction temp as [|p temp IH]; intros t np q delta t' q' Hq Hnd Hd Hm.
  - simpl in Hm. simplify_eq. split_and!; try done. set_solver.
  - simpl in Hm.
    set (t1 := set_n_parent t p np) in *.
    set (t2 := connect_arc_forward t1 p q) in *.
    set (t3 := set_n_id t2 p (id_of t2 q + delta)) in *.
    apply NoDup_cons in Hnd as [Hqn Hnd].
    assert (q <> p) as Hqp by set_solver.
    assert (forall p', pa t3 p' = pa t p') as Hpa.
    { intros p'. unfold t3, t2, t1. by tlt. }
    apply IH in Hm as (Hl & Hpa' & Hs1 & Hs2 & Hs3 & Hs4 & Hnd' & Hpar & Hcity & Hpp & Hlid & Hfw & Hch);
      [|unfold t3, t2, t1; tlt; by rewrite decide_True|done|by rewrite Hpa].
    assert (forall r, rev_of t' r = rev_of t3 r) as Hrev by (intros r; by rewrite Hpa').
    split_and!.
    + by rewrite last_cons_cons.
    + intros p'. by rewrite Hpa', Hpa.
    + rewrite Hs1. unfold t3, t2, t1. by tlt.
    + rewrite Hs2. unfold t3, t2, t1. by tlt.
    + rewrite Hs3. unfold t3, t2, t1. by tlt.
    + rewrite Hs4. unfold t3, t2, t1. by tlt.
    + intros x Hx. rewrite Hnd' by set_solver.
      apply not_elem_of_cons in Hx as [Hxq Hx]. apply not_elem_of_cons in Hx as [Hxp Hx].
      unfold t3, t2, t1.
      by rewrite nd_set_n_id_ne, nd_connect_arc_forward_ne, nd_set_n_parent_ne.
    + intros x [->|Hx]%elem_of_cons; [done|by apply Hpar].
    + intros x. rewrite Hcity. unfold t3, t2, t1. by tlt.
    + rewrite Hnd' by set_solver. unfold t3, t2, t1. tlt. by rewrite decide_False.
    + destruct (view_frame t3 t' q) as (_ & _ & ->); [apply Hnd'; set_solver|done|].
      unfold t3, t2, t1. tlt. by rewrite !decide_False.
    + destruct (view_frame t3 t' q) as (-> & _ & _); [apply Hnd'; set_solver|done|].
      unfold t3, t2, t1. tlt. by rewrite !decide_False.
    + apply chain_cons. split; [|done]. split_and!.
      * rewrite Hfw. unfold t3, t2, t1. tlt. by rewrite decide_True.
      * destruct (view_frame t3 t' q) as (_ & -> & _); [apply Hnd'; set_solver|done|].
        unfold t3, t2, t1. tlt. by rewrite decide_True.
      * rewrite Hlid.
        destruct (view_frame t3 t' q) as (_ & _ & ->); [apply Hnd'; set_solver|done|].
        unfold t3, t2, t1. tlt. rewrite !decide_True by done.
        rewrite decide_False by done. rewrite (decide_False (P := q = p)) by done.
        unfold lid. rewrite Hq. destruct (rev_of t np); lia.
Qed.

Lemma merge_backward_spec temp : forall t np q delta t' q',
  parent_of t q = np -> NoDup (q :: temp) ->
  delta = (if rev_of t np then -1 else 1) ->
  merge_backward t temp np q delta = (t', q') ->
  last (q :: temp) = Some q' /\
  (forall p, pa t' p = pa t p) /\
  _n_parents t' = _n_parents t /\ _n_cities t' = _n_cities t /\
  _origin_city t' = _origin_city t /\
  _nominal_segment_length t' = _nominal_segment_length t /\
  (forall x, x ∉ q :: temp -> nd t' x = nd t x) /\
  (forall x, x ∈ temp -> parent_of t' x = np) /\
  (forall x, city_of t' x = city_of t x) /\
  parent_of t' q = np /\ lid t' q = lid t q /\ get_prev t' q = get_prev t q /\
  chain (fun x y => link t' x y /\ lid t' y = lid t' x + 1) (q :: temp).
Proof.
  induction temp as [|p temp IH]; intros t np q delta t' q' Hq Hnd Hd Hm.
  - simpl in Hm. simplify_eq. split_and!; try done. set_solver.
  - simpl in Hm.
    set (t1 := set_n_parent t p np) in *.
    set (t2 := connect_arc_forward t1 q p) in *.
    set (t3 := set_n_id t2 p (id_of t2 q + delta)) in *.
    apply NoDup_cons in Hnd as [Hqn Hnd].
    assert (q <> p) as Hqp by set_solver.
    assert (forall p', pa t3 p' = pa t p') as Hpa.
    { intros p'. unfold t3, t2, t1. by tlt. }
    apply IH in Hm as (Hl & Hpa' & Hs1 & Hs2 & Hs3 & Hs4 & Hnd' & Hpar & Hcity & Hpp & Hlid & Hbw & Hch);
      [|unfold t3, t2, t1; tlt; by rewrite decide_True|done|by rewrite Hpa].
    assert (forall r, rev_of t' r = rev_of t3 r) as Hrev by (intros r; by rewrite Hpa').
    split_and!.
    + by rewrite last_cons_cons.
    + intros p'. by rewrite Hpa', Hpa.
    + rewrite Hs1. unfold t3, t2, t1. by tlt.
    + rewrite Hs2. unfold t3, t2, t1. by tlt.
    + rewrite Hs3. unfold t3, t2, t1. by tlt.
    + rewrite Hs4. unfold t3, t2, t1. by tlt.
    + intros x Hx. rewrite Hnd' by set_solver.
      apply not_elem_of_cons in Hx as [Hxq Hx]. apply not_elem_of_cons in Hx as [Hxp Hx].
      unfold t3, t2, t1.
      by rewrite nd_set_n_id_ne, nd_connect_arc_forward_ne, nd_set_n_parent_ne.
    + intros x [->|Hx]%elem_of_cons; [done|by apply Hpar].
    + intros x. rewrite Hcity. unfold t3, t2, t1. by tlt.
    + rewrite Hnd' by set_solver. unfold t3, t2, t1. tlt. by rewrite decide_False.
    + destruct (view_frame t3 t' q) as (_ & _ & ->); [apply Hnd'; set_solver|done|].
      unfold t3, t2, t1. tlt. by rewrite !decide_False.
    + destruct (view_frame t3 t' q) as (_ & -> & _); [apply Hnd'; set_solver|done|].
      unfold t3, t2, t1. tlt. by rewrite !decide_False.
    + apply chain_cons. split; [|done]. unfold link. split_and!.
      * destruct (view_frame t3 t' q) as (-> & _ & _); [apply Hnd'; set_solver|done|].
        unfold t3, t2, t1. tlt. by rewrite decide_True.
      * rewrite Hbw. unfold t3, t2, t1. tlt. by rewrite decide_True.
      * rewrite Hlid.
        destruct (view_frame t3 t' q) as (_ & _ & ->); [apply Hnd'; set_solver|done|].
        unfold t3, t2, t1. tlt. rewrite !decide_True by done.
        rewrite decide_False by done. rewrite (decide_False (P := q = p)) by done.
        unfold lid. rewrite Hq. destruct (rev_of t np); lia.
Qed.

(** * Basic consequences of the representation invariant *)

Lemma parents_of_cons p l (R : list segment) : parents_of ((p, l) :: R) = p :: parents_of R.
Proof. reflexivity. Qed.

Lemma tour_of_cons p l (R : list segment) : tour_of ((p, l) :: R) = l ++ tour_of R.
Proof. reflexivity. Qed.

Lemma parents_of_app (R1 R2 : list segment) :
  parents_of (R1 ++ R2) = parents_of R1 ++ parents_of R2.
Proof. unfold parents_of. by rewrite fmap_app. Qed.

Lemma tour_of_app (R1 R2 : list segment) : tour_of (R1 ++ R2) = tour_of R1 ++ tour_of R2.
Proof. unfold tour_of. by rewrite fmap_app, concat_app. Qed.

Lemma tour_of_nil : tour_of [] = [].
Proof. reflexivity. Qed.

Lemma parents_of_nil : parents_of [] = [].
Proof. reflexivity. Qed.

Global Opaque parents_of tour_of.

Lemma same_shape_refl t : same_shape t t.
Proof. by repeat split. Qed.

Lemma same_shape_trans t1 t2 t3 : same_shape t1 t2 -> same_shape t2 t3 -> same_shape t1 t3.
Proof. unfold same_shape. intros (?&?&?&?) (?&?&?&?). split_and!; congruence. Qed.

Lemma Rep_rotate t s1 s2 : Rep t (s1 ++ s2) -> Rep t (s2 ++ s1).
Proof.
  intros [H1 H2 H3 H4 H5 H6 H7 H8]. split.
  - done.
  - rewrite <-H2, !parents_of_app. apply Permutation_app_comm.
  - rewrite <-H3, !tour_of_app. apply Permutation_app_comm.
  - rewrite parents_of_app in *. by apply cchain_rotate.
  - rewrite parents_of_app, Forall_app in *. tauto.
  - rewrite Forall_app in *. tauto.
  - rewrite tour_of_app in *. by apply cchain_rotate.
  - rewrite tour_of_app, Forall_app in *. tauto.
Qed.

Lemma Rep_NoDup_tour t segs : Rep t segs -> NoDup (tour_of segs).
Proof. intros H. rewrite (rep_tour _ _ H). apply NoDup_seqZ. Qed.

Lemma Rep_NoDup_parents t segs : Rep t segs -> NoDup (parents_of segs).
Proof. intros H. rewrite (rep_parents _ _ H). apply NoDup_seqZ. Qed.

Lemma Rep_tour_length t segs : Rep t segs -> length (tour_of segs) = Z.to_nat (_n_cities t).
Proof. intros H. by rewrite (rep_tour _ _ H), length_seqZ. Qed.

Lemma Rep_parents_length t segs :
  Rep t segs -> length segs = Z.to_nat (_n_parents t).
Proof.
  intros H. rewrite <-(length_seqZ 0), <-(rep_parents _ _ H).
  Local Transparent parents_of. unfold parents_of. by rewrite length_fmap.
  Local Opaque parents_of.
Qed.

Lemma Rep_elem_of_tour t segs x :
  Rep t segs -> x ∈ tour_of segs <-> _origin_city t <= x < _origin_city t + _n_cities t.
Proof. intros H. rewrite (rep_tour _ _ H), elem_of_seqZ. done. Qed.

(** * The collecting loops of [split_and_merge] *)

Lemma collect_segment_forward t s l : forall fuel x y temp,
  chain (link t) (l ++ [y]) ->
  Forall (fun z => parent_of t z = parent_of t s) l ->
  parent_of t y <> parent_of t s ->
  head (l ++ [y]) = Some x ->
  (length l < fuel)%nat ->
  collect_segment fuel t forward s x temp = Some (lrev l ++ temp).
Proof.
  induction l as [|a l IH]; intros fuel x y temp Hc Hp Hy Hx Hf.
  - simpl in *. simplify_eq. destruct fuel; [lia|]. simpl.
    by rewrite bool_decide_eq_false_2.
  - simpl in *. simplify_eq. destruct fuel; [lia|]. simpl.
    apply Forall_cons in Hp as [Hpx Hp].
    rewrite bool_decide_eq_true_2 by done.
    apply chain_cons_head in Hc as [Hc Hh].
    destruct (head (l ++ [y])) as [z|] eqn:Hz; [|by destruct l].
    destruct (Hh z eq_refl) as [Hn _]. rewrite Hn.
    erewrite IH; [|done..|lia].
    by rewrite reverse_cons, <-app_assoc.
Qed.

Lemma collect_segment_backward t s l : forall fuel x y temp,
  chain (link t) (y :: l) ->
  Forall (fun z => parent_of t z = parent_of t s) l ->
  parent_of t y <> parent_of t s ->
  last (y :: l) = Some x ->
  (length l < fuel)%nat ->
  collect_segment fuel t backward s x temp = Some (l ++ temp).
Proof.
  induction l as [|a l IH] using rev_ind; intros fuel x y temp Hc Hp Hy Hx Hf.
  - simpl in *. simplify_eq. destruct fuel; [lia|]. simpl.
    by rewrite bool_decide_eq_false_2.
  - rewrite app_comm_cons, last_snoc in Hx. simplify_eq.
    rewrite length_app in Hf. simpl in Hf.
    destruct fuel; [lia|]. simpl.
    apply Forall_app in Hp as [Hp Hpx]. rewrite Forall_singleton in Hpx.
    rewrite bool_decide_eq_true_2 by done.
    rewrite app_comm_cons in Hc. apply chain_snoc_last in Hc as [Hc Hh].
    destruct (last (y :: l)) as [z|] eqn:Hz;
      [|by apply last_None in Hz].
    destruct (Hh z eq_refl) as [_ Hn]. rewrite Hn.
    erewrite IH; [|done..|lia].
    by rewrite <-app_assoc.
Qed.

(** * [split_and_merge] *)

Lemma split_and_merge_forward_eq fuel t s (incl : bool) (x : Z) (temp : list Z) :
  collect_segment fuel t forward s (get_next t s) (if incl then [s] else []) = Some (x :: temp) ->
  split_and_merge fuel t s incl forward =
  Some (let p := parent_of t s in
        let q := pnext_of t p in
        let bd := if incl then get_prev t s else s in
        let n := Z.of_nat (length (x :: temp)) in
        let t1 := set_p_size t q (size_of t q + n) in
        let t2 := set_p_size t1 p (size_of t1 p - n) in
        let r := merge_forward t2 (x :: temp) q (fbegin_of t2 q)
                   (if rev_of t2 q then 1 else -1) in
        set_fend (connect_arc_forward (set_fbegin r.1 q r.2) bd r.2) p bd).
Proof.
  intros Hc. unfold split_and_merge. rewrite Hc. cbv zeta.
  change (Some (x :: temp) ≫= ?f) with (f (x :: temp)). cbv beta iota.
  unfold forward_begin_node, set_fbegin, set_fend.
  match goal with |- context [merge_forward ?a ?b ?c ?d ?e] =>
    destruct (merge_forward a b c d e) as [t3 q'] eqn:Hm end.
  reflexivity.
Qed.

Lemma split_and_merge_backward_eq fuel t s (incl : bool) (x : Z) (temp : list Z) :
  collect_segment fuel t backward s (get_prev t s) (if incl then [s] else []) = Some (x :: temp) ->
  split_and_merge fuel t s incl backward =
  Some (let p := parent_of t s in
        let q := pprev_of t p in
        let bd := if incl then get_next t s else s in
        let n := Z.of_nat (length (x :: temp)) in
        let t1 := set_p_size t q (size_of t q + n) in
        let t2 := set_p_size t1 p (size_of t1 p - n) in
        let r := merge_backward t2 (x :: temp) q (fend_of t2 q)
                   (if rev_of t2 q then -1 else 1) in
        set_fbegin (connect_arc_forward (set_fend r.1 q r.2) r.2 bd) p bd).
Proof.
  intros Hc. unfold split_and_merge. rewrite Hc. cbv zeta.
  change (Some (x :: temp) ≫= ?f) with (f (x :: temp)). cbv beta iota.
  unfold forward_end_node, set_fbegin, set_fend.
  match goal with |- context [merge_backward ?a ?b ?c ?d ?e] =>
    destruct (merge_backward a b c d e) as [t3 q'] eqn:Hm end.
  reflexivity.
Qed.

Lemma split_and_merge_nop fuel t s d :
  collect_segment fuel t d s
    (match d with forward => get_next t s | backward => get_prev t s end) [] = Some [] ->
  split_and_merge fuel t s false d = Some t.
Proof. intros Hc. unfold split_and_merge. by rewrite Hc. Qed.

Lemma chain_pointwise {A} `{EqDecision A} (P Q : A -> Prop) (l : list A) :
  chain (fun x y => P x /\ Q y) l ->
  (forall x, x ∈ l -> last l <> Some x -> P x) /\
  (forall y, y ∈ l -> head l <> Some y -> Q y).
Proof.
  induction l as [|a l IH]; [intros _; split; intros ? []%elem_of_nil|].
  rewrite chain_cons_head. intros [Hc Hh]. destruct (IH Hc) as [IH1 IH2]. split.
  - intros x [->|Hx]%elem_of_cons Hl.
    + destruct l as [|b l]; [done|]. by destruct (Hh b eq_refl).
    + apply IH1; [done|]. destruct l; [by apply elem_of_nil in Hx|].
      by rewrite last_cons_cons in Hl.
  - intros y [->|Hy]%elem_of_cons Hl; [done|].
    destruct l as [|b l]; [by apply elem_of_nil in Hy|].
    destruct (decide (y = b)) as [->|Hne].
    + by destruct (Hh b eq_refl).
    + apply IH2; [done|]. simpl. congruence.
Qed.

Lemma Rep_front2 t p lp q lq R :
  Rep t ((p, lp) :: (q, lq) :: R) ->
  p <> q /\ (p ∉ parents_of R) /\ (q ∉ parents_of R) /\
  seg_ok t (p, lp) /\ seg_ok t (q, lq) /\ Forall (seg_ok t) R /\
  plink t p q /\ NoDup (lp ++ lq ++ tour_of R).
Proof.
  intros HR. pose proof (Rep_NoDup_parents _ _ HR) as Hnp.
  pose proof (Rep_NoDup_tour _ _ HR) as Hnt.
  rewrite !parents_of_cons in Hnp. rewrite !tour_of_cons in Hnt.
  apply NoDup_cons in Hnp as [Hp Hnp]. apply NoDup_cons in Hnp as [Hq Hnp].
  pose proof (rep_segs _ _ HR) as Hs.
  apply Forall_cons in Hs as [Hsp Hs]. apply Forall_cons in Hs as [Hsq Hs].
  pose proof (rep_plink _ _ HR) as Hpl. rewrite !parents_of_cons in Hpl.
  apply cchain_chain in Hpl. apply chain_cons in Hpl as [Hpl _].
  split_and!; try done; set_solver.
Qed.

Lemma seg_ok_nonempty t p l : seg_ok t (p, l) -> l <> [].
Proof. intros (_ & Hh & _). by destruct l. Qed.

Lemma seg_ok_parent t p l x : seg_ok t (p, l) -> x ∈ l -> parent_of t x = p.
Proof. intros (_ & _ & _ & Hp & _) Hx. by eapply Forall_forall in Hp. Qed.

Lemma chain_infix {A} (R : A -> A -> Prop) L l1 l l2 :
  chain R L -> L = l1 ++ l ++ l2 -> chain R l.
Proof. intros Hc ->. by apply chain_app_r, chain_app_l in Hc. Qed.

Ltac leq := repeat (rewrite <-?app_assoc; simpl); done.

Ltac tg := autorewrite with tlt.

(** Resolve the [decide (a = b)] left by [tg] from the hypotheses. *)
Ltac dsimp :=
  repeat match goal with
  | |- context [decide (?a = ?b)] =>
      first [ rewrite (decide_True (P := a = b)) by (reflexivity || assumption)
            | rewrite (decide_False (P := a = b))
                by (assumption || (apply not_eq_sym; assumption)) ]
  end.

(** Membership and disequality side conditions, decided propositionally. *)
Ltac el :=
  try (intros ->);
  repeat (progress (rewrite ?elem_of_app, ?elem_of_cons, ?elem_of_reverse, ?elem_of_nil in * ));
  first [done | tauto | congruence].

Lemma sam_forward_collect fuel t p l1 l2 q l3 R s (incl : bool) :
  Rep t ((p, l1 ++ l2) :: (q, l3) :: R) ->
  l1 <> [] ->
  (if incl then head l2 = Some s else last l1 = Some s) ->
  (length l2 < fuel)%nat ->
  collect_segment fuel t forward s (get_next t s) (if incl then [s] else []) = Some (lrev l2)
  /\ parent_of t s = p /\ last l1 = Some (if incl then get_prev t s else s).
Proof.
  intros HR Hl1 Hs Hf.
  destruct (Rep_front2 _ _ _ _ _ _ HR) as (Hpq & HpR & HqR & Hsp & Hsq & HsR & Hpl & Hnd).
  pose proof (rep_link _ _ HR) as Hlk. apply cchain_chain in Hlk.
  rewrite !tour_of_cons in Hlk.
  destruct l3 as [|q0 l3]; [by apply seg_ok_nonempty in Hsq|].
  assert (parent_of t q0 = q) as Hq0 by (eapply seg_ok_parent; [done|set_solver]).
  destruct l1 as [|bd l1 _] using rev_ind; [done|]. clear Hl1.
  assert (forall z, z ∈ l2 -> parent_of t z = p) as Hpl2.
  { intros z Hz. eapply seg_ok_parent; [done|set_solver]. }
  destruct incl.
  - destruct l2 as [|s' l2]; simplify_eq/=.
    assert (parent_of t s = p) as Hps by (apply Hpl2; set_solver).
    assert (chain (link t) (s :: l2 ++ [q0])) as Hc.
    { apply (chain_infix _ _ (l1 ++ [bd]) _ (l3 ++ tour_of R) Hlk). leq. }
    assert (link t bd s) as [_ Hbs].
    { assert (chain (link t) [bd; s]) as Hbs.
      { apply (chain_infix _ _ l1 _ (l2 ++ q0 :: l3 ++ tour_of R) Hlk). leq. }
      by apply chain_cons in Hbs as [? _]. }
    split_and!; [|done|by rewrite Hbs, last_snoc].
    apply chain_cons_head in Hc as [Hc Hh].
    destruct (head (l2 ++ [q0])) as [z|] eqn:Hz; [|by destruct l2].
    destruct (Hh z eq_refl) as [Hn _]. rewrite Hn.
    rewrite (collect_segment_forward t s l2 fuel z q0 [s]).
    + by rewrite reverse_cons.
    + done.
    + apply Forall_forall. intros y Hy. rewrite Hps. apply Hpl2. set_solver.
    + congruence.
    + done.
    + lia.
  - rewrite last_snoc in Hs. simplify_eq.
    assert (parent_of t s = p) as Hps by (eapply seg_ok_parent; [done|set_solver]).
    split_and!; [|done|by rewrite last_snoc].
    assert (chain (link t) (s :: l2 ++ [q0])) as Hc.
    { apply (chain_infix _ _ l1 _ (l3 ++ tour_of R) Hlk). leq. }
    apply chain_cons_head in Hc as [Hc Hh].
    destruct (head (l2 ++ [q0])) as [z|] eqn:Hz; [|by destruct l2].
    destruct (Hh z eq_refl) as [Hn _]. rewrite Hn.
    rewrite (collect_segment_forward t s l2 fuel z q0 []).
    + by rewrite app_nil_r.
    + done.
    + apply Forall_forall. intros y Hy. rewrite Hps. apply Hpl2. set_solver.
    + congruence.
    + done.
    + lia.
Qed.

Lemma elem_of_segs (R : list segment) r lr x :
  (r, lr) ∈ R -> (r ∈ parents_of R) /\ (x ∈ lr -> x ∈ tour_of R).
Proof.
  induction R as [|[r' lr'] R IH]; [by intros ?%elem_of_nil|].
  rewrite parents_of_cons, tour_of_cons. intros [Heq|Hin]%elem_of_cons.
  - simplify_eq. set_solver.
  - destruct (IH Hin). set_solver.
Qed.

Lemma last_app_ne {A} (l1 l2 : list A) : l2 <> [] -> last (l1 ++ l2) = last l2.
Proof. intros Hne. rewrite last_app. by destruct (last l2) eqn:E; [|apply last_None in E]. Qed.

Lemma lid_frame t t' x :
  id_of t' x = id_of t x -> parent_of t' x = parent_of t x ->
  (forall p, rev_of t' p = rev_of t p) -> lid t' x = lid t x.
Proof. intros Hi Hp Hr. unfold lid. by rewrite Hi, Hp, Hr. Qed.

Lemma seg_ok_frame t t' p l :
  seg_ok t (p, l) ->
  size_of t' p = size_of t p -> fbegin_of t' p = fbegin_of t p ->
  fend_of t' p = fend_of t p ->
  (forall x, x ∈ l -> parent_of t' x = parent_of t x /\ lid t' x = lid t x) ->
  seg_ok t' (p, l).
Proof.
  intros (H1 & H2 & H3 & H4 & H5) Hs Hb He Hx. unfold seg_ok. simpl in *.
  rewrite Hs, Hb, He. split_and!; try done.
  - apply Forall_forall. intros x Hin. rewrite Forall_forall in H4.
    destruct (Hx x Hin) as [-> _]. by apply H4.
  - revert H5. apply chain_mono_in. intros x y Hx' Hy' Hxy.
    destruct (Hx x Hx') as [_ ->]. destruct (Hx y Hy') as [_ ->]. done.
Qed.

Lemma sam_forward_Rep fuel t p l1 l2 q l3 R s (incl : bool) :
  Rep t ((p, l1 ++ l2) :: (q, l3) :: R) ->
  l1 <> [] -> l2 <> [] ->
  (if incl then head l2 = Some s else last l1 = Some s) ->
  (length l2 < fuel)%nat ->
  exists t', split_and_merge fuel t s incl forward = Some t' /\
    Rep t' ((p, l1) :: (q, l2 ++ l3) :: R) /\ same_shape t t' /\
    (forall r, rev_of t' r = rev_of t r) /\
    (forall x, get_next t' x = get_next t x) /\
    (forall x, get_prev t' x = get_prev t x) /\
    (forall x, city_of t' x = city_of t x).
Proof.
  intros HR Hl1 Hl2 Hs Hf.
  destruct (sam_forward_collect _ _ _ _ _ _ _ _ _ _ HR Hl1 Hs Hf) as (Hcol & Hps & Hbd).
  destruct (Rep_front2 _ _ _ _ _ _ HR) as (Hpq & HpR & HqR & Hsp & Hsq & HsR & Hpl & Hnd).
  destruct (lrev l2) as [|x temp] eqn:Hrev.
  { apply (f_equal lrev) in Hrev. rewrite reverse_involutive in Hrev. done. }
  rewrite (split_and_merge_forward_eq _ _ _ _ _ _ Hcol). cbv zeta.
  destruct Hpl as (Hpn & Hpp & Hpid). rewrite !Hps, !Hpn.
  set (bd := if incl then get_prev t s else s) in *.
  set (n := Z.of_nat (length (x :: temp))).
  assert (n = Z.of_nat (length l2)) as Hn.
  { unfold n. by rewrite <-Hrev, length_reverse. }
  clearbody n.
  set (t1 := set_p_size t q (size_of t q + n)).
  set (t2 := set_p_size t1 p (size_of t1 p - n)).
  cbv zeta.
  destruct l3 as [|q0 l3]; [by apply seg_ok_nonempty in Hsq|].
  assert (fbegin_of t2 q = q0) as Hq0.
  { unfold t2, t1. tg. destruct Hsq as (_ & Hh & _). simpl in Hh. congruence. }
  rewrite Hq0.
  destruct (merge_forward t2 (x :: temp) q q0 (if rev_of t2 q then 1 else -1))
    as [t3 q'] eqn:Hm.
  apply merge_forward_spec in Hm
    as (Hl & Hpa & Hs1 & Hs2 & Hs3 & Hs4 & Hnd3 & Hpar & Hcity & Hpq0 & Hlid0 & Hfw0 & Hch).
  2:{ unfold t2, t1. tg. eapply seg_ok_parent; [done|el]. }
  2:{ rewrite <-Hrev. apply NoDup_cons. split.
      - rewrite elem_of_reverse. intros Hin.
        rewrite <-app_assoc in Hnd. apply NoDup_app in Hnd as (_ & _ & Hnd).
        apply NoDup_app in Hnd as (_ & Hnd & _). apply (Hnd q0 Hin). el.
      - rewrite reverse_Permutation. apply NoDup_app in Hnd as (Hnd & _).
        by apply NoDup_app in Hnd as (_ & _ & Hnd). }
  2:{ done. }
  simpl. eexists. split; [done|].
  set (t6 := set_fend (connect_arc_forward (set_fbegin t3 q q') bd q') p bd).
  rewrite <-Hrev in *. clear Hrev x temp.
  assert (head l2 = Some q') as Hq'.
  { rewrite <-last_reverse. destruct (lrev l2) eqn:E; [|by rewrite last_cons_cons in Hl].
    apply (f_equal lrev) in E. by rewrite reverse_involutive in E. }
  assert (chain (fun x y => link t3 x y /\ lid t3 y = lid t3 x + 1) (l2 ++ [q0])) as Hch'.
  { rewrite <-(reverse_involutive (l2 ++ [q0])), reverse_snoc. apply chain_reverse.
    revert Hch. apply chain_mono. intros a b (?&?&?). unfold link. split_and!; [done|done|lia]. }
  clear Hch.
  pose proof (rep_link _ _ HR) as Hlk. apply cchain_chain in Hlk.
  rewrite !tour_of_cons in Hlk.
  assert (chain (link t) (l2 ++ [q0])) as Hc2.
  { apply (chain_infix _ _ l1 _ (l3 ++ tour_of R) Hlk). leq. }
  destruct l1 as [|bd' l1 _] using rev_ind; [done|]. rewrite last_snoc in Hbd.
  injection Hbd as Hbd. rewrite Hbd in *. clear Hl1.
  destruct l2 as [|q'' l2]; [done|]. injection Hq' as ->. clear Hl2.
  assert (link t bd q') as [Hbq1 Hbq2].
  { assert (chain (link t) [bd; q']) as Hbs.
    { apply (chain_infix _ _ l1 _ (l2 ++ q0 :: l3 ++ tour_of R) Hlk). leq. }
    by apply chain_cons in Hbs as [? _]. }
  assert (NoDup (l1 ++ [bd] ++ (q' :: l2) ++ [q0] ++ l3 ++ tour_of R)) as Hnd'.
  { revert Hnd. by rewrite <-!app_assoc. }
  assert ((bd ∉ q' :: l2) /\ bd <> q0 /\ (q0 ∉ q' :: l2)) as (Hn1 & Hn2 & Hn3).
  { apply NoDup_app in Hnd' as (_ & _ & Hnd').
    apply NoDup_app in Hnd' as (_ & Hd1 & Hnd').
    apply NoDup_app in Hnd' as (_ & Hd2 & _).
    split_and!.
    - intros Hin. apply (Hd1 bd); el.
    - intros ->. apply (Hd1 q0); el.
    - intros Hin. apply (Hd2 q0); el. }
  assert (forall r, pa t3 r = pa t2 r) as Hpa3 by done.
  assert (forall r, rev_of t6 r = rev_of t r) as Hrev6.
  { intros r. unfold t6. tg. rewrite Hpa. unfold t2, t1. by tg. }
  assert (forall x, get_next t6 x = get_next t x) as Hfw6.
  { intros x. unfold t6. tg. case_decide as Hx; [by subst|].
    destruct (decide (x ∈ q' :: l2)) as [Hin|Hnin].
    - pose proof (chain_and _ _ _ Hc2 Hch') as Hboth.
      eapply chain_mono in Hboth.
      2:{ intros a b ([H1 H2] & [H3 H4] & _).
          exact (conj (eq_trans H3 (eq_sym H1)) (eq_trans H4 (eq_sym H2))). }
      apply chain_pointwise in Hboth as [Hboth _]. apply Hboth; [el|].
      rewrite last_snoc. intros [= ->]. done.
    - destruct (decide (x = q0)) as [->|Hq0'].
      + rewrite Hfw0. unfold t2, t1. by tg.
      + destruct (view_frame t2 t3 x) as (-> & _ & _).
        * apply Hnd3. rewrite elem_of_cons, elem_of_reverse. tauto.
        * intros r. by rewrite Hpa.
        * unfold t2, t1. by tg. }
  assert (forall x, get_prev t6 x = get_prev t x) as Hbw6.
  { intros x. unfold t6. tg. case_decide as Hx; [by subst|].
    destruct (decide (x ∈ (q' :: l2) ++ [q0])) as [Hin|Hnin].
    - pose proof (chain_and _ _ _ Hc2 Hch') as Hboth.
      eapply chain_mono in Hboth.
      2:{ intros a b ([H1 H2] & [H3 H4] & _).
          exact (conj (eq_trans H3 (eq_sym H1)) (eq_trans H4 (eq_sym H2))). }
      apply chain_pointwise in Hboth as [_ Hboth]. apply Hboth; [done|].
      simpl. congruence.
    - destruct (view_frame t2 t3 x) as (_ & -> & _).
      * apply Hnd3. rewrite elem_of_cons, elem_of_reverse. el.
      * intros r. by rewrite Hpa.
      * unfold t2, t1. by tg. }
  assert (forall x, city_of t6 x = city_of t x) as Hcity6.
  { intros x. unfold t6. tg. rewrite Hcity. unfold t2, t1. by tg. }
  assert (forall x, x ∉ q' :: l2 -> parent_of t6 x = parent_of t x /\ lid t6 x = lid t x)
    as Hout.
  { intros x Hx. unfold t6. tg. destruct (decide (x = q0)) as [->|Hq0'].
    - rewrite Hpq0, Hlid0. unfold t2, t1. tg.
      split; [|done]. symmetry. eapply seg_ok_parent; [done|el].
    - assert (nd t3 x = nd t2 x) as Hndx.
      { apply Hnd3. rewrite elem_of_cons, elem_of_reverse. tauto. }
      destruct (view_frame t2 t3 x) as (_ & _ & ->); [done|by intros; rewrite Hpa|].
      rewrite Hndx. unfold t2, t1. by tg. }
  assert (same_shape t t6) as Hshape.
  { unfold same_shape, t6. tg. rewrite Hs1, Hs2, Hs3, Hs4. unfold t2, t1. by tg. }
  split_and!; try done.
  destruct Hshape as (Hsh1 & Hsh2 & Hsh3 & Hsh4).
  split.
  - rewrite Hsh1. apply HR.
  - rewrite Hsh1. apply HR.
  - rewrite Hsh2, Hsh3, <-(rep_tour _ _ HR), !tour_of_cons. by rewrite <-!app_assoc.
  - generalize (rep_plink _ _ HR). rewrite !parents_of_cons.
    apply cchain_mono_in. intros a b _ _. unfold plink.
    unfold t6. tg. rewrite !Hpa. unfold t2, t1. tg. by rewrite Hs1.
  - eapply Forall_impl; [exact (rep_pid _ _ HR)|].
    intros a. cbv beta. unfold t6. tg. rewrite !Hpa. unfold t2, t1. tg. by rewrite Hs1.
  - assert (forall r, r <> p -> r <> q -> size_of t6 r = size_of t r /\
              fbegin_of t6 r = fbegin_of t r /\ fend_of t6 r = fend_of t r) as Hpout.
    { intros r Hrp Hrq. unfold t6. tg. dsimp.
      rewrite !Hpa. unfold t2, t1. tg. by dsimp. }
    assert (NoDup ((q' :: l2) ++ (l1 ++ [bd]) ++ (q0 :: l3) ++ tour_of R)) as Hnd2.
    { rewrite Permutation_app_swap_app. revert Hnd'.
      repeat (rewrite <-?app_assoc; simpl). done. }
    apply NoDup_app in Hnd2 as (_ & Hnd2 & _).
    repeat apply Forall_cons_2.
    + destruct Hsp as (Hz & Hh & Hla & Hp' & Hlc). unfold seg_ok; cbn [fst snd] in Hz, Hh, Hla, Hp', Hlc |- *. split_and!.
      * unfold t6. tg. dsimp. rewrite Hpa. unfold t2, t1. tg.
        dsimp.
        rewrite Hz, Hn. rewrite !length_app. simpl. lia.
      * unfold t6. tg. dsimp. rewrite Hpa. unfold t2, t1. tg.
        rewrite <-Hh. by destruct l1.
      * unfold t6. tg. dsimp. by rewrite last_snoc.
      * apply Forall_forall. intros z Hz'. rewrite Forall_forall in Hp'.
        destruct (Hout z) as [-> _]; [|apply Hp'; el].
        intros Hin. apply (Hnd2 z Hin). el.
      * apply chain_app_l in Hlc. revert Hlc. apply chain_mono_in. intros a b Ha Hb Hab.
        destruct (Hout a) as [_ ->]; [intros Hin; apply (Hnd2 a Hin); el|].
        destruct (Hout b) as [_ ->]; [intros Hin; apply (Hnd2 b Hin); el|]. done.
    + destruct Hsq as (Hz & Hh & Hla & Hp' & Hlc). unfold seg_ok; cbn [fst snd] in Hz, Hh, Hla, Hp', Hlc |- *. split_and!.
      * unfold t6. tg. dsimp. rewrite Hpa. unfold t2, t1. tg.
        dsimp.
        rewrite Hz, Hn. rewrite !length_app. simpl. lia.
      * unfold t6. tg. by dsimp.
      * unfold t6. tg. dsimp. rewrite Hpa. unfold t2, t1. tg.
        by rewrite last_app_ne.
      * apply Forall_forall. intros z Hz'. rewrite Forall_forall in Hp'.
        destruct (decide (z ∈ q' :: l2)) as [Hin|Hnin].
        -- unfold t6. tg. apply Hpar. by rewrite elem_of_reverse.
        -- destruct (Hout z Hnin) as [-> _]. apply Hp'. el.
      * change ((q' :: l2) ++ q0 :: l3) with ((q' :: l2) ++ q0 :: l3).
        apply chain_join.
        -- revert Hch'. apply chain_mono. intros a b [_ Hab]. unfold t6. by tg.
        -- revert Hlc. apply chain_mono_in. intros a b Ha Hb Hab.
           destruct (Hout a) as [_ ->]; [intros Hin; apply (Hnd2 a Hin); el|].
           destruct (Hout b) as [_ ->]; [intros Hin; apply (Hnd2 b Hin); el|]. done.
    + apply Forall_forall. intros [r lr] Hr. rewrite Forall_forall in HsR.
      destruct (elem_of_segs R r lr 0 Hr) as [Hrp _].
      destruct (Hpout r) as (E1 & E2 & E3); [el..|].
      apply (seg_ok_frame t); [by apply HsR|done..|].
      intros z Hz. apply Hout. intros Hin. apply (Hnd2 z Hin).
      destruct (elem_of_segs R r lr z Hr) as [_ Hz']. el.
  - generalize (rep_link _ _ HR). rewrite !tour_of_cons.
    replace (((l1 ++ [bd]) ++ q' :: l2) ++ (q0 :: l3) ++ tour_of R)
      with ((l1 ++ [bd]) ++ ((q' :: l2) ++ q0 :: l3) ++ tour_of R) by leq.
    apply cchain_mono_in. intros a b _ _. unfold link. by rewrite Hfw6, Hbw6.
  - generalize (rep_city _ _ HR). rewrite !tour_of_cons.
    replace (((l1 ++ [bd]) ++ q' :: l2) ++ (q0 :: l3) ++ tour_of R)
      with ((l1 ++ [bd]) ++ ((q' :: l2) ++ q0 :: l3) ++ tour_of R) by leq.
    intros Hc. eapply Forall_impl; [exact Hc|]. intros a. cbv beta. by rewrite Hcity6.
Qed.

Lemma sam_backward_collect fuel t p l1 l2 q l3 R s (incl : bool) :
  Rep t ((q, l3) :: (p, l1 ++ l2) :: R) ->
  l2 <> [] ->
  (if incl then last l1 = Some s else head l2 = Some s) ->
  (length l1 < fuel)%nat ->
  collect_segment fuel t backward s (get_prev t s) (if incl then [s] else []) = Some l1
  /\ parent_of t s = p /\ head l2 = Some (if incl then get_next t s else s).
Proof.
  intros HR Hl2 Hs Hf.
  destruct (Rep_front2 _ _ _ _ _ _ HR) as (Hpq & HpR & HqR & Hsq & Hsp & HsR & Hpl & Hnd).
  pose proof (rep_link _ _ HR) as Hlk. apply cchain_chain in Hlk.
  rewrite !tour_of_cons in Hlk.
  destruct l3 as [|q0 l3 _] using rev_ind; [by apply seg_ok_nonempty in Hsq|].
  assert (parent_of t q0 = q) as Hq0 by (eapply seg_ok_parent; [done|el]).
  destruct l2 as [|bd l2]; [done|]. clear Hl2.
  assert (forall z, z ∈ l1 -> parent_of t z = p) as Hpl1.
  { intros z Hz. eapply seg_ok_parent; [done|el]. }
  destruct incl.
  - destruct l1 as [|s' l1 _] using rev_ind; [done|]. rewrite last_snoc in Hs. simplify_eq.
    assert (parent_of t s = p) as Hps by (apply Hpl1; el).
    assert (chain (link t) ((q0 :: l1) ++ [s])) as Hc.
    { apply (chain_infix _ _ l3 _ (bd :: l2 ++ tour_of R) Hlk). leq. }
    assert (link t s bd) as [Hsb _].
    { assert (chain (link t) [s; bd]) as Hbs.
      { apply (chain_infix _ _ (l3 ++ q0 :: l1) _ (l2 ++ tour_of R) Hlk). leq. }
      by apply chain_cons in Hbs as [? _]. }
    split_and!; [|done|by rewrite Hsb].
    apply chain_snoc_last in Hc as [Hc Hh].
    destruct (last (q0 :: l1)) as [z|] eqn:Hz; [|by apply last_None in Hz].
    destruct (Hh z eq_refl) as [_ Hn]. rewrite Hn.
    rewrite (collect_segment_backward t s l1 fuel z q0 [s]).
    + done.
    + done.
    + apply Forall_forall. intros y Hy. rewrite Hps. apply Hpl1. el.
    + congruence.
    + done.
    + rewrite length_app in Hf. simpl in Hf. lia.
  - simpl in Hs. simplify_eq.
    assert (parent_of t s = p) as Hps by (eapply seg_ok_parent; [done|el]).
    split_and!; [|done|done].
    assert (chain (link t) ((q0 :: l1) ++ [s])) as Hc.
    { apply (chain_infix _ _ l3 _ (l2 ++ tour_of R) Hlk). leq. }
    apply chain_snoc_last in Hc as [Hc Hh].
    destruct (last (q0 :: l1)) as [z|] eqn:Hz; [|by apply last_None in Hz].
    destruct (Hh z eq_refl) as [_ Hn]. rewrite Hn.
    rewrite (collect_segment_backward t s l1 fuel z q0 []).
    + by rewrite app_nil_r.
    + done.
    + apply Forall_forall. intros y Hy. rewrite Hps. apply Hpl1. el.
    + congruence.
    + done.
    + lia.
Qed.

Lemma sam_backward_Rep fuel t p l1 l2 q l3 R s (incl : bool) :
  Rep t ((q, l3) :: (p, l1 ++ l2) :: R) ->
  l1 <> [] -> l2 <> [] ->
  (if incl then last l1 = Some s else head l2 = Some s) ->
  (length l1 < fuel)%nat ->
  exists t', split_and_merge fuel t s incl backward = Some t' /\
    Rep t' ((q, l3 ++ l1) :: (p, l2) :: R) /\ same_shape t t' /\
    (forall r, rev_of t' r = rev_of t r) /\
    (forall x, get_next t' x = get_next t x) /\
    (forall x, get_prev t' x = get_prev t x) /\
    (forall x, city_of t' x = city_of t x).
Proof.
  intros HR Hl1 Hl2 Hs Hf.
  destruct (sam_backward_collect _ _ _ _ _ _ _ _ _ _ HR Hl2 Hs Hf) as (Hcol & Hps & Hbd).
  destruct (Rep_front2 _ _ _ _ _ _ HR) as (Hpq & HqR & HpR & Hsq & Hsp & HsR & Hpl & Hnd).
  destruct l1 as [|x temp] eqn:El1; [done|]. rewrite <-El1 in *.
  rewrite El1 in Hcol.
  rewrite (split_and_merge_backward_eq _ _ _ _ _ _ Hcol). cbv zeta.
  destruct Hpl as (Hpn & Hpp & Hpid). rewrite !Hps, !Hpp.
  set (bd := if incl then get_next t s else s) in *.
  rewrite <-El1. clear Hcol.
  set (n := Z.of_nat (length l1)).
  set (t1 := set_p_size t q (size_of t q + n)).
  set (t2 := set_p_size t1 p (size_of t1 p - n)).
  destruct l3 as [|q0 l3 _] using rev_ind; [by apply seg_ok_nonempty in Hsq|].
  assert (fend_of t2 q = q0) as Hq0.
  { unfold t2, t1. tg. destruct Hsq as (_ & _ & Hh & _). simpl in Hh.
    rewrite last_snoc in Hh. congruence. }
  rewrite Hq0.
  assert (NoDup (l3 ++ [q0] ++ l1 ++ l2 ++ tour_of R)) as Hnd'.
  { revert Hnd. by rewrite <-!app_assoc. }
  assert (NoDup (l1 ++ (l3 ++ [q0]) ++ l2 ++ tour_of R)) as Hnd2.
  { rewrite Permutation_app_swap_app. revert Hnd'.
    repeat (rewrite <-?app_assoc; simpl). done. }
  apply NoDup_app in Hnd2 as (Hndl1 & Hnd2 & _).
  destruct (merge_backward t2 l1 q q0 (if rev_of t2 q then -1 else 1))
    as [t3 q'] eqn:Hm.
  apply merge_backward_spec in Hm
    as (Hl & Hpa & Hs1 & Hs2 & Hs3 & Hs4 & Hnd3 & Hpar & Hcity & Hpq0 & Hlid0 & Hbw0 & Hch).
  2:{ unfold t2, t1. tg. eapply seg_ok_parent; [done|el]. }
  2:{ apply NoDup_cons. split; [|done]. intros Hin. apply (Hnd2 q0 Hin). el. }
  2:{ done. }
  simpl. eexists. split; [done|].
  set (t6 := set_fbegin (connect_arc_forward (set_fend t3 q q') q' bd) p bd).
  clear El1 x temp.
  assert (last l1 = Some q') as Hq'.
  { destruct l1; [done|]. by rewrite last_cons_cons in Hl. }
  pose proof (rep_link _ _ HR) as Hlk. apply cchain_chain in Hlk.
  rewrite !tour_of_cons in Hlk.
  assert (chain (link t) (q0 :: l1)) as Hc2.
  { apply (chain_infix _ _ l3 _ (l2 ++ tour_of R) Hlk). leq. }
  destruct l2 as [|bd' l2]; [done|]. injection Hbd as Hbd. rewrite Hbd in *. clear Hl2.
  destruct l1 as [|q'' l1 _] using rev_ind; [done|]. rewrite last_snoc in Hq'.
  injection Hq' as ->. clear Hl1.
  assert (link t q' bd) as [Hbq1 Hbq2].
  { assert (chain (link t) [q'; bd]) as Hbs.
    { apply (chain_infix _ _ (l3 ++ q0 :: l1) _ (l2 ++ tour_of R) Hlk). leq. }
    by apply chain_cons in Hbs as [? _]. }
  assert ((bd ∉ l1 ++ [q']) /\ bd <> q0 /\ (q0 ∉ l1 ++ [q'])) as (Hn1 & Hn2 & Hn3).
  { split_and!.
    - intros Hin. apply (Hnd2 bd Hin). el.
    - intros ->. apply NoDup_app in Hnd' as (_ & _ & Hnd').
      apply NoDup_app in Hnd' as (_ & Hd & _). apply (Hd q0); el.
    - intros Hin. apply (Hnd2 q0 Hin). el. }
  assert (forall r, rev_of t6 r = rev_of t r) as Hrev6.
  { intros r. unfold t6. tg. rewrite Hpa. unfold t2, t1. by tg. }
  assert (chain (fun x y => (get_next t3 x = get_next t x) /\ (get_prev t3 y = get_prev t y))
            (q0 :: l1 ++ [q'])) as Hboth.
  { pose proof (chain_and _ _ _ Hc2 Hch) as Hboth.
    revert Hboth. apply chain_mono. intros a b ([H1 H2] & [H3 H4] & _).
    exact (conj (eq_trans H3 (eq_sym H1)) (eq_trans H4 (eq_sym H2))). }
  apply chain_pointwise in Hboth as [Hbf Hbb].
  assert (forall x, get_next t6 x = get_next t x) as Hfw6.
  { intros x. unfold t6. tg. case_decide as Hx; [by subst|].
    destruct (decide (x ∈ q0 :: l1 ++ [q'])) as [Hin|Hnin].
    - apply Hbf; [done|]. rewrite app_comm_cons, last_snoc. congruence.
    - destruct (view_frame t2 t3 x) as (-> & _ & _).
      * by apply Hnd3.
      * intros r. by rewrite Hpa.
      * unfold t2, t1. by tg. }
  assert (forall x, get_prev t6 x = get_prev t x) as Hbw6.
  { intros x. unfold t6. tg. case_decide as Hx; [by subst|].
    destruct (decide (x ∈ l1 ++ [q'])) as [Hin|Hnin].
    - apply Hbb; [el|]. simpl. intros [= ->]. done.
    - destruct (decide (x = q0)) as [->|Hq0'].
      + rewrite Hbw0. unfold t2, t1. by tg.
      + destruct (view_frame t2 t3 x) as (_ & -> & _).
        * apply Hnd3. el.
        * intros r. by rewrite Hpa.
        * unfold t2, t1. by tg. }
  assert (forall x, city_of t6 x = city_of t x) as Hcity6.
  { intros x. unfold t6. tg. rewrite Hcity. unfold t2, t1. by tg. }
  assert (forall x, x ∉ l1 ++ [q'] -> parent_of t6 x = parent_of t x /\ lid t6 x = lid t x)
    as Hout.
  { intros x Hx. unfold t6. tg. destruct (decide (x = q0)) as [->|Hq0'].
    - rewrite Hpq0, Hlid0. unfold t2, t1. tg.
      split; [|done]. symmetry. eapply seg_ok_parent; [done|el].
    - assert (nd t3 x = nd t2 x) as Hndx.
      { apply Hnd3. el. }
      destruct (view_frame t2 t3 x) as (_ & _ & ->); [done|by intros; rewrite Hpa|].
      rewrite Hndx. unfold t2, t1. by tg. }
  assert (same_shape t t6) as Hshape.
  { unfold same_shape, t6. tg. rewrite Hs1, Hs2, Hs3, Hs4. unfold t2, t1. by tg. }
  split_and!; try done.
  destruct Hshape as (Hsh1 & Hsh2 & Hsh3 & Hsh4).
  split.
  - rewrite Hsh1. apply HR.
  - rewrite Hsh1. apply HR.
  - rewrite Hsh2, Hsh3, <-(rep_tour _ _ HR), !tour_of_cons. by rewrite <-!app_assoc.
  - generalize (rep_plink _ _ HR). rewrite !parents_of_cons.
    apply cchain_mono_in. intros a b _ _. unfold plink.
    unfold t6. tg. rewrite !Hpa. unfold t2, t1. tg. by rewrite Hs1.
  - eapply Forall_impl; [exact (rep_pid _ _ HR)|].
    intros a. cbv beta. unfold t6. tg. rewrite !Hpa. unfold t2, t1. tg. by rewrite Hs1.
  - assert (forall r, r <> p -> r <> q -> size_of t6 r = size_of t r /\
              fbegin_of t6 r = fbegin_of t r /\ fend_of t6 r = fend_of t r) as Hpout.
    { intros r Hrp Hrq. unfold t6. tg. dsimp.
      rewrite !Hpa. unfold t2, t1. tg. by dsimp. }
    repeat apply Forall_cons_2.
    + destruct Hsq as (Hz & Hh & Hla & Hp' & Hlc). unfold seg_ok; cbn [fst snd] in Hz, Hh, Hla, Hp', Hlc |- *. split_and!.
      * unfold t6. tg. dsimp. rewrite Hpa. unfold t2, t1. tg.
        dsimp.
        rewrite Hz. unfold n. rewrite !length_app. simpl. lia.
      * unfold t6. tg. dsimp. rewrite Hpa. unfold t2, t1. tg.
        rewrite <-Hh. by destruct l3.
      * unfold t6. tg. dsimp. by rewrite !app_assoc, last_snoc.
      * apply Forall_forall. intros z Hz'. rewrite Forall_forall in Hp'.
        destruct (decide (z ∈ l1 ++ [q'])) as [Hin|Hnin].
        -- unfold t6. tg. by apply Hpar.
        -- destruct (Hout z Hnin) as [-> _]. apply Hp'. el.
      * rewrite <-app_assoc. apply chain_join.
        -- revert Hlc. apply chain_mono_in. intros a b Ha Hb Hab.
           destruct (Hout a) as [_ ->]; [intros Hin; apply (Hnd2 a Hin); el|].
           destruct (Hout b) as [_ ->]; [intros Hin; apply (Hnd2 b Hin); el|]. done.
        -- revert Hch. apply chain_mono. intros a b [_ Hab]. unfold t6. by tg.
    + destruct Hsp as (Hz & Hh & Hla & Hp' & Hlc). unfold seg_ok; cbn [fst snd] in Hz, Hh, Hla, Hp', Hlc |- *. split_and!.
      * unfold t6. tg. dsimp. rewrite Hpa. unfold t2, t1. tg.
        dsimp.
        rewrite Hz. unfold n. rewrite !length_app. simpl. lia.
      * unfold t6. tg. by dsimp.
      * unfold t6. tg. dsimp. rewrite Hpa. unfold t2, t1. tg.
        by rewrite last_app_ne in Hla.
      * apply Forall_forall. intros z Hz'. rewrite Forall_forall in Hp'.
        destruct (Hout z) as [-> _]; [|apply Hp'; el].
        intros Hin. apply (Hnd2 z Hin). el.
      * apply chain_app_r in Hlc. revert Hlc. apply chain_mono_in. intros a b Ha Hb Hab.
        destruct (Hout a) as [_ ->]; [intros Hin; apply (Hnd2 a Hin); el|].
        destruct (Hout b) as [_ ->]; [intros Hin; apply (Hnd2 b Hin); el|]. done.
    + apply Forall_forall. intros [r lr] Hr. rewrite Forall_forall in HsR.
      destruct (elem_of_segs R r lr 0 Hr) as [Hrp _].
      destruct (Hpout r) as (E1 & E2 & E3); [el..|].
      apply (seg_ok_frame t); [by apply HsR|done..|].
      intros z Hz. apply Hout. intros Hin. apply (Hnd2 z Hin).
      destruct (elem_of_segs R r lr z Hr) as [_ Hz']. el.
  - generalize (rep_link _ _ HR). rewrite !tour_of_cons.
    replace ((l3 ++ [q0]) ++ ((l1 ++ [q']) ++ bd :: l2) ++ tour_of R)
      with (((l3 ++ [q0]) ++ l1 ++ [q']) ++ (bd :: l2) ++ tour_of R) by leq.
    apply cchain_mono_in. intros a b _ _. unfold link. by rewrite Hfw6, Hbw6.
  - generalize (rep_city _ _ HR). rewrite !tour_of_cons.
    replace ((l3 ++ [q0]) ++ ((l1 ++ [q']) ++ bd :: l2) ++ tour_of R)
      with (((l3 ++ [q0]) ++ l1 ++ [q']) ++ (bd :: l2) ++ tour_of R) by leq.
    intros Hc. eapply Forall_impl; [exact Hc|]. intros a. cbv beta. by rewrite Hcity6.
Qed.

(** * Locating a node in the representation *)

Lemma tour_of_split (segs : list segment) x :
  x ∈ tour_of segs ->
  exists S1 p l1 l2 S2, segs = S1 ++ (p, l1 ++ x :: l2) :: S2.
Proof.
  induction segs as [|[p l] segs IH].
  - rewrite tour_of_nil. by intros ?%elem_of_nil.
  - rewrite tour_of_cons, elem_of_app. intros [Hx|Hx].
    + apply list_elem_of_split in Hx as (l1 & l2 & ->). by exists [], p, l1, l2, segs.
    + destruct (IH Hx) as (S1 & p' & l1 & l2 & S2 & ->).
      by exists ((p, l) :: S1), p', l1, l2, S2.
Qed.

Lemma Rep_rest_nonempty t s R : Rep t (s :: R) -> R <> [].
Proof.
  intros HR ->. pose proof (Rep_parents_length _ _ HR) as Hl.
  pose proof (rep_n_parents _ _ HR). simpl in Hl. lia.
Qed.

Lemma Rep_rest_cons t s R : Rep t (s :: R) -> exists q l R', R = (q, l) :: R'.
Proof.
  intros HR. pose proof (Rep_rest_nonempty _ _ _ HR).
  destruct R as [|[q l] R']; [done|]. by exists q, l, R'.
Qed.

Lemma Rep_locate t segs x :
  Rep t segs -> x ∈ tour_of segs ->
  exists l1 l2 q l3 R, Rep t ((parent_of t x, l1 ++ x :: l2) :: (q, l3) :: R).
Proof.
  intros HR Hx. destruct (tour_of_split _ _ Hx) as (S1 & p & l1 & l2 & S2 & ->).
  apply Rep_rotate in HR. simpl in HR.
  destruct (Rep_rest_cons _ _ _ HR) as (q & l3 & R & E). rewrite E in HR.
  destruct (Rep_front2 _ _ _ _ _ _ HR) as (_ & _ & _ & Hsp & _).
  rewrite (seg_ok_parent _ _ _ x Hsp) by el. by exists l1, l2, q, l3, R.
Qed.

Lemma Rep_locate_prev t segs x :
  Rep t segs -> x ∈ tour_of segs ->
  exists l1 l2 q l3 R, Rep t ((q, l3) :: (parent_of t x, l1 ++ x :: l2) :: R).
Proof.
  intros HR Hx. destruct (Rep_locate _ _ _ HR Hx) as (l1 & l2 & q & l3 & R & HR').
  assert (exists R0 s, (q, l3) :: R = R0 ++ [s]) as (R0 & [q0 l0] & E).
  { destruct (decide ((q, l3) :: R = [])) as [|Hne]; [done|].
    apply exists_last in Hne as (R0 & s & ->). by exists R0, s. }
  change ((parent_of t x, l1 ++ x :: l2) :: (q, l3) :: R)
    with ([(parent_of t x, l1 ++ x :: l2)] ++ ((q, l3) :: R)) in HR'.
  rewrite E, app_assoc in HR'. apply Rep_rotate in HR'. simpl in HR'.
  by exists l1, l2, q0, l0, R0.
Qed.

(** * The raw tour depends only on the logical view *)

Lemma raw_tour_loop_ext t t' d count : forall x,
  (forall y, get_next t' y = get_next t y) ->
  (forall y, get_prev t' y = get_prev t y) ->
  (forall y, city_of t' y = city_of t y) ->
  raw_tour_loop t' d count x = raw_tour_loop t d count x.
Proof.
  induction count as [|count IH]; intros x Hn Hp Hc; [done|].
  simpl. rewrite Hc. f_equal. destruct d.
  - rewrite Hn. by apply IH.
  - rewrite Hp. by apply IH.
Qed.

Lemma get_raw_tour_ext t t' c d :
  same_shape t t' ->
  (forall y, get_next t' y = get_next t y) ->
  (forall y, get_prev t' y = get_prev t y) ->
  (forall y, city_of t' y = city_of t y) ->
  get_raw_tour t' c d = get_raw_tour t c d.
Proof.
  intros (_ & Hn & Ho & _) H1 H2 H3. unfold get_raw_tour. rewrite Hn, Ho.
  by apply raw_tour_loop_ext.
Qed.

Lemma check_valid_sound t : check_valid t = true -> valid t.
Proof.
  intros [H1 H2]%andb_true_iff. apply bool_decide_eq_true_1 in H1, H2.
  split; [done|]. by exists (segments_of t).
Qed.

Lemma Rep_valid t t' segs : valid t -> same_shape t t' -> Rep t' segs -> valid t'.
Proof. intros [Ho _] (_ & _ & Ho' & _) HR. split; [lia|]. by exists segs. Qed.

Lemma Rep_seg_length t p l R :
  Rep t ((p, l) :: R) -> (length l <= Z.to_nat (_n_cities t))%nat.
Proof.
  intros HR. pose proof (Rep_tour_length _ _ HR) as Hl.
  rewrite tour_of_cons, length_app in Hl. lia.
Qed.

Lemma Rep_seg2_length t s p l R :
  Rep t (s :: (p, l) :: R) -> (length l <= Z.to_nat (_n_cities t))%nat.
Proof.
  destruct s as [q lq]. intros HR. pose proof (Rep_tour_length _ _ HR) as Hl.
  rewrite !tour_of_cons, !length_app in Hl. lia.
Qed.

Lemma Rep_valid_node t segs x :
  Rep t segs -> is_city_valid t x = true -> x ∈ tour_of segs.
Proof.
  intros HR Hx. apply (Rep_elem_of_tour _ _ x HR).
  unfold is_city_valid in Hx. apply andb_true_iff in Hx as [H1 H2].
  apply bool_decide_eq_true_1 in H1, H2. lia.
Qed.

(** ** [split_and_merge] on a valid tree *)

Lemma split_and_merge_valid fuel t s (incl : bool) d :
  valid t -> is_city_valid t s = true -> keeps_segment t s incl d ->
  (Z.to_nat (_n_cities t) < fuel)%nat ->
  exists t', split_and_merge fuel t s incl d = Some t' /\ valid t' /\ same_shape t t' /\
    (forall r, rev_of t' r = rev_of t r) /\
    (forall x, get_next t' x = get_next t x) /\
    (forall x, get_prev t' x = get_prev t x) /\
    (forall x, city_of t' x = city_of t x).
Proof.
  intros Hv Hs Hk Hf. pose proof Hv as [Ho [segs HR]]. pose proof (Rep_valid_node _ _ _ HR Hs) as Hin.
  assert (forall t0, valid t0 -> exists t', Some t0 = Some t' /\ valid t' /\ same_shape t0 t' /\
    (forall r, rev_of t' r = rev_of t0 r) /\
    (forall x, get_next t' x = get_next t0 x) /\
    (forall x, get_prev t' x = get_prev t0 x) /\
    (forall x, city_of t' x = city_of t0 x)) as Hnop.
  { intros t0 Hv0. exists t0. by split_and!. }
  destruct d.
  - destruct (Rep_locate _ _ _ HR Hin) as (la & lb & q & l3 & R & HR').
    pose proof (Rep_seg_length _ _ _ _ HR') as Hlen.
    rewrite length_app in Hlen. simpl in Hlen.
    destruct (Rep_front2 _ _ _ _ _ _ HR') as (_ & _ & _ & Hsp & _).
    destruct incl.
    + assert (la <> []) as Hla.
      { intros ->. destruct Hsp as (_ & Hh & _). simpl in Hh.
        apply Hk; [done|]. by simplify_eq. }
      destruct (sam_forward_Rep fuel t (parent_of t s) la (s :: lb) q l3 R s true HR' Hla)
        as (t' & E & HR2 & Hrest); [done|done|simpl; lia|].
      exists t'. split_and!; try done; [eapply Rep_valid; [exact Hv|tauto|done]|tauto..].
    + destruct lb as [|b lb].
      * rewrite split_and_merge_nop; [by apply Hnop|].
        destruct (sam_forward_collect fuel t (parent_of t s) (la ++ [s]) [] q l3 R s false) as (E & _).
        -- by rewrite app_nil_r.
        -- by destruct la.
        -- by rewrite last_snoc.
        -- simpl; lia.
        -- done.
      * rewrite cons_middle, app_assoc in HR'.
        destruct (sam_forward_Rep fuel t (parent_of t s) (la ++ [s]) (b :: lb) q l3 R s false HR')
          as (t' & E & HR2 & Hrest); [by destruct la|done|by rewrite last_snoc|simpl in *; lia|].
        exists t'. split_and!; try done; [eapply Rep_valid; [exact Hv|tauto|done]|tauto..].
  - destruct (Rep_locate_prev _ _ _ HR Hin) as (la & lb & q & l3 & R & HR').
    pose proof (Rep_seg2_length _ _ _ _ _ HR') as Hlen.
    rewrite length_app in Hlen. simpl in Hlen.
    apply Rep_rotate with (s1 := [(q, l3)]) in HR' as HR''. simpl in HR''.
    destruct (Rep_rest_cons _ _ _ HR'') as (q' & l' & R' & ER).
    rewrite ER in HR''.
    destruct (Rep_front2 _ _ _ _ _ _ HR'') as (_ & _ & _ & Hsp & _).
    clear HR'' ER q' l' R'.
    destruct incl.
    + assert (lb <> []) as Hlb.
      { intros ->. destruct Hsp as (_ & _ & Hl & _). simpl in Hl.
        rewrite last_snoc in Hl. apply Hk; [done|]. by simplify_eq. }
      rewrite cons_middle, app_assoc in HR'.
      destruct (sam_backward_Rep fuel t (parent_of t s) (la ++ [s]) lb q l3 R s true HR')
        as (t' & E & HR2 & Hrest);
        [by destruct la|done|by rewrite last_snoc|rewrite length_app; simpl; lia|].
      exists t'. split_and!; try done; [eapply Rep_valid; [exact Hv|tauto|done]|tauto..].
    + destruct la as [|a la].
      * rewrite split_and_merge_nop; [by apply Hnop|].
        destruct (sam_backward_collect fuel t (parent_of t s) [] (s :: lb) q l3 R s false) as (E & _);
          [done|done|done|simpl; lia|done].
      * destruct (sam_backward_Rep fuel t (parent_of t s) (a :: la) (s :: lb) q l3 R s false HR')
          as (t' & E & HR2 & Hrest); [done|done|done|simpl in *; lia|].
        exists t'. split_and!; try done; [eapply Rep_valid; [exact Hv|tauto|done]|tauto..].
Qed.

(** C5.  On a valid tree, for every node [s], flag [include_self] and
    direction such that the move does not empty the segment of [s],
    [split_and_merge] returns (for every fuel above the number of cities), the
    resulting tree is valid, and [get_raw_tour] gives the same sequence before
    and after the call, for every start city and both directions. *)
Theorem split_and_merge_keeps_tour fuel t s (include_self : bool) direction :
  valid t -> is_city_valid t s = true -> keeps_segment t s include_self direction ->
  (Z.to_nat (_n_cities t) < fuel)%nat ->
  exists t', split_and_merge fuel t s include_self direction = Some t' /\ valid t' /\
    forall c d, get_raw_tour t' c d = get_raw_tour t c d.
Proof.
  intros Hv Hs Hk Hf.
  destruct (split_and_merge_valid fuel t s include_self direction Hv Hs Hk Hf)
    as (t' & E & Hv' & Hsh & _ & Hn & Hp & Hc).
  exists t'. split_and!; [done..|]. intros c d. by apply get_raw_tour_ext.
Qed.

Lemma split_and_merge_keeps_tour_witness :
  exists t', split_and_merge 100 tree23 6 true forward = Some t' /\ valid t' /\
    forall c d, get_raw_tour t' c d = get_raw_tour tree23 c d.
Proof.
  apply (split_and_merge_keeps_tour 100 tree23 6 true forward).
  - apply check_valid_sound. vm_compute. reflexivity.
  - vm_compute. reflexivity.
  - intros _. vm_compute. lia.
  - vm_compute. lia.
Defined.

(** * Building the invariant of a new state *)

Lemma Rep_intro t t' segs segs' :
  Rep t segs -> same_shape t t' ->
  parents_of segs' ≡ₚ parents_of segs ->
  tour_of segs' ≡ₚ tour_of segs ->
  cchain (plink t') (parents_of segs') ->
  (forall p, p ∈ parents_of segs -> 0 <= pid_of t' p < _n_parents t) ->
  Forall (seg_ok t') segs' ->
  cchain (link t') (tour_of segs') ->
  (forall x, city_of t' x = city_of t x) ->
  Rep t' segs'.
Proof.
  intros [H1 H2 H3 H4 H5 H6 H7 H8] (Hs1 & Hs2 & Hs3 & Hs4) Hp Ht Hpl Hid Hseg Hlk Hc.
  split.
  - by rewrite Hs1.
  - by rewrite Hs1, Hp.
  - by rewrite Hs2, Hs3, Ht.
  - done.
  - rewrite Hs1. apply Forall_forall. intros p Hin. apply Hid. by rewrite <-Hp.
  - done.
  - done.
  - apply Forall_forall. intros x Hx. rewrite Hc. rewrite Forall_forall in H8.
    apply H8. by rewrite <-Ht.
Qed.

Lemma cchain_app2 {A} (R : A -> A -> Prop) (l1 l2 : list A) :
  chain R l1 -> chain R l2 ->
  (forall x y, last l1 = Some x -> head l2 = Some y -> R x y) ->
  (forall x y, last l2 = Some x -> head l1 = Some y -> R x y) ->
  l1 <> [] -> l2 <> [] ->
  cchain R (l1 ++ l2).
Proof.
  intros H1 H2 H12 H21 Hn1 Hn2. apply cchain_intro.
  - apply chain_app. by split_and!.
  - intros x y Hh Hl. apply H21.
    + by rewrite last_app_ne in Hl.
    + by destruct l1.
Qed.

Lemma cchain_app2_inv {A} (R : A -> A -> Prop) (l1 l2 : list A) :
  cchain R (l1 ++ l2) -> l1 <> [] -> l2 <> [] ->
  chain R l1 /\ chain R l2 /\
  (forall x y, last l1 = Some x -> head l2 = Some y -> R x y) /\
  (forall x y, last l2 = Some x -> head l1 = Some y -> R x y).
Proof.
  intros Hc Hn1 Hn2. pose proof (cchain_chain _ _ Hc) as Hch.
  apply chain_app in Hch as (H1 & H2 & H12). split_and!; try done.
  intros x y Hl Hh. eapply cchain_wrap; [exact Hc| |].
  - by destruct l1.
  - by rewrite last_app_ne.
Qed.

Lemma cchain_mono {A} (R R' : A -> A -> Prop) (l : list A) :
  (forall x y, R x y -> R' x y) -> cchain R l -> cchain R' l.
Proof. intros H. apply cchain_mono_in. intros x y _ _. apply H. Qed.

Lemma head_tour_of_cons q (lq : list Z) (R : list segment) :
  lq <> [] -> head (tour_of ((q, lq) :: R)) = head lq.
Proof. intros. rewrite tour_of_cons. by destruct lq. Qed.

Lemma last_tour_of_snoc q (lq : list Z) (R : list segment) :
  lq <> [] -> last (tour_of (R ++ [(q, lq)])) = last lq.
Proof.
  intros. rewrite tour_of_app. change (tour_of [(q, lq)]) with (lq ++ []).
  rewrite app_nil_r. by apply last_app_ne.
Qed.

Lemma list_snoc_inv {A} (l : list A) : l <> [] -> exists l' x, l = l' ++ [x].
Proof.
  intros Hne. destruct l as [|a l] using rev_ind; [done|]. by exists l, a.
Qed.

(** The neighbours of the first segment of a representation. *)
Lemma Rep_neighbors t p l R :
  Rep t ((p, l) :: R) ->
  exists a b na pb,
    head l = Some a /\ last l = Some b /\
    head (tour_of R) = Some na /\ last (tour_of R) = Some pb /\
    fbegin_of t p = a /\ fend_of t p = b /\
    fbegin_of t (pnext_of t p) = na /\ fend_of t (pprev_of t p) = pb /\
    link t b na /\ link t pb a /\
    head (parents_of R) = Some (pnext_of t p) /\
    last (parents_of R) = Some (pprev_of t p).
Proof.
  intros HR. destruct (Rep_rest_cons _ _ _ HR) as (q & lq & R1 & ->).
  destruct (list_snoc_inv ((q, lq) :: R1)) as (R0 & [r lr] & E); [done|].
  destruct (Rep_front2 _ _ _ _ _ _ HR) as (_ & _ & _ & Hsp & Hsq & _ & Hpl & _).
  pose proof (rep_segs _ _ HR) as Hsegs. rewrite E in Hsegs.
  apply Forall_cons in Hsegs as [_ Hsegs]. apply Forall_app in Hsegs as [_ Hsr].
  rewrite Forall_singleton in Hsr.
  pose proof (seg_ok_nonempty _ _ _ Hsp) as Hl.
  pose proof (seg_ok_nonempty _ _ _ Hsq) as Hlq.
  pose proof (seg_ok_nonempty _ _ _ Hsr) as Hlr.
  pose proof (rep_plink _ _ HR) as Hpc. rewrite E in Hpc.
  rewrite parents_of_cons, parents_of_app in Hpc.
  change (parents_of [(r, lr)]) with [r] in Hpc.
  assert (plink t r p) as Hrp.
  { eapply cchain_wrap; [exact Hpc|done|].
    rewrite app_comm_cons. by rewrite last_snoc. }
  pose proof (rep_link _ _ HR) as Hlc. rewrite tour_of_cons in Hlc.
  assert (tour_of ((q, lq) :: R1) <> []) as HT.
  { rewrite tour_of_cons. by destruct lq. }
  apply cchain_app2_inv in Hlc as (_ & _ & H12 & H21); [|done..].
  destruct Hsp as (_ & Hh & Hla & _). destruct Hsq as (_ & Hhq & _).
  destruct Hsr as (_ & _ & Hlar & _). cbn [fst snd] in *.
  destruct Hpl as (Hpn & _). destruct Hrp as (_ & Hpp & _).
  exists (fbegin_of t p), (fend_of t p), (fbegin_of t q), (fend_of t r).
  assert (head (tour_of ((q, lq) :: R1)) = Some (fbegin_of t q)) as HhT.
  { by rewrite head_tour_of_cons. }
  assert (last (tour_of ((q, lq) :: R1)) = Some (fend_of t r)) as HlT.
  { rewrite E. by rewrite last_tour_of_snoc. }
  split_and!; try done.
  - by rewrite Hpn.
  - by rewrite Hpp.
  - by apply H12.
  - by apply H21.
  - rewrite parents_of_cons. simpl. by rewrite Hpn.
  - rewrite E, parents_of_app. change (parents_of [(r, lr)]) with [r].
    rewrite last_snoc. by rewrite Hpp.
Qed.

(** * Reversal of a complete segment *)

Lemma get_next_toggle t p z :
  get_next (set_p_reverse t p (negb (rev_of t p))) z =
  if decide (parent_of t z = p) then get_prev t z else get_next t z.
Proof.
  rewrite get_next_set_p_reverse. case_decide as H; [|done].
  unfold get_prev. rewrite H. by destruct (rev_of t p).
Qed.

Lemma get_prev_toggle t p z :
  get_prev (set_p_reverse t p (negb (rev_of t p))) z =
  if decide (parent_of t z = p) then get_next t z else get_prev t z.
Proof.
  rewrite get_prev_set_p_reverse. case_decide as H; [|done].
  unfold get_next. rewrite H. by destruct (rev_of t p).
Qed.

Lemma lid_toggle t p z :
  lid (set_p_reverse t p (negb (rev_of t p))) z =
  if decide (parent_of t z = p) then - lid t z else lid t z.
Proof.
  rewrite lid_set_p_reverse. case_decide as H; [|done].
  unfold lid. rewrite H. destruct (rev_of t p); simpl; lia.
Qed.

Lemma fbegin_of_toggle t p q :
  fbegin_of (set_p_reverse t p (negb (rev_of t p))) q =
  if decide (q = p) then fend_of t p else fbegin_of t q.
Proof.
  rewrite fbegin_of_set_p_reverse. case_decide as H; [|done].
  unfold forward_end_node. by destruct (rev_of t p).
Qed.

Lemma fend_of_toggle t p q :
  fend_of (set_p_reverse t p (negb (rev_of t p))) q =
  if decide (q = p) then fbegin_of t p else fend_of t q.
Proof.
  rewrite fend_of_set_p_reverse. case_decide as H; [|done].
  unfold forward_begin_node. by destruct (rev_of t p).
Qed.

Lemma set_fw_unfold t x y p :
  parent_of t x = p ->
  set_fw t x y = if rev_of t p then set_n_prev t x y else set_n_next t x y.
Proof. by intros <-. Qed.

Lemma set_bw_unfold t x y p :
  parent_of t x = p ->
  set_bw t x y = if rev_of t p then set_n_next t x y else set_n_prev t x y.
Proof. by intros <-. Qed.

Lemma reverse_complete_segment_eq t a b :
  parent_of t b = parent_of t a ->
  reverse_complete_segment t a b =
  set_bw (set_bw (set_fw (set_fw (set_p_reverse t (parent_of t a)
                                    (negb (rev_of t (parent_of t a))))
                                 (fend_of t (pprev_of t (parent_of t a))) b)
                         a (fbegin_of t (pnext_of t (parent_of t a))))
                 (fbegin_of t (pnext_of t (parent_of t a))) a)
         b (fend_of t (pprev_of t (parent_of t a))).
Proof.
  intros Hb. unfold reverse_complete_segment. rewrite Hb. cbv zeta.
  set (p := parent_of t a) in *.
  set (prev_a := fend_of t (pprev_of t p)).
  set (next_b := fbegin_of t (pnext_of t p)).
  set (t1 := set_p_reverse t p (negb (rev_of t p))).
  change (if rev_of t1 (parent_of t1 prev_a) then set_n_prev t1 prev_a b
          else set_n_next t1 prev_a b) with (set_fw t1 prev_a b).
  set (t2 := set_fw t1 prev_a b).
  rewrite <-(set_fw_unfold t2 a next_b p) by (unfold t2, t1; by tg).
  set (t3 := set_fw t2 a next_b).
  change (if rev_of t3 (parent_of t3 next_b) then set_n_next t3 next_b a
          else set_n_prev t3 next_b a) with (set_bw t3 next_b a).
  set (t4 := set_bw t3 next_b a).
  rewrite <-(set_bw_unfold t4 b prev_a p) by (unfold t4, t3, t2, t1; by tg).
  done.
Qed.

Lemma rcs_view t a b p prev_a next_b t' :
  parent_of t a = p -> parent_of t b = p ->
  prev_a = fend_of t (pprev_of t p) -> next_b = fbegin_of t (pnext_of t p) ->
  t' = reverse_complete_segment t a b ->
  same_shape t t' /\
  (forall x, parent_of t' x = parent_of t x) /\
  (forall x, id_of t' x = id_of t x) /\
  (forall x, city_of t' x = city_of t x) /\
  (forall q, rev_of t' q = if decide (q = p) then negb (rev_of t p) else rev_of t q) /\
  (forall q, size_of t' q = size_of t q /\ pid_of t' q = pid_of t q /\
             pprev_of t' q = pprev_of t q /\ pnext_of t' q = pnext_of t q /\
             begin_of t' q = begin_of t q /\ end_of t' q = end_of t q) /\
  (forall x, get_next t' x =
     if decide (x = a) then next_b else if decide (x = prev_a) then b
     else if decide (parent_of t x = p) then get_prev t x else get_next t x) /\
  (forall x, get_prev t' x =
     if decide (x = b) then prev_a else if decide (x = next_b) then a
     else if decide (parent_of t x = p) then get_next t x else get_prev t x) /\
  (forall x, lid t' x = if decide (parent_of t x = p) then - lid t x else lid t x) /\
  (forall x, x <> a -> x <> b -> x <> prev_a -> x <> next_b -> nd t' x = nd t x).
Proof.
  intros Ha Hb Hpa Hnb ->. rewrite reverse_complete_segment_eq by congruence.
  rewrite Ha, <-Hpa, <-Hnb. split_and!.
  - unfold same_shape. by tg.
  - intros x. by tg.
  - intros x. by tg.
  - intros x. by tg.
  - intros q. by tg.
  - intros q. by tg.
  - intros x. by rewrite !get_next_set_bw, !get_next_set_fw, get_next_toggle.
  - intros x. by rewrite !get_prev_set_bw, !get_prev_set_fw, get_prev_toggle.
  - intros x. by rewrite !lid_set_bw, !lid_set_fw, lid_toggle.
  - intros x H1 H2 H3 H4.
    by rewrite !nd_set_bw_ne, !nd_set_fw_ne, nd_set_p_reverse.
Qed.

Lemma elem_of_tour_of (R : list segment) x :
  x ∈ tour_of R <-> exists q lq, (q, lq) ∈ R /\ x ∈ lq.
Proof.
  induction R as [|[r lr] R IH].
  - rewrite tour_of_nil. split; [by intros ?%elem_of_nil|].
    by intros (? & ? & ?%elem_of_nil & _).
  - rewrite tour_of_cons, elem_of_app, IH. split.
    + intros [H|(q & lq & H1 & H2)].
      * exists r, lr. split; [left|done].
      * exists q, lq. split; [by right|done].
    + intros (q & lq & [H1|H1]%elem_of_cons & H2); [left; by simplify_eq|right; eauto].
Qed.

Lemma Rep_rest_elem t p l R x :
  Rep t ((p, l) :: R) -> x ∈ tour_of R -> parent_of t x <> p /\ x ∉ l.
Proof.
  intros HR Hx. pose proof (Rep_NoDup_parents _ _ HR) as Hnp.
  pose proof (Rep_NoDup_tour _ _ HR) as Hnt.
  rewrite parents_of_cons in Hnp. rewrite tour_of_cons in Hnt.
  apply NoDup_cons in Hnp as [Hp _]. apply NoDup_app in Hnt as (_ & Hd & _).
  split; [|intros Hl; by apply (Hd x)].
  apply elem_of_tour_of in Hx as (q & lq & Hin & Hx).
  pose proof (rep_segs _ _ HR) as Hs. apply Forall_cons in Hs as [_ Hs].
  rewrite Forall_forall in Hs. rewrite (seg_ok_parent _ _ _ _ (Hs _ Hin) Hx).
  intros ->. apply Hp. by apply (elem_of_segs R p lq x).
Qed.

Lemma fbegin_of_eq t t' p :
  rev_of t' p = rev_of t p -> begin_of t' p = begin_of t p -> end_of t' p = end_of t p ->
  fbegin_of t' p = fbegin_of t p /\ fend_of t' p = fend_of t p.
Proof.
  intros H1 H2 H3. unfold forward_begin_node, forward_end_node. by rewrite H1, H2, H3.
Qed.

Lemma fbegin_of_flip t t' p :
  rev_of t' p = negb (rev_of t p) -> begin_of t' p = begin_of t p ->
  end_of t' p = end_of t p ->
  fbegin_of t' p = fend_of t p /\ fend_of t' p = fbegin_of t p.
Proof.
  intros H1 H2 H3. unfold forward_begin_node, forward_end_node.
  rewrite H1, H2, H3. by destruct (rev_of t p).
Qed.

Lemma reverse_complete_segment_Rep t p l R a b :
  Rep t ((p, l) :: R) -> head l = Some a -> last l = Some b ->
  Rep (reverse_complete_segment t a b) ((p, lrev l) :: R).
Proof.
  intros HR Hha Hlb.
  destruct (Rep_neighbors _ _ _ _ HR)
    as (a' & b' & na & pb & Hha' & Hlb' & HhT & HlT & Hfb & Hfe & Hna & Hpb & Hbn & Hpa & _).
  assert (a' = a) as -> by congruence. assert (b' = b) as -> by congruence.
  pose proof (rep_segs _ _ HR) as Hsegs. apply Forall_cons in Hsegs as [Hsp HsR].
  pose proof (Rep_NoDup_tour _ _ HR) as Hnd. rewrite tour_of_cons in Hnd.
  pose proof (Rep_NoDup_parents _ _ HR) as Hndp. rewrite parents_of_cons in Hndp.
  apply NoDup_cons in Hndp as [HpR _].
  apply NoDup_app in Hnd as (Hndl & Hdisj & HndT).
  assert (a ∈ l) as Hal by (by apply head_Some_elem_of).
  assert (b ∈ l) as Hbl by (by apply last_Some_elem_of).
  assert (na ∈ tour_of R) as HnaT by (by apply head_Some_elem_of).
  assert (pb ∈ tour_of R) as HpbT by (by apply last_Some_elem_of).
  assert (forall x, x ∈ l -> parent_of t x = p) as Hpar by (intros; by eapply seg_ok_parent).
  assert (forall x, x ∈ tour_of R -> parent_of t x <> p /\ x ∉ l) as HparT
    by (intros; by eapply Rep_rest_elem).
  destruct (rcs_view t a b p pb na _ (Hpar _ Hal) (Hpar _ Hbl) (eq_sym Hpb) (eq_sym Hna) eq_refl)
    as (Hsh & Hvp & Hvi & Hvc & Hvr & Hvq & Hvn & Hvv & Hvl & _).
  set (t' := reverse_complete_segment t a b) in *. clearbody t'.
  assert (l <> []) as Hl by (intros ->; done).
  assert (tour_of R <> []) as HT by (intros E; rewrite E in HhT; done).
  pose proof (rep_link _ _ HR) as Hlk. rewrite tour_of_cons in Hlk.
  apply cchain_app2_inv in Hlk as (Hcl & HcT & _ & _); [|done..].
  apply (Rep_intro t t' ((p, l) :: R)); try done.
  - rewrite !tour_of_cons. by rewrite reverse_Permutation.
  - generalize (rep_plink _ _ HR). apply cchain_mono. intros x y (H1 & H2 & H3).
    destruct (Hvq x) as (_ & Hx1 & _ & Hx2 & _). destruct (Hvq y) as (_ & Hy1 & Hy2 & _).
    destruct Hsh as (Hs1 & _). unfold plink. rewrite Hx1, Hx2, Hy1, Hy2, Hs1. done.
  - intros q Hq. destruct (Hvq q) as (_ & -> & _).
    pose proof (rep_pid _ _ HR) as Hid. rewrite Forall_forall in Hid. by apply Hid.
  - apply Forall_cons. split.
    + destruct Hsp as (Hz & Hh & Hla & Hp' & Hlc). cbn [fst snd] in *.
      destruct (Hvq p) as (Hq1 & _ & _ & _ & Hq2 & Hq3).
      destruct (fbegin_of_flip t t' p) as [Hfb' Hfe']; [by rewrite Hvr, decide_True|done..|].
      unfold seg_ok. cbn [fst snd]. split_and!.
      * by rewrite Hq1, length_reverse.
      * by rewrite head_reverse, Hfb'.
      * by rewrite last_reverse, Hfe'.
      * apply Forall_forall. intros x Hx. rewrite elem_of_reverse in Hx. rewrite Hvp. by apply Hpar.
      * apply chain_reverse. revert Hlc. apply chain_mono_in. intros x y Hx Hy Hxy.
        rewrite !Hvl. rewrite !decide_True by (by apply Hpar). lia.
    + apply Forall_forall. intros [q lq] Hq. rewrite Forall_forall in HsR.
      assert (q <> p) as Hqp.
      { intros ->. apply HpR. by apply (elem_of_segs R p lq 0). }
      destruct (Hvq q) as (Hq1 & _ & _ & _ & Hq2 & Hq3).
      destruct (fbegin_of_eq t t' q) as [Hfb' Hfe']; [by rewrite Hvr, decide_False|done..|].
      apply (seg_ok_frame t); [by apply HsR|done..|].
      intros x Hx. split; [done|]. rewrite Hvl, decide_False; [done|].
      apply HparT. by apply (elem_of_segs R q lq x).
  - rewrite tour_of_cons. apply cchain_app2.
    + apply chain_reverse. revert Hcl. apply chain_mono_pos; [done|].
      intros x y Hx Hy Hlx Hhy [H1 H2]. split.
      * rewrite Hvn. rewrite decide_False by congruence.
        rewrite decide_False by (intros ->; by apply (HparT pb)).
        by rewrite decide_True by (by apply Hpar).
      * rewrite Hvv. rewrite decide_False by congruence.
        rewrite decide_False by (intros ->; by apply (HparT na)).
        by rewrite decide_True by (by apply Hpar).
    + apply (link_chain_frame t); [done..| |].
      * intros x Hx Hlx. rewrite Hvn.
        rewrite decide_False by (intros ->; by apply (HparT a)).
        rewrite decide_False by congruence.
        rewrite decide_False; [done|by apply HparT].
      * intros x Hx Hlx. rewrite Hvv.
        rewrite decide_False by (intros ->; by apply (HparT b)).
        rewrite decide_False by congruence.
        rewrite decide_False; [done|by apply HparT].
    + intros x y. rewrite last_reverse. intros ? ?.
      assert (x = a) as -> by congruence. assert (y = na) as -> by congruence. split.
      * by rewrite Hvn, decide_True.
      * rewrite Hvv. rewrite decide_False by (intros ->; by apply (HparT b)).
        by rewrite decide_True.
    + intros x y. rewrite head_reverse. intros ? ?.
      assert (x = pb) as -> by congruence. assert (y = b) as -> by congruence. split.
      * rewrite Hvn. rewrite decide_False by (intros ->; by apply (HparT a)).
        by rewrite decide_True.
      * by rewrite Hvv, decide_True.
    + by destruct l using rev_ind; [|rewrite reverse_snoc].
    + done.
Qed.

(** * The loops of [reverse_partial_segment] *)

Lemma collect_path_spec t b l : forall fuel x temp,
  chain (link t) (l ++ [b]) -> b ∉ l -> head (l ++ [b]) = Some x ->
  (length l < fuel)%nat ->
  collect_path fuel t x b temp = Some (lrev l ++ temp).
Proof.
  induction l as [|a l IH]; intros fuel x temp Hc Hb Hx Hf.
  - simpl in *. simplify_eq. destruct fuel; [lia|]. simpl.
    by rewrite bool_decide_eq_false_2 by (by intros ?).
  - simpl in *. simplify_eq. destruct fuel; [lia|]. simpl.
    apply not_elem_of_cons in Hb as [Hbx Hb].
    rewrite bool_decide_eq_true_2 by done.
    apply chain_cons_head in Hc as [Hc Hh].
    assert (exists y l', l ++ [b] = y :: l') as (y & l' & E).
    { destruct l; simpl; eauto. }
    destruct (Hh y) as [Hn _]; [by rewrite E|]. rewrite Hn.
    rewrite (IH fuel y (x :: temp)); [|done|done|by rewrite E|lia].
    by rewrite reverse_cons, <-app_assoc.
Qed.

Lemma connect_path_spec temp : forall t p,
  NoDup (p :: temp) ->
  (forall q, pa (connect_path t temp p) q = pa t q) /\
  same_shape t (connect_path t temp p) /\
  (forall x, parent_of (connect_path t temp p) x = parent_of t x) /\
  (forall x, id_of (connect_path t temp p) x = id_of t x) /\
  (forall x, city_of (connect_path t temp p) x = city_of t x) /\
  (forall x, x ∉ p :: temp -> nd (connect_path t temp p) x = nd t x) /\
  chain (link (connect_path t temp p)) (p :: temp) /\
  get_prev (connect_path t temp p) p = get_prev t p /\
  (forall e, last (p :: temp) = Some e ->
             get_next (connect_path t temp p) e = get_next t e).
Proof.
  induction temp as [|q temp IH]; intros t p Hnd.
  - simpl. by split_and!.
  - simpl. set (t1 := connect_arc_forward t p q).
    apply NoDup_cons in Hnd as [Hp Hnd].
    apply not_elem_of_cons in Hp as [Hpq Hp].
    destruct (IH t1 q Hnd) as (Hpa & Hsh & Hpar & Hid & Hcity & Hout & Hch & Hprev & Hlast).
    set (t' := connect_path t1 temp q) in *. clearbody t'.
    assert (forall r, rev_of t' r = rev_of t1 r) as Hrev by (intros r; by rewrite Hpa).
    split_and!.
    + intros r. rewrite Hpa. unfold t1. by tg.
    + eapply same_shape_trans; [|exact Hsh]. unfold t1, same_shape. by tg.
    + intros x. rewrite Hpar. unfold t1. by tg.
    + intros x. rewrite Hid. unfold t1. by tg.
    + intros x. rewrite Hcity. unfold t1. by tg.
    + intros x Hx. apply not_elem_of_cons in Hx as [Hxp Hx].
      rewrite Hout by done. apply not_elem_of_cons in Hx as [Hxq Hx].
      unfold t1. by rewrite nd_connect_arc_forward_ne.
    + apply chain_cons. split; [|done]. split.
      * destruct (view_frame t1 t' p) as (-> & _ & _); [apply Hout; el|done|].
        unfold t1. by rewrite get_next_connect_arc_forward, decide_True.
      * rewrite Hprev. unfold t1. by rewrite get_prev_connect_arc_forward, decide_True.
    + destruct (view_frame t1 t' p) as (_ & -> & _); [apply Hout; el|done|].
      unfold t1. by rewrite get_prev_connect_arc_forward, decide_False.
    + intros e He. rewrite (Hlast e He).
      unfold t1. rewrite get_next_connect_arc_forward, decide_False; [done|].
      intros ->. apply last_Some_elem_of in He. el.
Qed.

Lemma relabel_loop_spec rest : forall fuel t s e,
  NoDup (s :: rest) -> chain (fun x y => next_of t x = y) (s :: rest) ->
  last (s :: rest) = Some e -> (length rest < fuel)%nat ->
  exists t', relabel_loop fuel t s e = Some t' /\
    (forall q, pa t' q = pa t q) /\ same_shape t t' /\
    (forall x, next_of t' x = next_of t x) /\
    (forall x, prev_of t' x = prev_of t x) /\
    (forall x, parent_of t' x = parent_of t x) /\
    (forall x, city_of t' x = city_of t x) /\
    (forall x, x ∉ rest -> id_of t' x = id_of t x) /\
    chain (fun x y => id_of t' y = id_of t' x + 1) (s :: rest).
Proof.
  induction rest as [|y rest IH]; intros fuel t s e Hnd Hc Hl Hf.
  - simpl in Hl. simplify_eq. destruct fuel; [lia|]. simpl.
    rewrite bool_decide_eq_false_2 by (by intros ?).
    exists t. by split_and!.
  - destruct fuel; [simpl in Hf; lia|]. simpl.
    apply NoDup_cons in Hnd as [Hs Hnd]. rewrite last_cons_cons in Hl.
    assert (s <> e) as Hse.
    { intros ->. apply Hs. by apply last_Some_elem_of. }
    rewrite bool_decide_eq_true_2 by done.
    apply chain_cons in Hc as [Hsy Hc]. rewrite Hsy.
    rewrite next_of_set_n_id, Hsy.
    set (t1 := set_n_id t y (id_of t s + 1)).
    apply not_elem_of_cons in Hs as [Hsy' Hs].
    pose proof Hnd as Hnd'. apply NoDup_cons in Hnd' as [Hy _].
    destruct (IH fuel t1 y e) as (t' & E & Hpa & Hsh & Hn & Hp & Hpar & Hc' & Hid & Hch);
      [done| |done|simpl in Hf; lia|].
    { revert Hc. apply chain_mono. intros u v Huv. unfold t1. by tg. }
    exists t'. split_and!.
    + done.
    + intros q. rewrite Hpa. unfold t1. by tg.
    + eapply same_shape_trans; [|exact Hsh]. unfold t1, same_shape. by tg.
    + intros x. rewrite Hn. unfold t1. by tg.
    + intros x. rewrite Hp. unfold t1. by tg.
    + intros x. rewrite Hpar. unfold t1. by tg.
    + intros x. rewrite Hc'. unfold t1. by tg.
    + intros x Hx. apply not_elem_of_cons in Hx as [Hxy Hx].
      rewrite Hid by done. unfold t1. by rewrite id_of_set_n_id, decide_False.
    + apply chain_cons. split; [|done].
      rewrite !Hid by done. unfold t1.
      rewrite !id_of_set_n_id, decide_True by done. by rewrite decide_False.
Qed.

Lemma relabel_id_spec fuel t s e v rest :
  NoDup (s :: rest) -> chain (fun x y => next_of t x = y) (s :: rest) ->
  last (s :: rest) = Some e -> (length rest < fuel)%nat ->
  exists t', relabel_id fuel t s e v = Some t' /\
    (forall q, pa t' q = pa t q) /\ same_shape t t' /\
    (forall x, next_of t' x = next_of t x) /\
    (forall x, prev_of t' x = prev_of t x) /\
    (forall x, parent_of t' x = parent_of t x) /\
    (forall x, city_of t' x = city_of t x) /\
    (forall x, x ∉ s :: rest -> id_of t' x = id_of t x) /\
    id_of t' s = v /\
    chain (fun x y => id_of t' y = id_of t' x + 1) (s :: rest).
Proof.
  intros Hnd Hc Hl Hf. unfold relabel_id.
  set (t1 := set_n_id t s v).
  pose proof Hnd as Hnd'. apply NoDup_cons in Hnd' as [Hs _].
  destruct (relabel_loop_spec rest fuel t1 s e)
    as (t' & E & Hpa & Hsh & Hn & Hp & Hpar & Hc' & Hid & Hch); [done| |done|done|].
  { revert Hc. apply chain_mono. intros u w Huw. unfold t1. by tg. }
  exists t'. split_and!.
  - done.
  - intros q. rewrite Hpa. unfold t1. by tg.
  - eapply same_shape_trans; [|exact Hsh]. unfold t1, same_shape. by tg.
  - intros x. rewrite Hn. unfold t1. by tg.
  - intros x. rewrite Hp. unfold t1. by tg.
  - intros x. rewrite Hpar. unfold t1. by tg.
  - intros x. rewrite Hc'. unfold t1. by tg.
  - intros x Hx. apply not_elem_of_cons in Hx as [Hxs Hx].
    rewrite Hid by done. unfold t1. by rewrite id_of_set_n_id, decide_False.
  - rewrite Hid by done. unfold t1. by rewrite id_of_set_n_id, decide_True.
  - done.
Qed.

(** * Positions inside a segment *)

Lemma chain_offset {A} (f : A -> Z) (l : list A) : forall h i x,
  chain (fun x y => f y = f x + 1) l -> head l = Some h -> l !! i = Some x ->
  f x = f h + Z.of_nat i.
Proof.
  induction l as [|a l IH]; intros h i x Hc Hh Hi; [done|].
  simpl in Hh. simplify_eq. destruct i as [|i]; simpl in Hi.
  - simplify_eq. lia.
  - apply chain_cons_head in Hc as [Hc Hhd].
    destruct l as [|y l]; [done|].
    rewrite (IH y i x Hc eq_refl Hi), (Hhd y eq_refl). lia.
Qed.

Lemma chain_offset_last {A} (f : A -> Z) (l : list A) h e :
  chain (fun x y => f y = f x + 1) l -> head l = Some h -> last l = Some e ->
  f e = f h + Z.of_nat (length l) - 1.
Proof.
  intros Hc Hh He. rewrite last_lookup in He.
  rewrite (chain_offset f l h _ e Hc Hh He).
  destruct l; [done|]. simpl. lia.
Qed.

Lemma chain_offset_lt {A} (f : A -> Z) (l1 l2 : list A) x y :
  chain (fun x y => f y = f x + 1) (l1 ++ l2) -> x ∈ l1 -> y ∈ l2 -> f x < f y.
Proof.
  intros Hc Hx Hy.
  apply list_elem_of_lookup in Hx as [i Hi]. apply list_elem_of_lookup in Hy as [j Hj].
  destruct (l1 ++ l2) as [|h l] eqn:E; [by destruct l1|].
  assert ((l1 ++ l2) !! i = Some x) as Hi'.
  { by apply lookup_app_l_Some. }
  assert ((l1 ++ l2) !! (length l1 + j)%nat = Some y) as Hj'.
  { by rewrite lookup_app_r, Nat.add_comm, Nat.add_sub by lia. }
  rewrite E in Hi', Hj'.
  rewrite (chain_offset f _ h _ x Hc eq_refl Hi'), (chain_offset f _ h _ y Hc eq_refl Hj').
  apply lookup_lt_Some in Hi. lia.
Qed.

Lemma NoDup_head_last {A} (l : list A) u :
  NoDup l -> head l = Some u -> last l = Some u -> l = [u].
Proof.
  intros Hnd Hh Hl. destruct l as [|a l]; [done|]. simpl in Hh. simplify_eq.
  destruct l as [|c l]; [done|]. exfalso.
  apply NoDup_cons in Hnd as [Hu _]. apply Hu.
  rewrite last_cons_cons in Hl. by apply last_Some_elem_of.
Qed.

Lemma head_last_split {A} (m : list A) a b :
  head m = Some a -> last m = Some b -> a <> b -> exists m', m = a :: m' ++ [b].
Proof.
  intros Hh Hl Hab. destruct m as [|x m]; [done|]. simpl in Hh. simplify_eq.
  destruct (list_snoc_inv m) as (m' & y & ->).
  - intros ->. simpl in Hl. congruence.
  - rewrite app_comm_cons, last_snoc in Hl. simplify_eq. by exists m'.
Qed.

(** * Reversal of a part of a segment *)

Lemma reverse_partial_segment_Rep fuel t p l1 m l2 R a b :
  Rep t ((p, l1 ++ m ++ l2) :: R) ->
  head m = Some a -> last m = Some b -> a <> b ->
  l1 <> [] \/ l2 <> [] -> (length m < fuel)%nat ->
  exists t', reverse_partial_segment fuel t a b = Some t' /\
    Rep t' ((p, l1 ++ lrev m ++ l2) :: R) /\ same_shape t t'.
Proof.
  intros HR Hha Hlb Hab Hl12 Hf.
  destruct (head_last_split m a b Hha Hlb Hab) as (m' & Em).
  set (T := tour_of R).
  set (X := l2 ++ T ++ l1).
  (* the cyclic tour, cut before [a] *)
  pose proof (rep_link _ _ HR) as Hlk. rewrite tour_of_cons in Hlk. fold T in Hlk.
  rewrite <-app_assoc in Hlk. apply cchain_rotate in Hlk.
  rewrite <-!app_assoc in Hlk. fold X in Hlk.
  pose proof (Rep_NoDup_tour _ _ HR) as Hnd. rewrite tour_of_cons in Hnd. fold T in Hnd.
  assert (NoDup (m ++ X)) as HndX.
  { unfold X. revert Hnd. rewrite <-!app_assoc.
    rewrite (Permutation_app_comm l1). by rewrite <-!app_assoc. }
  destruct (Rep_neighbors _ _ _ _ HR)
    as (fb & fe & na & pb & Hfb & Hfe & HhT & HlT & Hfb' & Hfe' & _).
  fold T in HhT, HlT.
  assert (T <> []) as HT by (intros E; rewrite E in HhT; done).
  assert (m <> []) as Hm by (intros E; rewrite E in Hha; done).
  assert (exists next_b, head X = Some next_b) as [next_b HhX].
  { unfold X. destruct l2; simpl; eauto. destruct T; simpl; [done|eauto]. }
  assert (exists prev_a, last X = Some prev_a) as [prev_a HlX].
  { destruct (last X) eqn:E; [eauto|]. apply last_None in E. unfold X in E.
    apply app_eq_nil in E as [_ E]. by apply app_eq_nil in E as [E _]. }
  assert (X <> []) as HX by (intros E; rewrite E in HhX; done).
  destruct (cchain_app2_inv _ _ _ Hlk Hm HX) as (Hcm & HcX & HmX & HXm).
  destruct (HmX b next_b Hlb HhX) as [Hnb Hnb'].
  destruct (HXm prev_a a HlX Hha) as [Hpa' Hpa].
  pose proof (rep_segs _ _ HR) as Hsegs. apply Forall_cons in Hsegs as [Hsp HsR].
  destruct Hsp as (Hsz & Hh & Hla & Hpar & Hlid). cbn [fst snd] in Hsz, Hh, Hla, Hpar, Hlid.
  rewrite Forall_forall in Hpar.
  assert (a ∈ m) as Ham by (by apply head_Some_elem_of).
  assert (b ∈ m) as Hbm by (by apply last_Some_elem_of).
  assert (parent_of t a = p) as Hap by (apply Hpar; el).
  assert (parent_of t b = p) as Hbp by (apply Hpar; el).
  assert (next_b ∈ X) as HnbX by (by apply head_Some_elem_of).
  assert (prev_a ∈ X) as HpaX by (by apply last_Some_elem_of).
  pose proof HndX as HndX'. apply NoDup_app in HndX' as (Hndm & HdmX & HndXX).
  assert (prev_a <> next_b) as Hpn.
  { intros ->. assert (X = [next_b]) as EX by (by apply NoDup_head_last).
    apply (f_equal length) in EX. unfold X in EX. rewrite !length_app in EX. simpl in EX.
    destruct T; [done|]. destruct Hl12 as [H|H]; [destruct l1|destruct l2]; simpl in *;
      try done; lia. }
  assert (NoDup (prev_a :: lrev m ++ [next_b])) as Hnd1.
  { apply NoDup_cons. split.
    - rewrite elem_of_app, elem_of_reverse, list_elem_of_singleton.
      intros [H|H]; [by apply (HdmX prev_a)|done].
    - apply NoDup_app. split_and!.
      + by rewrite reverse_Permutation.
      + intros x Hx Hx'. rewrite elem_of_reverse in Hx.
        rewrite list_elem_of_singleton in Hx'. subst x. by apply (HdmX next_b).
      + apply NoDup_singleton. }
  unfold reverse_partial_segment. rewrite Hpa, Hnb.
  rewrite (collect_path_spec t b m' fuel (get_next t a) [a; next_b]); cycle 1.
  { rewrite Em in Hcm. by apply chain_tail in Hcm. }
  { rewrite Em in Hndm. apply NoDup_cons in Hndm as [_ Hndm].
    apply NoDup_app in Hndm as (_ & Hd & _). intros Hb. apply (Hd b Hb). el. }
  { rewrite Em in Hcm. apply chain_cons_head in Hcm as [_ Hcm].
    destruct (m' ++ [b]) as [|y ?] eqn:E; [by destruct m'|].
    destruct (Hcm y eq_refl) as [-> _]. done. }
  { rewrite Em in Hf. simpl in Hf. rewrite length_app in Hf. simpl in Hf. lia. }
  cbn [mbind option_bind].
  replace (b :: lrev m' ++ [a; next_b]) with (lrev m ++ [next_b]); cycle 1.
  { rewrite Em, reverse_cons, reverse_app. simpl. by rewrite <-app_assoc. }
  destruct (connect_path_spec (lrev m ++ [next_b]) t prev_a Hnd1)
    as (Hpa1 & Hsh1 & Hpar1 & Hid1 & Hcity1 & Hout1 & Hch1 & Hprev1 & Hlast1).
  set (t1 := connect_path t (lrev m ++ [next_b]) prev_a) in *. clearbody t1.
  rewrite Hap.
  (* the end points of the segment *)
  pose proof Hnd as HndL. apply NoDup_app in HndL as (HndL & _ & _).
  assert (forall x, x ∈ l1 -> x ∉ m) as Hd1.
  { intros x Hx Hx'. apply NoDup_app in HndL as (_ & Hd & _). apply (Hd x Hx). el. }
  assert (forall x, x ∈ l2 -> x ∉ m) as Hd2.
  { intros x Hx Hx'. apply NoDup_app in HndL as (_ & _ & HndL).
    apply NoDup_app in HndL as (_ & Hd & _). by apply (Hd x Hx'). }
  assert ((l1 = [] /\ fb = a) \/ (l1 <> [] /\ fb ∈ l1)) as Hfbc.
  { destruct l1 as [|x l1']; [left|right].
    - split; [done|]. simpl in Hfb. rewrite Em in Hfb. simpl in Hfb. congruence.
    - split; [done|]. simpl in Hfb. simplify_eq. el. }
  assert ((l2 = [] /\ fe = b) \/ (l2 <> [] /\ fe ∈ l2)) as Hfec.
  { destruct (decide (l2 = [])) as [->|Hne]; [left|right].
    - split; [done|]. rewrite app_nil_r, last_app_ne in Hfe by done. congruence.
    - split; [done|]. rewrite app_assoc, last_app_ne in Hfe by done.
      by apply last_Some_elem_of. }
  set (t2 := if bool_decide (a = begin_of t1 p) then set_segment_begin_node t1 p b
             else if bool_decide (a = end_of t1 p) then set_segment_end_node t1 p b
             else if bool_decide (b = begin_of t1 p) then set_segment_begin_node t1 p a
             else if bool_decide (b = end_of t1 p) then set_segment_end_node t1 p a
             else t1).
  assert (t2 = match l1, l2 with
               | [], _ => set_fbegin t1 p b
               | _, [] => set_fend t1 p a
               | _, _ => t1
               end) as Et2.
  { unfold t2, set_fbegin, set_fend. rewrite !Hpa1.
    unfold forward_begin_node in Hfb'. unfold forward_end_node in Hfe'.
    destruct (rev_of t p); rewrite Hfb', Hfe';
      destruct Hfbc as [[-> ->]|[Hn1 Hi1]]; destruct Hfec as [[-> ->]|[Hn2 Hi2]];
      try (destruct Hl12; done).
    - rewrite bool_decide_eq_false_2 by (intros ->; by apply (Hd2 fe)).
      by rewrite bool_decide_eq_true_2.
    - rewrite bool_decide_eq_false_2 by done.
      rewrite bool_decide_eq_false_2 by (intros ->; by apply (Hd1 fb)).
      rewrite bool_decide_eq_true_2 by done. by destruct l1.
    - rewrite bool_decide_eq_false_2 by (intros ->; by apply (Hd2 fe)).
      rewrite bool_decide_eq_false_2 by (intros ->; by apply (Hd1 fb)).
      rewrite bool_decide_eq_false_2 by (intros ->; by apply (Hd2 fe)).
      rewrite bool_decide_eq_false_2 by (intros ->; by apply (Hd1 fb)).
      destruct l1; [done|]. by destruct l2.
    - by rewrite bool_decide_eq_true_2.
    - rewrite bool_decide_eq_false_2 by (intros ->; by apply (Hd1 fb)).
      rewrite bool_decide_eq_false_2 by done.
      rewrite bool_decide_eq_false_2 by (intros ->; by apply (Hd1 fb)).
      rewrite bool_decide_eq_true_2 by done. by destruct l1.
    - rewrite bool_decide_eq_false_2 by (intros ->; by apply (Hd1 fb)).
      rewrite bool_decide_eq_false_2 by (intros ->; by apply (Hd2 fe)).
      rewrite bool_decide_eq_false_2 by (intros ->; by apply (Hd1 fb)).
      rewrite bool_decide_eq_false_2 by (intros ->; by apply (Hd2 fe)).
      destruct l1; [done|]. by destruct l2. }
  clearbody t2.
  assert (forall x, nd t2 x = nd t1 x) as Hnd2.
  { intros x. rewrite Et2. destruct l1; [by tg|]. destruct l2; by tg. }
  assert (forall q, rev_of t2 q = rev_of t q /\ size_of t2 q = size_of t q /\
                    pid_of t2 q = pid_of t q /\ pprev_of t2 q = pprev_of t q /\
                    pnext_of t2 q = pnext_of t q) as Hpa2.
  { intros q. rewrite <-!Hpa1, Et2. destruct l1; [by tg|]. destruct l2; by tg. }
  assert (forall q, q <> p -> fbegin_of t2 q = fbegin_of t q /\ fend_of t2 q = fend_of t q)
    as Hq2.
  { intros q Hq. rewrite <-!Hpa1, Et2. destruct l1; [tg; by dsimp|]. destruct l2; tg; by dsimp. }
  assert (head (l1 ++ lrev m ++ l2) = Some (fbegin_of t2 p)) as Hfb2.
  { rewrite Et2. destruct l1 as [|x1 l1'].
    - rewrite fbegin_of_set_fbegin, decide_True by done. simpl.
      rewrite Em, reverse_cons, reverse_app. done.
    - simpl in *. destruct l2; tg; by rewrite Hpa1, Hfb'. }
  assert (last (l1 ++ lrev m ++ l2) = Some (fend_of t2 p)) as Hfe2.
  { rewrite Et2. destruct Hfec as [[-> ->]|[Hn2 Hi2]].
    - rewrite app_nil_r, last_app_ne by (rewrite Em, reverse_cons; by destruct (lrev (m' ++ [b]))).
      rewrite last_reverse, Hha. destruct l1; [destruct Hl12; done|].
      by rewrite fend_of_set_fend, decide_True.
    - rewrite app_assoc, last_app_ne by done.
      rewrite app_assoc, last_app_ne in Hfe by done. rewrite Hfe.
      destruct l1; [|destruct l2; [done|]]; tg; by rewrite Hpa1, Hfe'. }
  assert (forall x, get_next t2 x = get_next t1 x /\ get_prev t2 x = get_prev t1 x /\
                    lid t2 x = lid t x /\ id_of t2 x = id_of t x /\
                    parent_of t2 x = parent_of t x /\ city_of t2 x = city_of t x) as Hv2.
  { intros x. destruct (view_frame t1 t2 x) as (-> & -> & ->); [done| |].
    { intros q. destruct (Hpa2 q) as [-> _]. by rewrite Hpa1. }
    rewrite Hnd2, Hid1, Hpar1, Hcity1. split_and!; try done.
    apply lid_frame; [done..|]. intros q. by rewrite Hpa1. }
  (* the old local IDs *)
  assert (lid t b = lid t a + Z.of_nat (length m) - 1) as Hkb.
  { apply (chain_offset_last (lid t) m); [|done..].
    by apply chain_app_r, chain_app_l in Hlid. }
  assert (forall z, last l1 = Some z -> lid t a = lid t z + 1) as Hk1.
  { intros z Hz. apply chain_app in Hlid as (_ & _ & Hj). apply Hj; [done|].
    rewrite Em. done. }
  assert (forall z, head l2 = Some z -> lid t z = lid t b + 1) as Hk2.
  { intros z Hz. rewrite app_assoc in Hlid. apply chain_app in Hlid as (_ & _ & Hj).
    apply Hj; [|done]. by rewrite last_app_ne. }
  assert (Z.abs (id_of t a - id_of t b) + 1 = Z.of_nat (length m)) as Hlen.
  { assert (1 <= length m)%nat by (rewrite Em; simpl; lia).
    revert Hkb. unfold lid. rewrite Hap, Hbp. destruct (rev_of t p); lia. }
  rewrite Hlen.
  assert (forall z, last l1 = Some z -> prev_a = z) as Hpl1.
  { intros z Hz. unfold X in HlX. rewrite app_assoc, last_app_ne in HlX; [congruence|].
    intros E; by rewrite E in Hz. }
  assert (forall z, head l2 = Some z -> next_b = z) as Hnl2.
  { intros z Hz. unfold X in HhX. destruct l2; [done|]. simpl in *. congruence. }
  (* the links after the reconnection *)
  assert (chain (link t1) (lrev m)) as Hcm1.
  { apply chain_tail in Hch1. by apply chain_app_l in Hch1. }
  assert (link t1 prev_a b) as Hlpb.
  { apply chain_cons_head in Hch1 as [_ Hch1]. apply Hch1.
    rewrite Em, reverse_cons, reverse_app. done. }
  assert (link t1 a next_b) as Hlan.
  { apply chain_tail in Hch1. apply chain_app in Hch1 as (_ & _ & Hch1).
    apply Hch1; [|done]. by rewrite last_reverse. }
  assert (forall x, x ∈ l1 ++ m ++ l2 -> parent_of t1 x = p /\ parent_of t2 x = p) as Hpar12.
  { intros x Hx. destruct (Hv2 x) as (_ & _ & _ & _ & -> & _). rewrite Hpar1. split; by apply Hpar. }
  assert (forall x, x ∈ m -> x ∈ l1 ++ m ++ l2) as HmL by (intros; el).
  assert (1 <= length m)%nat as Hlm by (rewrite Em; simpl; lia).
  match goal with
  | |- exists t', ?f = Some t' /\ _ =>
      assert (exists t', f = Some t' /\ same_shape t2 t' /\ (forall q, pa t' q = pa t2 q) /\
        (forall x, next_of t' x = next_of t2 x) /\ (forall x, prev_of t' x = prev_of t2 x) /\
        (forall x, parent_of t' x = parent_of t2 x) /\ (forall x, city_of t' x = city_of t2 x) /\
        (forall x, x ∉ m -> id_of t' x = id_of t2 x) /\
        chain (fun x y => lid t' y = lid t' x + 1) (lrev m) /\ lid t' b = lid t a)
        as (t' & E & Hsh3 & Hpa3 & Hn3 & Hp3 & Hpar3 & Hcity3 & Hid3 & Hch3 & Hb3)
  end.
  { destruct (Hpa2 p) as [Hr2 _]. rewrite Hr2.
    destruct (rev_of t p) eqn:Hr.
    - set (a_id := if bool_decide (a = begin_of t2 p)
                   then id_of t2 (next_of t2 b) - Z.of_nat (length m)
                   else id_of t2 (prev_of t2 a) + 1).
      destruct (relabel_id_spec fuel t2 a b a_id (m' ++ [b]))
        as (t' & E & Hpa3 & Hsh3 & Hn3 & Hp3 & Hpar3 & Hcity3 & Hid3 & Hida & Hch3).
      { by rewrite <-Em. }
      { rewrite <-Em. apply (proj1 (chain_reverse _ _)) in Hcm1. revert Hcm1. apply chain_mono_in.
        intros x y Hx Hy [_ Hxy]. revert Hxy. unfold get_prev.
        destruct (Hpar12 x (HmL x Hx)) as [-> _]. rewrite Hpa1, Hr. by rewrite Hnd2. }
      { by rewrite <-Em. }
      { rewrite Em in Hf. simpl in Hf. lia. }
      rewrite <-Em in Hid3, Hch3.
      assert (forall x, x ∈ m -> lid t' x = - id_of t' x) as Hlid3.
      { intros x Hx. unfold lid. rewrite Hpar3. destruct (Hpar12 x (HmL x Hx)) as [_ ->].
        by rewrite Hpa3, Hr2. }
      exists t'. split_and!; try done.
      + apply chain_reverse. revert Hch3. apply chain_mono_in. intros x y Hx Hy Hxy.
        rewrite !Hlid3 by done. lia.
      + rewrite Hlid3 by done.
        rewrite (chain_offset_last (fun x => id_of t' x) m a b Hch3 Hha Hlb), Hida.
        unfold a_id. unfold forward_end_node in Hfe2. rewrite Hr2 in Hfe2.
        destruct Hfec as [[El2 Efe]|[Hn2 Hi2]].
        * rewrite El2, app_nil_r, last_app_ne in Hfe2
            by (rewrite Em, reverse_cons; by destruct (lrev (m' ++ [b]))).
          rewrite last_reverse, Hha in Hfe2.
          rewrite bool_decide_eq_true_2 by congruence.
          destruct Hl12 as [Hl1|?]; [|done].
          destruct (list_snoc_inv l1 Hl1) as (l1' & z & ->).
          destruct (Hv2 b) as (_ & Hgp & _). revert Hgp. unfold get_prev at 1.
          destruct (Hpar12 b (HmL b Hbm)) as [_ ->]. rewrite Hr2.
          destruct Hlpb as [_ ->]. intros ->.
          destruct (Hv2 prev_a) as (_ & _ & _ & -> & _).
          pose proof (Hk1 z) as Hk1'. rewrite last_snoc in Hk1'. specialize (Hk1' eq_refl).
          rewrite <-(Hpl1 z) in Hk1' by (by rewrite last_snoc).
          revert Hk1'. unfold lid. rewrite Hap.
          rewrite (Hpar prev_a) by (rewrite (Hpl1 z) by (by rewrite last_snoc); el).
          rewrite Hr. lia.
        * rewrite bool_decide_eq_false_2; cycle 1.
          { intros Ha. rewrite app_assoc, last_app_ne in Hfe2 by done.
            apply last_Some_elem_of in Hfe2. rewrite <-Ha in Hfe2. by apply (Hd2 a). }
          destruct l2 as [|z l2']; [done|].
          destruct (Hv2 a) as (Hgn & _). revert Hgn. unfold get_next at 1.
          destruct (Hpar12 a (HmL a Ham)) as [_ ->]. rewrite Hr2.
          destruct Hlan as [-> _]. intros ->.
          rewrite (Hnl2 z eq_refl).
          destruct (Hv2 z) as (_ & _ & _ & -> & _).
          pose proof (Hk2 z eq_refl) as Hk2'. revert Hk2' Hkb. unfold lid. rewrite Hap, Hbp.
          rewrite (Hpar z) by el. rewrite Hr. lia.
    - set (b_id := if bool_decide (b = begin_of t2 p)
                   then id_of t2 (next_of t2 a) - Z.of_nat (length m)
                   else id_of t2 (prev_of t2 b) + 1).
      assert (lrev m = b :: lrev m' ++ [a]) as Erm.
      { by rewrite Em, reverse_cons, reverse_app. }
      destruct (relabel_id_spec fuel t2 b a b_id (lrev m' ++ [a]))
        as (t' & E & Hpa3 & Hsh3 & Hn3 & Hp3 & Hpar3 & Hcity3 & Hid3 & Hidb & Hch3).
      { rewrite <-Erm. by rewrite reverse_Permutation. }
      { rewrite <-Erm. revert Hcm1. apply chain_mono_in.
        intros x y Hx Hy [Hxy _]. revert Hxy. unfold get_next.
        rewrite elem_of_reverse in Hx.
        destruct (Hpar12 x (HmL x Hx)) as [-> _]. rewrite Hpa1, Hr. by rewrite Hnd2. }
      { by rewrite <-Erm, last_reverse. }
      { rewrite length_app, length_reverse. rewrite Em in Hf. simpl in *.
        rewrite length_app in Hf. simpl in *. lia. }
      rewrite <-Erm in Hid3, Hch3.
      assert (forall x, x ∈ m -> lid t' x = id_of t' x) as Hlid3.
      { intros x Hx. unfold lid. rewrite Hpar3. destruct (Hpar12 x (HmL x Hx)) as [_ ->].
        by rewrite Hpa3, Hr2. }
      exists t'. split_and!; try done.
      + intros x Hx. apply Hid3. by rewrite elem_of_reverse.
      + revert Hch3. apply chain_mono_in. intros x y Hx Hy Hxy.
        rewrite elem_of_reverse in Hx, Hy. by rewrite !Hlid3.
      + rewrite Hlid3 by done. rewrite Hidb.
        unfold b_id. unfold forward_begin_node in Hfb2. rewrite Hr2 in Hfb2.
        destruct Hfbc as [[El1 Efb]|[Hn1 Hi1]].
        * rewrite El1, Erm in Hfb2. simpl in Hfb2.
          rewrite bool_decide_eq_true_2 by congruence.
          destruct Hl12 as [?|Hl2]; [done|].
          destruct l2 as [|z l2']; [done|].
          destruct (Hv2 a) as (Hgn & _). revert Hgn. unfold get_next at 1.
          destruct (Hpar12 a (HmL a Ham)) as [_ ->]. rewrite Hr2.
          destruct Hlan as [-> _]. intros ->.
          rewrite (Hnl2 z eq_refl).
          destruct (Hv2 z) as (_ & _ & _ & -> & _).
          pose proof (Hk2 z eq_refl) as Hk2'. revert Hk2' Hkb. unfold lid. rewrite Hap, Hbp.
          rewrite (Hpar z) by el. rewrite Hr. lia.
        * rewrite bool_decide_eq_false_2; cycle 1.
          { intros Hbb. destruct l1 as [|x1 l1']; [done|]. simpl in Hfb2.
            assert (x1 = b) as -> by congruence. apply (Hd1 b); [el|done]. }
          destruct (list_snoc_inv l1 Hn1) as (l1' & z & El1).
          destruct (Hv2 b) as (_ & Hgp & _). revert Hgp. unfold get_prev at 1.
          destruct (Hpar12 b (HmL b Hbm)) as [_ ->]. rewrite Hr2.
          destruct Hlpb as [_ ->]. intros ->.
          destruct (Hv2 prev_a) as (_ & _ & _ & -> & _).
          pose proof (Hk1 z) as Hk1'. rewrite El1, last_snoc in Hk1'. specialize (Hk1' eq_refl).
          rewrite <-(Hpl1 z) in Hk1' by (by rewrite El1, last_snoc).
          revert Hk1'. unfold lid. rewrite Hap.
          rewrite (Hpar prev_a) by (rewrite (Hpl1 z) by (by rewrite El1, last_snoc); rewrite El1; el).
          rewrite Hr. lia.
  }
  assert (same_shape t1 t2) as Hsh2.
  { rewrite Et2. destruct l1; [|destruct l2]; unfold same_shape; by tg. }
  assert (forall q, rev_of t' q = rev_of t q /\ size_of t' q = size_of t q /\
                    pid_of t' q = pid_of t q /\ pprev_of t' q = pprev_of t q /\
                    pnext_of t' q = pnext_of t q /\
                    fbegin_of t' q = fbegin_of t2 q /\ fend_of t' q = fend_of t2 q) as Hpq3.
  { intros q. rewrite !Hpa3. destruct (Hpa2 q) as (-> & -> & -> & -> & ->). done. }
  assert (forall x, get_next t' x = get_next t1 x /\ get_prev t' x = get_prev t1 x) as Hv3.
  { intros x. destruct (Hv2 x) as (<- & <- & _). unfold get_next, get_prev.
    by rewrite Hpar3, Hpa3, Hn3, Hp3. }
  assert (forall x y, link t1 x y -> link t' x y) as Hlink3.
  { intros x y [H1 H2]. destruct (Hv3 x) as [Hx _]. destruct (Hv3 y) as [_ Hy].
    split; congruence. }
  assert (forall x, x ∉ m -> lid t' x = lid t x) as Hlid3.
  { intros x Hx. destruct (Hv2 x) as (_ & _ & <- & _). unfold lid.
    by rewrite Hpar3, Hpa3, Hid3. }
  assert (forall x, parent_of t' x = parent_of t x) as Hparent3.
  { intros x. rewrite Hpar3. by destruct (Hv2 x) as (_ & _ & _ & _ & -> & _). }
  pose proof (Rep_NoDup_parents _ _ HR) as Hndp. rewrite parents_of_cons in Hndp.
  apply NoDup_cons in Hndp as [HpR _].
  assert (same_shape t t') as Hsh.
  { eapply same_shape_trans; [exact Hsh1|]. eapply same_shape_trans; [exact Hsh2|done]. }
  exists t'. split; [done|]. split; [|done].
  apply (Rep_intro t t' ((p, l1 ++ m ++ l2) :: R)); try done.
  - rewrite !tour_of_cons. by rewrite reverse_Permutation.
  - generalize (rep_plink _ _ HR). apply cchain_mono. intros x y (H1 & H2 & H3).
    destruct (Hpq3 x) as (_ & _ & Hx1 & _ & Hx2 & _).
    destruct (Hpq3 y) as (_ & _ & Hy1 & Hy2 & _).
    destruct Hsh as (Hs1 & _). unfold plink. rewrite Hx1, Hx2, Hy1, Hy2, Hs1. done.
  - intros q Hq. destruct (Hpq3 q) as (_ & _ & -> & _).
    pose proof (rep_pid _ _ HR) as Hpid. rewrite Forall_forall in Hpid. by apply Hpid.
  - apply Forall_cons. split.
    + destruct (Hpq3 p) as (_ & Hz3 & _ & _ & _ & Hfb3 & Hfe3).
      unfold seg_ok. cbn [fst snd]. split_and!.
      * rewrite Hz3, Hsz. by rewrite !length_app, length_reverse.
      * by rewrite Hfb3.
      * by rewrite Hfe3.
      * apply Forall_forall. intros x Hx. rewrite Hparent3. apply Hpar.
        revert Hx. rewrite !elem_of_app, elem_of_reverse. tauto.
      * assert (chain (fun x y => lid t' y = lid t' x + 1) l1) as Hc1.
        { apply chain_app_l in Hlid. revert Hlid. apply chain_mono_in.
          intros x y Hx Hy Hxy. rewrite !Hlid3 by (by apply Hd1). done. }
        assert (chain (fun x y => lid t' y = lid t' x + 1) l2) as Hc2.
        { apply chain_app_r, chain_app_r in Hlid. revert Hlid. apply chain_mono_in.
          intros x y Hx Hy Hxy. rewrite !Hlid3 by (by apply Hd2). done. }
        assert (lid t' a = lid t b) as Ha3.
        { rewrite (chain_offset_last (lid t') (lrev m) b a Hch3);
            [|by rewrite head_reverse|by rewrite last_reverse].
          rewrite Hb3, length_reverse. lia. }
        apply chain_app. split_and!; [done| |].
        -- apply chain_app. split_and!; [done..|].
           intros x y Hx Hy. rewrite last_reverse in Hx.
           assert (x = a) as -> by congruence.
           rewrite (Hlid3 y) by (apply Hd2; by apply head_Some_elem_of).
           rewrite Ha3. by apply Hk2.
        -- intros x y Hx Hy.
           assert (y = b) as ->.
           { rewrite Em, reverse_cons, reverse_app in Hy. simpl in Hy. congruence. }
           rewrite (Hlid3 x) by (apply Hd1; by apply last_Some_elem_of).
           rewrite Hb3. by apply Hk1.
    + apply Forall_forall. intros [q lq] Hq. rewrite Forall_forall in HsR.
      assert (q <> p) as Hqp.
      { intros ->. apply HpR. by apply (elem_of_segs R p lq 0). }
      destruct (Hpq3 q) as (_ & Hz3 & _ & _ & _ & Hfb3 & Hfe3).
      destruct (Hq2 q Hqp) as [Hfbq Hfeq].
      apply (seg_ok_frame t); [by apply HsR|done|congruence|congruence|].
      intros x Hx. split; [done|]. apply Hlid3.
      assert (x ∈ T) as HxT by (by apply (elem_of_segs R q lq x)).
      intros Hxm. apply (HdmX x Hxm). unfold X. el.
  - rewrite tour_of_cons. fold T.
    assert (forall q, rev_of t1 q = rev_of t q) as Hrev1 by (intros q; by rewrite Hpa1).
    assert (cchain (link t') (lrev m ++ X)) as Hfinal.
    { apply cchain_app2.
      - revert Hcm1. by apply chain_mono.
      - eapply chain_mono; [exact Hlink3|].
        apply (link_chain_frame t); [done..| |].
        + intros x Hx Hlx. destruct (decide (x = next_b)) as [->|Hxn].
          * apply Hlast1. by rewrite app_comm_cons, last_snoc.
          * assert (nd t1 x = nd t x) as Hndx.
            { apply Hout1. rewrite not_elem_of_cons, elem_of_app, elem_of_reverse.
              rewrite list_elem_of_singleton. split; [congruence|].
              intros [Hxm|?]; [|done]. by apply (HdmX x). }
            by destruct (view_frame t t1 x Hndx Hrev1) as (-> & _ & _).
        + intros x Hx Hhx. destruct (decide (x = prev_a)) as [->|Hxn]; [done|].
          assert (nd t1 x = nd t x) as Hndx.
          { apply Hout1. rewrite not_elem_of_cons, elem_of_app, elem_of_reverse.
            rewrite list_elem_of_singleton. split; [done|].
            intros [Hxm|?]; [by apply (HdmX x)|congruence]. }
          by destruct (view_frame t t1 x Hndx Hrev1) as (_ & -> & _).
      - intros x y Hx Hy. rewrite last_reverse in Hx.
        assert (x = a) as -> by congruence. assert (y = next_b) as -> by congruence.
        by apply Hlink3.
      - intros x y Hx Hy. rewrite head_reverse in Hy.
        assert (x = prev_a) as -> by congruence. assert (y = b) as -> by congruence.
        by apply Hlink3.
      - rewrite Em, reverse_cons. by destruct (lrev (m' ++ [b])).
      - done. }
    unfold X in Hfinal. rewrite !app_assoc in Hfinal. apply cchain_rotate in Hfinal.
    revert Hfinal. by rewrite <-!app_assoc.
  - intros x. rewrite Hcity3. by destruct (Hv2 x) as (_ & _ & _ & _ & _ & ->).
Qed.

(** * The encoded tour *)

Lemma Rep_tour_rep t segs : Rep t segs -> tour_rep t (tour_of segs).
Proof. intros [H1 H2 H3 H4 H5 H6 H7 H8]. by split_and!. Qed.

Lemma tour_rep_rotate t l1 l2 : tour_rep t (l1 ++ l2) -> tour_rep t (l2 ++ l1).
Proof.
  intros (H1 & H2 & H3). split_and!.
  - by apply cchain_rotate.
  - by rewrite Permutation_app_comm.
  - rewrite Forall_app in *. tauto.
Qed.

Lemma tour_rep_NoDup t L : tour_rep t L -> NoDup L.
Proof. intros (_ & H & _). rewrite H. apply NoDup_seqZ. Qed.

Lemma tour_rep_length t L : tour_rep t L -> length L = Z.to_nat (_n_cities t).
Proof. intros (_ & H & _). by rewrite H, length_seqZ. Qed.

(** * Segment end points and positions *)

Lemma seg_endpoints t p l1 m l2 R a b :
  Rep t ((p, l1 ++ m ++ l2) :: R) ->
  head m = Some a -> last m = Some b -> a <> b ->
  (a = fbegin_of t p <-> l1 = []) /\ (b = fend_of t p <-> l2 = []) /\
  a <> fend_of t p /\ b <> fbegin_of t p.
Proof.
  intros HR Hha Hlb Hab.
  pose proof (rep_segs _ _ HR) as Hsegs. apply Forall_cons in Hsegs as [Hsp _].
  destruct Hsp as (_ & Hh & Hla & _). cbn [fst snd] in Hh, Hla.
  pose proof (Rep_NoDup_tour _ _ HR) as Hnd. rewrite tour_of_cons in Hnd.
  apply NoDup_app in Hnd as (Hnd & _ & _).
  assert (a ∈ m) as Ham by (by apply head_Some_elem_of).
  assert (b ∈ m) as Hbm by (by apply last_Some_elem_of).
  assert (m <> []) as Hm by (intros E; by rewrite E in Hha).
  assert (forall x, x ∈ l1 -> x ∉ m) as Hd1.
  { intros x Hx Hx'. apply NoDup_app in Hnd as (_ & Hd & _). apply (Hd x Hx). el. }
  assert (forall x, x ∈ l2 -> x ∉ m) as Hd2.
  { intros x Hx Hx'. apply NoDup_app in Hnd as (_ & _ & Hnd).
    apply NoDup_app in Hnd as (_ & Hd & _). by apply (Hd x Hx'). }
  assert (head (l1 ++ m ++ l2) = if decide (l1 = []) then Some a else head l1) as Hh'.
  { destruct l1; simpl; [|done]. by destruct m. }
  assert (last (l1 ++ m ++ l2) = if decide (l2 = []) then Some b else last l2) as Hl'.
  { destruct (decide (l2 = [])) as [E|E].
    - by rewrite E, app_nil_r, last_app_ne.
    - by rewrite app_assoc, last_app_ne. }
  rewrite Hh in Hh'. rewrite Hla in Hl'.
  destruct (decide (l1 = [])) as [E1|E1]; destruct (decide (l2 = [])) as [E2|E2];
    split_and!; try (split; [done|congruence]); try congruence;
    try (split; [|done]; intros Hx; exfalso);
    try intros Hx.
  all: first [ apply (Hd1 a); [apply head_Some_elem_of; congruence|done]
             | apply (Hd2 b); [apply last_Some_elem_of; congruence|done]
             | apply (Hd2 a); [apply last_Some_elem_of; congruence|done]
             | apply (Hd1 b); [apply head_Some_elem_of; congruence|done] ].
Qed.

Lemma lid_of_parent t x p :
  parent_of t x = p -> lid t x = if rev_of t p then - id_of t x else id_of t x.
Proof. by intros <-. Qed.

Lemma is_path_in_single_segment_lid t a b :
  is_path_in_single_segment t a b =
  bool_decide (parent_of t a = parent_of t b /\ lid t a < lid t b).
Proof.
  unfold is_path_in_single_segment, lid. case_bool_decide as Hp.
  - rewrite <-Hp. destruct (rev_of t (parent_of t a));
      apply bool_decide_ext; intuition lia.
  - symmetry. apply bool_decide_eq_false_2. tauto.
Qed.

Lemma path_length_eq t p l1 m l2 R a b :
  Rep t ((p, l1 ++ m ++ l2) :: R) -> head m = Some a -> last m = Some b ->
  parent_of t a = p /\ parent_of t b = p /\
  lid t b = lid t a + Z.of_nat (length m) - 1 /\
  Z.abs (id_of t a - id_of t b) + 1 = Z.of_nat (length m).
Proof.
  intros HR Hha Hlb.
  pose proof (rep_segs _ _ HR) as Hsegs. apply Forall_cons in Hsegs as [Hsp _].
  assert (a ∈ m) as Ham by (by apply head_Some_elem_of).
  assert (b ∈ m) as Hbm by (by apply last_Some_elem_of).
  assert (parent_of t a = p) as Hap by (eapply seg_ok_parent; [done|el]).
  assert (parent_of t b = p) as Hbp by (eapply seg_ok_parent; [done|el]).
  destruct Hsp as (_ & _ & _ & _ & Hlid). cbn [fst snd] in Hlid.
  assert (lid t b = lid t a + Z.of_nat (length m) - 1) as Hkb.
  { apply (chain_offset_last (lid t) m); [|done..].
    by apply chain_app_r, chain_app_l in Hlid. }
  split_and!; try done.
  assert (1 <= length m)%nat by (destruct m; [done|simpl; lia]).
  revert Hkb. unfold lid. rewrite Hap, Hbp. destruct (rev_of t p); lia.
Qed.

(** * [split_and_merge] at the front of a representation *)

Lemma sam_front_forward fuel t p l1 l2 R s (incl : bool) :
  Rep t ((p, l1 ++ l2) :: R) -> l1 <> [] ->
  (if incl then head l2 = Some s else last l1 = Some s) ->
  (Z.to_nat (_n_cities t) < fuel)%nat ->
  exists t' R', split_and_merge fuel t s incl forward = Some t' /\
    Rep t' ((p, l1) :: R') /\ tour_of R' = l2 ++ tour_of R /\ same_shape t t'.
Proof.
  intros HR Hl1 Hs Hf. destruct (Rep_rest_cons _ _ _ HR) as (q & l3 & R1 & ->).
  pose proof (Rep_seg_length _ _ _ _ HR) as Hlen. rewrite length_app in Hlen.
  destruct (decide (l2 = [])) as [->|Hl2].
  - destruct incl; [done|]. exists t, ((q, l3) :: R1). rewrite app_nil_r in HR.
    split_and!; [|done|done|apply same_shape_refl].
    apply split_and_merge_nop.
    destruct (sam_forward_collect fuel t p l1 [] q l3 R1 s false) as (E & _);
      [by rewrite app_nil_r|done|done|simpl; lia|done].
  - destruct (sam_forward_Rep fuel t p l1 l2 q l3 R1 s incl HR Hl1 Hl2 Hs)
      as (t' & E & HR' & Hsh & _); [lia|].
    exists t', ((q, l2 ++ l3) :: R1). split_and!; [done..| |done].
    by rewrite !tour_of_cons, app_assoc.
Qed.

Lemma sam_front_backward fuel t p l1 l2 R s (incl : bool) :
  Rep t ((p, l1 ++ l2) :: R) -> l2 <> [] ->
  (if incl then last l1 = Some s else head l2 = Some s) ->
  (Z.to_nat (_n_cities t) < fuel)%nat ->
  exists t' R', split_and_merge fuel t s incl backward = Some t' /\
    Rep t' ((p, l2) :: R') /\ tour_of R' = tour_of R ++ l1 /\ same_shape t t'.
Proof.
  intros HR Hl2 Hs Hf.
  pose proof (Rep_seg_length _ _ _ _ HR) as Hlen. rewrite length_app in Hlen.
  destruct (list_snoc_inv R (Rep_rest_nonempty _ _ _ HR)) as (R0 & [q l3] & ->).
  change ((p, l1 ++ l2) :: R0 ++ [(q, l3)]) with (((p, l1 ++ l2) :: R0) ++ [(q, l3)]) in HR.
  apply Rep_rotate in HR. simpl in HR.
  destruct (decide (l1 = [])) as [->|Hl1].
  - destruct incl; [done|]. exists t, (R0 ++ [(q, l3)]). simpl in HR.
    split_and!; [| |by rewrite app_nil_r|apply same_shape_refl].
    + apply split_and_merge_nop.
      destruct (sam_backward_collect fuel t p [] l2 q l3 R0 s false) as (E & _);
        [done|done|done|simpl; lia|done].
    + change ((p, l2) :: R0 ++ [(q, l3)]) with (((p, l2) :: R0) ++ [(q, l3)]).
      by apply (Rep_rotate t [(q, l3)]).
  - destruct (sam_backward_Rep fuel t p l1 l2 q l3 R0 s incl HR Hl1 Hl2 Hs)
      as (t' & E & HR' & Hsh & _); [lia|].
    exists t', (R0 ++ [(q, l3 ++ l1)]). split_and!; [done| | |done].
    + change ((p, l2) :: R0 ++ [(q, l3 ++ l1)]) with (((p, l2) :: R0) ++ [(q, l3 ++ l1)]).
      by apply (Rep_rotate t' [(q, l3 ++ l1)]).
    + rewrite !tour_of_app. change (tour_of [(q, l3 ++ l1)]) with ((l3 ++ l1) ++ []).
      change (tour_of [(q, l3)]) with (l3 ++ []). by rewrite !app_nil_r, !app_assoc.
Qed.

(** * [split_and_merge] in the middle of a representation *)

Lemma sam_forward_mid fuel t S1 p l1 l2 q l3 S2 s (incl : bool) :
  Rep t (S1 ++ (p, l1 ++ l2) :: (q, l3) :: S2) -> l1 <> [] -> l2 <> [] ->
  (if incl then head l2 = Some s else last l1 = Some s) ->
  (Z.to_nat (_n_cities t) < fuel)%nat ->
  exists t', split_and_merge fuel t s incl forward = Some t' /\
    Rep t' (S1 ++ (p, l1) :: (q, l2 ++ l3) :: S2) /\ same_shape t t'.
Proof.
  intros HR Hl1 Hl2 Hs Hf. apply Rep_rotate in HR. simpl in HR.
  pose proof (Rep_seg_length _ _ _ _ HR) as Hlen. rewrite length_app in Hlen.
  destruct (sam_forward_Rep fuel t p l1 l2 q l3 (S2 ++ S1) s incl HR Hl1 Hl2 Hs)
    as (t' & E & HR' & Hsh & _); [lia|].
  exists t'. split_and!; [done| |done].
  by apply (Rep_rotate t' ((p, l1) :: (q, l2 ++ l3) :: S2) S1).
Qed.

Lemma sam_backward_mid fuel t S1 p l1 l2 q l3 S2 s (incl : bool) :
  Rep t (S1 ++ (q, l3) :: (p, l1 ++ l2) :: S2) -> l1 <> [] -> l2 <> [] ->
  (if incl then last l1 = Some s else head l2 = Some s) ->
  (Z.to_nat (_n_cities t) < fuel)%nat ->
  exists t', split_and_merge fuel t s incl backward = Some t' /\
    Rep t' (S1 ++ (q, l3 ++ l1) :: (p, l2) :: S2) /\ same_shape t t'.
Proof.
  intros HR Hl1 Hl2 Hs Hf. apply Rep_rotate in HR. simpl in HR.
  pose proof (Rep_seg2_length _ _ _ _ _ HR) as Hlen. rewrite length_app in Hlen.
  destruct (sam_backward_Rep fuel t p l1 l2 q l3 (S2 ++ S1) s incl HR Hl1 Hl2 Hs)
    as (t' & E & HR' & Hsh & _); [lia|].
  exists t'. split_and!; [done| |done].
  by apply (Rep_rotate t' ((q, l3 ++ l1) :: (p, l2) :: S2) S1).
Qed.

(** * [reverse_segment] *)

Lemma reverse_complete_segment_shape t p l R a b :
  Rep t ((p, l) :: R) -> head l = Some a -> last l = Some b ->
  same_shape t (reverse_complete_segment t a b).
Proof.
  intros HR Hha Hlb.
  destruct (path_length_eq t p [] l [] R a b) as (Hap & Hbp & _);
    [by rewrite app_nil_r|done..|].
  by destruct (rcs_view t a b p _ _ _ Hap Hbp eq_refl eq_refl eq_refl) as (Hsh & _).
Qed.

Lemma reverse_segment_spec fuel t p l1 m l2 R a b :
  Rep t ((p, l1 ++ m ++ l2) :: R) ->
  head m = Some a -> last m = Some b -> a <> b ->
  (Z.to_nat (_n_cities t) < fuel)%nat ->
  exists t' segs', reverse_segment fuel t a b = Some t' /\
    Rep t' segs' /\ same_shape t t' /\
    tour_rep t' (lrev m ++ l2 ++ tour_of R ++ l1).
Proof.
  intros HR Hha Hlb Hab Hf.
  destruct (path_length_eq _ _ _ _ _ _ _ _ HR Hha Hlb) as (Hap & Hbp & _ & Hlen).
  destruct (seg_endpoints _ _ _ _ _ _ _ _ HR Hha Hlb Hab) as (Ha1 & Hb2 & Hafe & Hbfb).
  pose proof (Rep_seg_length _ _ _ _ HR) as Hlenm. rewrite !length_app in Hlenm.
  assert (m <> []) as Hm by (intros E; by rewrite E in Hha).
  unfold reverse_segment. rewrite Hap, Hlen.
  assert ((bool_decide (a = begin_of t p) && bool_decide (b = end_of t p)
           || bool_decide (b = begin_of t p) && bool_decide (a = end_of t p))
          = bool_decide (l1 = [] /\ l2 = [])) as ->.
  { revert Ha1 Hb2 Hafe Hbfb. unfold forward_begin_node, forward_end_node.
    destruct (rev_of t p); intros Ha1 Hb2 Hafe Hbfb;
      repeat case_bool_decide; simpl; try done; tauto. }
  case_bool_decide as Hc.
  - destruct Hc as [-> ->]. rewrite app_nil_r in HR. simpl in HR.
    eexists _, _. split_and!; [done| |by eapply reverse_complete_segment_shape|].
    + by apply reverse_complete_segment_Rep.
    + simpl. rewrite app_nil_r.
      apply (Rep_tour_rep _ ((p, lrev m) :: R)). by apply reverse_complete_segment_Rep.
  - case_bool_decide as Hn.
    + destruct (reverse_partial_segment_Rep fuel t p l1 m l2 R a b HR Hha Hlb Hab)
        as (t' & E & HR' & Hsh); [|lia|].
      { destruct l1; [|by left]. destruct l2; [|by right]. tauto. }
      exists t', ((p, l1 ++ lrev m ++ l2) :: R). split_and!; [done..|].
      apply Rep_tour_rep in HR'. rewrite tour_of_cons, <-app_assoc in HR'.
      apply tour_rep_rotate in HR'. by rewrite <-!app_assoc in HR'.
    + destruct (sam_front_backward fuel t p l1 (m ++ l2) R a false HR)
        as (t1 & R1 & E1 & HR1 & HT1 & Hsh1); [by destruct m|by destruct m|done|].
      rewrite E1. cbn [mbind option_bind].
      destruct (sam_front_forward fuel t1 p m l2 R1 b false HR1 Hm Hlb)
        as (t2 & R2 & E2 & HR2 & HT2 & Hsh2).
      { destruct Hsh1 as (_ & -> & _). done. }
      rewrite E2. cbn [mbind option_bind].
      eexists _, _. split_and!; [done|by apply reverse_complete_segment_Rep| |].
      * eapply same_shape_trans; [exact Hsh1|]. eapply same_shape_trans; [exact Hsh2|].
        by eapply reverse_complete_segment_shape.
      * rewrite <-HT1, <-HT2.
        apply (Rep_tour_rep _ ((p, lrev m) :: R2)). by apply reverse_complete_segment_Rep.
Qed.

(** * The loops of the multi-segment branch of [reverse] *)

Lemma toggle_segments_spec s2 P : forall fuel t p temp,
  chain (fun u v => pnext_of t u = v) (P ++ [s2]) -> s2 ∉ P -> NoDup P ->
  head (P ++ [s2]) = Some p -> (length P < fuel)%nat ->
  exists t1, toggle_segments fuel t p s2 temp = Some (t1, lrev P ++ temp) /\
    same_shape t t1 /\ (forall x, nd t1 x = nd t x) /\
    (forall q, rev_of t1 q = if decide (q ∈ P) then negb (rev_of t q) else rev_of t q) /\
    (forall q, size_of t1 q = size_of t q /\ pid_of t1 q = pid_of t q /\
               pprev_of t1 q = pprev_of t q /\ pnext_of t1 q = pnext_of t q /\
               begin_of t1 q = begin_of t q /\ end_of t1 q = end_of t q).
Proof.
  induction P as [|p0 P IH]; intros fuel t p temp Hc Hs Hnd Hh Hf.
  - simpl in Hh. simplify_eq. destruct fuel; [lia|]. simpl.
    rewrite bool_decide_eq_false_2 by (by intros ?).
    exists t. by split_and!.
  - simpl in Hh. simplify_eq. destruct fuel; [simpl in Hf; lia|]. simpl.
    apply not_elem_of_cons in Hs as [Hsp Hs]. apply NoDup_cons in Hnd as [Hp Hnd].
    rewrite bool_decide_eq_true_2 by done.
    change ((p :: P) ++ [s2]) with (p :: (P ++ [s2])) in Hc.
    apply chain_cons_head in Hc as [Hc Hh].
    assert (exists y, head (P ++ [s2]) = Some y) as [y Hy] by (destruct P; simpl; eauto).
    rewrite pnext_of_set_p_reverse, (Hh y Hy).
    set (t0 := set_p_reverse t p (negb (rev_of t p))).
    destruct (IH fuel t0 y (p :: temp)) as (t1 & E & Hsh & Hn & Hr & Hq);
      [|done|done|done|simpl in Hf; lia|].
    { revert Hc. apply chain_mono. intros u v Huv. unfold t0. by tg. }
    exists t1. split_and!.
    + rewrite E. by rewrite reverse_cons, <-app_assoc.
    + eapply same_shape_trans; [|exact Hsh]. unfold t0, same_shape. by tg.
    + intros x. rewrite Hn. unfold t0. by tg.
    + intros q. rewrite Hr. unfold t0. rewrite rev_of_set_p_reverse.
      destruct (decide (q = p)) as [->|Hqp].
      * rewrite decide_False by done. rewrite decide_True by el. done.
      * destruct (decide (q ∈ P)).
        -- by rewrite decide_True by el.
        -- by rewrite decide_False by el.
    + intros q. destruct (Hq q) as (-> & -> & -> & -> & -> & ->). unfold t0. by tg.
Qed.

(** The logical view after toggling the reverse bits of the parents [P]. *)
Lemma toggled_view t t1 (P : list Z) :
  (forall x, nd t1 x = nd t x) ->
  (forall q, rev_of t1 q = if decide (q ∈ P) then negb (rev_of t q) else rev_of t q) ->
  (forall q, begin_of t1 q = begin_of t q /\ end_of t1 q = end_of t q) ->
  (forall x, get_next t1 x = if decide (parent_of t x ∈ P) then get_prev t x else get_next t x) /\
  (forall x, get_prev t1 x = if decide (parent_of t x ∈ P) then get_next t x else get_prev t x) /\
  (forall x, lid t1 x = if decide (parent_of t x ∈ P) then - lid t x else lid t x) /\
  (forall q, fbegin_of t1 q = if decide (q ∈ P) then fend_of t q else fbegin_of t q) /\
  (forall q, fend_of t1 q = if decide (q ∈ P) then fbegin_of t q else fend_of t q).
Proof.
  intros Hn Hr Hbe. split_and!.
  - intros x. unfold get_next, get_prev. rewrite Hn, Hr.
    case_decide; [|done]. by destruct (rev_of t (parent_of t x)).
  - intros x. unfold get_next, get_prev. rewrite Hn, Hr.
    case_decide; [|done]. by destruct (rev_of t (parent_of t x)).
  - intros x. unfold lid. rewrite Hn, Hr.
    case_decide; [|done]. destruct (rev_of t (parent_of t x)); simpl; lia.
  - intros q. unfold forward_begin_node, forward_end_node. rewrite Hr.
    destruct (Hbe q) as [-> ->]. case_decide; [|done]. by destruct (rev_of t q).
  - intros q. unfold forward_begin_node, forward_end_node. rewrite Hr.
    destruct (Hbe q) as [-> ->]. case_decide; [|done]. by destruct (rev_of t q).
Qed.

(** One iteration of the reconnecting loop. *)
Lemma reconnect_segments_cons t q temp p n :
  reconnect_segments t (q :: temp) p n = reconnect_segments (reconnect_step t p q n) temp q n.
Proof.
  simpl. unfold reconnect_step. f_equal. f_equal; [f_equal; by tg|by tg|by tg].
Qed.

Lemma reconnect_step_view t p q n :
  same_shape t (reconnect_step t p q n) /\
  (forall w, rev_of (reconnect_step t p q n) w = rev_of t w /\
             size_of (reconnect_step t p q n) w = size_of t w /\
             begin_of (reconnect_step t p q n) w = begin_of t w /\
             end_of (reconnect_step t p q n) w = end_of t w) /\
  (forall x, parent_of (reconnect_step t p q n) x = parent_of t x /\
             id_of (reconnect_step t p q n) x = id_of t x /\
             city_of (reconnect_step t p q n) x = city_of t x) /\
  (forall w, pnext_of (reconnect_step t p q n) w = if decide (w = p) then q else pnext_of t w) /\
  (forall w, pprev_of (reconnect_step t p q n) w = if decide (w = q) then p else pprev_of t w) /\
  (forall w, pid_of (reconnect_step t p q n) w =
             if decide (w = q) then Z.rem (pid_of t p + 1) n else pid_of t w) /\
  (forall x, get_next (reconnect_step t p q n) x =
             if decide (x = fend_of t p) then fbegin_of t q else get_next t x) /\
  (forall x, get_prev (reconnect_step t p q n) x =
             if decide (x = fbegin_of t q) then fend_of t p else get_prev t x).
Proof.
  unfold reconnect_step. split_and!.
  - unfold same_shape. by tg.
  - intros w. by tg.
  - intros x. by tg.
  - intros w. by tg.
  - intros w. by tg.
  - intros w. by tg.
  - intros w. by tg.
  - intros w. by tg.
Qed.

Lemma reconnect_segments_spec n temp : forall t p,
  NoDup (p :: temp) ->
  NoDup ((fun w => fend_of t w) <$> (p :: temp)) ->
  NoDup ((fun w => fbegin_of t w) <$> temp) ->
  exists t' pl, reconnect_segments t temp p n = (t', pl) /\ last (p :: temp) = Some pl /\
    same_shape t t' /\
    (forall w, rev_of t' w = rev_of t w /\ size_of t' w = size_of t w /\
               begin_of t' w = begin_of t w /\ end_of t' w = end_of t w) /\
    (forall x, parent_of t' x = parent_of t x /\ id_of t' x = id_of t x /\
               city_of t' x = city_of t x) /\
    (forall w, w ∉ temp -> pprev_of t' w = pprev_of t w /\ pid_of t' w = pid_of t w) /\
    (forall w, w ∉ p :: temp -> pnext_of t' w = pnext_of t w) /\
    (forall x, x ∉ (fun w => fend_of t w) <$> (p :: temp) -> get_next t' x = get_next t x) /\
    (forall x, x ∉ (fun w => fbegin_of t w) <$> temp -> get_prev t' x = get_prev t x) /\
    chain (fun u v => pnext_of t' u = v /\ pprev_of t' v = u /\
                      pid_of t' v = Z.rem (pid_of t' u + 1) n /\
                      link t' (fend_of t u) (fbegin_of t v)) (p :: temp).
Proof.
  induction temp as [|q temp IH]; intros t p Hnd Hfe Hfb.
  - exists t, p. simpl. by split_and!.
  - rewrite reconnect_segments_cons.
    destruct (reconnect_step_view t p q n) as (Hsh1 & Hw1 & Hx1 & Hn1 & Hp1 & Hi1 & Hgn1 & Hgp1).
    set (t1 := reconnect_step t p q n) in *. clearbody t1.
    assert (forall w, fbegin_of t1 w = fbegin_of t w /\ fend_of t1 w = fend_of t w) as Hbe1.
    { intros w. destruct (Hw1 w) as (? & _ & ? & ?). by apply fbegin_of_eq. }
    apply NoDup_cons in Hnd as [Hp Hnd]. apply not_elem_of_cons in Hp as [Hpq Hp].
    rewrite fmap_cons in Hfe. apply NoDup_cons in Hfe as [Hfep Hfe].
    rewrite fmap_cons in Hfb. apply NoDup_cons in Hfb as [Hfbq Hfb].
    pose proof Hnd as Hnd'. apply NoDup_cons in Hnd' as [Hq _].
    destruct (IH t1 q) as (t' & pl & E & Hl & Hsh & Hw & Hx & Hpp & Hpn & Hgn & Hgp & Hch).
    { done. }
    { erewrite list_fmap_ext; [exact Hfe|]. intros i w _. by destruct (Hbe1 w). }
    { erewrite list_fmap_ext; [exact Hfb|]. intros i w _. by destruct (Hbe1 w). }
    exists t', pl. split_and!.
    + done.
    + by rewrite last_cons_cons.
    + by eapply same_shape_trans.
    + intros w. destruct (Hw w) as (-> & -> & -> & ->). apply Hw1.
    + intros x. destruct (Hx x) as (-> & -> & ->). apply Hx1.
    + intros w Hwt. apply not_elem_of_cons in Hwt as [Hwq Hwt].
      destruct (Hpp w Hwt) as [-> ->]. rewrite Hp1, Hi1. by rewrite !decide_False.
    + intros w Hwt. apply not_elem_of_cons in Hwt as [Hwp Hwt].
      rewrite Hpn by done. rewrite Hn1. by rewrite decide_False.
    + intros x Hxt. rewrite fmap_cons in Hxt. apply not_elem_of_cons in Hxt as [Hxp Hxt].
      rewrite Hgn; cycle 1.
      { erewrite list_fmap_ext; [exact Hxt|]. intros i w _. by destruct (Hbe1 w). }
      rewrite Hgn1. by rewrite decide_False.
    + intros x Hxt. rewrite fmap_cons in Hxt. apply not_elem_of_cons in Hxt as [Hxq Hxt].
      rewrite Hgp; cycle 1.
      { erewrite list_fmap_ext; [exact Hxt|]. intros i w _. by destruct (Hbe1 w). }
      rewrite Hgp1. by rewrite decide_False.
    + apply chain_cons. split.
      * split_and!.
        -- rewrite Hpn by (apply not_elem_of_cons; done). by rewrite Hn1, decide_True.
        -- destruct (Hpp q) as [-> _]; [done|]. by rewrite Hp1, decide_True.
        -- destruct (Hpp q) as [_ ->]; [done|]. destruct (Hpp p) as [_ ->]; [done|].
           rewrite !Hi1. rewrite decide_True by done. by rewrite decide_False.
        -- split.
           ++ rewrite Hgn; cycle 1.
              { erewrite list_fmap_ext; [exact Hfep|]. intros i w _. by destruct (Hbe1 w). }
              by rewrite Hgn1, decide_True.
           ++ rewrite Hgp; cycle 1.
              { erewrite list_fmap_ext; [exact Hfbq|]. intros i w _. by destruct (Hbe1 w). }
              by rewrite Hgp1, decide_True.
      * revert Hch. apply chain_mono. intros u v (H1 & H2 & H3 & H4).
        destruct (Hbe1 u) as [_ <-]. destruct (Hbe1 v) as [<- _]. done.
Qed.

Lemma reconnect_segments_snoc n temp : forall t p q,
  reconnect_segments t (temp ++ [q]) p n =
  (reconnect_step (reconnect_segments t temp p n).1 (reconnect_segments t temp p n).2 q n, q).
Proof.
  induction temp as [|r temp IH]; intros t p q.
  - change ([] ++ [q]) with [q]. rewrite reconnect_segments_cons. done.
  - change ((r :: temp) ++ [q]) with (r :: (temp ++ [q])).
    rewrite !reconnect_segments_cons. apply IH.
Qed.

(** * Chains over maps and concatenations *)

Lemma chain_fmap {A B} (f : A -> B) (R : B -> B -> Prop) (l : list A) :
  chain R (f <$> l) <-> chain (fun x y => R (f x) (f y)) l.
Proof.
  induction l as [|a l IH]; [done|].
  rewrite fmap_cons, !chain_cons_head, IH. destruct l; simpl; [done|].
  split; intros [H1 H2]; (split; [done|]); intros x [= <-]; by apply H2.
Qed.

Lemma chain_tour_of (Rl : Z -> Z -> Prop) (segs : list segment) :
  Forall (fun s => s.2 <> []) segs ->
  chain Rl (tour_of segs) <->
  Forall (fun s => chain Rl s.2) segs /\
  chain (fun s s' => forall x y, last s.2 = Some x -> head s'.2 = Some y -> Rl x y) segs.
Proof.
  induction segs as [|[p l] segs IH]; intros Hne.
  - rewrite tour_of_nil. split; [|done]. intros _. split; [done|apply chain_nil].
  - apply Forall_cons in Hne as [Hl Hne]. cbn [snd] in Hl.
    rewrite tour_of_cons, chain_app, Forall_cons, chain_cons_head, (IH Hne). cbn [snd].
    destruct segs as [|[q lq] segs].
    + change (tour_of []) with (@nil Z). simpl. split.
      * intros (H1 & H2 & H3). by split_and!.
      * intros ((H1 & H2) & H3 & H4). by split_and!.
    + apply Forall_cons in Hne as [Hlq Hne]. cbn [snd] in Hlq.
      rewrite head_tour_of_cons by done. simpl. split.
      * intros (H1 & H2 & H3). split_and!; try tauto. by intros [q' lq'] [= <- <-].
      * intros ((H1 & H2) & H3 & H4). split_and!; try tauto. apply (H4 (q, lq)). done.
Qed.

Lemma chain_rem_offset {A} (f : A -> Z) (n : Z) (l : list A) : forall h i x,
  chain (fun u v => f v = Z.rem (f u + 1) n) l -> head l = Some h ->
  0 <= f h -> 0 < n -> l !! i = Some x ->
  f x = (f h + Z.of_nat i) mod n \/ (i = 0%nat /\ x = h).
Proof.
  induction l as [|a l IH]; intros h i x Hc Hh Hf0 Hn Hi; [done|].
  simpl in Hh. simplify_eq. destruct i as [|i]; simpl in Hi.
  - simplify_eq. by right.
  - left. apply chain_cons_head in Hc as [Hc Hhd].
    destruct l as [|y l]; [done|]. specialize (Hhd y eq_refl).
    assert (f y = (f h + 1) mod n) as Hy.
    { rewrite Hhd. apply Z.rem_mod_nonneg; lia. }
    assert (0 <= f y) as Hy0 by (rewrite Hy; apply Z.mod_pos_bound; lia).
    destruct (IH y i x Hc eq_refl Hy0 Hn Hi) as [->|[-> ->]].
    + rewrite Hy. rewrite Zplus_mod_idemp_l. f_equal. lia.
    + rewrite Hy. f_equal.
Qed.

Lemma chain_rem_range {A} (f : A -> Z) (n : Z) (l : list A) h x :
  chain (fun u v => f v = Z.rem (f u + 1) n) l -> head l = Some h ->
  0 <= f h < n -> x ∈ l -> 0 <= f x < n.
Proof.
  intros Hc Hh Hf Hx. apply list_elem_of_lookup in Hx as [i Hi].
  destruct (chain_rem_offset f n l h i x Hc Hh) as [->|[_ ->]]; [lia|lia|done| |done].
  apply Z.mod_pos_bound. lia.
Qed.

(** * Reading a run of segments backwards *)

Lemma parents_of_reverse_segs (M : list segment) :
  parents_of (lrev (reverse_seg <$> M)) = lrev (parents_of M).
Proof.
  induction M as [|[p l] M IH]; [done|].
  rewrite fmap_cons, reverse_cons, parents_of_app, IH, parents_of_cons, reverse_cons. done.
Qed.

Lemma tour_of_reverse_segs (M : list segment) :
  tour_of (lrev (reverse_seg <$> M)) = lrev (tour_of M).
Proof.
  induction M as [|[p l] M IH]; [done|].
  rewrite fmap_cons, reverse_cons, tour_of_app, IH, tour_of_cons, reverse_app.
  unfold reverse_seg. simpl. change (tour_of [(p, lrev l)]) with (lrev l ++ []).
  by rewrite app_nil_r.
Qed.

Lemma elem_of_parents_of (segs : list segment) p :
  p ∈ parents_of segs <-> exists l, (p, l) ∈ segs.
Proof.
  induction segs as [|[q lq] segs IH].
  - rewrite parents_of_nil. split; [by intros ?%elem_of_nil|].
    by intros (? & ?%elem_of_nil).
  - rewrite parents_of_cons, elem_of_cons, IH. split.
    + intros [->|[l Hl]]; [exists lq; left|exists l; by right].
    + intros (l & [H|H]%elem_of_cons); [left; by simplify_eq|right; eauto].
Qed.

Lemma Rep_seg_ends t segs p l :
  Rep t segs -> (p, l) ∈ segs ->
  head l = Some (fbegin_of t p) /\ last l = Some (fend_of t p) /\
  fbegin_of t p ∈ l /\ fend_of t p ∈ l /\
  parent_of t (fbegin_of t p) = p /\ parent_of t (fend_of t p) = p /\
  (forall x, x ∈ l -> parent_of t x = p).
Proof.
  intros HR Hin. pose proof (rep_segs _ _ HR) as Hs. rewrite Forall_forall in Hs.
  specialize (Hs _ Hin). pose proof Hs as (_ & Hh & Hl & _). cbn [fst snd] in Hh, Hl.
  assert (fbegin_of t p ∈ l) by (by apply head_Some_elem_of).
  assert (fend_of t p ∈ l) by (by apply last_Some_elem_of).
  split_and!; try done; try (by eapply seg_ok_parent).
  intros x Hx. by eapply seg_ok_parent.
Qed.

Lemma segs_length_le (segs : list segment) :
  Forall (fun s => s.2 <> []) segs -> (length segs <= length (tour_of segs))%nat.
Proof.
  induction segs as [|[p l] segs IH]; intros Hne; [simpl; lia|].
  apply Forall_cons in Hne as [Hl Hne]. cbn [snd] in Hl.
  rewrite tour_of_cons, length_app. simpl. specialize (IH Hne).
  destruct l; [done|]. simpl. lia.
Qed.

Lemma Rep_nonempty_segs t segs : Rep t segs -> Forall (fun s => s.2 <> []) segs.
Proof.
  intros HR. pose proof (rep_segs _ _ HR) as Hs.
  eapply Forall_impl; [exact Hs|]. intros [p l] H. by apply seg_ok_nonempty in H.
Qed.

Lemma parents_of_length (segs : list segment) : length (parents_of segs) = length segs.
Proof.
  induction segs as [|[p l] segs IH]; [done|]. rewrite parents_of_cons. simpl. by rewrite IH.
Qed.

Lemma NoDup_fmap_parent t (g : Z -> Z) (W : list Z) :
  NoDup W -> (forall w, w ∈ W -> parent_of t (g w) = w) -> NoDup (g <$> W).
Proof.
  intros Hnd Hg. apply NoDup_fmap_2_strong; [|done].
  intros x y Hx Hy Hxy. rewrite <-(Hg x Hx), <-(Hg y Hy). by rewrite Hxy.
Qed.

(** * The multi-segment branch of [reverse] *)

Lemma reverse_multi_Rep fuel t M R a b :
  Rep t (M ++ R) -> M <> [] -> R <> [] ->
  head (tour_of M) = Some a -> last (tour_of M) = Some b ->
  (Z.to_nat (_n_cities t) < fuel)%nat ->
  exists t1 temp,
    toggle_segments fuel t (parent_of t a) (pnext_of t (parent_of t b))
      [pnext_of t (parent_of t b)] = Some (t1, temp) /\
    Rep (reconnect_segments t1 temp (pprev_of t (parent_of t a)) (_n_parents t1)).1
        (lrev (reverse_seg <$> M) ++ R) /\
    same_shape t (reconnect_segments t1 temp (pprev_of t (parent_of t a)) (_n_parents t1)).1.
Proof.
  intros HR HM HRne Hha Hlb Hf.
  set (PM := parents_of M). set (PR := parents_of R).
  set (TM := tour_of M) in *. set (T := tour_of R).
  pose proof (Rep_nonempty_segs _ _ HR) as Hne. apply Forall_app in Hne as [HneM HneR].
  pose proof (rep_segs _ _ HR) as Hsegs.
  pose proof (Rep_NoDup_parents _ _ HR) as Hndp. rewrite parents_of_app in Hndp.
  fold PM PR in Hndp. apply NoDup_app in Hndp as (HndPM & HdP & HndPR).
  pose proof (Rep_NoDup_tour _ _ HR) as Hndt. rewrite tour_of_app in Hndt.
  fold TM T in Hndt. apply NoDup_app in Hndt as (HndTM & HdT & HndT).
  (* the first and last segments of both runs *)
  assert (exists p1 l1 M1, M = (p1, l1) :: M1) as (p1 & l1 & M1 & EM1).
  { destruct M as [|[p1 l1] M1]; [done|eauto]. }
  destruct (list_snoc_inv M HM) as (M0 & [pk lk] & EMk).
  assert (exists s2 ls2 R1, R = (s2, ls2) :: R1) as (s2 & ls2 & R1 & ER1).
  { destruct R as [|[s2 ls2] R1]; [done|eauto]. }
  destruct (list_snoc_inv R HRne) as (R0 & [s1 ls1] & ERk).
  assert ((p1, l1) ∈ M ++ R) as Hin1 by (rewrite EM1; left).
  assert ((pk, lk) ∈ M ++ R) as Hink by (rewrite EMk; el).
  assert ((s2, ls2) ∈ M ++ R) as Hin2 by (rewrite ER1; el).
  assert ((s1, ls1) ∈ M ++ R) as Hins by (rewrite ERk; el).
  destruct (Rep_seg_ends _ _ _ _ HR Hin1) as (Hh1 & _ & Hfb1 & _ & Hpfb1 & _).
  destruct (Rep_seg_ends _ _ _ _ HR Hink) as (_ & Hlk & _ & Hfek & _ & Hpfek & _).
  destruct (Rep_seg_ends _ _ _ _ HR Hin2) as (Hh2 & _ & Hfb2 & _ & Hpfb2 & _).
  destruct (Rep_seg_ends _ _ _ _ HR Hins) as (_ & Hls & _ & Hfes & _ & Hpfes & _).
  assert (a = fbegin_of t p1) as Ea.
  { unfold TM in Hha. rewrite EM1, head_tour_of_cons in Hha; [congruence|].
    intros E; by rewrite E in Hh1. }
  assert (b = fend_of t pk) as Eb.
  { unfold TM in Hlb. rewrite EMk, last_tour_of_snoc in Hlb; [congruence|].
    intros E; by rewrite E in Hlk. }
  assert (head T = Some (fbegin_of t s2)) as HhT.
  { unfold T. rewrite ER1, head_tour_of_cons; [done|]. intros E; by rewrite E in Hh2. }
  assert (last T = Some (fend_of t s1)) as HlT.
  { unfold T. rewrite ERk, last_tour_of_snoc; [done|]. intros E; by rewrite E in Hls. }
  assert (head PM = Some p1) as HhPM by (unfold PM; by rewrite EM1).
  assert (last PM = Some pk) as HlPM.
  { unfold PM. rewrite EMk, parents_of_app. change (parents_of [(pk, lk)]) with [pk].
    by rewrite last_snoc. }
  assert (head PR = Some s2) as HhPR by (unfold PR; by rewrite ER1).
  assert (last PR = Some s1) as HlPR.
  { unfold PR. rewrite ERk, parents_of_app. change (parents_of [(s1, ls1)]) with [s1].
    by rewrite last_snoc. }
  rewrite Ea, Eb, Hpfb1, Hpfek.
  clear EM1 M1 EMk M0 ER1 R1 ERk R0.
  (* the cyclic list of parents *)
  assert (PM <> []) as HPM by (intros E; by rewrite E in HhPM).
  assert (PR <> []) as HPR by (intros E; by rewrite E in HhPR).
  assert (TM <> []) as HTM by (intros E; by rewrite E in Hha).
  assert (T <> []) as HT by (intros E; by rewrite E in HhT).
  pose proof (rep_plink _ _ HR) as Hpl. rewrite parents_of_app in Hpl. fold PM PR in Hpl.
  destruct (cchain_app2_inv _ _ _ Hpl HPM HPR) as (HcPM & HcPR & HjMR & HjRM).
  destruct (HjMR pk s2 HlPM HhPR) as (Hnk & Hp2 & Hid2).
  destruct (HjRM s1 p1 HlPR HhPM) as (Hns & Hp1 & Hid1).
  rewrite Hnk, Hp1.
  assert (s2 ∉ PM) as Hs2 by (intros H; apply (HdP s2 H); by apply head_Some_elem_of).
  assert (s1 ∉ PM) as Hs1 by (intros H; apply (HdP s1 H); by apply last_Some_elem_of).
  assert (p1 ∈ PM) as Hp1M by (by apply head_Some_elem_of).
  pose proof (rep_n_parents _ _ HR) as Hn2.
  pose proof (Rep_parents_length _ _ HR) as HlenP.
  pose proof (Rep_tour_length _ _ HR) as HlenT.
  pose proof (segs_length_le (M ++ R) (Rep_nonempty_segs _ _ HR)) as Hle.
  rewrite length_app in HlenP, Hle.
  assert (length PM = length M) as HlPM' by apply parents_of_length.
  (* toggling the reverse bits *)
  destruct (toggle_segments_spec s2 PM fuel t p1 [s2]) as (t1 & E1 & Hsh1 & Hnd1 & Hrev1 & Hq1).
  { rewrite <-(app_nil_r (PM ++ [s2])), <-app_assoc.
    apply (chain_infix _ (PM ++ PR) [] _ (tail PR)).
    - revert Hpl. intros Hpl'. apply cchain_chain in Hpl'. revert Hpl'.
      apply chain_mono. by intros u v (? & _).
    - destruct PR; [done|]. simpl in HhPR. simplify_eq. simpl. by rewrite <-app_assoc. }
  { done. }
  { done. }
  { by destruct PM. }
  { lia. }
  destruct (toggled_view t t1 PM Hnd1 Hrev1) as (Hgn1 & Hgp1 & Hlid1 & Hfb1' & Hfe1').
  { intros q. by destruct (Hq1 q) as (_ & _ & _ & _ & ? & ?). }
  exists t1, (lrev PM ++ [s2]). split; [done|].
  rewrite reconnect_segments_snoc.
  (* the segment ends are pairwise different *)
  assert (forall w, w ∈ PM ++ PR -> parent_of t (fbegin_of t w) = w /\ parent_of t (fend_of t w) = w)
    as Hpends.
  { intros w Hw. unfold PM, PR in Hw. rewrite <-parents_of_app in Hw.
    apply elem_of_parents_of in Hw as [l Hl].
    by destruct (Rep_seg_ends _ _ _ _ HR Hl) as (_ & _ & _ & _ & ? & ? & _). }
  assert (NoDup (s1 :: lrev PM)) as HndW.
  { apply NoDup_cons. split; [by rewrite elem_of_reverse|]. by rewrite reverse_Permutation. }
  destruct (reconnect_segments_spec (_n_parents t1) (lrev PM) t1 s1)
    as (t2 & pl & E2 & Hpl2 & Hsh2 & Hw2 & Hx2 & Hpp2 & Hpn2 & Hgn2 & Hgp2 & Hch2).
  { done. }
  { apply (NoDup_fmap_parent t); [done|]. intros w Hw. rewrite Hfe1'.
    apply elem_of_cons in Hw as [->|Hw].
    - rewrite decide_False by done. apply Hpends. rewrite elem_of_app. right.
      by apply last_Some_elem_of.
    - rewrite elem_of_reverse in Hw. rewrite decide_True by done.
      apply Hpends. rewrite elem_of_app. by left. }
  { apply (NoDup_fmap_parent t); [by rewrite reverse_Permutation|]. intros w Hw.
    rewrite elem_of_reverse in Hw. rewrite Hfb1', decide_True by done.
    apply Hpends. rewrite elem_of_app. by left. }
  rewrite E2. cbn [fst snd].
  assert (pl = p1) as ->.
  { rewrite last_cons in Hpl2. rewrite last_reverse, HhPM in Hpl2. congruence. }
  destruct (reconnect_step_view t2 p1 s2 (_n_parents t1))
    as (Hsh3 & Hw3 & Hx3 & Hn3 & Hp3 & Hi3 & Hgn3 & Hgp3).
  set (t3 := reconnect_step t2 p1 s2 (_n_parents t1)) in *. clearbody t3.
  clear E2.
  set (n := _n_parents t) in *.
  assert (_n_parents t1 = n) as Hn1 by (by destruct Hsh1 as (? & _)).
  rewrite Hn1 in *.
  assert (same_shape t t3) as Hsh.
  { eapply same_shape_trans; [exact Hsh1|]. by eapply same_shape_trans. }
  assert (forall w, rev_of t3 w = rev_of t1 w /\ size_of t3 w = size_of t w /\
                    fbegin_of t3 w = fbegin_of t1 w /\ fend_of t3 w = fend_of t1 w) as HW.
  { intros w. destruct (Hw3 w) as (Hr3 & Hz3 & Hb3 & He3).
    destruct (Hw2 w) as (Hr2 & Hz2 & Hb2 & He2).
    destruct (fbegin_of_eq t2 t3 w Hr3 Hb3 He3) as [-> ->].
    destruct (fbegin_of_eq t1 t2 w Hr2 Hb2 He2) as [-> ->].
    destruct (Hq1 w) as (Hz1 & _). split_and!; congruence. }
  assert (forall x, parent_of t3 x = parent_of t x /\ id_of t3 x = id_of t x /\
                    city_of t3 x = city_of t x /\ lid t3 x = lid t1 x) as HX.
  { intros x. destruct (Hx3 x) as (Hp3' & Hi3' & Hc3'). destruct (Hx2 x) as (Hp2' & Hi2' & Hc2').
    split_and!; try (rewrite <-Hnd1; congruence).
    apply lid_frame; [congruence|congruence|]. intros q. by destruct (HW q) as (-> & _). }
  (* the parent IDs *)
  pose proof (rep_pid _ _ HR) as Hpid. rewrite Forall_forall in Hpid.
  assert (0 <= pid_of t s1 < n) as Hpid1.
  { apply Hpid. rewrite parents_of_app. fold PM PR. rewrite elem_of_app. right.
    by apply last_Some_elem_of. }
  assert (pid_of t s2 = (pid_of t s1 + Z.of_nat (length PM) + 1) mod n) as HA1.
  { assert (chain (fun u v => pid_of t v = Z.rem (pid_of t u + 1) n) (s1 :: PM ++ [s2])) as Hc.
    { apply chain_cons_head. split.
      - apply chain_app. split_and!.
        + revert HcPM. apply chain_mono. by intros u v (_ & _ & ?).
        + apply chain_singleton.
        + intros x y Hx [= <-]. assert (x = pk) as -> by congruence. done.
      - intros x Hx. assert (x = p1) as ->; [|done].
        destruct PM; [done|]. simpl in *. congruence. }
    destruct (chain_rem_offset (fun w => pid_of t w) n _ s1 (S (length PM)) s2 Hc eq_refl)
      as [->|[? _]]; [lia|lia| |f_equal; lia|done].
    simpl. by rewrite lookup_app_r, Nat.sub_diag by lia. }
  assert (forall w, w ∈ s1 :: lrev PM -> 0 <= pid_of t2 w < n) as Hpid2.
  { intros w Hw.
    apply (chain_rem_range (fun w => pid_of t2 w) n (s1 :: lrev PM) s1); [|done| |done].
    - revert Hch2. apply chain_mono. by intros u v (_ & _ & ? & _).
    - destruct (Hpp2 s1) as [_ ->]; [by rewrite elem_of_reverse|].
      by destruct (Hq1 s1) as (_ & -> & _). }
  assert (pid_of t2 p1 = (pid_of t s1 + Z.of_nat (length PM)) mod n) as HA2.
  { assert (chain (fun u v => pid_of t2 v = Z.rem (pid_of t2 u + 1) n) (s1 :: lrev PM)) as Hc.
    { revert Hch2. apply chain_mono. by intros u v (_ & _ & ? & _). }
    assert (pid_of t2 s1 = pid_of t s1) as Hs.
    { destruct (Hpp2 s1) as [_ ->]; [by rewrite elem_of_reverse|].
      by destruct (Hq1 s1) as (_ & -> & _). }
    destruct (chain_rem_offset (fun w => pid_of t2 w) n _ s1 (length PM) p1 Hc eq_refl)
      as [->|[E _]]; [lia|lia| |by rewrite Hs|by destruct PM].
    destruct PM as [|p0 PM'] eqn:EPM; [done|]. rewrite <-EPM.
    change ((s1 :: lrev PM) !! length (p0 :: PM')) with (lrev PM !! length PM').
    rewrite <-HhPM, <-last_reverse, last_lookup, length_reverse, EPM. done. }
  assert (pid_of t3 s2 = pid_of t s2) as HA3.
  { rewrite Hi3, decide_True by done. rewrite HA1, HA2.
    rewrite Z.rem_mod_nonneg; [|pose proof (Z.mod_pos_bound (pid_of t s1 + Z.of_nat (length PM)) n); lia|lia].
    rewrite Zplus_mod_idemp_l. done. }
  (* the segments of both runs *)
  pose proof (rep_link _ _ HR) as Hlnk. rewrite tour_of_app in Hlnk. fold TM T in Hlnk.
  destruct (cchain_app2_inv _ _ _ Hlnk HTM HT) as (HcTM & HcT & _ & _).
  assert (forall p l, (p, l) ∈ M ->
            p ∈ PM /\ head l = Some (fbegin_of t p) /\ last l = Some (fend_of t p) /\
            (forall x, x ∈ l -> parent_of t x = p /\ x ∈ TM) /\
            NoDup l /\ seg_ok t (p, l) /\ chain (link t) l) as HMseg.
  { intros p l Hin. assert ((p, l) ∈ M ++ R) as Hin' by (rewrite elem_of_app; by left).
    destruct (Rep_seg_ends _ _ _ _ HR Hin') as (Hh & Hl & _ & _ & _ & _ & Hpar).
    assert (forall x, x ∈ l -> x ∈ TM) as HlTM by (intros x Hx; by apply (elem_of_segs M p l x)).
    split_and!; try done.
    - by apply (elem_of_segs M p l 0).
    - intros x Hx. split; [by apply Hpar|by apply HlTM].
    - apply list_elem_of_split in Hin as (Ma & Mb & EM). unfold TM in HndTM.
      rewrite EM, tour_of_app, tour_of_cons in HndTM.
      by apply NoDup_app in HndTM as (_ & _ & (? & _)%NoDup_app).
    - rewrite Forall_forall in Hsegs. by apply Hsegs.
    - apply (chain_tour_of (link t) M HneM) in HcTM as [HcTM _].
      rewrite Forall_forall in HcTM. by apply (HcTM (p, l)). }
  assert (forall x, x ∈ TM -> parent_of t x ∈ PM) as HTMp.
  { intros x Hx. apply elem_of_tour_of in Hx as (p & l & Hin & Hx).
    destruct (HMseg p l Hin) as (HpPM & _ & _ & Hpar & _). by destruct (Hpar x Hx) as [-> _]. }
  assert (forall x, x ∈ T -> parent_of t x ∉ PM) as HTp.
  { intros x Hx. apply elem_of_tour_of in Hx as (q & lq & Hin & Hx).
    assert ((q, lq) ∈ M ++ R) as Hin' by (rewrite elem_of_app; by right).
    destruct (Rep_seg_ends _ _ _ _ HR Hin') as (_ & _ & _ & _ & _ & _ & Hpar).
    rewrite (Hpar x Hx). intros HqM. apply (HdP q HqM). by apply (elem_of_segs R q lq 0). }
  assert (forall w, w ∈ PM -> fbegin_of t w ∈ TM /\ fend_of t w ∈ TM /\
                             parent_of t (fbegin_of t w) = w /\ parent_of t (fend_of t w) = w)
    as HPMends.
  { intros w Hw. apply elem_of_parents_of in Hw as [l Hl].
    destruct (HMseg w l Hl) as (_ & Hh & Hla & Hpar & _).
    apply head_Some_elem_of in Hh. apply last_Some_elem_of in Hla.
    destruct (Hpar _ Hh). destruct (Hpar _ Hla). done. }
  assert (a ∈ TM) as HaTM by (by apply head_Some_elem_of).
  assert (b ∈ TM) as HbTM by (by apply last_Some_elem_of).
  assert (fbegin_of t s2 ∈ T) as HnaT by (by apply head_Some_elem_of).
  assert (fend_of t s1 ∈ T) as HpbT by (by apply last_Some_elem_of).
  assert (fend_of t2 p1 = a) as Ea2.
  { destruct (Hw2 p1) as (Hr2 & _ & Hb2 & He2).
    destruct (fbegin_of_eq t1 t2 p1 Hr2 Hb2 He2) as [_ ->].
    by rewrite Hfe1', decide_True. }
  assert (fbegin_of t2 s2 = fbegin_of t s2) as En2.
  { destruct (Hw2 s2) as (Hr2 & _ & Hb2 & He2).
    destruct (fbegin_of_eq t1 t2 s2 Hr2 Hb2 He2) as [-> _].
    by rewrite Hfb1', decide_False. }
  rewrite Ea2, En2 in Hgn3, Hgp3.
  assert (forall w, w ∈ PR -> pid_of t3 w = pid_of t w) as HPid3R.
  { intros w Hw. destruct (decide (w = s2)) as [->|Hws]; [done|].
    rewrite Hi3, decide_False by done.
    destruct (Hpp2 w) as [_ ->].
    { rewrite elem_of_reverse. intros HwM. by apply (HdP w). }
    by destruct (Hq1 w) as (_ & -> & _). }
  assert (forall w, w ∈ PM -> w <> s2) as HPMs2 by (intros w Hw ->; done).
  assert (forall w, w ∈ PM -> w <> s1) as HPMs1 by (intros w Hw ->; done).
  split; [|done].
  apply (Rep_intro t t3 (M ++ R)); try done.
  - rewrite !parents_of_app, parents_of_reverse_segs. by rewrite reverse_Permutation.
  - rewrite !tour_of_app, tour_of_reverse_segs. by rewrite reverse_Permutation.
  - rewrite parents_of_app, parents_of_reverse_segs. fold PM PR.
    destruct Hsh as (Hs3 & _). fold n in Hs3.
    apply cchain_app2.
    + apply chain_tail in Hch2. revert Hch2.
      apply chain_mono_pos; [by rewrite reverse_Permutation|].
      intros u v Hu Hv Hlu Hhv (H1 & H2 & H3 & _).
      rewrite elem_of_reverse in Hu, Hv. rewrite last_reverse, HhPM in Hlu.
      unfold plink. rewrite Hn3, Hp3, !Hi3, Hs3.
      rewrite decide_False by congruence.
      rewrite !decide_False by (by apply HPMs2). done.
    + revert HcPR. apply chain_mono_pos; [done|].
      intros u v Hu Hv Hlu Hhv (H1 & H2 & H3).
      rewrite HlPR in Hlu. rewrite HhPR in Hhv.
      assert (u ∉ PM) as HuM by (intros ?; by apply (HdP u)).
      assert (v ∉ PM) as HvM by (intros ?; by apply (HdP v)).
      unfold plink. rewrite Hn3, Hp3, Hs3, !HPid3R by done.
      rewrite decide_False by (intros ->; done).
      rewrite decide_False by congruence.
      rewrite Hpn2; cycle 1.
      { rewrite not_elem_of_cons, elem_of_reverse. split; [congruence|done]. }
      destruct (Hpp2 v) as [-> _]; [by rewrite elem_of_reverse|].
      destruct (Hq1 u) as (_ & _ & _ & -> & _). destruct (Hq1 v) as (_ & _ & -> & _). done.
    + intros x y. rewrite last_reverse, HhPM, HhPR. intros [= <-] [= <-].
      unfold plink. rewrite Hn3, Hp3, !Hi3, Hs3. rewrite !decide_True by done.
      by rewrite decide_False by (by apply HPMs2).
    + intros x y. rewrite head_reverse, HlPM, HlPR. intros [= <-] [= <-].
      apply chain_cons_head in Hch2 as [_ Hch2].
      destruct (Hch2 pk) as (H1 & H2 & H3 & _); [by rewrite head_reverse|].
      assert (pk ∈ PM) as HpkM by (by apply last_Some_elem_of).
      unfold plink. rewrite Hn3, Hp3, Hi3, Hs3, (HPid3R s1) by (by apply last_Some_elem_of).
      rewrite decide_False by (intros ->; done).
      rewrite !decide_False by (by apply HPMs2).
      rewrite H1, H2, H3. destruct (Hpp2 s1) as [_ ->]; [by rewrite elem_of_reverse|].
      by destruct (Hq1 s1) as (_ & -> & _).
    + by destruct PM using rev_ind; [|rewrite reverse_snoc].
    + done.
  - intros q Hq. rewrite parents_of_app in Hq. fold PM PR in Hq.
    apply elem_of_app in Hq as [Hq|Hq].
    + rewrite Hi3, decide_False by (by apply HPMs2). apply Hpid2.
      rewrite elem_of_cons, elem_of_reverse. by right.
    + rewrite HPid3R by done. apply Hpid. rewrite parents_of_app. fold PM PR.
      rewrite elem_of_app. by right.
  - apply Forall_app. split.
    + apply Forall_forall. intros s Hs. rewrite elem_of_reverse in Hs.
      apply list_elem_of_fmap in Hs as ([p l] & -> & Hin).
      destruct (HMseg p l Hin) as (HpM & Hh & Hla & Hpar & _ & Hok & _).
      destruct Hok as (Hz & _ & _ & _ & Hlc). cbn [fst snd] in Hz, Hlc.
      destruct (HW p) as (_ & Hz3 & Hb3 & He3).
      unfold seg_ok, reverse_seg. cbn [fst snd]. split_and!.
      * by rewrite Hz3, length_reverse.
      * by rewrite head_reverse, Hb3, Hfb1', decide_True.
      * by rewrite last_reverse, He3, Hfe1', decide_True.
      * apply Forall_forall. intros x Hx. rewrite elem_of_reverse in Hx.
        destruct (HX x) as (-> & _). by apply Hpar.
      * apply chain_reverse. revert Hlc. apply chain_mono_in. intros x y Hx Hy Hxy.
        destruct (HX x) as (_ & _ & _ & ->). destruct (HX y) as (_ & _ & _ & ->).
        rewrite !Hlid1. destruct (Hpar x Hx) as [-> _]. destruct (Hpar y Hy) as [-> _].
        rewrite !decide_True by done. lia.
    + apply Forall_forall. intros [q lq] Hin.
      assert ((q, lq) ∈ M ++ R) as Hin' by (rewrite elem_of_app; by right).
      assert (q ∉ PM) as HqM.
      { intros HqM. apply (HdP q HqM). by apply (elem_of_segs R q lq 0). }
      destruct (HW q) as (_ & Hz3 & Hb3 & He3).
      rewrite Forall_forall in Hsegs.
      apply (seg_ok_frame t); [by apply Hsegs|done| | |].
      * by rewrite Hb3, Hfb1', decide_False.
      * by rewrite He3, Hfe1', decide_False.
      * intros x Hx. destruct (HX x) as (-> & _ & _ & ->). split; [done|].
        rewrite Hlid1, decide_False; [done|]. apply HTp. by apply (elem_of_segs R q lq x).
  - rewrite tour_of_app. fold T.
    assert (forall x, x ∈ (fun w => fend_of t1 w) <$> (s1 :: lrev PM) ->
              x = fend_of t s1 \/ exists w, w ∈ PM /\ x = fbegin_of t w) as Hfe_in.
    { intros x Hx. apply list_elem_of_fmap in Hx as (w & -> & Hw).
      rewrite Hfe1'. apply elem_of_cons in Hw as [->|Hw].
      - left. by rewrite decide_False.
      - rewrite elem_of_reverse in Hw. right. exists w. by rewrite decide_True. }
    assert (forall x, x ∈ (fun w => fbegin_of t1 w) <$> lrev PM ->
              exists w, w ∈ PM /\ x = fend_of t w) as Hfb_in.
    { intros x Hx. apply list_elem_of_fmap in Hx as (w & -> & Hw).
      rewrite Hfb1'. rewrite elem_of_reverse in Hw. exists w. by rewrite decide_True. }
    apply cchain_app2.
    + apply (chain_tour_of (link t3)).
      { apply Forall_forall. intros s Hs. rewrite elem_of_reverse in Hs.
        apply list_elem_of_fmap in Hs as ([p l] & -> & Hin).
        destruct (HMseg p l Hin) as (_ & Hh & _). unfold reverse_seg. cbn [snd].
        destruct l using rev_ind; [done|]. by rewrite reverse_snoc. }
      split.
      * apply Forall_forall. intros s Hs. rewrite elem_of_reverse in Hs.
        apply list_elem_of_fmap in Hs as ([p l] & -> & Hin).
        destruct (HMseg p l Hin) as (HpM & Hh & Hla & Hpar & Hndl & _ & Hcl).
        unfold reverse_seg. cbn [snd]. apply chain_reverse. revert Hcl.
        apply chain_mono_pos; [done|].
        intros x y Hx Hy Hlx Hhy [H1 H2]. rewrite Hla in Hlx. rewrite Hh in Hhy.
        destruct (Hpar x Hx) as [Hpx HxT]. destruct (Hpar y Hy) as [Hpy HyT]. split.
        -- rewrite Hgn3, decide_False; cycle 1.
           { rewrite Ea. intros ->. rewrite Hpfb1 in Hpy. congruence. }
           rewrite Hgn2; cycle 1.
           { intros [->|(w & Hw & ->)]%Hfe_in.
             - by apply (HdT _ HyT).
             - destruct (HPMends w Hw) as (_ & _ & Hpw & _). congruence. }
           by rewrite Hgn1, Hpy, decide_True.
        -- rewrite Hgp3, decide_False; cycle 1.
           { intros ->. by apply (HdT _ HxT). }
           rewrite Hgp2; cycle 1.
           { intros (w & Hw & ->)%Hfb_in.
             destruct (HPMends w Hw) as (_ & _ & _ & Hpw). congruence. }
           by rewrite Hgp1, Hpx, decide_True.
      * assert (chain (fun u v => link t3 (fend_of t1 u) (fbegin_of t1 v)) (lrev PM)) as Hj.
        { apply chain_tail in Hch2. revert Hch2.
          apply chain_mono_pos; [by rewrite reverse_Permutation|].
          intros u v Hu Hv Hlu Hhv (_ & _ & _ & [H1 H2]).
          rewrite elem_of_reverse in Hu, Hv. rewrite last_reverse, HhPM in Hlu.
          destruct (HPMends u Hu) as (_ & _ & Hpu & _).
          destruct (HPMends v Hv) as (_ & _ & _ & Hpv).
          split.
          - rewrite Hgn3, decide_False; [done|].
            rewrite Hfe1', decide_True by done. rewrite Ea. intros E.
            rewrite E, Hpfb1 in Hpu. congruence.
          - rewrite Hgp3, decide_False; [done|].
            rewrite Hfb1', decide_True by done. intros E.
            rewrite E, Hpfb2 in Hpv. subst v. done. }
        unfold PM in Hj. rewrite <-parents_of_reverse_segs in Hj.
        change (parents_of (lrev (reverse_seg <$> M)))
          with (fst <$> (lrev (reverse_seg <$> M))) in Hj.
        apply chain_fmap in Hj. revert Hj. apply chain_mono_in.
        intros s s' Hs Hs' Hss x y Hx Hy. rewrite elem_of_reverse in Hs, Hs'.
        apply list_elem_of_fmap in Hs as ([p l] & -> & Hin).
        apply list_elem_of_fmap in Hs' as ([p' l'] & -> & Hin').
        destruct (HMseg p l Hin) as (HpM & Hh & _).
        destruct (HMseg p' l' Hin') as (HpM' & _ & Hla' & _).
        unfold reverse_seg in *. cbn [fst snd] in *.
        rewrite last_reverse, Hh in Hx. rewrite head_reverse, Hla' in Hy.
        rewrite Hfe1', Hfb1' in Hss. rewrite !decide_True in Hss by done. congruence.
    + apply (link_chain_frame t); [done..| |].
      * intros x Hx Hlx. rewrite HlT in Hlx.
        rewrite Hgn3, decide_False by (intros ->; by apply (HdT a)).
        rewrite Hgn2; cycle 1.
        { intros [->|(w & Hw & ->)]%Hfe_in; [done|].
          destruct (HPMends w Hw) as (HwT & _). by apply (HdT (fbegin_of t w)). }
        rewrite Hgn1, decide_False; [done|by apply HTp].
      * intros x Hx Hhx. rewrite HhT in Hhx.
        rewrite Hgp3, decide_False by congruence.
        rewrite Hgp2; cycle 1.
        { intros (w & Hw & ->)%Hfb_in.
          destruct (HPMends w Hw) as (_ & HwT & _). by apply (HdT (fend_of t w)). }
        rewrite Hgp1, decide_False; [done|by apply HTp].
    + intros x y. rewrite tour_of_reverse_segs. fold TM. rewrite last_reverse, Hha, HhT.
      intros [= <-] [= <-]. split.
      * by rewrite Hgn3, decide_True.
      * by rewrite Hgp3, decide_True.
    + intros x y. rewrite tour_of_reverse_segs. fold TM. rewrite head_reverse, Hlb, HlT.
      intros [= <-] [= <-].
      apply chain_cons_head in Hch2 as [_ Hch2].
      destruct (Hch2 pk) as (_ & _ & _ & [H1 H2]); [by rewrite head_reverse|].
      assert (pk ∈ PM) as HpkM by (by apply last_Some_elem_of).
      rewrite Hfe1', Hfb1' in H1, H2.
      rewrite decide_False in H1, H2 by done. rewrite decide_True in H1, H2 by done.
      rewrite <-Eb in H1, H2. split.
      * rewrite Hgn3, decide_False; [done|]. intros E. apply (HdT a HaTM). by rewrite <-E.
      * rewrite Hgp3, decide_False; [done|]. intros E. apply (HdT b HbTM). by rewrite E.
    + rewrite tour_of_reverse_segs. fold TM.
      by destruct TM using rev_ind; [|rewrite reverse_snoc].
    + done.
  - intros x. by destruct (HX x) as (_ & _ & -> & _).
Qed.

(** * Prefixes of a list without duplicates *)

Lemma prefix_unique {A} (p1 : list A) : forall p2 r1 r2 b,
  NoDup (p1 ++ r1) -> p1 ++ r1 = p2 ++ r2 ->
  last p1 = Some b -> last p2 = Some b -> p1 = p2 /\ r1 = r2.
Proof.
  induction p1 as [|x p1 IH]; intros p2 r1 r2 b Hnd E H1 H2; [done|].
  destruct p2 as [|y p2]; [done|]. simpl in E. injection E as <- E.
  simpl in Hnd. apply NoDup_cons in Hnd as [Hx Hnd].
  destruct p1 as [|x' p1]; destruct p2 as [|y' p2].
  - by simplify_eq/=.
  - exfalso. simpl in H1. simplify_eq. rewrite last_cons_cons in H2.
    apply last_Some_elem_of in H2. apply Hx. simpl in *. rewrite E. el.
  - exfalso. simpl in H2. simplify_eq. rewrite last_cons_cons in H1.
    apply last_Some_elem_of in H1. apply Hx. el.
  - rewrite last_cons_cons in H1, H2.
    destruct (IH (y' :: p2) r1 r2 b Hnd E H1 H2) as [-> ->]. done.
Qed.

Lemma elem_of_prefix_split {A} (l : list A) b :
  b ∈ l -> exists p r, l = p ++ r /\ last p = Some b.
Proof.
  intros (l1 & l2 & ->)%list_elem_of_split. exists (l1 ++ [b]), l2.
  split; [by rewrite <-app_assoc|by rewrite last_snoc].
Qed.

(** * Deciding whether the path lies in one segment *)

Lemma ipss_true t p l1 m l2 R a b :
  Rep t ((p, l1 ++ m ++ l2) :: R) -> head m = Some a -> last m = Some b -> a <> b ->
  is_path_in_single_segment t a b = true.
Proof.
  intros HR Hha Hlb Hab.
  destruct (path_length_eq _ _ _ _ _ _ _ _ HR Hha Hlb) as (Hap & Hbp & Hk & _).
  rewrite is_path_in_single_segment_lid. apply bool_decide_eq_true_2.
  split; [congruence|].
  destruct (head_last_split m a b Hha Hlb Hab) as (m' & ->). simpl in Hk.
  rewrite length_app in Hk. simpl in Hk. lia.
Qed.

Lemma ipss_false_parent t a b :
  parent_of t a <> parent_of t b -> is_path_in_single_segment t a b = false.
Proof.
  intros H. rewrite is_path_in_single_segment_lid. apply bool_decide_eq_false_2. tauto.
Qed.

Lemma ipss_false_before t p l1 a l2 R b :
  Rep t ((p, l1 ++ a :: l2) :: R) -> b ∈ l1 ->
  is_path_in_single_segment t a b = false.
Proof.
  intros HR Hb. rewrite is_path_in_single_segment_lid. apply bool_decide_eq_false_2.
  intros [_ Hlt].
  pose proof (rep_segs _ _ HR) as Hsegs. apply Forall_cons in Hsegs as [Hsp _].
  destruct Hsp as (_ & _ & _ & _ & Hlid). cbn [snd] in Hlid.
  assert (lid t b < lid t a); [|lia].
  apply (chain_offset_lt (lid t) l1 (a :: l2)); [done|done|el].
Qed.

(** * The lambdas [split_and_merge_a] and [split_and_merge_b] *)

Lemma split_and_merge_a_spec fuel t p l1 a l2 R :
  Rep t ((p, l1 ++ a :: l2) :: R) -> (Z.to_nat (_n_cities t) < fuel)%nat ->
  exists t1 p1 la R1, split_and_merge_a fuel t a = Some t1 /\
    Rep t1 ((p1, a :: la) :: R1) /\
    la ++ tour_of R1 = l2 ++ tour_of R ++ l1 /\ same_shape t t1.
Proof.
  intros HR Hf.
  pose proof (rep_segs _ _ HR) as Hsegs. apply Forall_cons in Hsegs as [Hsp _].
  assert (parent_of t a = p) as Hap by (eapply seg_ok_parent; [done|el]).
  destruct Hsp as (_ & Hh & _). cbn [fst snd] in Hh.
  pose proof (Rep_NoDup_tour _ _ HR) as Hnd. rewrite tour_of_cons in Hnd.
  apply NoDup_app in Hnd as (Hnd & _ & _).
  pose proof (Rep_seg_length _ _ _ _ HR) as Hlen. rewrite length_app in Hlen. simpl in Hlen.
  unfold split_and_merge_a. rewrite Hap.
  destruct l1 as [|x l1'].
  - simpl in Hh. rewrite bool_decide_eq_true_2 by congruence.
    exists t, p, l2, R. split_and!; [done|done|by rewrite app_nil_r|apply same_shape_refl].
  - rewrite bool_decide_eq_false_2; cycle 1.
    { simpl in Hh. intros Ha. assert (x = a) as -> by congruence.
      simpl in Hnd. apply NoDup_cons in Hnd as [Hx _]. apply Hx. el. }
    case_bool_decide as Hhalf.
    + destruct (Rep_rest_cons _ _ _ HR) as (q & l3 & R0 & ->).
      destruct (sam_forward_Rep fuel t p (x :: l1') (a :: l2) q l3 R0 a true HR)
        as (t1 & E & HR1 & Hsh & _); [done|done|done|simpl in *; lia|].
      exists t1, q, (l2 ++ l3), (R0 ++ [(p, x :: l1')]). split_and!; [done| | |done].
      * by apply (Rep_rotate t1 [(p, x :: l1')]) in HR1.
      * rewrite tour_of_app, !tour_of_cons. change (tour_of []) with (@nil Z).
        by rewrite app_nil_r, <-!app_assoc.
    + destruct (sam_front_backward fuel t p (x :: l1') (a :: l2) R a false HR)
        as (t1 & R' & E & HR1 & HT & Hsh); [done|done|done|].
      exists t1, p, l2, R'. split_and!; [done|done| |done]. by rewrite HT.
Qed.

Lemma tour_of_singleton p (l : list Z) : tour_of [(p, l)] = l.
Proof. rewrite tour_of_cons. change (tour_of []) with (@nil Z). by rewrite app_nil_r. Qed.

Lemma tour_of_ne_nil (R : list segment) : tour_of R <> [] -> R <> [].
Proof. by intros H ->. Qed.

Lemma split_and_merge_b_spec fuel t p1 a la Ra q B1 b B2 Rb :
  Rep t ((p1, a :: la) :: Ra ++ (q, B1 ++ b :: B2) :: Rb) ->
  B2 ++ tour_of Rb <> [] -> (Z.to_nat (_n_cities t) < fuel)%nat ->
  exists t2 M R2, split_and_merge_b fuel t a b = Some t2 /\ Rep t2 (M ++ R2) /\
    tour_of M = a :: la ++ tour_of Ra ++ B1 ++ [b] /\
    tour_of R2 = B2 ++ tour_of Rb /\ M <> [] /\ R2 <> [] /\ same_shape t t2.
Proof.
  intros HR Hrest Hf.
  set (S0 := (p1, a :: la) :: Ra).
  assert ((p1, a :: la) ∈ S0 ++ (q, B1 ++ b :: B2) :: Rb) as Hina by (unfold S0; el).
  assert ((q, B1 ++ b :: B2) ∈ S0 ++ (q, B1 ++ b :: B2) :: Rb) as Hinb by el.
  change ((p1, a :: la) :: Ra ++ (q, B1 ++ b :: B2) :: Rb)
    with (S0 ++ (q, B1 ++ b :: B2) :: Rb) in HR.
  destruct (Rep_seg_ends _ _ _ _ HR Hina) as (_ & _ & _ & _ & _ & _ & Hpa).
  destruct (Rep_seg_ends _ _ _ _ HR Hinb) as (_ & Hlq & _ & _ & _ & _ & Hpb).
  assert (parent_of t a = p1) as Hap by (apply Hpa; el).
  assert (parent_of t b = q) as Hbp by (apply Hpb; el).
  pose proof (Rep_NoDup_tour _ _ HR) as Hnd. rewrite tour_of_app, tour_of_cons in Hnd.
  apply NoDup_app in Hnd as (_ & _ & Hnd). apply NoDup_app in Hnd as (Hndq & _ & _).
  assert (tour_of S0 = a :: la ++ tour_of Ra) as HTS by (unfold S0; by rewrite tour_of_cons).
  (* moving [b] and what precedes it to the previous segment *)
  assert (B2 <> [] ->
    exists t2 M R2, split_and_merge fuel t b true backward = Some t2 /\ Rep t2 (M ++ R2) /\
      tour_of M = a :: la ++ tour_of Ra ++ B1 ++ [b] /\
      tour_of R2 = B2 ++ tour_of Rb /\ M <> [] /\ R2 <> [] /\ same_shape t t2) as Hback.
  { intros HB2. destruct (list_snoc_inv S0) as (Rc & [r lr] & ES); [done|].
    assert (Rep t (Rc ++ (r, lr) :: (q, (B1 ++ [b]) ++ B2) :: Rb)) as HR'.
    { revert HR. rewrite ES. by rewrite <-!app_assoc. }
    destruct (sam_backward_mid fuel t Rc q (B1 ++ [b]) B2 r lr Rb b true HR')
      as (t2 & E & HR2 & Hsh); [by destruct B1|done|by rewrite last_snoc|done|].
    exists t2, (Rc ++ [(r, lr ++ B1 ++ [b])]), ((q, B2) :: Rb). split_and!; try done.
    - by rewrite <-app_assoc.
    - rewrite tour_of_app, tour_of_singleton. rewrite ES, tour_of_app, tour_of_singleton in HTS.
      rewrite app_assoc, HTS. simpl. by rewrite <-!app_assoc.
    - by destruct Rc. }
  unfold split_and_merge_b. rewrite Hbp, Hap.
  change (backward_begin_node (pa t q)) with (fend_of t q).
  destruct (decide (B2 = [])) as [->|HB2].
  - rewrite last_snoc in Hlq. rewrite bool_decide_eq_true_2 by congruence.
    exists t, (S0 ++ [(q, B1 ++ [b])]), Rb. split_and!.
    + done.
    + by rewrite <-app_assoc.
    + rewrite tour_of_app, tour_of_singleton, HTS. simpl. by rewrite <-!app_assoc.
    + done.
    + by destruct S0.
    + by apply tour_of_ne_nil.
    + apply same_shape_refl.
  - rewrite bool_decide_eq_false_2; cycle 1.
    { intros Hb. rewrite cons_middle, app_assoc, last_app_ne in Hlq by done.
      apply last_Some_elem_of in Hlq. rewrite <-Hb in Hlq.
      rewrite cons_middle, app_assoc in Hndq. apply NoDup_app in Hndq as (_ & Hd & _).
      apply (Hd b); [el|done]. }
    case_bool_decide as Hnext; [by apply Hback|].
    case_bool_decide as Hhalf; [by apply Hback|].
    assert (exists r' lr' Rb', Rb = (r', lr') :: Rb') as (r' & lr' & Rb' & ->).
    { destruct Rb as [|[r' lr'] Rb']; [|eauto]. exfalso. apply Hnext.
      pose proof (rep_plink _ _ HR) as Hpl. unfold S0 in Hpl.
      rewrite parents_of_app, parents_of_cons in Hpl.
      change (parents_of [(q, B1 ++ b :: B2)]) with [q] in Hpl.
      destruct (cchain_wrap _ _ q p1 Hpl) as (? & _); [done|by rewrite last_snoc|done]. }
    assert (Rep t (S0 ++ (q, (B1 ++ [b]) ++ B2) :: (r', lr') :: Rb')) as HR'.
    { revert HR. by rewrite <-!app_assoc. }
    destruct (sam_forward_mid fuel t S0 q (B1 ++ [b]) B2 r' lr' Rb' b false HR')
      as (t2 & E & HR2 & Hsh); [by destruct B1|done|by rewrite last_snoc|done|].
    exists t2, (S0 ++ [(q, B1 ++ [b])]), ((r', B2 ++ lr') :: Rb'). split_and!; try done.
    + by rewrite <-app_assoc.
    + rewrite tour_of_app, tour_of_singleton, HTS. simpl. by rewrite <-!app_assoc.
    + rewrite !tour_of_cons. by rewrite <-!app_assoc.
Qed.

(** * [reverse] *)

Lemma reverse_runs fuel t M R a b :
  Rep t (M ++ R) -> M <> [] -> R <> [] ->
  head (tour_of M) = Some a -> last (tour_of M) = Some b -> a <> b ->
  (Z.to_nat (_n_cities t) < fuel)%nat ->
  exists t' segs',
    (if is_path_in_single_segment t a b then reverse_segment fuel t a b
     else
       let s1 := pprev_of t (parent_of t a) in
       let s2 := pnext_of t (parent_of t b) in
       '(t, temp) ← toggle_segments fuel t (parent_of t a) s2 [s2];
       let n_parents := _n_parents t in
       Some (reconnect_segments t temp s1 n_parents).1) = Some t' /\
    Rep t' segs' /\ same_shape t t' /\ tour_rep t' (lrev (tour_of M) ++ tour_of R).
Proof.
  intros HR HM HRne Hha Hlb Hab Hf.
  destruct M as [|[p m] M']; [done|]. destruct M' as [|s' M''].
  - rewrite tour_of_singleton in Hha, Hlb. simpl in HR.
    assert (Rep t ((p, [] ++ m ++ []) :: R)) as HR' by (by rewrite app_nil_r).
    rewrite (ipss_true t p [] m [] R a b HR' Hha Hlb Hab).
    destruct (reverse_segment_spec fuel t p [] m [] R a b HR' Hha Hlb Hab Hf)
      as (t' & segs' & E & HR2 & Hsh & Htr).
    exists t', segs'. split_and!; try done.
    rewrite tour_of_singleton. revert Htr. simpl. by rewrite app_nil_r.
  - set (M := (p, m) :: s' :: M'') in *.
    destruct (list_snoc_inv (s' :: M'')) as (M0 & [pk lk] & EM); [done|].
    assert ((p, m) ∈ M ++ R) as Hin1 by (unfold M; el).
    assert ((pk, lk) ∈ M ++ R) as Hink by (unfold M; rewrite EM; el).
    destruct (Rep_seg_ends _ _ _ _ HR Hin1) as (Hh1 & _ & _ & _ & _ & _ & Hp1).
    destruct (Rep_seg_ends _ _ _ _ HR Hink) as (_ & Hlk & _ & _ & _ & _ & Hpk).
    assert (parent_of t a = p) as Hap.
    { apply Hp1. apply head_Some_elem_of. unfold M in Hha.
      rewrite head_tour_of_cons in Hha; [done|]. intros E; by rewrite E in Hh1. }
    assert (parent_of t b = pk) as Hbp.
    { apply Hpk. apply last_Some_elem_of. unfold M in Hlb.
      rewrite EM, app_comm_cons, last_tour_of_snoc in Hlb; [done|].
      intros E; by rewrite E in Hlk. }
    assert (p <> pk) as Hppk.
    { pose proof (Rep_NoDup_parents _ _ HR) as Hnd. unfold M in Hnd.
      rewrite EM, parents_of_app in Hnd. apply NoDup_app in Hnd as (Hnd & _).
      rewrite parents_of_cons, parents_of_app in Hnd.
      change (parents_of [(pk, lk)]) with [pk] in Hnd.
      apply NoDup_cons in Hnd as [Hnd _]. intros ->. apply Hnd. el. }
    rewrite ipss_false_parent by congruence.
    destruct (reverse_multi_Rep fuel t M R a b HR HM HRne Hha Hlb Hf)
      as (t1 & temp & E & HR3 & Hsh).
    cbv zeta. rewrite E. cbn [mbind option_bind].
    eexists _, _. split_and!; [done|exact HR3|done|].
    apply Rep_tour_rep in HR3. by rewrite tour_of_app, tour_of_reverse_segs in HR3.
Qed.

Lemma chain_link_eq t x L : forall L',
  chain (link t) (x :: L) -> chain (link t) (x :: L') -> length L = length L' -> L = L'.
Proof.
  revert x. induction L as [|y L IH]; intros x L' H1 H2 Hlen.
  - by destruct L'.
  - destruct L' as [|y' L']; [done|].
    apply chain_cons in H1 as [[Hy _] H1]. apply chain_cons in H2 as [[Hy' _] H2].
    assert (y' = y) as -> by congruence. f_equal. apply (IH y); [done..|].
    simpl in Hlen. lia.
Qed.

Lemma tour_rep_unique t x L L' : tour_rep t (x :: L) -> tour_rep t (x :: L') -> L = L'.
Proof.
  intros H1 H2. pose proof (tour_rep_length _ _ H1) as Hl1.
  pose proof (tour_rep_length _ _ H2) as Hl2.
  destruct H1 as (H1 & _). destruct H2 as (H2 & _).
  apply (chain_link_eq t x); [by apply cchain_chain..|]. simpl in *. lia.
Qed.

Lemma reverse_spec fuel t segs path rest a b :
  Rep t segs -> tour_rep t (path ++ rest) ->
  head path = Some a -> last path = Some b -> a <> b -> rest <> [] ->
  (Z.to_nat (_n_cities t) < fuel)%nat ->
  exists t' segs', reverse fuel t a b = Some t' /\ Rep t' segs' /\ same_shape t t' /\
    tour_rep t' (lrev path ++ rest).
Proof.
  intros HR Htr Hha Hlb Hab Hrest Hf.
  pose proof (tour_rep_NoDup _ _ Htr) as Hnd.
  assert (a ∈ path) as Hapath by (by apply head_Some_elem_of).
  assert (b ∈ path) as Hbpath by (by apply last_Some_elem_of).
  assert (a ∈ tour_of segs) as Hain.
  { rewrite (rep_tour _ _ HR). destruct Htr as (_ & <- & _). el. }
  destruct (Rep_locate _ _ _ HR Hain) as (l1 & l2 & q & l3 & R0 & HR').
  set (p := parent_of t a) in *. set (R := (q, l3) :: R0) in *.
  assert (tour_rep t (a :: l2 ++ tour_of R ++ l1)) as HTa.
  { apply Rep_tour_rep in HR'. rewrite tour_of_cons, <-app_assoc in HR'.
    apply tour_rep_rotate in HR'. revert HR'. simpl. by rewrite <-!app_assoc. }
  assert (path ++ rest = a :: l2 ++ tour_of R ++ l1) as ETa.
  { destruct path as [|a' path']; [done|]. simpl in Hha. simplify_eq. simpl. f_equal.
    by apply (tour_rep_unique t a). }
  (* the first test of [reverse] *)
  assert (get_next t b <> a) as Hnb.
  { destruct Htr as (Hc & _). apply cchain_chain in Hc.
    apply chain_app in Hc as (_ & _ & Hj).
    destruct rest as [|r0 rest']; [done|]. destruct (Hj b r0 Hlb eq_refl) as [-> _].
    intros ->. apply NoDup_app in Hnd as (_ & Hd & _). apply (Hd a Hapath). el. }
  unfold reverse.
  rewrite (bool_decide_eq_false_2 (a = b)) by done.
  rewrite (bool_decide_eq_false_2 (get_next t b = a)) by done. cbn [orb].
  assert (b ∈ l2 ++ tour_of R ++ l1) as Hbin.
  { assert (b ∈ path ++ rest) as Hb by el. rewrite ETa in Hb.
    apply elem_of_cons in Hb as [?|?]; [congruence|done]. }
  destruct (decide (b ∈ l2)) as [Hbl2|Hbl2].
  - (* the path lies in the segment of [a] *)
    destruct (elem_of_prefix_split (a :: l2) b) as (pre & suf & Epre & Hlpre); [el|].
    destruct (prefix_unique path pre rest (suf ++ tour_of R ++ l1) b) as [Ep Er];
      [done| |done|done|].
    { rewrite ETa, (app_assoc pre), <-Epre. done. }
    subst pre. rewrite Er.
    assert (Rep t ((p, l1 ++ path ++ suf) :: R)) as HR2 by (by rewrite <-Epre).
    rewrite (ipss_true t p l1 path suf R a b HR2 Hha Hlb Hab).
    by apply (reverse_segment_spec fuel t p l1 path suf R a b).
  - assert (is_path_in_single_segment t a b = false) as ->.
    { apply elem_of_app in Hbin as [?|Hbin]; [done|].
      apply elem_of_app in Hbin as [HbR|Hbl1].
      - apply ipss_false_parent. destruct (Rep_rest_elem _ _ _ _ _ HR' HbR) as [Hpb _].
        fold p. congruence.
      - by apply (ipss_false_before t p l1 a l2 R b). }
    destruct (split_and_merge_a_spec fuel t p l1 a l2 R HR' Hf)
      as (t1 & p1 & la & R1 & E1 & HR1 & HT1 & Hsh1).
    rewrite E1. cbn [mbind option_bind].
    assert (Z.to_nat (_n_cities t1) < fuel)%nat as Hf1.
    { destruct Hsh1 as (_ & -> & _). done. }
    assert (path ++ rest = a :: la ++ tour_of R1) as ET1 by (by rewrite ETa, HT1).
    assert (b ∈ la ++ tour_of R1) as Hbin1 by (by rewrite HT1).
    assert (exists t' segs', (if is_path_in_single_segment t1 a b
              then reverse_segment fuel t1 a b
              else
                t2 ← split_and_merge_b fuel t1 a b;
                if is_path_in_single_segment t2 a b then reverse_segment fuel t2 a b
                else
                  let s1 := pprev_of t2 (parent_of t2 a) in
                  let s2 := pnext_of t2 (parent_of t2 b) in
                  '(t3, temp) ← toggle_segments fuel t2 (parent_of t2 a) s2 [s2];
                  let n_parents := _n_parents t3 in
                  Some (reconnect_segments t3 temp s1 n_parents).1) = Some t' /\
              Rep t' segs' /\ same_shape t1 t' /\ tour_rep t' (lrev path ++ rest))
      as (t' & segs' & E & HR3 & Hsh3 & Htr3).
    { destruct (decide (b ∈ la)) as [Hbla|Hbla].
      - destruct (elem_of_prefix_split (a :: la) b) as (pre & suf & Epre & Hlpre); [el|].
        destruct (prefix_unique path pre rest (suf ++ tour_of R1) b) as [Ep Er];
          [done| |done|done|].
        { rewrite ET1, (app_assoc pre), <-Epre. done. }
        subst pre. rewrite Er.
        assert (Rep t1 ((p1, [] ++ path ++ suf) :: R1)) as HR2 by (simpl; by rewrite <-Epre).
        rewrite (ipss_true t1 p1 [] path suf R1 a b HR2 Hha Hlb Hab).
        destruct (reverse_segment_spec fuel t1 p1 [] path suf R1 a b HR2 Hha Hlb Hab Hf1)
          as (t' & segs' & E & HR3 & Hsh3 & Htr3).
        exists t', segs'. split_and!; try done. revert Htr3. by rewrite app_nil_r.
      - assert (b ∈ tour_of R1) as HbR1.
        { apply elem_of_app in Hbin1 as [?|?]; done. }
        assert (is_path_in_single_segment t1 a b = false) as ->.
        { apply ipss_false_parent. destruct (Rep_rest_elem _ _ _ _ _ HR1 HbR1) as [Hpb _].
          pose proof (rep_segs _ _ HR1) as Hs1. apply Forall_cons in Hs1 as [Hs1 _].
          rewrite (seg_ok_parent _ _ _ a Hs1) by el. congruence. }
        destruct (tour_of_split _ _ HbR1) as (Ra & q' & B1 & B2 & Rb & ER1).
        rewrite ER1 in HR1.
        assert (tour_of R1 = tour_of Ra ++ B1 ++ b :: B2 ++ tour_of Rb) as ETR1.
        { rewrite ER1, tour_of_app, tour_of_cons. by rewrite <-!app_assoc. }
        destruct (prefix_unique path (a :: la ++ tour_of Ra ++ B1 ++ [b]) rest
                    (B2 ++ tour_of Rb) b) as [Epath Erest]; [done| |done| |].
        { rewrite ET1, ETR1. simpl. by rewrite <-!app_assoc. }
        { rewrite !app_comm_cons, !app_assoc. by rewrite last_snoc. }
        destruct (split_and_merge_b_spec fuel t1 p1 a la Ra q' B1 b B2 Rb HR1)
          as (t2 & M & R2 & E2 & HR2 & HTM & HTR2 & HM & HR2ne & Hsh2);
          [by rewrite <-Erest|done|].
        rewrite E2. cbn [mbind option_bind].
        destruct (reverse_runs fuel t2 M R2 a b HR2 HM HR2ne)
          as (t' & segs' & E & HR3 & Hsh3 & Htr3).
        { by rewrite HTM. }
        { rewrite HTM. rewrite !app_comm_cons, !app_assoc. by rewrite last_snoc. }
        { done. }
        { destruct Hsh2 as (_ & -> & _). done. }
        exists t', segs'. split_and!; [done|done|by eapply same_shape_trans|].
        by rewrite Epath, Erest, <-HTM, <-HTR2. }
    exists t', segs'. split_and!; [done|done|by eapply same_shape_trans|done].
Qed.

(** * The raw tour of a valid tree *)

Lemma raw_tour_loop_forward t L : forall x,
  chain (link t) (x :: L) ->
  raw_tour_loop t forward (S (length L)) x = (fun y => city_of t y) <$> (x :: L).
Proof.
  induction L as [|y L IH]; intros x Hc; [done|].
  apply chain_cons in Hc as [[Hy _] Hc].
  change (raw_tour_loop t forward (S (length (y :: L))) x)
    with (city_of t x :: raw_tour_loop t forward (S (length L)) (get_next t x)).
  rewrite Hy, (IH y Hc). done.
Qed.

Lemma raw_tour_loop_backward t L : forall x,
  chain (fun u v => link t v u) (x :: L) ->
  raw_tour_loop t backward (S (length L)) x = (fun y => city_of t y) <$> (x :: L).
Proof.
  induction L as [|y L IH]; intros x Hc; [done|].
  apply chain_cons in Hc as [[_ Hy] Hc].
  change (raw_tour_loop t backward (S (length (y :: L))) x)
    with (city_of t x :: raw_tour_loop t backward (S (length L)) (get_prev t x)).
  rewrite Hy, (IH y Hc). done.
Qed.

Lemma tour_rep_range t L x :
  tour_rep t L -> x ∈ L <-> _origin_city t <= x < _origin_city t + _n_cities t.
Proof. intros (_ & H & _). by rewrite H, elem_of_seqZ. Qed.

Lemma tour_rep_cities t L :
  tour_rep t L -> (fun y => city_of t y) <$> L = L.
Proof.
  intros (_ & _ & H). induction L as [|y L IH]; [done|].
  apply Forall_cons in H as [Hy H]. rewrite fmap_cons, Hy, IH; done.
Qed.

Lemma get_raw_tour_forward t x L :
  tour_rep t (x :: L) -> 0 <= _origin_city t -> get_raw_tour t x forward = x :: L.
Proof.
  intros Htr Ho. unfold get_raw_tour, get_node.
  assert (x ∈ x :: L) as Hx by el. apply (tour_rep_range _ _ _ Htr) in Hx.
  rewrite bool_decide_eq_false_2 by lia.
  rewrite <-(tour_rep_length _ _ Htr). simpl length.
  rewrite raw_tour_loop_forward; [by apply tour_rep_cities|].
  destruct Htr as (Hc & _). by apply cchain_chain.
Qed.

Lemma get_raw_tour_backward t x L :
  tour_rep t (x :: L) -> 0 <= _origin_city t -> get_raw_tour t x backward = x :: lrev L.
Proof.
  intros Htr Ho. unfold get_raw_tour, get_node.
  assert (x ∈ x :: L) as Hx by el. apply (tour_rep_range _ _ _ Htr) in Hx.
  rewrite bool_decide_eq_false_2 by lia.
  rewrite <-(tour_rep_length _ _ Htr). simpl length.
  rewrite <-(length_reverse L).
  rewrite raw_tour_loop_backward.
  - rewrite fmap_cons, fmap_reverse. pose proof (tour_rep_cities _ _ Htr) as Hc.
    rewrite fmap_cons in Hc. by injection Hc as -> ->.
  - destruct Htr as (Hc & _). apply cchain_cons in Hc.
    assert (chain (fun u v => link t v u) (lrev (x :: L ++ [x]))) as Hr.
    { by apply chain_reverse. }
    rewrite reverse_cons, reverse_app in Hr. simpl in Hr.
    rewrite app_comm_cons in Hr. by apply chain_app_l in Hr.
Qed.

Lemma valid_tour_from t a :
  valid t -> is_city_valid t a = true ->
  exists segs L, Rep t segs /\ tour_rep t (a :: L).
Proof.
  intros [Ho [segs HR]] Ha. pose proof (Rep_valid_node _ _ _ HR Ha) as Hin.
  destruct (Rep_locate _ _ _ HR Hin) as (l1 & l2 & q & l3 & R0 & HR').
  exists segs, (l2 ++ tour_of ((q, l3) :: R0) ++ l1). split; [done|].
  apply Rep_tour_rep in HR'. rewrite tour_of_cons, <-app_assoc in HR'.
  apply tour_rep_rotate in HR'. revert HR'. simpl. by rewrite <-!app_assoc.
Qed.

Lemma tour_rep_next_wrap t L x y :
  tour_rep t L -> head L = Some y -> last L = Some x -> get_next t x = y.
Proof.
  intros (Hc & _) Hh Hl. by destruct (cchain_wrap _ _ x y Hc Hh Hl) as [? _].
Qed.

Lemma is_city_valid_shape t t' c :
  same_shape t t' -> is_city_valid t' c = is_city_valid t c.
Proof. intros (_ & Hn & Ho & _). unfold is_city_valid. by rewrite Hn, Ho. Qed.

(** The tour of a valid tree, read from [a], reversed between [a] and [b]. *)
Lemma reverse_valid fuel t a b :
  valid t -> is_city_valid t a = true -> is_city_valid t b = true ->
  a <> b -> get_next t b <> a -> (Z.to_nat (_n_cities t) < fuel)%nat ->
  exists t' path rest, reverse fuel t a b = Some t' /\ valid t' /\ same_shape t t' /\
    tour_rep t (path ++ rest) /\ tour_rep t' (lrev path ++ rest) /\
    head path = Some a /\ last path = Some b /\ rest <> [].
Proof.
  intros Hv Ha Hb Hab Hnb Hf.
  destruct (valid_tour_from t a Hv Ha) as (segs & L & HR & Htr).
  assert (b ∈ a :: L) as HbL.
  { apply (tour_rep_range _ _ _ Htr). unfold is_city_valid in Hb.
    apply andb_true_iff in Hb as [H1 H2]. apply bool_decide_eq_true_1 in H1, H2. lia. }
  destruct (elem_of_prefix_split (a :: L) b HbL) as (path & rest & E & Hlb).
  assert (head path = Some a) as Hha.
  { destruct path; [done|]. simpl in E. by simplify_eq. }
  assert (rest <> []) as Hrest.
  { intros ->. rewrite app_nil_r in E. subst path.
    apply Hnb. by apply (tour_rep_next_wrap t (a :: L)). }
  rewrite E in Htr.
  destruct (reverse_spec fuel t segs path rest a b HR Htr Hha Hlb Hab Hrest Hf)
    as (t' & segs' & E' & HR' & Hsh & Htr').
  exists t', path, rest. split_and!; try done.
  by apply (Rep_valid t t' segs').
Qed.

Lemma reverse_nop fuel t a b :
  a = b \/ get_next t b = a -> reverse fuel t a b = Some t.
Proof.
  intros H. unfold reverse. destruct H as [H|H].
  - by rewrite (bool_decide_eq_true_2 _ H).
  - rewrite (bool_decide_eq_true_2 _ H). by rewrite orb_true_r.
Qed.

(** On a valid tree, for all nodes [a] and [b], [reverse] returns (for
    every fuel above the number of cities) a valid tree.  It returns the
    tree unchanged when [a = b] or [get_next b = a].  Otherwise, if the raw
    tour read forward from [a] is the path from [a] to [b] followed by the
    other cities, the raw tour of the result read forward from [b] is that
    path reversed, followed by the other cities in the same order. *)
Lemma reverse_path_valid fuel t a b :
  valid t -> is_city_valid t a = true -> is_city_valid t b = true ->
  (Z.to_nat (_n_cities t) < fuel)%nat ->
  exists t', reverse fuel t a b = Some t' /\ valid t' /\
    (a = b \/ get_next t b = a -> t' = t) /\
    (a <> b -> get_next t b <> a ->
     forall path rest,
       get_raw_tour t a forward = path ++ rest -> last path = Some b ->
       get_raw_tour t' b forward = lrev path ++ rest).
Proof.
  intros Hv Ha Hb Hf.
  destruct (decide (a = b \/ get_next t b = a)) as [Hnop|Hgo].
  - exists t. split_and!; [by apply reverse_nop|done|done|tauto].
  - assert (a <> b) as Hab by tauto. assert (get_next t b <> a) as Hnb by tauto.
    destruct (reverse_valid fuel t a b Hv Ha Hb Hab Hnb Hf)
      as (t' & path & rest & E & Hv' & Hsh & Htr & Htr' & Hha & Hlb & Hrest).
    exists t'. split_and!; [done|done|tauto|].
    intros _ _ path' rest' Hraw Hlb'.
    destruct Hv as [Ho _]. destruct Hv' as [Ho' _].
    destruct path as [|a' path0]; [done|]. simpl in Hha. simplify_eq.
    rewrite (get_raw_tour_forward t a (path0 ++ rest)) in Hraw by done.
    change (a :: path0 ++ rest) with ((a :: path0) ++ rest) in Hraw.
    destruct (prefix_unique (a :: path0) path' rest rest' b) as [<- <-];
      [by apply (tour_rep_NoDup t)|done..|].
    assert (exists L, lrev (a :: path0) = b :: L) as [L EL].
    { rewrite <-head_reverse in Hlb. destruct (lrev (a :: path0)); [done|].
      simpl in Hlb. simplify_eq. eauto. }
    rewrite EL in Htr' |- *. by apply get_raw_tour_forward.
Qed.

(** * Reversing a path and reversing it back *)

Lemma get_raw_tour_tour_rep_eq t t' L c d :
  tour_rep t L -> tour_rep t' L -> same_shape t t' -> 0 <= _origin_city t ->
  is_city_valid t c = true ->
  get_raw_tour t' c d = get_raw_tour t c d.
Proof.
  intros Htr Htr' Hsh Ho Hc.
  assert (c ∈ L) as HcL.
  { apply (tour_rep_range _ _ _ Htr). unfold is_city_valid in Hc.
    apply andb_true_iff in Hc as [H1 H2]. apply bool_decide_eq_true_1 in H1, H2. lia. }
  apply list_elem_of_split in HcL as (l1 & l2 & ->).
  apply tour_rep_rotate in Htr, Htr'. simpl in Htr, Htr'.
  assert (0 <= _origin_city t') as Ho' by (destruct Hsh as (_ & _ & -> & _); done).
  destruct d.
  - by rewrite (get_raw_tour_forward t c _ Htr), (get_raw_tour_forward t' c _ Htr').
  - by rewrite (get_raw_tour_backward t c _ Htr), (get_raw_tour_backward t' c _ Htr').
Qed.

(** C9.  On a valid tree, for nodes [a <> b] with [get_next b <> a],
    [reverse a b] followed by [reverse b a] on the result (both return, for
    every fuel above the number of cities) gives a valid tree whose raw tour
    is the one before the first call, for every start city and both
    directions. *)
Theorem reverse_twice_restores fuel t a b :
  valid t -> is_city_valid t a = true -> is_city_valid t b = true ->
  a <> b -> get_next t b <> a -> (Z.to_nat (_n_cities t) < fuel)%nat ->
  exists t' t'', reverse fuel t a b = Some t' /\ reverse fuel t' b a = Some t'' /\
    valid t'' /\
    forall c d, is_city_valid t c = true -> get_raw_tour t'' c d = get_raw_tour t c d.
Proof.
  intros Hv Ha Hb Hab Hnb Hf.
  destruct (reverse_valid fuel t a b Hv Ha Hb Hab Hnb Hf)
    as (t' & path & rest & E & Hv' & Hsh & Htr & Htr' & Hha & Hlb & Hrest).
  assert (get_next t' a <> b) as Hna'.
  { destruct Htr' as (Hc & Hp & _). apply cchain_chain in Hc.
    apply chain_app in Hc as (_ & _ & Hj). destruct rest as [|r0 rest']; [done|].
    destruct (Hj a r0) as [-> _]; [by rewrite last_reverse|done|].
    assert (NoDup (lrev path ++ r0 :: rest')) as Hnd by (rewrite Hp; apply NoDup_seqZ).
    intros ->. apply NoDup_app in Hnd as (_ & Hd & _). apply (Hd b); [|el].
    rewrite elem_of_reverse. by apply last_Some_elem_of. }
  destruct (reverse_valid fuel t' b a Hv')
    as (t'' & path2 & rest2 & E2 & Hv'' & Hsh2 & Htr2 & Htr2' & Hha2 & Hlb2 & Hrest2).
  { by rewrite (is_city_valid_shape t t'). }
  { by rewrite (is_city_valid_shape t t'). }
  { congruence. }
  { done. }
  { destruct Hsh as (_ & -> & _). done. }
  exists t', t''. split_and!; [done..|].
  assert (path2 = lrev path /\ rest2 = rest) as [-> ->].
  { assert (exists L, lrev path = b :: L) as [L EL].
    { rewrite <-head_reverse in Hlb. destruct (lrev path); [done|].
      simpl in Hlb. simplify_eq. eauto. }
    destruct path2 as [|b' path2']; [done|]. simpl in Hha2. simplify_eq.
    assert (L ++ rest = path2' ++ rest2) as EQ.
    { apply (tour_rep_unique t' b); [by rewrite app_comm_cons, <-EL|done]. }
    destruct (prefix_unique (lrev path) (b :: path2') rest rest2 a) as [Ep Er].
    - by apply (tour_rep_NoDup t').
    - rewrite EL. simpl. by f_equal.
    - by rewrite last_reverse.
    - done.
    - by split. }
  rewrite reverse_involutive in Htr2'.
  intros c d Hc. apply (get_raw_tour_tour_rep_eq t t'' (path ++ rest)); try done.
  - by eapply same_shape_trans.
  - by destruct Hv.
Qed.

Lemma reverse_twice_restores_witness :
  exists t' t'', reverse 100 tree23 18 23 = Some t' /\ reverse 100 t' 23 18 = Some t'' /\
    valid t'' /\
    forall c d, is_city_valid tree23 c = true ->
                get_raw_tour t'' c d = get_raw_tour tree23 c d.
Proof.
  apply (reverse_twice_restores 100 tree23 18 23).
  - apply check_valid_sound. vm_compute. reflexivity.
  - vm_compute. reflexivity.
  - vm_compute. reflexivity.
  - lia.
  - vm_compute. lia.
  - vm_compute. lia.
Defined.

(** * Reversing exactly one complete segment *)

Lemma pa_reverse_complete_segment t a b q :
  parent_of t b = parent_of t a -> q <> parent_of t a ->
  pa (reverse_complete_segment t a b) q = pa t q.
Proof.
  intros Hb Hq. rewrite reverse_complete_segment_eq by done.
  rewrite !pa_set_bw, !pa_set_fw. unfold set_p_reverse. by rewrite pa_set_pa, decide_False.
Qed.

(** On a valid tree, when [a] is the logical-forward begin and [b] the
    logical-forward end of one segment of at least two nodes, [reverse a b]
    toggles the reverse bit of the parent and repairs the four links to the
    neighbouring segments; nothing else changes. *)
Lemma reverse_complete_segment_frame fuel t a b :
  valid t -> is_city_valid t a = true ->
  a = fbegin_of t (parent_of t a) -> b = fend_of t (parent_of t a) -> a <> b ->
  exists t', reverse fuel t a b = Some t' /\ valid t' /\
    rev_of t' (parent_of t a) = negb (rev_of t (parent_of t a)) /\
    pid_of t' (parent_of t a) = pid_of t (parent_of t a) /\
    begin_of t' (parent_of t a) = begin_of t (parent_of t a) /\
    end_of t' (parent_of t a) = end_of t (parent_of t a) /\
    size_of t' (parent_of t a) = size_of t (parent_of t a) /\
    pprev_of t' (parent_of t a) = pprev_of t (parent_of t a) /\
    pnext_of t' (parent_of t a) = pnext_of t (parent_of t a) /\
    (forall q, q <> parent_of t a -> pa t' q = pa t q) /\
    (forall x, id_of t' x = id_of t x /\ parent_of t' x = parent_of t x /\
               city_of t' x = city_of t x) /\
    (forall x, x <> a -> x <> b -> x <> get_prev t a -> x <> get_next t b ->
               nd t' x = nd t x) /\
    get_next t' (get_prev t a) = b /\ get_prev t' b = get_prev t a /\
    get_next t' a = get_next t b /\ get_prev t' (get_next t b) = a.
Proof.
  intros Hv Ha Hfa Hfb Hab. pose proof Hv as [Ho [segs HR]].
  pose proof (Rep_valid_node _ _ _ HR Ha) as Hin.
  destruct (Rep_locate _ _ _ HR Hin) as (l1 & l2 & q & l3 & R0 & HR').
  set (p := parent_of t a) in *. set (R := (q, l3) :: R0) in *.
  destruct (Rep_neighbors _ _ _ _ HR')
    as (a' & b' & na & pb & Hh & Hl & HhT & HlT & Hfb' & Hfe' & Hna & Hpb & Hbn & Hpa & _).
  assert (l1 = []) as ->.
  { destruct l1 as [|x l1']; [done|]. exfalso. simpl in Hh.
    assert (x = a) as -> by congruence.
    pose proof (Rep_NoDup_tour _ _ HR') as Hnd. rewrite tour_of_cons in Hnd.
    apply NoDup_app in Hnd as (Hnd & _). simpl in Hnd.
    apply NoDup_cons in Hnd as [Hx _]. apply Hx. el. }
  simpl in HR', Hh, Hl. assert (a' = a) as -> by congruence.
  assert (b' = b) as -> by congruence.
  destruct Hbn as [Hnb Hnb']. destruct Hpa as [Hpa' Hpa].
  assert (na ∈ tour_of R) as HnaR by (by apply head_Some_elem_of).
  assert (pb ∈ tour_of R) as HpbR by (by apply last_Some_elem_of).
  destruct (Rep_rest_elem _ _ _ _ _ HR' HnaR) as [Hpna Hna_l].
  destruct (Rep_rest_elem _ _ _ _ _ HR' HpbR) as [Hppb Hpb_l].
  assert (Rep t ((p, [] ++ (a :: l2) ++ []) :: R)) as HR2 by (simpl; by rewrite app_nil_r).
  destruct (path_length_eq t p [] (a :: l2) [] R a b HR2 eq_refl Hl) as (_ & Hbp & _).
  exists (reverse_complete_segment t a b). split_and!.
  - unfold reverse.
    rewrite (bool_decide_eq_false_2 (a = b)) by done.
    rewrite (bool_decide_eq_false_2 (get_next t b = a)); cycle 1.
    { rewrite Hnb. intros ->. apply Hna_l. el. }
    cbn [orb]. rewrite (ipss_true t p [] (a :: l2) [] R a b HR2 eq_refl Hl Hab).
    unfold reverse_segment. fold p.
    assert ((bool_decide (a = begin_of t p) && bool_decide (b = end_of t p)
             || bool_decide (b = begin_of t p) && bool_decide (a = end_of t p)) = true) as ->;
      [|done].
    revert Hfa Hfb. unfold forward_begin_node, forward_end_node.
    destruct (rev_of t p); intros Hfa Hfb.
    + rewrite (bool_decide_eq_true_2 (b = begin_of t p)) by done.
      rewrite (bool_decide_eq_true_2 (a = end_of t p)) by done. by rewrite orb_true_r.
    + rewrite (bool_decide_eq_true_2 (a = begin_of t p)) by done.
      by rewrite (bool_decide_eq_true_2 (b = end_of t p)) by done.
  - apply (Rep_valid t _ ((p, lrev (a :: l2)) :: R)); [done| |].
    + by apply (reverse_complete_segment_shape t p (a :: l2) R).
    + by apply reverse_complete_segment_Rep.
  - destruct (rcs_view t a b p pb na _ eq_refl Hbp (eq_sym Hpb) (eq_sym Hna) eq_refl)
      as (_ & _ & _ & _ & Hr & _). by rewrite Hr, decide_True.
  - destruct (rcs_view t a b p pb na _ eq_refl Hbp (eq_sym Hpb) (eq_sym Hna) eq_refl)
      as (_ & _ & _ & _ & _ & Hq & _). by destruct (Hq p) as (_ & ? & _).
  - destruct (rcs_view t a b p pb na _ eq_refl Hbp (eq_sym Hpb) (eq_sym Hna) eq_refl)
      as (_ & _ & _ & _ & _ & Hq & _). by destruct (Hq p) as (_ & _ & _ & _ & ? & _).
  - destruct (rcs_view t a b p pb na _ eq_refl Hbp (eq_sym Hpb) (eq_sym Hna) eq_refl)
      as (_ & _ & _ & _ & _ & Hq & _). by destruct (Hq p) as (_ & _ & _ & _ & _ & ?).
  - destruct (rcs_view t a b p pb na _ eq_refl Hbp (eq_sym Hpb) (eq_sym Hna) eq_refl)
      as (_ & _ & _ & _ & _ & Hq & _). by destruct (Hq p) as (? & _).
  - destruct (rcs_view t a b p pb na _ eq_refl Hbp (eq_sym Hpb) (eq_sym Hna) eq_refl)
      as (_ & _ & _ & _ & _ & Hq & _). by destruct (Hq p) as (_ & _ & ? & _).
  - destruct (rcs_view t a b p pb na _ eq_refl Hbp (eq_sym Hpb) (eq_sym Hna) eq_refl)
      as (_ & _ & _ & _ & _ & Hq & _). by destruct (Hq p) as (_ & _ & _ & ? & _).
  - intros q' Hq'. by apply pa_reverse_complete_segment.
  - intros x.
    destruct (rcs_view t a b p pb na _ eq_refl Hbp (eq_sym Hpb) (eq_sym Hna) eq_refl)
      as (_ & H1 & H2 & H3 & _). by rewrite H1, H2, H3.
  - intros x Hxa Hxb Hxp Hxn.
    destruct (rcs_view t a b p pb na _ eq_refl Hbp (eq_sym Hpb) (eq_sym Hna) eq_refl)
      as (_ & _ & _ & _ & _ & _ & _ & _ & _ & Hnd).
    apply Hnd; congruence.
  - destruct (rcs_view t a b p pb na _ eq_refl Hbp (eq_sym Hpb) (eq_sym Hna) eq_refl)
      as (_ & _ & _ & _ & _ & _ & Hgn & _).
    rewrite Hpa, Hgn. rewrite decide_False by (intros ->; apply Hpb_l; el).
    by rewrite decide_True.
  - destruct (rcs_view t a b p pb na _ eq_refl Hbp (eq_sym Hpb) (eq_sym Hna) eq_refl)
      as (_ & _ & _ & _ & _ & _ & _ & Hgp & _).
    by rewrite Hpa, Hgp, decide_True.
  - destruct (rcs_view t a b p pb na _ eq_refl Hbp (eq_sym Hpb) (eq_sym Hna) eq_refl)
      as (_ & _ & _ & _ & _ & _ & Hgn & _).
    by rewrite Hnb, Hgn, decide_True.
  - destruct (rcs_view t a b p pb na _ eq_refl Hbp (eq_sym Hpb) (eq_sym Hna) eq_refl)
      as (_ & _ & _ & _ & _ & _ & _ & Hgp & _).
    rewrite Hnb, Hgp. rewrite decide_False; [by rewrite decide_True|].
    intros ->. apply Hna_l. by apply last_Some_elem_of.
Qed.

(** C8 (amended).  On a valid tree, let [a] be the logical-forward begin
    and [b] the logical-forward end of one segment.  When the segment holds
    at least two nodes ([a <> b]), [reverse a b] returns for every fuel, the
    result is valid, and it differs from the tree only in the reverse bit of
    that parent, which is toggled, and in the four links between the end
    points and the neighbouring segments: the ID, begin node, end node, size
    and links of the parent, the records of all other parents, the ID,
    parent and city of every node, and the whole record of every node other
    than [a], [b], the predecessor of [a] and the successor of [b] are
    unchanged.  When the segment holds a single node ([a = b]), [reverse]
    returns the tree unchanged. *)
Theorem reverse_one_complete_segment fuel t a b :
  valid t -> is_city_valid t a = true ->
  a = fbegin_of t (parent_of t a) -> b = fend_of t (parent_of t a) ->
  (a = b -> reverse fuel t a b = Some t) /\
  (a <> b ->
    exists t', reverse fuel t a b = Some t' /\ valid t' /\
      rev_of t' (parent_of t a) = negb (rev_of t (parent_of t a)) /\
      pid_of t' (parent_of t a) = pid_of t (parent_of t a) /\
      begin_of t' (parent_of t a) = begin_of t (parent_of t a) /\
      end_of t' (parent_of t a) = end_of t (parent_of t a) /\
      size_of t' (parent_of t a) = size_of t (parent_of t a) /\
      pprev_of t' (parent_of t a) = pprev_of t (parent_of t a) /\
      pnext_of t' (parent_of t a) = pnext_of t (parent_of t a) /\
      (forall q, q <> parent_of t a -> pa t' q = pa t q) /\
      (forall x, id_of t' x = id_of t x /\ parent_of t' x = parent_of t x /\
                 city_of t' x = city_of t x) /\
      (forall x, x <> a -> x <> b -> x <> get_prev t a -> x <> get_next t b ->
                 nd t' x = nd t x) /\
      get_next t' (get_prev t a) = b /\ get_prev t' b = get_prev t a /\
      get_next t' a = get_next t b /\ get_prev t' (get_next t b) = a).
Proof.
  intros Hv Ha Hfa Hfb. split.
  - intros Hab. apply reverse_nop. by left.
  - intros Hab. by apply reverse_complete_segment_frame.
Qed.

Lemma reverse_one_complete_segment_witness :
  exists t', reverse 0 tree14 8 1 = Some t' /\ valid t' /\
    rev_of t' (parent_of tree14 8) = negb (rev_of tree14 (parent_of tree14 8)) /\
    pid_of t' (parent_of tree14 8) = pid_of tree14 (parent_of tree14 8) /\
    begin_of t' (parent_of tree14 8) = begin_of tree14 (parent_of tree14 8) /\
    end_of t' (parent_of tree14 8) = end_of tree14 (parent_of tree14 8) /\
    size_of t' (parent_of tree14 8) = size_of tree14 (parent_of tree14 8) /\
    pprev_of t' (parent_of tree14 8) = pprev_of tree14 (parent_of tree14 8) /\
    pnext_of t' (parent_of tree14 8) = pnext_of tree14 (parent_of tree14 8) /\
    (forall q, q <> parent_of tree14 8 -> pa t' q = pa tree14 q) /\
    (forall x, id_of t' x = id_of tree14 x /\ parent_of t' x = parent_of tree14 x /\
               city_of t' x = city_of tree14 x) /\
    (forall x, x <> 8 -> x <> 1 -> x <> get_prev tree14 8 -> x <> get_next tree14 1 ->
               nd t' x = nd tree14 x) /\
    get_next t' (get_prev tree14 8) = 1 /\ get_prev t' 1 = get_prev tree14 8 /\
    get_next t' 8 = get_next tree14 1 /\ get_prev t' (get_next tree14 1) = 8.
Proof.
  refine (proj2 (reverse_one_complete_segment 0 tree14 8 1 _ _ _ _) _).
  - apply check_valid_sound. vm_compute. reflexivity.
  - vm_compute. reflexivity.
  - vm_compute. reflexivity.
  - vm_compute. reflexivity.
  - lia.
Defined.

(** C8, counterexample for a segment of one node.  In the three-city
    tree built from [2; 0; 1] the first segment holds the single city [2], so
    the path from [2] to [2] spans one complete segment; [reverse 2 2] returns
    the tree unchanged and the reverse bit of that parent is not toggled. *)
Lemma reverse_one_complete_segment_counterexample :
  ~ (forall fuel t a b,
       valid t -> is_city_valid t a = true ->
       a = fbegin_of t (parent_of t a) -> b = fend_of t (parent_of t a) ->
       exists t', reverse fuel t a b = Some t' /\
         rev_of t' (parent_of t a) = negb (rev_of t (parent_of t a))).
Proof.
  intros H. destruct (H 100%nat tree3 2 2) as (t' & E & Hrev).
  - apply check_valid_sound. vm_compute. reflexivity.
  - vm_compute. reflexivity.
  - vm_compute. reflexivity.
  - vm_compute. reflexivity.
  - unfold reverse in E. rewrite bool_decide_eq_true_2 in E by done.
    simpl in E. injection E as <-. vm_compute in Hrev. discriminate.
Qed.

(** * Neighbours on the tour *)

Lemma tour_rep_inverse t L x :
  tour_rep t L -> x ∈ L ->
  get_prev t (get_next t x) = x /\ get_next t (get_prev t x) = x /\
  get_next t x ∈ L /\ get_prev t x ∈ L.
Proof.
  intros Htr (l1 & l2 & ->)%list_elem_of_split.
  assert (forall y, y ∈ x :: l2 ++ l1 -> y ∈ l1 ++ x :: l2) as Hmem by (intros y; el).
  apply tour_rep_rotate in Htr. simpl in Htr. destruct Htr as (Hc & _).
  set (L' := l2 ++ l1) in *. clearbody L'.
  destruct (cchain_wrap _ _ (default x (last L')) x Hc eq_refl) as [Hn Hp].
  { destruct L' as [|y L'] using rev_ind; [done|]. by rewrite app_comm_cons, !last_snoc. }
  apply cchain_chain in Hc.
  assert (get_prev t x ∈ x :: L') as Hpin.
  { rewrite Hp. destruct (last L') eqn:E; simpl; [|el].
    apply last_Some_elem_of in E. el. }
  destruct L' as [|y L''].
  - simpl in *. split_and!; try congruence; apply Hmem; rewrite ?Hn, ?Hp; el.
  - apply chain_cons in Hc as [[Hy Hy'] _]. split_and!.
    + congruence.
    + congruence.
    + apply Hmem. rewrite Hy. el.
    + by apply Hmem.
Qed.

Lemma chain_next_in t l y :
  chain (link t) l -> head l = Some y -> last l <> Some y -> get_next t y ∈ l.
Proof.
  intros Hc Hh Hl. destruct l as [|y' l]; [done|]. simpl in Hh. simplify_eq.
  destruct l as [|z l]; [done|]. apply chain_cons in Hc as [[-> _] _]. el.
Qed.

Lemma chain_prev_in t l x :
  chain (link t) l -> last l = Some x -> head l <> Some x -> get_prev t x ∈ l.
Proof.
  intros Hc Hl Hh. destruct l as [|x' l _] using rev_ind; [done|].
  rewrite last_snoc in Hl. simplify_eq.
  destruct l as [|z l _] using rev_ind; [done|].
  rewrite <-app_assoc in Hc. apply chain_app_r in Hc.
  apply chain_cons in Hc as [[_ ->] _]. el.
Qed.

(** The arcs around a reversed path. *)
Lemma reverse_edges fuel t x y :
  valid t -> is_city_valid t x = true -> is_city_valid t y = true ->
  x <> y -> get_next t y <> x -> get_prev t x <> get_next t y ->
  (Z.to_nat (_n_cities t) < fuel)%nat ->
  exists t', reverse fuel t x y = Some t' /\ valid t' /\ same_shape t t' /\
    get_next t' x = get_next t y /\ get_prev t' (get_next t y) = x /\
    get_next t' (get_prev t x) = y /\ get_prev t' y = get_prev t x /\
    get_next t' y <> get_next t y /\ get_next t' y <> get_prev t x /\
    get_prev t' x <> get_next t y /\ get_prev t' x <> get_prev t x /\
    get_next t' (get_next t y) <> x /\ get_next t' (get_next t y) <> y /\
    get_prev t' (get_prev t x) <> x /\ get_prev t' (get_prev t x) <> y.
Proof.
  intros Hv Hx Hy Hxy Hny Huv Hf.
  destruct (reverse_valid fuel t x y Hv Hx Hy Hxy Hny Hf)
    as (t' & path & rest & E & Hv' & Hsh & Htr & Htr' & Hha & Hlb & Hrest).
  exists t'. split; [done|]. split; [done|]. split; [done|].
  pose proof (tour_rep_NoDup _ _ Htr') as Hnd.
  apply NoDup_app in Hnd as (Hndp & Hd & Hndr).
  assert (forall z, z ∈ rest -> z ∉ path) as Hd'.
  { intros z Hz Hz'. apply (Hd z); [by rewrite elem_of_reverse|done]. }
  (* the ends of the rest *)
  assert (exists u, head rest = Some u) as [u Hu] by (destruct rest; [done|eauto]).
  assert (exists v, last rest = Some v) as [v Hlv].
  { destruct (last rest) eqn:El; [eauto|]. by apply last_None in El. }
  destruct Htr as (Hc & _). destruct Htr' as (Hc' & _).
  assert (path <> []) as Hpath by (intros Ep; by rewrite Ep in Hha).
  assert (lrev path <> []) as Hrpath.
  { intros Ep. apply (f_equal lrev) in Ep. rewrite reverse_involutive in Ep. done. }
  destruct (cchain_app2_inv _ _ _ Hc Hpath Hrest) as (_ & _ & Hj & Hw).
  destruct (cchain_app2_inv _ _ _ Hc' Hrpath Hrest) as (Hcp' & Hcr' & Hj' & Hw').
  destruct (Hj y u Hlb Hu) as [Hyu _]. destruct (Hw v x Hlv Hha) as [_ Hxv].
  rewrite Hyu, Hxv in *.
  destruct (Hj' x u) as [Hxu Hux]; [by rewrite last_reverse|done|].
  destruct (Hw' v y) as [Hvy Hyv]; [done|by rewrite head_reverse|].
  assert (u ∈ rest) as Hur by (by apply head_Some_elem_of).
  assert (v ∈ rest) as Hvr by (by apply last_Some_elem_of).
  assert (x ∈ path) as Hxp by (by apply head_Some_elem_of).
  assert (y ∈ path) as Hyp by (by apply last_Some_elem_of).
  assert (get_next t' y ∈ lrev path) as H1.
  { apply chain_next_in; [done|by rewrite head_reverse|].
    rewrite last_reverse, Hha. congruence. }
  assert (get_prev t' x ∈ lrev path) as H2.
  { apply chain_prev_in; [done|by rewrite last_reverse|].
    rewrite head_reverse, Hlb. congruence. }
  assert (get_next t' u ∈ rest) as H3.
  { apply chain_next_in; [done|done|]. rewrite Hlv. congruence. }
  assert (get_prev t' v ∈ rest) as H4.
  { apply chain_prev_in; [done|done|]. rewrite Hu. congruence. }
  rewrite elem_of_reverse in H1, H2.
  split_and!; try done.
  - intros Ez. apply (Hd' u Hur). by rewrite <-Ez.
  - intros Ez. apply (Hd' v Hvr). by rewrite <-Ez.
  - intros Ez. apply (Hd' u Hur). by rewrite <-Ez.
  - intros Ez. apply (Hd' v Hvr). by rewrite <-Ez.
  - intros Ez. apply (Hd' _ H3). by rewrite Ez.
  - intros Ez. apply (Hd' _ H3). by rewrite Ez.
  - intros Ez. apply (Hd' _ H4). by rewrite Ez.
  - intros Ez. apply (Hd' _ H4). by rewrite Ez.
Qed.

Lemma is_city_valid_range t x :
  is_city_valid t x = true <-> _origin_city t <= x < _origin_city t + _n_cities t.
Proof.
  unfold is_city_valid. rewrite andb_true_iff, !bool_decide_eq_true. lia.
Qed.

Lemma valid_tour t :
  valid t -> exists L, tour_rep t L /\ forall x, x ∈ L <-> is_city_valid t x = true.
Proof.
  intros [_ [segs HR]]. exists (tour_of segs). split; [by apply Rep_tour_rep|].
  intros x. rewrite is_city_valid_range. by apply Rep_elem_of_tour.
Qed.

Lemma valid_neighbors t x :
  valid t -> is_city_valid t x = true ->
  is_city_valid t (get_next t x) = true /\ is_city_valid t (get_prev t x) = true /\
  get_prev t (get_next t x) = x /\ get_next t (get_prev t x) = x.
Proof.
  intros Hv Hx. destruct (valid_tour t Hv) as (L & Htr & HL).
  apply HL in Hx. destruct (tour_rep_inverse t L x Htr Hx) as (H1 & H2 & H3 & H4).
  split_and!; try done; by apply HL.
Qed.

(** A tour on which [b] is both the successor and the predecessor of [a] has
    no other node. *)
Lemma two_cycle t a b c :
  valid t -> is_city_valid t a = true -> is_city_valid t c = true ->
  get_next t a = b -> get_prev t a = b -> c = a \/ c = b.
Proof.
  intros Hv Ha Hc Hn Hp.
  destruct (valid_tour_from t a Hv Ha) as (segs & L & HR & Htr).
  assert (c ∈ a :: L) as HcL.
  { apply (tour_rep_range _ _ _ Htr). by apply is_city_valid_range. }
  pose proof (tour_rep_NoDup _ _ Htr) as Hnd. apply NoDup_cons in Hnd as [HaL HndL].
  destruct Htr as (Hch & _).
  destruct L as [|y L'].
  - apply elem_of_cons in HcL as [?|?%elem_of_nil]; [by left|done].
  - destruct (cchain_wrap _ _ (default y (last L')) a Hch eq_refl) as [_ Hpa].
    { simpl. destruct L' as [|z L' _] using rev_ind; [done|].
      by rewrite app_comm_cons, !last_snoc. }
    apply cchain_chain in Hch. apply chain_cons in Hch as [[Hy _] _].
    assert (y = b) as -> by congruence.
    assert (L' = []) as ->.
    { destruct L' as [|z L' _] using rev_ind; [done|]. exfalso.
      rewrite last_snoc in Hpa. simpl in Hpa. assert (z = b) as -> by congruence.
      apply NoDup_cons in HndL as [Hb _]. apply Hb. el. }
    revert HcL. rewrite !elem_of_cons, elem_of_nil. tauto.
Qed.

Lemma flip_nop fuel t a b c d :
  b = c \/ a = d -> flip fuel t a b c d = Some t.
Proof.
  intros H. unfold flip. destruct H as [H|H].
  - by rewrite (bool_decide_eq_true_2 _ H).
  - rewrite (bool_decide_eq_true_2 (d = a)) by done. by rewrite orb_true_r.
Qed.

Lemma reverse_edges_named fuel t x y u v :
  valid t -> is_city_valid t x = true -> is_city_valid t y = true ->
  get_next t y = u -> get_prev t x = v ->
  x <> y -> u <> x -> v <> u -> (Z.to_nat (_n_cities t) < fuel)%nat ->
  exists t', reverse fuel t x y = Some t' /\ valid t' /\ same_shape t t' /\
    get_next t' x = u /\ get_prev t' u = x /\
    get_next t' v = y /\ get_prev t' y = v /\
    get_next t' y <> u /\ get_next t' y <> v /\
    get_prev t' x <> u /\ get_prev t' x <> v /\
    get_next t' u <> x /\ get_next t' u <> y /\
    get_prev t' v <> x /\ get_prev t' v <> y.
Proof.
  intros Hv Hx Hy <- <- Hxy Hux Hvu Hf.
  by apply reverse_edges.
Qed.

Ltac edges :=
  unfold has_edge;
  rewrite ?orb_true_iff, ?orb_false_iff, ?bool_decide_eq_true, ?bool_decide_eq_false;
  intuition congruence.

(** C3.  On a valid tree, let [a] be adjacent to [b] and [c] to [d] in the
    same orientation.  When [b = c] or [a = d], [flip] returns the tree
    unchanged.  When [(a, b) <> (c, d)], [b <> c] and [a <> d], [flip]
    returns (for every fuel above the number of cities) a valid tree over the
    same cities in which [a] and [c] are adjacent, [b] and [d] are adjacent,
    and neither [a] and [b] nor [c] and [d] are adjacent. *)
Theorem flip_exchanges_edges fuel t a b c d :
  valid t -> is_city_valid t a = true -> is_city_valid t c = true ->
  (get_next t a = b /\ get_next t c = d) \/ (get_prev t a = b /\ get_prev t c = d) ->
  (Z.to_nat (_n_cities t) < fuel)%nat ->
  (b = c \/ a = d -> flip fuel t a b c d = Some t) /\
  ((a, b) <> (c, d) -> b <> c -> a <> d ->
   exists t', flip fuel t a b c d = Some t' /\ valid t' /\ same_shape t t' /\
     has_edge t' a c = true /\ has_edge t' b d = true /\
     has_edge t' a b = false /\ has_edge t' c d = false).
Proof.
  intros Hv Ha Hc Hadj Hf. split; [apply flip_nop|].
  intros Hne Hbc Had.
  destruct (valid_neighbors t a Hv Ha) as (Hna & Hpa & Hpna & Hnpa).
  destruct (valid_neighbors t c Hv Hc) as (Hnc & Hpc & Hpnc & Hnpc).
  assert (a <> c) as Hac.
  { intros ->. apply Hne. f_equal. destruct Hadj as [[? ?]|[? ?]]; congruence. }
  assert (b <> d) as Hbd.
  { intros ->. apply Hac. destruct Hadj as [[? ?]|[? ?]]; congruence. }
  unfold flip.
  rewrite (bool_decide_eq_false_2 (b = c)) by done.
  rewrite (bool_decide_eq_false_2 (d = a)) by congruence. cbn [orb].
  destruct Hadj as [[Hab Hcd]|[Hab Hcd]].
  - (* both arcs are forward *)
    rewrite (bool_decide_eq_true_2 (get_next t a = b)) by done.
    rewrite Hab in Hna, Hpna. rewrite Hcd in Hnc, Hpnc.
    destruct (is_approximately_shorter t b c d a).
    + destruct (reverse_edges_named fuel t b c d a Hv Hna Hc Hcd Hpna)
        as (t' & E & Hv' & Hsh & H1 & H2 & H3 & H4 & H5 & H6 & H7 & H8 & H9 & H10 & H11 & H12);
        [done|congruence|congruence|done|].
      exists t'. split_and!; [done|done|done|edges..].
    + destruct (reverse_edges_named fuel t d a b c Hv Hnc Ha Hab Hpnc)
        as (t' & E & Hv' & Hsh & H1 & H2 & H3 & H4 & H5 & H6 & H7 & H8 & H9 & H10 & H11 & H12);
        [congruence|congruence|congruence|done|].
      exists t'. split_and!; [done|done|done|edges..].
  - (* both arcs are backward *)
    rewrite (bool_decide_eq_false_2 (get_next t a = b)).
    2:{ intros Hn. destruct (two_cycle t a b c Hv Ha Hc Hn Hab); congruence. }
    rewrite Hab in Hpa, Hnpa. rewrite Hcd in Hpc, Hnpc.
    destruct (is_approximately_shorter t b c d a).
    + destruct (reverse_edges_named fuel t c b a d Hv Hc Hpa Hnpa Hcd)
        as (t' & E & Hv' & Hsh & H1 & H2 & H3 & H4 & H5 & H6 & H7 & H8 & H9 & H10 & H11 & H12);
        [congruence|congruence|congruence|done|].
      exists t'. split_and!; [done|done|done|edges..].
    + destruct (reverse_edges_named fuel t a d c b Hv Ha Hpc Hnpc Hab)
        as (t' & E & Hv' & Hsh & H1 & H2 & H3 & H4 & H5 & H6 & H7 & H8 & H9 & H10 & H11 & H12);
        [done|congruence|congruence|done|].
      exists t'. split_and!; [done|done|done|edges..].
Qed.

Lemma flip_exchanges_edges_witness :
  exists t', flip 100 tree12 3 6 10 7 = Some t' /\ valid t' /\ same_shape tree12 t' /\
    has_edge t' 3 10 = true /\ has_edge t' 6 7 = true /\
    has_edge t' 3 6 = false /\ has_edge t' 10 7 = false.
Proof.
  refine (proj2 (flip_exchanges_edges 100 tree12 3 6 10 7 _ _ _ _ _) _ _ _).
  - apply check_valid_sound. vm_compute. reflexivity.
  - vm_compute. reflexivity.
  - vm_compute. reflexivity.
  - left. vm_compute. split; reflexivity.
  - vm_compute. lia.
  - discriminate.
  - lia.
  - lia.
Defined.

(** * Construction: [set_raw_tour] establishes the invariant *)

Lemma for_loop_inv {St : Type} (P : Z -> St -> Prop) count i (body : Z -> St -> St) s :
  P i s ->
  (forall j s, i <= j < i + Z.of_nat count -> P j s -> P (j + 1) (body j s)) ->
  P (i + Z.of_nat count) (for_loop count i body s).
Proof.
  revert i s. induction count as [|c IH]; intros i s H0 Hstep.
  - simpl. by rewrite Z.add_0_r.
  - simpl for_loop. replace (i + Z.of_nat (S c)) with ((i + 1) + Z.of_nat c) by lia.
    apply IH.
    + apply Hstep; [lia|done].
    + intros j s' Hj. apply Hstep. lia.
Qed.

Lemma at_lookup order i x :
  0 <= i -> order !! Z.to_nat i = Some x -> at_ order i = x.
Proof. intros Hi H. unfold at_. by rewrite H. Qed.

Lemma at_inj order i j :
  NoDup order -> 0 <= i < Z.of_nat (length order) -> 0 <= j < Z.of_nat (length order) ->
  at_ order i = at_ order j -> i = j.
Proof.
  intros Hnd Hi Hj. unfold at_.
  destruct (lookup_lt_is_Some_2 order (Z.to_nat i)) as [x Hx]; [lia|].
  destruct (lookup_lt_is_Some_2 order (Z.to_nat j)) as [y Hy]; [lia|].
  rewrite Hx, Hy. simpl. intros ->.
  pose proof (NoDup_lookup _ _ _ _ Hnd Hx Hy). lia.
Qed.

Lemma at_elem_of order i :
  0 <= i < Z.of_nat (length order) -> at_ order i ∈ order.
Proof.
  intros Hi. unfold at_.
  destruct (lookup_lt_is_Some_2 order (Z.to_nat i)) as [x Hx]; [lia|].
  rewrite Hx. simpl. by eapply list_elem_of_lookup_2.
Qed.

Lemma fmap_at_seqZ order : at_ order <$> seqZ 0 (Z.of_nat (length order)) = order.
Proof.
  apply list_eq. intros i. rewrite list_lookup_fmap.
  destruct (decide (i < length order)%nat) as [Hi|Hi].
  - rewrite (lookup_seqZ_lt 0 _ i) by lia. simpl.
    destruct (lookup_lt_is_Some_2 order i Hi) as [x Hx]. rewrite Hx. f_equal.
    apply at_lookup; [lia|]. by rewrite Z.add_0_l, Nat2Z.id.
  - rewrite lookup_seqZ_ge by lia. simpl. symmetry. apply lookup_ge_None. lia.
Qed.

(** The node written by one iteration of the inner loop. *)
Lemma nd_set_raw_tour_node order fc lc parent ib i t x :
  nd (set_raw_tour_node order fc lc parent ib i t) x =
  if decide (x = at_ order i) then
    mkNode (i - ib) (at_ order i)
      (if bool_decide (i = 0) then lc else at_ order (i - 1))
      (if bool_decide (i + 1 = _n_cities t) then fc else at_ order (i + 1))
      parent
  else nd t x.
Proof.
  unfold set_raw_tour_node, get_node, set_n_id, set_n_next, set_n_prev, set_n_parent, set_n_city.
  cbv zeta. rewrite !nd_set_nd. destruct (decide (x = at_ order i)) as [->|Hne].
  - rewrite !decide_True by done. simpl. done.
  - done.
Qed.

Lemma pa_set_raw_tour_node order fc lc parent ib i t p :
  pa (set_raw_tour_node order fc lc parent ib i t) p = pa t p.
Proof. reflexivity. Qed.

Lemma shape_set_raw_tour_node order fc lc parent ib i t :
  same_shape t (set_raw_tour_node order fc lc parent ib i t).
Proof. by repeat split. Qed.

Lemma raw_begin_end t k :
  2 <= _n_parents t -> _n_parents t <= _n_cities t -> 0 <= k < _n_parents t ->
  0 <= raw_begin t k /\ raw_begin t k < raw_end t k /\ raw_end t k <= _n_cities t /\
  (k + 1 < _n_parents t -> raw_end t k = raw_begin t (k + 1)).
Proof.
  intros Hnp Hn Hk. unfold raw_end, raw_begin.
  pose proof (Z.quot_pos (_n_cities t) (_n_parents t)) as Hq0.
  assert (1 <= Z.quot (_n_cities t) (_n_parents t)) as Hq.
  { rewrite Z.quot_div_nonneg by lia. apply Z.div_le_lower_bound; lia. }
  assert (_n_parents t * Z.quot (_n_cities t) (_n_parents t) <= _n_cities t) as Hm.
  { rewrite Z.quot_div_nonneg by lia. apply Z.mul_div_le. lia. }
  case_bool_decide; split_and!; try nia.
Qed.

Lemma ParentNode_ext (r r' : ParentNode) :
  p_reverse r = p_reverse r' -> p_size r = p_size r' -> p_id r = p_id r' ->
  p_prev r = p_prev r' -> p_next r = p_next r' ->
  segment_begin_node r = segment_begin_node r' -> segment_end_node r = segment_end_node r' ->
  r = r'.
Proof. destruct r, r'; simpl; congruence. Qed.

Lemma pa_set_p_size_ne t p v q : q <> p -> pa (set_p_size t p v) q = pa t q.
Proof. intros H. unfold set_p_size. cbv zeta. by rewrite pa_set_pa, decide_False. Qed.

Lemma pa_set_p_id_ne t p v q : q <> p -> pa (set_p_id t p v) q = pa t q.
Proof. intros H. unfold set_p_id. cbv zeta. by rewrite pa_set_pa, decide_False. Qed.

Lemma pa_set_p_prev_ne t p v q : q <> p -> pa (set_p_prev t p v) q = pa t q.
Proof. intros H. unfold set_p_prev. cbv zeta. by rewrite pa_set_pa, decide_False. Qed.

Lemma pa_set_p_next_ne t p v q : q <> p -> pa (set_p_next t p v) q = pa t q.
Proof. intros H. unfold set_p_next. cbv zeta. by rewrite pa_set_pa, decide_False. Qed.

Lemma pa_set_p_reverse_ne t p v q : q <> p -> pa (set_p_reverse t p v) q = pa t q.
Proof. intros H. unfold set_p_reverse. cbv zeta. by rewrite pa_set_pa, decide_False. Qed.

Lemma pa_set_segment_begin_node_ne t p v q :
  q <> p -> pa (set_segment_begin_node t p v) q = pa t q.
Proof. intros H. unfold set_segment_begin_node. cbv zeta. by rewrite pa_set_pa, decide_False. Qed.

Lemma pa_set_segment_end_node_ne t p v q :
  q <> p -> pa (set_segment_end_node t p v) q = pa t q.
Proof. intros H. unfold set_segment_end_node. cbv zeta. by rewrite pa_set_pa, decide_False. Qed.

(** The inner loop of [set_raw_tour] writes the nodes of one segment. *)
Lemma set_raw_tour_inner order fc lc parent ib len (t : TwoLevelTree) :
  let t' := for_loop len ib (set_raw_tour_node order fc lc parent ib) t in
  NoDup order -> 0 <= ib -> ib + Z.of_nat len <= Z.of_nat (length order) ->
  same_shape t t' /\ (forall p, pa t' p = pa t p) /\
  (forall i, ib <= i < ib + Z.of_nat len ->
     nd t' (at_ order i) =
       mkNode (i - ib) (at_ order i)
         (if bool_decide (i = 0) then lc else at_ order (i - 1))
         (if bool_decide (i + 1 = _n_cities t) then fc else at_ order (i + 1))
         parent) /\
  (forall x, (forall i, ib <= i < ib + Z.of_nat len -> x <> at_ order i) -> nd t' x = nd t x).
Proof.
  intros t' Hnd Hib Hlen. subst t'.
  apply (for_loop_inv (fun j (s : TwoLevelTree) =>
    same_shape t s /\ (forall p, pa s p = pa t p) /\
    (forall i, ib <= i < j ->
       nd s (at_ order i) =
         mkNode (i - ib) (at_ order i)
           (if bool_decide (i = 0) then lc else at_ order (i - 1))
           (if bool_decide (i + 1 = _n_cities t) then fc else at_ order (i + 1))
           parent) /\
    (forall x, (forall i, ib <= i < j -> x <> at_ order i) -> nd s x = nd t x))).
  - split_and!; [apply same_shape_refl|done|intros; lia|done].
  - intros j s Hj (Hsh & Hpa & Hw & Hfr).
    split_and!.
    + destruct Hsh as (? & ? & ? & ?). by repeat split.
    + intros p. rewrite pa_set_raw_tour_node. apply Hpa.
    + intros i Hi. rewrite nd_set_raw_tour_node.
      destruct Hsh as (_ & Hnc & _). rewrite Hnc.
      destruct (decide (at_ order i = at_ order j)) as [E|E].
      * apply at_inj in E; [|done|lia..]. by subst i.
      * apply Hw. assert (i <> j) by congruence. lia.
    + intros x Hx. rewrite nd_set_raw_tour_node.
      rewrite decide_False by (apply Hx; lia). apply Hfr. intros i Hi. apply Hx. lia.
Qed.

(** One iteration of the outer loop writes the parent record and the nodes of
    segment [k]. *)
Lemma set_raw_tour_segment_spec order k (t : TwoLevelTree) :
  let t' := set_raw_tour_segment order (n_segments t) (Z.quot (_n_cities t) (n_segments t))
              (at_ order 0) (at_ order (Z.of_nat (length order) - 1)) k t in
  NoDup order -> Z.of_nat (length order) = _n_cities t ->
  2 <= _n_parents t -> _n_parents t <= _n_cities t -> 0 <= k < _n_parents t ->
  same_shape t t' /\
  pa t' k = raw_parent t order k /\
  (forall p, p <> k -> pa t' p = pa t p) /\
  (forall i, raw_begin t k <= i < raw_end t k -> nd t' (at_ order i) = raw_node t order k i) /\
  (forall x, (forall i, raw_begin t k <= i < raw_end t k -> x <> at_ order i) ->
     nd t' x = nd t x).
Proof.
  intros t' Hnd Hlen Hnp Hn Hk.
  destruct (raw_begin_end t k Hnp Hn Hk) as (Hb0 & Hbe & Hen & _).
  unfold set_raw_tour_segment in t'.
  set (t1 := set_p_size _ _ _) in t'.
  assert (same_shape t t1) as Hsh1 by (by repeat split).
  assert (forall x, nd t1 x = nd t x) as Hnd1 by done.
  assert (_n_cities (set_p_reverse (set_p_next (set_p_prev (set_p_id t k k) k
            (if bool_decide (k > 0) then k - 1 else tail_parent_node (set_p_id t k k))) k
            (if bool_decide (k + 1 < n_segments t) then k + 1
             else head_parent_node (set_p_prev (set_p_id t k k) k
               (if bool_decide (k > 0) then k - 1 else tail_parent_node (set_p_id t k k)))))
            k false) = _n_cities t) as Enc by done.
  assert ((if bool_decide (k = n_segments t - 1) then _n_cities t
           else k * Z.quot (_n_cities t) (n_segments t) + Z.quot (_n_cities t) (n_segments t))
          = raw_end t k) as Eend by done.
  assert (k * Z.quot (_n_cities t) (n_segments t) = raw_begin t k) as Ebeg by done.
  assert (pa t1 k = raw_parent t order k) as Hpk.
  { apply ParentNode_ext; unfold raw_parent; cbn [p_reverse p_size p_id p_prev p_next
      segment_begin_node segment_end_node]; subst t1; autorewrite with tlt;
      rewrite ?decide_True by done; try done. }
  assert (forall p, p <> k -> pa t1 p = pa t p) as Hpo.
  { intros p Hp. subst t1. by rewrite pa_set_p_size_ne, pa_set_segment_end_node_ne,
      pa_set_segment_begin_node_ne, pa_set_p_reverse_ne, pa_set_p_next_ne, pa_set_p_prev_ne,
      pa_set_p_id_ne by done. }
  revert t'. rewrite Enc, Eend, Ebeg. intros t'.
  destruct (set_raw_tour_inner order (at_ order 0) (at_ order (Z.of_nat (length order) - 1))
              k (raw_begin t k) (Z.to_nat (raw_end t k - raw_begin t k)) t1 Hnd Hb0)
    as (Hsh & Hpa & Hw & Hfr); [lia|].
  fold t' in Hsh, Hpa, Hw, Hfr. rewrite Z2Nat.id in Hw, Hfr by lia.
  split_and!.
  - destruct Hsh as (? & ? & ? & ?), Hsh1 as (? & ? & ? & ?). repeat split; congruence.
  - by rewrite Hpa.
  - intros p Hp. rewrite Hpa. by apply Hpo.
  - intros i Hi. rewrite Hw by lia. unfold raw_node. done.
  - intros x Hx. rewrite Hfr; [apply Hnd1|]. intros i Hi. apply Hx. lia.
Qed.

Lemma raw_shape t s order k i :
  same_shape t s ->
  raw_begin s k = raw_begin t k /\ raw_end s k = raw_end t k /\
  raw_parent s order k = raw_parent t order k /\ raw_node s order k i = raw_node t order k i.
Proof.
  intros (H1 & H2 & H3 & H4).
  unfold raw_parent, raw_node, raw_end, raw_begin. rewrite H1, H2. done.
Qed.

Lemma raw_end_le_begin t k k' :
  2 <= _n_parents t -> _n_parents t <= _n_cities t ->
  0 <= k' < k -> k < _n_parents t -> raw_end t k' <= raw_begin t k.
Proof.
  intros Hnp Hn Hk' Hk.
  destruct (raw_begin_end t k' Hnp Hn) as (_ & _ & _ & E); [lia|].
  rewrite E by lia. unfold raw_begin.
  pose proof (Z.quot_pos (_n_cities t) (_n_parents t)). nia.
Qed.

(** The state after [set_raw_tour]. *)
Lemma set_raw_tour_state (t : TwoLevelTree) order :
  let t' := set_raw_tour t order in
  NoDup order -> Z.of_nat (length order) = _n_cities t ->
  2 <= _n_parents t -> _n_parents t <= _n_cities t ->
  same_shape t t' /\
  (forall k, 0 <= k < _n_parents t -> pa t' k = raw_parent t order k) /\
  (forall k i, 0 <= k < _n_parents t -> raw_begin t k <= i < raw_end t k ->
     nd t' (at_ order i) = raw_node t order k i).
Proof.
  intros t' Hnd Hlen Hnp Hn. subst t'. unfold set_raw_tour.
  pose proof (for_loop_inv (fun k (s : TwoLevelTree) =>
    same_shape t s /\
    (forall k', 0 <= k' < k -> pa s k' = raw_parent t order k') /\
    (forall k' i, 0 <= k' < k -> raw_begin t k' <= i < raw_end t k' ->
       nd s (at_ order i) = raw_node t order k' i))
    (Z.to_nat (n_segments t)) 0
    (set_raw_tour_segment order (n_segments t) (Z.quot (_n_cities t) (n_segments t))
       (at_ order 0) (at_ order (Z.of_nat (length order) - 1))) t) as Hloop.
  unfold n_segments in *. rewrite Z.add_0_l, Z2Nat.id in Hloop by lia.
  destruct Hloop as (Hsh & Hpa & Hnode).
  - split_and!; [apply same_shape_refl|intros; lia..].
  - intros k s Hk (Hsh & Hpa & Hnode).
    pose proof Hsh as (E1 & E2 & E3 & E4).
    pose proof (set_raw_tour_segment_spec order k s) as Hseg. cbv zeta in Hseg.
    unfold n_segments in Hseg. rewrite E1, E2 in Hseg.
    destruct Hseg as (Hsh' & Hpk & Hpo & Hw & Hfr); [done|done|done|done|lia|].
    set (s' := set_raw_tour_segment _ _ _ _ _ _ _) in *.
    split_and!.
    + destruct Hsh' as (? & ? & ? & ?). repeat split; congruence.
    + intros k' Hk'. destruct (decide (k' = k)) as [->|Hne].
      * rewrite Hpk. apply (raw_shape t s order k 0 Hsh).
      * rewrite Hpo by done. apply Hpa. lia.
    + intros k' i Hk' Hi.
      destruct (raw_shape t s order k i Hsh) as (Eb & Ee & _ & En).
      destruct (decide (k' = k)) as [->|Hne].
      * rewrite Hw by lia. done.
      * rewrite Hfr; [apply Hnode; [lia|done]|].
        intros j Hj Heq.
        assert (raw_end t k' <= raw_begin t k) by (apply raw_end_le_begin; lia).
        destruct (raw_begin_end t k Hnp Hn) as (? & ? & ? & _); [lia|].
        destruct (raw_begin_end t k' Hnp Hn) as (? & ? & ? & _); [lia|].
        apply at_inj in Heq; [|done|lia..]. lia.
  - split_and!; [done|..].
    + intros k Hk. by apply Hpa.
    + intros k i Hk Hi. by apply Hnode.
Qed.

Lemma raw_segment_index t i :
  2 <= _n_parents t -> _n_parents t <= _n_cities t -> 0 <= i < _n_cities t ->
  exists k, 0 <= k < _n_parents t /\ raw_begin t k <= i < raw_end t k.
Proof.
  intros Hnp Hn Hi.
  assert (1 <= Z.quot (_n_cities t) (_n_parents t)) as Hq.
  { rewrite Z.quot_div_nonneg by lia. apply Z.div_le_lower_bound; lia. }
  set (sl := Z.quot (_n_cities t) (_n_parents t)) in *.
  pose proof (Z.div_mod i sl ltac:(lia)) as Hdm.
  pose proof (Z.mod_pos_bound i sl ltac:(lia)) as Hmb.
  assert (0 <= i / sl) by (apply Z.div_pos; lia).
  destruct (decide (i / sl < _n_parents t - 1)) as [Hlt|Hge].
  - exists (i / sl). unfold raw_end, raw_begin. fold sl.
    rewrite bool_decide_eq_false_2 by lia. split; [lia|]. nia.
  - exists (_n_parents t - 1). unfold raw_end, raw_begin. fold sl.
    rewrite bool_decide_eq_true_2 by done. split; [lia|]. nia.
Qed.

(** What the queries read on the tree built by [set_raw_tour]. *)
Lemma set_raw_tour_views (t : TwoLevelTree) order i :
  let t' := set_raw_tour t order in
  NoDup order -> Z.of_nat (length order) = _n_cities t ->
  2 <= _n_parents t -> _n_parents t <= _n_cities t -> 0 <= i < _n_cities t ->
  city_of t' (at_ order i) = at_ order i /\
  rev_of t' (parent_of t' (at_ order i)) = false /\
  get_next t' (at_ order i) = at_ order (if bool_decide (i + 1 = _n_cities t) then 0 else i + 1) /\
  get_prev t' (at_ order i) = at_ order (if bool_decide (i = 0) then _n_cities t - 1 else i - 1) /\
  (forall k, 0 <= k < _n_parents t -> raw_begin t k <= i < raw_end t k ->
     parent_of t' (at_ order i) = k /\ id_of t' (at_ order i) = i - raw_begin t k /\
     lid t' (at_ order i) = i - raw_begin t k).
Proof.
  intros t' Hnd Hlen Hnp Hn Hi.
  destruct (set_raw_tour_state t order Hnd Hlen Hnp Hn) as (Hsh & Hpa & Hnode).
  fold t' in Hsh, Hpa, Hnode.
  destruct (raw_segment_index t i Hnp Hn Hi) as (k & Hk & Hik).
  assert (rev_of t' (parent_of t' (at_ order i)) = false) as Hrev.
  { rewrite (Hnode k i Hk Hik). simpl. by rewrite (Hpa k Hk). }
  unfold get_next, get_prev, lid. rewrite Hrev.
  split_and!.
  - by rewrite (Hnode k i Hk Hik).
  - done.
  - rewrite (Hnode k i Hk Hik). simpl. by case_bool_decide.
  - rewrite (Hnode k i Hk Hik). simpl. rewrite Hlen. by case_bool_decide.
  - intros k' Hk' Hik'. rewrite (Hnode k' i Hk' Hik'). simpl. done.
Qed.

(** Lists of the form [f <$> seqZ b len]. *)
Lemma head_fmap_seqZ {A} (f : Z -> A) b len :
  0 < len -> head (f <$> seqZ b len) = Some (f b).
Proof. intros H. rewrite seqZ_cons by done. reflexivity. Qed.

Lemma last_fmap_seqZ {A} (f : Z -> A) b len :
  0 < len -> last (f <$> seqZ b len) = Some (f (b + len - 1)).
Proof.
  intros H. replace len with ((len - 1) + 1) at 1 by lia.
  rewrite seqZ_app by lia. rewrite fmap_app. simpl.
  change (seqZ (b + (len - 1)) 1) with [b + (len - 1)]. simpl.
  rewrite last_snoc. do 2 f_equal. lia.
Qed.

Lemma elem_of_fmap_seqZ {A} (f : Z -> A) b len x :
  x ∈ f <$> seqZ b len <-> exists i, x = f i /\ b <= i < b + len.
Proof.
  rewrite list_elem_of_fmap. split.
  - intros (i & -> & Hi%elem_of_seqZ). eauto.
  - intros (i & -> & Hi). exists i. split; [done|]. by apply elem_of_seqZ.
Qed.

Lemma chain_fmap_seqZ {A} (R : A -> A -> Prop) (f : Z -> A) b len :
  (forall i, b <= i -> i + 1 < b + len -> R (f i) (f (i + 1))) ->
  chain R (f <$> seqZ b len).
Proof.
  destruct (decide (len <= 0)) as [Hle|Hgt].
  { intros _. unfold seqZ. replace (Z.to_nat len) with 0%nat by lia. done. }
  assert (exists m : nat, len = Z.of_nat m) as [m ->] by (exists (Z.to_nat len); lia).
  clear Hgt. revert b. induction m as [|m IH]; intros b H; [done|].
  rewrite seqZ_cons by lia. rewrite fmap_cons. apply chain_cons_head. split.
  - replace (Z.pred (Z.of_nat (S m))) with (Z.of_nat m) by lia. apply IH. intros i Hi1 Hi2.
    apply H; lia.
  - intros x Hx. destruct m as [|m]; [done|].
    replace (Z.pred (Z.of_nat (S (S m)))) with (Z.of_nat (S m)) in Hx by lia.
    rewrite head_fmap_seqZ in Hx by lia. injection Hx as <-.
    replace (Z.succ b) with (b + 1) by lia. apply H; lia.
Qed.

Lemma cchain_fmap_seqZ {A} (R : A -> A -> Prop) (f : Z -> A) len :
  (forall i, 0 <= i < len -> R (f i) (f (if bool_decide (i + 1 = len) then 0 else i + 1))) ->
  cchain R (f <$> seqZ 0 len).
Proof.
  intros H. destruct (decide (len <= 0)) as [Hle|Hgt].
  { unfold seqZ. replace (Z.to_nat len) with 0%nat by lia. done. }
  apply cchain_intro.
  - apply chain_fmap_seqZ. intros i Hi1 Hi2.
    specialize (H i ltac:(lia)). by rewrite bool_decide_eq_false_2 in H by lia.
  - intros x y. rewrite head_fmap_seqZ, last_fmap_seqZ by lia. intros [= <-] [= <-].
    specialize (H (0 + len - 1) ltac:(lia)). by rewrite bool_decide_eq_true_2 in H by lia.
Qed.

Lemma parents_of_graph (g : Z -> list Z) (l : list Z) :
  parents_of ((fun k => (k, g k)) <$> l) = l.
Proof.
  induction l as [|k l IH]; [done|]. rewrite fmap_cons, parents_of_cons. by rewrite IH.
Qed.

Lemma tour_of_graph (g : Z -> list Z) (l : list Z) :
  tour_of ((fun k => (k, g k)) <$> l) = concat (g <$> l).
Proof.
  induction l as [|k l IH]; [done|]. rewrite !fmap_cons, tour_of_cons. simpl. by rewrite IH.
Qed.

Lemma concat_fmap_fmap {A B} (f : A -> B) (g : Z -> list A) (l : list Z) :
  concat ((fun k => f <$> g k) <$> l) = f <$> concat (g <$> l).
Proof.
  induction l as [|k l IH]; [done|]. rewrite !fmap_cons. simpl. by rewrite fmap_app, IH.
Qed.

Lemma concat_seqZ_ranges (bnd : Z -> Z) (m : nat) :
  (forall k, 0 <= k < Z.of_nat m -> bnd k <= bnd (k + 1)) ->
  concat ((fun k => seqZ (bnd k) (bnd (k + 1) - bnd k)) <$> seqZ 0 (Z.of_nat m))
  = seqZ (bnd 0) (bnd (Z.of_nat m) - bnd 0).
Proof.
  induction m as [|m IH]; intros H.
  - simpl. rewrite Z.sub_diag. done.
  - replace (Z.of_nat (S m)) with (Z.of_nat m + 1) by lia.
    assert (bnd 0 <= bnd (Z.of_nat m)) as Hmono.
    { clear IH. induction m as [|m IHm]; [done|].
      replace (Z.of_nat (S m)) with (Z.of_nat m + 1) by lia.
      etrans; [apply IHm; intros; apply H; lia|]. apply H. lia. }
    rewrite seqZ_app by lia. rewrite fmap_app, concat_app, IH by (intros; apply H; lia).
    change (seqZ (0 + Z.of_nat m) 1) with [0 + Z.of_nat m]. simpl.
    rewrite app_nil_r, Z.add_0_l.
    replace (bnd (Z.of_nat m + 1) - bnd 0)
      with ((bnd (Z.of_nat m) - bnd 0) + (bnd (Z.of_nat m + 1) - bnd (Z.of_nat m))) by lia.
    rewrite seqZ_app; [|lia|specialize (H (Z.of_nat m)); lia].
    do 2 f_equal. lia.
Qed.

Lemma raw_segments_tour t order :
  2 <= _n_parents t -> _n_parents t <= _n_cities t ->
  Z.of_nat (length order) = _n_cities t ->
  tour_of (raw_segments t order) = order.
Proof.
  intros Hnp Hn Hlen. unfold raw_segments.
  rewrite (tour_of_graph (fun k => at_ order <$> seqZ (raw_begin t k) (raw_end t k - raw_begin t k))).
  rewrite (concat_fmap_fmap (at_ order) (fun k => seqZ (raw_begin t k) (raw_end t k - raw_begin t k))).
  set (bnd := fun k => if bool_decide (k = _n_parents t) then _n_cities t else raw_begin t k).
  assert (forall k, 0 <= k < _n_parents t ->
            bnd k = raw_begin t k /\ bnd (k + 1) = raw_end t k) as Hb.
  { intros k Hk. unfold bnd. rewrite bool_decide_eq_false_2 by lia. split; [done|].
    destruct (raw_begin_end t k Hnp Hn Hk) as (_ & _ & _ & E).
    case_bool_decide as Hc.
    - unfold raw_end. by rewrite bool_decide_eq_true_2 by lia.
    - symmetry. apply E. lia. }
  rewrite (list_fmap_ext _ (fun k => seqZ (bnd k) (bnd (k + 1) - bnd k)) (seqZ 0 (_n_parents t))).
  2:{ intros i k Hk%list_elem_of_lookup_2%elem_of_seqZ.
      destruct (Hb k) as [-> ->]; [lia|done]. }
  pose proof (concat_seqZ_ranges bnd (Z.to_nat (_n_parents t))) as Hc.
  rewrite Z2Nat.id in Hc by lia. rewrite Hc.
  - assert (bnd 0 = 0) as ->.
    { unfold bnd. rewrite bool_decide_eq_false_2 by lia. unfold raw_begin. lia. }
    assert (bnd (_n_parents t) = _n_cities t) as ->.
    { unfold bnd. by rewrite bool_decide_eq_true_2. }
    rewrite Z.sub_0_r, <-Hlen. apply fmap_at_seqZ.
  - intros k Hk. destruct (Hb k Hk) as [-> ->].
    destruct (raw_begin_end t k Hnp Hn Hk) as (_ & ? & _). lia.
Qed.

(** [set_raw_tour] establishes the invariant, with the segments
    [raw_segments]. *)
Lemma set_raw_tour_Rep (t : TwoLevelTree) order :
  2 <= _n_parents t -> _n_parents t <= _n_cities t ->
  order ≡ₚ seqZ (_origin_city t) (_n_cities t) ->
  Rep (set_raw_tour t order) (raw_segments t order).
Proof.
  intros Hnp Hn Hperm.
  assert (NoDup order) as Hnd by (rewrite Hperm; apply NoDup_seqZ).
  assert (Z.of_nat (length order) = _n_cities t) as Hlen.
  { rewrite Hperm, length_seqZ. lia. }
  destruct (set_raw_tour_state t order Hnd Hlen Hnp Hn) as (Hsh & Hpa & Hnode).
  pose proof (fun i => set_raw_tour_views t order i Hnd Hlen Hnp Hn) as Hv. cbv zeta in Hv.
  set (t' := set_raw_tour t order) in *.
  pose proof Hsh as (E1 & E2 & E3 & E4).
  pose proof (raw_segments_tour t order Hnp Hn Hlen) as Htour.
  assert (parents_of (raw_segments t order) = seqZ 0 (_n_parents t)) as Hpar.
  { unfold raw_segments.
    apply (parents_of_graph
             (fun k => at_ order <$> seqZ (raw_begin t k) (raw_end t k - raw_begin t k))). }
  split.
  - lia.
  - by rewrite Hpar, E1.
  - by rewrite Htour, E2, E3.
  - rewrite Hpar, <-(list_fmap_id (seqZ 0 _)). apply cchain_fmap_seqZ.
    intros k Hk. unfold plink. rewrite E1.
    assert (0 <= (if bool_decide (k + 1 = _n_parents t) then 0 else k + 1) < _n_parents t) as Hk'
      by (case_bool_decide; lia).
    simpl. rewrite (Hpa k Hk), (Hpa _ Hk'). unfold raw_parent. simpl.
    case_bool_decide as Hc.
    + rewrite bool_decide_eq_false_2 by lia. rewrite bool_decide_eq_false_2 by lia.
      split_and!; [done|lia|]. rewrite Hc. by rewrite Z.rem_same by lia.
    + rewrite bool_decide_eq_true_2 by lia. rewrite bool_decide_eq_true_2 by lia.
      split_and!; [done|lia|]. by rewrite Z.rem_small by lia.
  - rewrite Hpar, E1. apply Forall_forall. intros k Hk%elem_of_seqZ.
    rewrite (Hpa k) by lia. simpl. lia.
  - apply Forall_forall. intros s Hs. unfold raw_segments in Hs.
    apply list_elem_of_fmap in Hs as (k & -> & Hk%elem_of_seqZ).
    destruct (raw_begin_end t k Hnp Hn) as (Hb0 & Hbe & Hen & _); [lia|].
    unfold seg_ok. cbn [fst snd].
    unfold forward_begin_node, forward_end_node. rewrite (Hpa k) by lia. simpl.
    split_and!.
    + rewrite length_fmap, length_seqZ. lia.
    + by rewrite head_fmap_seqZ by lia.
    + rewrite last_fmap_seqZ by lia. do 2 f_equal. lia.
    + apply Forall_forall. intros x (i & -> & Hi)%elem_of_fmap_seqZ.
      destruct (Hv i) as (_ & _ & _ & _ & Hk'); [lia|].
      destruct (Hk' k) as (? & _); [lia|lia|done].
    + apply chain_fmap_seqZ. intros i Hi1 Hi2.
      destruct (Hv i) as (_ & _ & _ & _ & Hk1); [lia|].
      destruct (Hv (i + 1)) as (_ & _ & _ & _ & Hk2); [lia|].
      destruct (Hk1 k) as (_ & _ & ->); [lia|lia|].
      destruct (Hk2 k) as (_ & _ & ->); [lia|lia|]. lia.
  - rewrite Htour, <-(fmap_at_seqZ order), Hlen. apply cchain_fmap_seqZ.
    intros i Hi. unfold link.
    destruct (Hv i Hi) as (_ & _ & -> & _).
    split; [done|].
    assert (0 <= (if bool_decide (i + 1 = _n_cities t) then 0 else i + 1) < _n_cities t) as Hi'
      by (case_bool_decide; lia).
    destruct (Hv _ Hi') as (_ & _ & _ & -> & _).
    f_equal. repeat case_bool_decide; lia.
  - rewrite Htour, <-(fmap_at_seqZ order), Hlen. apply Forall_forall.
    intros x (i & -> & Hi)%elem_of_fmap_seqZ. by destruct (Hv i) as (? & _); [lia|].
Qed.

Lemma new_tree_parents n origin :
  2 <= n -> 2 <= _n_parents (new_tree n origin) <= _n_cities (new_tree n origin).
Proof.
  intros Hn. simpl.
  pose proof (Z.sqrt_spec n ltac:(lia)) as Hs. pose proof (Z.sqrt_nonneg n).
  assert (1 <= Z.sqrt n) by (apply Z.sqrt_le_square; lia).
  cbv zeta in Hs. split; [lia|].
  destruct (decide (Z.sqrt n = 1)) as [->|Hne]; [lia|]. nia.
Qed.

(** A fresh tree loaded with a permutation of its cities is valid. *)
Lemma set_raw_tour_valid n origin order :
  2 <= n -> 0 <= origin -> order ≡ₚ seqZ origin n ->
  valid (set_raw_tour (new_tree n origin) order).
Proof.
  intros Hn Ho Hperm. pose proof (new_tree_parents n origin Hn) as [H1 H2].
  pose proof (set_raw_tour_Rep (new_tree n origin) order H1 H2 Hperm) as HR.
  destruct (set_raw_tour_state (new_tree n origin) order) as ((_ & _ & E3 & _) & _);
    [by rewrite Hperm; apply NoDup_seqZ|rewrite Hperm, length_seqZ; simpl; lia|done|done|].
  split; [by rewrite E3|]. eauto.
Qed.

(** * The mutators never write a [city] field *)

Lemma keeps_cities_refl t : keeps_cities t t.
Proof. split; [apply same_shape_refl|done]. Qed.

Lemma keeps_cities_trans t1 t2 t3 :
  keeps_cities t1 t2 -> keeps_cities t2 t3 -> keeps_cities t1 t3.
Proof.
  intros [(A1 & A2 & A3 & A4) Hc1] [(B1 & B2 & B3 & B4) Hc2]. split.
  - repeat split; congruence.
  - intros x. by rewrite Hc2, Hc1.
Qed.

Lemma keeps_cities_set_nd t s x v :
  n_city v = city_of s x -> keeps_cities t s -> keeps_cities t (set_nd s x v).
Proof.
  intros Hv H. eapply keeps_cities_trans; [exact H|]. split; [by repeat split|].
  intros y. rewrite nd_set_nd. case_decide; by subst.
Qed.

Lemma keeps_cities_set_pa t s p v : keeps_cities t s -> keeps_cities t (set_pa s p v).
Proof.
  intros H. eapply keeps_cities_trans; [exact H|]. split; [by repeat split|done].
Qed.

Lemma keeps_cities_set_n_id t s x v : keeps_cities t s -> keeps_cities t (set_n_id s x v).
Proof. by apply keeps_cities_set_nd. Qed.

Lemma keeps_cities_set_n_prev t s x v : keeps_cities t s -> keeps_cities t (set_n_prev s x v).
Proof. by apply keeps_cities_set_nd. Qed.

Lemma keeps_cities_set_n_next t s x v : keeps_cities t s -> keeps_cities t (set_n_next s x v).
Proof. by apply keeps_cities_set_nd. Qed.

Lemma keeps_cities_set_n_parent t s x v :
  keeps_cities t s -> keeps_cities t (set_n_parent s x v).
Proof. by apply keeps_cities_set_nd. Qed.

Lemma keeps_cities_set_p_reverse t s p v :
  keeps_cities t s -> keeps_cities t (set_p_reverse s p v).
Proof. apply keeps_cities_set_pa. Qed.

Lemma keeps_cities_set_p_size t s p v : keeps_cities t s -> keeps_cities t (set_p_size s p v).
Proof. apply keeps_cities_set_pa. Qed.

Lemma keeps_cities_set_p_id t s p v : keeps_cities t s -> keeps_cities t (set_p_id s p v).
Proof. apply keeps_cities_set_pa. Qed.

Lemma keeps_cities_set_p_prev t s p v : keeps_cities t s -> keeps_cities t (set_p_prev s p v).
Proof. apply keeps_cities_set_pa. Qed.

Lemma keeps_cities_set_p_next t s p v : keeps_cities t s -> keeps_cities t (set_p_next s p v).
Proof. apply keeps_cities_set_pa. Qed.

Lemma keeps_cities_set_segment_begin_node t s p v :
  keeps_cities t s -> keeps_cities t (set_segment_begin_node s p v).
Proof. apply keeps_cities_set_pa. Qed.

Lemma keeps_cities_set_segment_end_node t s p v :
  keeps_cities t s -> keeps_cities t (set_segment_end_node s p v).
Proof. apply keeps_cities_set_pa. Qed.

(** Goals [keeps_cities t (op ... s ...)] are solved from the outside in. *)
Ltac kc_prim :=
  first
    [ apply keeps_cities_set_n_id | apply keeps_cities_set_n_prev
    | apply keeps_cities_set_n_next | apply keeps_cities_set_n_parent
    | apply keeps_cities_set_p_reverse | apply keeps_cities_set_p_size
    | apply keeps_cities_set_p_id | apply keeps_cities_set_p_prev
    | apply keeps_cities_set_p_next | apply keeps_cities_set_segment_begin_node
    | apply keeps_cities_set_segment_end_node ].

Ltac kc :=
  repeat first
    [ assumption
    | apply keeps_cities_refl
    | match goal with
      | |- keeps_cities _ (if ?c then _ else _) => destruct c
      end
    | kc_prim ].

Lemma keeps_cities_connect_arc_forward t s p q :
  keeps_cities t s -> keeps_cities t (connect_arc_forward s p q).
Proof. intros H. unfold connect_arc_forward. cbv zeta. kc. Qed.

Ltac kc2 := repeat first [apply keeps_cities_connect_arc_forward | progress kc].

Lemma keeps_cities_relabel_loop fuel t s a b s' :
  keeps_cities t s -> relabel_loop fuel s a b = Some s' -> keeps_cities t s'.
Proof.
  revert s a. induction fuel as [|f IH]; intros s a H E; [done|].
  simpl in E. case_bool_decide.
  - eapply IH; [|exact E]. kc2.
  - by injection E as <-.
Qed.

Lemma keeps_cities_relabel_id fuel t s a b a_id s' :
  keeps_cities t s -> relabel_id fuel s a b a_id = Some s' -> keeps_cities t s'.
Proof. intros H E. eapply keeps_cities_relabel_loop; [|exact E]. kc2. Qed.

Lemma keeps_cities_merge_forward t temp s np q d :
  keeps_cities t s -> keeps_cities t (merge_forward s temp np q d).1.
Proof.
  revert s q. induction temp as [|p temp IH]; intros s q H; [done|].
  simpl. apply IH. kc2.
Qed.

Lemma keeps_cities_merge_backward t temp s np q d :
  keeps_cities t s -> keeps_cities t (merge_backward s temp np q d).1.
Proof.
  revert s q. induction temp as [|p temp IH]; intros s q H; [done|].
  simpl. apply IH. kc2.
Qed.

Lemma keeps_cities_split_and_merge fuel t s x include_self direction s' :
  keeps_cities t s -> split_and_merge fuel s x include_self direction = Some s' ->
  keeps_cities t s'.
Proof.
  intros H E. unfold split_and_merge in E. cbv zeta in E.
  destruct (collect_segment _ _ _ _ _ _) as [temp|]; [|done]. simpl in E.
  destruct temp as [|y temp]; [by injection E as <-|].
  destruct direction.
  - match type of E with context [merge_forward ?a ?b ?c ?d ?e] =>
      pose proof (keeps_cities_merge_forward t b a c d e) as Hm;
      destruct (merge_forward a b c d e) as [t1 q1] end.
    simpl in Hm. injection E as <-. specialize (Hm ltac:(kc)). kc2.
  - match type of E with context [merge_backward ?a ?b ?c ?d ?e] =>
      pose proof (keeps_cities_merge_backward t b a c d e) as Hm;
      destruct (merge_backward a b c d e) as [t1 q1] end.
    simpl in Hm. injection E as <-. specialize (Hm ltac:(kc)). kc2.
Qed.

Lemma keeps_cities_reverse_complete_segment t s a b :
  keeps_cities t s -> keeps_cities t (reverse_complete_segment s a b).
Proof. intros H. unfold reverse_complete_segment. cbv zeta. kc2. Qed.

Lemma keeps_cities_connect_path t temp s p :
  keeps_cities t s -> keeps_cities t (connect_path s temp p).
Proof.
  revert s p. induction temp as [|q temp IH]; intros s p H; [done|].
  simpl. apply IH. kc2.
Qed.

Lemma keeps_cities_reverse_partial_segment fuel t s a b s' :
  keeps_cities t s -> reverse_partial_segment fuel s a b = Some s' -> keeps_cities t s'.
Proof.
  intros H E. unfold reverse_partial_segment in E. cbv zeta in E.
  destruct (collect_path _ _ _ _ _) as [temp|]; [|done]. simpl in E.
  pose proof (keeps_cities_connect_path t (b :: temp) s (get_prev s a) H) as Hc.
  set (s1 := connect_path s (b :: temp) (get_prev s a)) in *.
  repeat match type of E with
  | (if ?c then _ else _) = _ => destruct c
  end; (eapply keeps_cities_relabel_id; [|exact E]); kc2.
Qed.

Lemma keeps_cities_reverse_segment fuel t s a b s' :
  keeps_cities t s -> reverse_segment fuel s a b = Some s' -> keeps_cities t s'.
Proof.
  intros H E. unfold reverse_segment in E. cbv zeta in E.
  destruct (_ || _).
  - injection E as <-. by apply keeps_cities_reverse_complete_segment.
  - case_bool_decide.
    + by eapply keeps_cities_reverse_partial_segment.
    + destruct (split_and_merge fuel s a false backward) as [s1|] eqn:E1; [|done].
      simpl in E.
      destruct (split_and_merge fuel s1 b false forward) as [s2|] eqn:E2; [|done].
      simpl in E. injection E as <-. apply keeps_cities_reverse_complete_segment.
      eapply keeps_cities_split_and_merge; [|exact E2].
      eapply keeps_cities_split_and_merge; [|exact E1]. done.
Qed.

Lemma keeps_cities_split_and_merge_a fuel t s a s' :
  keeps_cities t s -> split_and_merge_a fuel s a = Some s' -> keeps_cities t s'.
Proof.
  intros H E. unfold split_and_merge_a in E. cbv zeta in E.
  repeat case_bool_decide; try (by injection E as <-);
    by eapply keeps_cities_split_and_merge.
Qed.

Lemma keeps_cities_split_and_merge_b fuel t s a b s' :
  keeps_cities t s -> split_and_merge_b fuel s a b = Some s' -> keeps_cities t s'.
Proof.
  intros H E. unfold split_and_merge_b in E. cbv zeta in E.
  repeat case_bool_decide; try (by injection E as <-);
    by eapply keeps_cities_split_and_merge.
Qed.

Lemma keeps_cities_toggle_segments fuel t s p s2 temp s' temp' :
  keeps_cities t s -> toggle_segments fuel s p s2 temp = Some (s', temp') ->
  keeps_cities t s'.
Proof.
  revert s p temp. induction fuel as [|f IH]; intros s p temp H E; [done|].
  simpl in E. case_bool_decide.
  - eapply IH; [|exact E]. kc2.
  - by injection E as <- _.
Qed.

Lemma keeps_cities_reconnect_segments t temp s p n :
  keeps_cities t s -> keeps_cities t (reconnect_segments s temp p n).1.
Proof.
  revert s p. induction temp as [|q temp IH]; intros s p H; [done|].
  simpl. apply IH. kc2.
Qed.

Lemma keeps_cities_reverse fuel t a b t' :
  reverse fuel t a b = Some t' -> keeps_cities t t'.
Proof.
  intros E. unfold reverse in E.
  destruct (_ || _); [injection E as <-; apply keeps_cities_refl|].
  destruct (is_path_in_single_segment t a b);
    [by eapply keeps_cities_reverse_segment; [apply keeps_cities_refl|]|].
  destruct (split_and_merge_a fuel t a) as [t1|] eqn:E1; [|done]. simpl in E.
  pose proof (keeps_cities_split_and_merge_a _ t _ _ _ (keeps_cities_refl t) E1) as H1.
  destruct (is_path_in_single_segment t1 a b);
    [by eapply keeps_cities_reverse_segment|].
  destruct (split_and_merge_b fuel t1 a b) as [t2|] eqn:E2; [|done]. simpl in E.
  pose proof (keeps_cities_split_and_merge_b _ t _ _ _ _ H1 E2) as H2.
  destruct (is_path_in_single_segment t2 a b);
    [by eapply keeps_cities_reverse_segment|].
  destruct (toggle_segments _ _ _ _ _) as [[t3 temp]|] eqn:E3; [|done]. simpl in E.
  injection E as <-. apply keeps_cities_reconnect_segments.
  by eapply keeps_cities_toggle_segments.
Qed.

Lemma keeps_cities_flip fuel t a b c d t' :
  flip fuel t a b c d = Some t' -> keeps_cities t t'.
Proof.
  intros E. unfold flip in E. cbv zeta in E.
  destruct (_ || _); [injection E as <-; apply keeps_cities_refl|].
  destruct (is_approximately_shorter t b c d a), (bool_decide (get_next t a = b));
    by eapply keeps_cities_reverse.
Qed.

Lemma keeps_cities_sam fuel t s p s' :
  keeps_cities t s -> sam fuel s p = Some s' -> keeps_cities t s'.
Proof.
  intros H E. unfold sam in E. case_bool_decide.
  - by eapply keeps_cities_split_and_merge.
  - by injection E as <-.
Qed.

Lemma keeps_cities_connect_forward t s p q :
  keeps_cities t s -> keeps_cities t (connect_forward s p q).
Proof. intros H. unfold connect_forward. cbv zeta. kc2. Qed.

Lemma keeps_cities_renumber_parents fuel t s p id s' :
  keeps_cities t s -> renumber_parents fuel s p id = Some s' -> keeps_cities t s'.
Proof.
  revert s p id. induction fuel as [|f IH]; intros s p id H E; [done|].
  simpl in E. case_bool_decide.
  - eapply IH; [|exact E]. kc2.
  - injection E as <-. kc2.
Qed.

Lemma keeps_cities_double_bridge_move fuel t a b c d t' :
  double_bridge_move fuel t a b c d = Some t' -> keeps_cities t t'.
Proof.
  intros E. unfold double_bridge_move in E. cbv zeta in E.
  destruct (sam fuel t a) as [t1|] eqn:E1; [|done]. simpl in E.
  destruct (sam fuel t1 b) as [t2|] eqn:E2; [|done]. simpl in E.
  destruct (sam fuel t2 c) as [t3|] eqn:E3; [|done]. simpl in E.
  destruct (sam fuel t3 d) as [t4|] eqn:E4; [|done]. simpl in E.
  eapply keeps_cities_renumber_parents; [|exact E].
  do 4 apply keeps_cities_connect_forward.
  eapply keeps_cities_sam; [|exact E4]. eapply keeps_cities_sam; [|exact E3].
  eapply keeps_cities_sam; [|exact E2]. eapply keeps_cities_sam; [|exact E1].
  apply keeps_cities_refl.
Qed.

Lemma mutation_keeps_cities t t' : mutation t t' -> keeps_cities t t'.
Proof.
  intros [fuel a b _ _ _ E|fuel a b c d _ _ _ _ _ E|fuel a b c d L1 L2 L3 L4 _ _ _ E
         |fuel s i d _ _ _ E].
  - by eapply keeps_cities_reverse.
  - by eapply keeps_cities_flip.
  - by eapply keeps_cities_double_bridge_move.
  - eapply keeps_cities_split_and_merge; [apply keeps_cities_refl|exact E].
Qed.

Lemma set_raw_tour_city (t : TwoLevelTree) order c :
  2 <= _n_parents t <= _n_cities t ->
  order ≡ₚ seqZ (_origin_city t) (_n_cities t) ->
  is_city_valid t c = true ->
  city_of (set_raw_tour t order) (get_node (set_raw_tour t order) c) = c.
Proof.
  intros [Hnp Hn] Hperm Hc. unfold get_node.
  pose proof (set_raw_tour_Rep t order Hnp Hn Hperm) as HR.
  pose proof (rep_city _ _ HR) as Hcity. rewrite Forall_forall in Hcity. apply Hcity.
  rewrite raw_segments_tour; [|done|done|rewrite Hperm, length_seqZ; lia].
  rewrite Hperm. apply elem_of_seqZ. by apply is_city_valid_range.
Qed.

Lemma is_city_valid_shape_eq t t' c :
  same_shape t t' -> is_city_valid t' c = is_city_valid t c.
Proof. intros (_ & H2 & H3 & _). unfold is_city_valid. by rewrite H2, H3. Qed.

Lemma reachable_city t c :
  reachable t -> is_city_valid t c = true -> city_of t (get_node t c) = c.
Proof.
  induction 1 as [n origin order Hn Ho Hperm|t t' Hr IH Hm]; intros Hc.
  - pose proof (new_tree_parents n origin Hn) as Hnp.
    apply set_raw_tour_city; [done|done|].
    destruct (set_raw_tour_state (new_tree n origin) order) as (Hsh & _);
      [by rewrite Hperm; apply NoDup_seqZ|rewrite Hperm, length_seqZ; simpl; lia|lia|lia|].
    by rewrite <-(is_city_valid_shape_eq _ _ c Hsh).
  - destruct (mutation_keeps_cities _ _ Hm) as [Hsh Hcity].
    unfold get_node in *. rewrite Hcity. apply IH.
    by rewrite <-(is_city_valid_shape_eq _ _ c Hsh).
Qed.

(** C10.  After [set_raw_tour] with a permutation of the cities, the node
    [get_node c] of every city [c] of the tree holds [c] in its [city] field.
    None of [reverse], [flip], [double_bridge_move] and [split_and_merge]
    changes the [city] field of any node (nor the fixed parameters of the
    tree), whatever their arguments.  Hence on every tree built by
    [set_raw_tour] and any sequence of mutations, [get_node c] still holds
    [c]. *)
Theorem city_binding_permanent :
  (forall (t : TwoLevelTree) order c,
     2 <= _n_parents t <= _n_cities t ->
     order ≡ₚ seqZ (_origin_city t) (_n_cities t) ->
     is_city_valid t c = true ->
     city_of (set_raw_tour t order) (get_node (set_raw_tour t order) c) = c) /\
  (forall fuel t a b t',
     reverse fuel t a b = Some t' -> keeps_cities t t') /\
  (forall fuel t a b c d t',
     flip fuel t a b c d = Some t' -> keeps_cities t t') /\
  (forall fuel t a b c d t',
     double_bridge_move fuel t a b c d = Some t' -> keeps_cities t t') /\
  (forall fuel t s include_self direction t',
     split_and_merge fuel t s include_self direction = Some t' -> keeps_cities t t') /\
  (forall t c,
     reachable t -> is_city_valid t c = true -> city_of t (get_node t c) = c).
Proof.
  split_and!.
  - apply set_raw_tour_city.
  - apply keeps_cities_reverse.
  - apply keeps_cities_flip.
  - apply keeps_cities_double_bridge_move.
  - intros fuel t s i d t' E.
    eapply keeps_cities_split_and_merge; [apply keeps_cities_refl|exact E].
  - apply reachable_city.
Qed.

Lemma city_binding_permanent_witness :
  city_of tree14 (get_node tree14 8) = 8 /\
  (forall t', reverse 100 tree14 8 1 = Some t' -> keeps_cities tree14 t').
Proof.
  split.
  - apply (proj1 city_binding_permanent (new_tree 14 1) order14 8).
    + vm_compute. split; discriminate.
    + apply (bool_decide_unpack _). vm_compute. exact I.
    + vm_compute. reflexivity.
  - apply (proj1 (proj2 city_binding_permanent)).
Defined.

(** * The double bridge move *)

(** Nodes and their segment in a tree that satisfies the invariant. *)
Lemma Rep_segment_of t segs p l x :
  Rep t segs -> (p, l) ∈ segs -> x ∈ l ->
  parent_of t x = p /\ last l = Some (fend_of t p) /\ head l = Some (fbegin_of t p).
Proof.
  intros HR Hin Hx. pose proof (rep_segs _ _ HR) as Hs. rewrite Forall_forall in Hs.
  destruct (Hs _ Hin) as (_ & Hh & Hl & Hp & _). simpl in *.
  rewrite Forall_forall in Hp. split_and!; [by apply Hp|done|done].
Qed.

Lemma Rep_segment_unique t segs p l p' l' x :
  Rep t segs -> (p, l) ∈ segs -> (p', l') ∈ segs -> x ∈ l -> x ∈ l' -> p = p' /\ l = l'.
Proof.
  intros HR Hin Hin' Hx Hx'.
  destruct (Rep_segment_of _ _ _ _ _ HR Hin Hx) as (E1 & _).
  destruct (Rep_segment_of _ _ _ _ _ HR Hin' Hx') as (E2 & _).
  assert (p = p') as <- by congruence. split; [done|].
  pose proof (rep_parents _ _ HR) as Hperm.
  assert (NoDup (parents_of segs)) as Hnd by (rewrite Hperm; apply NoDup_seqZ).
  apply list_elem_of_split in Hin as (S1 & S2 & ->).
  rewrite parents_of_app, parents_of_cons in Hnd.
  apply NoDup_app in Hnd as (_ & Hn1 & Hn2). apply NoDup_cons in Hn2 as [Hn2 _].
  apply elem_of_app in Hin' as [Hin'|Hin'].
  - exfalso. apply (Hn1 p); [|el]. by apply (elem_of_segs S1 p l' x).
  - apply elem_of_cons in Hin' as [Hin'|Hin']; [congruence|].
    exfalso. apply Hn2. by apply (elem_of_segs S2 p l' x).
Qed.

(** The lambda [sam] makes [x] the logical-forward end of its segment.  The
    tour is unchanged; the nodes outside the segment of [x] keep their
    parent, and those that were segment ends still are. *)
Lemma sam_spec fuel t segs x :
  Rep t segs -> x ∈ tour_of segs -> (Z.to_nat (_n_cities t) < fuel)%nat ->
  exists t' segs', sam fuel t x = Some t' /\ Rep t' segs' /\ same_shape t t' /\
    (forall y, get_next t' y = get_next t y) /\
    (forall y, get_prev t' y = get_prev t y) /\
    (forall y, city_of t' y = city_of t y) /\
    parent_of t' x = parent_of t x /\ fend_of t' (parent_of t' x) = x /\
    (forall y, y ∈ tour_of segs -> parent_of t y <> parent_of t x ->
       parent_of t' y = parent_of t y /\
       (fend_of t (parent_of t y) = y -> fend_of t' (parent_of t' y) = y)).
Proof.
  intros HR Hx Hf.
  destruct (Rep_locate t segs x HR Hx) as (l1 & l2 & q & l3 & R & HR0).
  set (p := parent_of t x) in *.
  destruct (Rep_front2 _ _ _ _ _ _ HR0) as (Hpq & HpR & HqR & Hsp & Hsq & HsR & Hpl & Hnd).
  assert (l3 <> []) as Hl3 by (by eapply seg_ok_nonempty).
  pose proof (rep_link _ _ HR0) as Hlk. apply cchain_chain in Hlk.
  rewrite !tour_of_cons in Hlk.
  destruct l2 as [|y l2].
  - (* [x] is already the end of its segment *)
    destruct l3 as [|z l3]; [done|].
    rewrite <-!app_assoc in Hlk. simpl in Hlk. apply chain_elem in Hlk as [Hn _].
    assert (parent_of t z = q) as Hz.
    { destruct (Rep_segment_of t _ q (z :: l3) z HR0) as (? & _); [el|el|done]. }
    exists t, segs. unfold sam. rewrite Hn, Hz.
    rewrite bool_decide_eq_false_2 by done.
    split_and!; try done; try apply same_shape_refl.
    fold p. destruct Hsp as (_ & _ & Hl & _). simpl in Hl. rewrite last_snoc in Hl. congruence.
  - rewrite <-!app_assoc in Hlk. simpl in Hlk. apply chain_elem in Hlk as [Hn _].
    assert (parent_of t y = p) as Hy.
    { destruct (Rep_segment_of t _ p (l1 ++ x :: y :: l2) y HR0) as (? & _); [el|el|done]. }
    pose proof (Rep_seg_length _ _ _ _ HR0) as Hlen. rewrite length_app in Hlen.
    simpl in Hlen.
    replace (l1 ++ x :: y :: l2) with ((l1 ++ [x]) ++ y :: l2) in HR0
      by (by rewrite <-app_assoc).
    destruct (sam_forward_Rep fuel t p (l1 ++ [x]) (y :: l2) q l3 R x false HR0)
      as (t' & E & HR' & Hsh & Hrev & Hgn & Hgp & Hc);
      [by destruct l1|done|by rewrite last_snoc|simpl; lia|].
    exists t', ((p, l1 ++ [x]) :: (q, (y :: l2) ++ l3) :: R).
    unfold sam. fold p. rewrite Hn, Hy. rewrite bool_decide_eq_true_2 by done.
    destruct (Rep_segment_of t' _ p (l1 ++ [x]) x HR') as (Hpx & Hlx & _); [el|el|].
    rewrite last_snoc in Hlx.
    split_and!; try done; [congruence|].
    intros z Hz Hzp.
    assert (z ∈ tour_of (((p, (l1 ++ [x]) ++ y :: l2) :: (q, l3) :: R))) as Hz0.
    { apply (Rep_elem_of_tour _ _ _ HR0). by apply (Rep_elem_of_tour _ _ _ HR). }
    rewrite !tour_of_cons in Hz0. apply elem_of_app in Hz0 as [Hz0|Hz0].
    { exfalso. apply Hzp.
      by destruct (Rep_segment_of t _ p _ z HR0 ltac:(el) Hz0) as (? & _). }
    apply elem_of_app in Hz0 as [Hz0|Hz0].
    + destruct (Rep_segment_of t _ q l3 z HR0) as (Ez & El & _); [el|done|].
      destruct (Rep_segment_of t' _ q ((y :: l2) ++ l3) z HR') as (Ez' & El' & _); [el|el|].
      rewrite last_app_ne in El' by done.
      rewrite Ez, Ez'. split; [done|]. congruence.
    + apply elem_of_tour_of in Hz0 as (r & lr & Hr & Hzr).
      destruct (Rep_segment_of t _ r lr z HR0) as (Ez & El & _); [el|done|].
      destruct (Rep_segment_of t' _ r lr z HR') as (Ez' & El' & _); [el|done|].
      rewrite Ez, Ez'. split; [done|]. congruence.
Qed.

(** A list of segments can be cut behind a node that ends its segment. *)
Lemma segs_cut t (S : list segment) x X Y :
  Forall (seg_ok t) S -> NoDup (tour_of S) -> fend_of t (parent_of t x) = x ->
  tour_of S = X ++ x :: Y ->
  exists S1 S2, S = S1 ++ S2 /\ tour_of S1 = X ++ [x] /\ tour_of S2 = Y.
Proof.
  intros Hok Hnd Hb Ht.
  assert (x ∈ tour_of S) as Hx by (rewrite Ht; el).
  apply elem_of_tour_of in Hx as (p & l & Hin & Hxl).
  rewrite Forall_forall in Hok. destruct (Hok _ Hin) as (_ & _ & Hl & Hp & _).
  simpl in Hl, Hp. rewrite Forall_forall in Hp. rewrite (Hp x Hxl) in Hb. rewrite Hb in Hl.
  apply last_Some in Hl as [l' ->].
  apply list_elem_of_split in Hin as (Sa & Sb & ->).
  exists (Sa ++ [(p, l' ++ [x])]), Sb.
  rewrite tour_of_app, tour_of_cons in Ht, Hnd.
  rewrite tour_of_app, tour_of_singleton.
  destruct (prefix_unique (X ++ [x]) (tour_of Sa ++ l' ++ [x]) Y (tour_of Sb) x) as [E1 E2].
  - rewrite <-app_assoc. simpl. by rewrite <-Ht.
  - rewrite <-!app_assoc. simpl. rewrite <-Ht. by rewrite <-!app_assoc.
  - by rewrite last_snoc.
  - by rewrite !app_assoc, last_snoc.
  - split_and!; [by rewrite <-app_assoc|done|done].
Qed.

Lemma double_bridge_blocks t segs a b c d L1 L2 L3 L4 :
  Rep t segs -> tour_rep t (a :: L1 ++ b :: L2 ++ c :: L3 ++ d :: L4) ->
  fend_of t (parent_of t a) = a -> fend_of t (parent_of t b) = b ->
  fend_of t (parent_of t c) = c -> fend_of t (parent_of t d) = d ->
  exists SA SB SC SD, Rep t (SA ++ SB ++ SC ++ SD) /\
    tour_of SA = L1 ++ [b] /\ tour_of SB = L2 ++ [c] /\
    tour_of SC = L3 ++ [d] /\ tour_of SD = L4 ++ [a].
Proof.
  intros HR Htr Ha Hb Hc Hd.
  assert (a ∈ tour_of segs) as Hin.
  { apply (Rep_elem_of_tour _ _ _ HR). apply (tour_rep_range _ _ _ Htr). el. }
  apply list_elem_of_split in Hin as (X & Y & Ht).
  destruct (segs_cut t segs a X Y (rep_segs _ _ HR) (Rep_NoDup_tour _ _ HR) Ha Ht)
    as (S1 & S2 & -> & Ht1 & Ht2).
  apply Rep_rotate in HR. pose proof (Rep_tour_rep _ _ HR) as Htr'.
  rewrite tour_of_app, Ht1, Ht2, app_assoc in Htr'.
  apply tour_rep_rotate in Htr'. simpl in Htr'.
  pose proof (tour_rep_unique _ _ _ _ Htr' Htr) as E.
  pose proof (rep_segs _ _ HR) as Hok. pose proof (Rep_NoDup_tour _ _ HR) as Hnd.
  assert (tour_of (S2 ++ S1) = L1 ++ b :: L2 ++ c :: L3 ++ d :: L4 ++ [a]) as Ht0.
  { rewrite tour_of_app, Ht1, Ht2, app_assoc, E. rewrite <-!app_assoc. simpl.
    do 2 f_equal. rewrite <-!app_assoc. simpl. do 2 f_equal. by rewrite <-!app_assoc. }
  destruct (segs_cut t _ b _ _ Hok Hnd Hb Ht0) as (SA & S' & ES & HtA & Ht').
  rewrite ES in Hok, Hnd. apply Forall_app in Hok as [_ Hok].
  rewrite tour_of_app in Hnd. apply NoDup_app in Hnd as (_ & _ & Hnd).
  destruct (segs_cut t _ c _ _ Hok Hnd Hc Ht') as (SB & S'' & ES' & HtB & Ht'').
  rewrite ES' in Hok, Hnd. apply Forall_app in Hok as [_ Hok].
  rewrite tour_of_app in Hnd. apply NoDup_app in Hnd as (_ & _ & Hnd).
  destruct (segs_cut t _ d _ _ Hok Hnd Hd Ht'') as (SC & SD & ES'' & HtC & HtD).
  exists SA, SB, SC, SD. rewrite <-ES'', <-ES', <-ES. done.
Qed.

(** What [connect_forward] changes: the forward link of [p], the backward
    link of [q], and the links between their parents. *)
Lemma connect_forward_views t p q :
  let t' := connect_forward t p q in
  same_shape t t' /\
  (forall z, get_next t' z = if decide (z = p) then q else get_next t z) /\
  (forall z, get_prev t' z = if decide (z = q) then p else get_prev t z) /\
  (forall r, pnext_of t' r = if decide (r = parent_of t p) then parent_of t q
                             else pnext_of t r) /\
  (forall r, pprev_of t' r = if decide (r = parent_of t q) then parent_of t p
                             else pprev_of t r) /\
  (forall r, rev_of t' r = rev_of t r /\ size_of t' r = size_of t r /\
             pid_of t' r = pid_of t r /\ begin_of t' r = begin_of t r /\
             end_of t' r = end_of t r) /\
  (forall z, parent_of t' z = parent_of t z /\ id_of t' z = id_of t z /\
             city_of t' z = city_of t z).
Proof.
  intros t'. subst t'. unfold connect_forward. cbv zeta. split_and!.
  - repeat split; tg; done.
  - intros z. tg. done.
  - intros z. tg. done.
  - intros r. tg. done.
  - intros r. tg. done.
  - intros r. split_and!; tg; done.
  - intros z. split_and!; tg; done.
Qed.

Lemma segs_head_parent t (S : list segment) x :
  Forall (seg_ok t) S -> head (tour_of S) = Some x ->
  head (parents_of S) = Some (parent_of t x).
Proof.
  intros Hok Hh. destruct S as [|[p l] S]; [done|].
  apply Forall_cons in Hok as [Hs _]. pose proof (seg_ok_nonempty _ _ _ Hs) as Hl.
  rewrite head_tour_of_cons in Hh by done. rewrite parents_of_cons. simpl.
  destruct Hs as (_ & _ & _ & Hp & _). simpl in Hp. rewrite Forall_forall in Hp.
  f_equal. symmetry. apply Hp. by apply head_Some_elem_of.
Qed.

Lemma segs_last_parent t (S : list segment) x :
  Forall (seg_ok t) S -> last (tour_of S) = Some x ->
  last (parents_of S) = Some (parent_of t x).
Proof.
  intros Hok Hl. destruct (decide (S = [])) as [->|Hne]; [done|].
  destruct (list_snoc_inv S Hne) as (S' & [p l] & ->).
  apply Forall_app in Hok as [_ Hok]. rewrite Forall_singleton in Hok.
  pose proof (seg_ok_nonempty _ _ _ Hok) as Hln.
  rewrite last_tour_of_snoc in Hl by done.
  rewrite parents_of_app, parents_of_cons, parents_of_nil, last_snoc.
  destruct Hok as (_ & _ & _ & Hp & _). simpl in Hp. rewrite Forall_forall in Hp.
  f_equal. symmetry. apply Hp. by apply last_Some_elem_of.
Qed.

Lemma head_app_ne {A} (l1 l2 : list A) : l1 <> [] -> head (l1 ++ l2) = head l1.
Proof. by destruct l1. Qed.

(** Four blocks of a cyclic list, rewired in the order of the double bridge. *)
Lemma rewire4 {A} (R R' : A -> A -> Prop) (lA lB lC lD : list A)
    (eA eB eC eD hA hB hC hD : A) :
  NoDup (lA ++ lB ++ lC ++ lD) ->
  chain R lA -> chain R lB -> chain R lC -> chain R lD ->
  head lA = Some hA -> last lA = Some eA ->
  head lB = Some hB -> last lB = Some eB ->
  head lC = Some hC -> last lC = Some eC ->
  head lD = Some hD -> last lD = Some eD ->
  (forall x y, R x y -> x <> eA -> x <> eB -> x <> eC -> x <> eD ->
     y <> hA -> y <> hB -> y <> hC -> y <> hD -> R' x y) ->
  R' eD hC -> R' eC hB -> R' eB hA -> R' eA hD ->
  cchain R' (lD ++ lC ++ lB ++ lA).
Proof.
  intros Hnd HcA HcB HcC HcD HhA HlA HhB HlB HhC HlC HhD HlD Hmono HDC HCB HBA HAD.
  assert (lA <> [] /\ lB <> [] /\ lC <> [] /\ lD <> []) as (HnA & HnB & HnC & HnD).
  { split_and!; by intros ->. }
  pose proof Hnd as Hnd0.
  apply NoDup_app in Hnd as (HndA & HAo & Hnd).
  apply NoDup_app in Hnd as (HndB & HBo & Hnd).
  apply NoDup_app in Hnd as (HndC & HCo & HndD).
  assert (forall l, l ∈ [lA; lB; lC; lD] -> NoDup l -> chain R l -> chain R' l) as Hblock.
  { intros l Hl Hndl. apply chain_mono_pos; [done|].
    intros x y Hx Hy Hlast Hhead Hxy.
    pose proof (last_Some_elem_of _ _ HlA). pose proof (last_Some_elem_of _ _ HlB).
    pose proof (last_Some_elem_of _ _ HlC). pose proof (last_Some_elem_of _ _ HlD).
    pose proof (head_Some_elem_of _ _ HhA). pose proof (head_Some_elem_of _ _ HhB).
    pose proof (head_Some_elem_of _ _ HhC). pose proof (head_Some_elem_of _ _ HhD).
    assert (forall u, u ∈ lA -> (u ∉ lB) /\ (u ∉ lC) /\ (u ∉ lD)) as HA.
    { intros u Hu. specialize (HAo u Hu). revert HAo. rewrite !elem_of_app. tauto. }
    assert (forall u, u ∈ lB -> (u ∉ lC) /\ (u ∉ lD)) as HB.
    { intros u Hu. specialize (HBo u Hu). revert HBo. rewrite !elem_of_app. tauto. }
    pose proof (fun u Hu => HCo u Hu) as HC.
    rewrite !elem_of_cons, elem_of_nil in Hl.
    apply Hmono; [done|..]; intros ->;
      destruct Hl as [->|[->|[->|[->|[]]]]];
      solve [ by (apply Hlast) | by (apply Hhead)
            | naive_solver ]. }
  apply cchain_intro.
  - rewrite !chain_app. split_and!.
    + apply Hblock; [el|done|done].
    + apply Hblock; [el|done|done].
    + apply Hblock; [el|done|done].
    + apply Hblock; [el|done|done].
    + intros x y. rewrite HlB, HhA. by intros [= <-] [= <-].
    + intros x y. rewrite HlC, head_app_ne, HhB by done. by intros [= <-] [= <-].
    + intros x y. rewrite HlD, head_app_ne, HhC by done. by intros [= <-] [= <-].
  - intros x y. rewrite head_app_ne, HhD by done.
    rewrite !last_app_ne, HlA by (try done; by destruct lC, lB, lA).
    by intros [= <-] [= <-].
Qed.

Lemma chain_lookup {A} (R : A -> A -> Prop) (l : list A) :
  chain R l <-> forall i x y, l !! i = Some x -> l !! S i = Some y -> R x y.
Proof.
  induction l as [|a l IH]; [done|]. rewrite chain_cons_head, IH. split.
  - intros [H1 H2] [|i] x y Hx Hy.
    + injection Hx as <-. apply H2. by destruct l.
    + by apply (H1 i).
  - intros H. split.
    + intros i x y Hx Hy. by apply (H (S i)).
    + intros x Hx. apply (H 0%nat); [done|]. by destruct l.
Qed.

(** The renumbering loop of [double_bridge_move] walks the parents along
    [next] from the head parent and numbers them consecutively. *)
Lemma renumber_parents_spec P : forall fuel t p id,
  chain (fun x y => pnext_of t x = y) (p :: P) ->
  pnext_of t (default p (last P)) = head_parent_node t ->
  head_parent_node t ∉ P -> NoDup (p :: P) -> (length P < fuel)%nat ->
  exists t', renumber_parents fuel t p id = Some t' /\ same_shape t t' /\
    (forall z, nd t' z = nd t z) /\
    (forall r, rev_of t' r = rev_of t r /\ size_of t' r = size_of t r /\
               pprev_of t' r = pprev_of t r /\ pnext_of t' r = pnext_of t r /\
               begin_of t' r = begin_of t r /\ end_of t' r = end_of t r) /\
    (forall i x, (p :: P) !! i = Some x -> pid_of t' x = id + Z.of_nat i) /\
    (forall r, r ∉ p :: P -> pid_of t' r = pid_of t r).
Proof.
  induction P as [|q P IH]; intros fuel t p id Hch Hlast Hhd Hnd Hf.
  - destruct fuel as [|f]; [simpl in Hf; lia|]. simpl in Hlast.
    simpl. rewrite pnext_of_set_p_id, Hlast.
    rewrite bool_decide_eq_false_2 by (intros H; by apply H).
    eexists. split; [done|]. split_and!.
    + by repeat split.
    + intros z. by tg.
    + intros r. split_and!; by tg.
    + intros [|i] x Hx; [|done]. injection Hx as <-. tg. rewrite decide_True by done. lia.
    + intros r Hr. tg. rewrite decide_False; [done|]. intros ->. apply Hr. el.
  - destruct fuel as [|f]; [simpl in Hf; lia|].
    apply chain_cons in Hch as [Hpq Hch].
    apply NoDup_cons in Hnd as [Hp Hnd].
    simpl. rewrite pnext_of_set_p_id, Hpq.
    rewrite bool_decide_eq_true_2 by (intros ->; apply Hhd; el).
    destruct (IH f (set_p_id t p id) q (id + 1)) as (t' & E & Hsh & Hn & Hr & Hid & Hfr).
    + eapply chain_mono; [|exact Hch]. intros x y Hxy. simpl. by tg.
    + tg. unfold head_parent_node in *. rewrite <-Hlast, last_cons.
      by destruct (last P).
    + intros H. apply Hhd. unfold head_parent_node in *. el.
    + done.
    + simpl in Hf. lia.
    + exists t'. split; [done|]. split_and!.
      * destruct Hsh as (? & ? & ? & ?). by repeat split.
      * intros z. rewrite Hn. by tg.
      * intros r. destruct (Hr r) as (-> & -> & -> & -> & -> & ->). split_and!; by tg.
      * intros [|i] x Hx.
        -- injection Hx as <-. rewrite Hfr by done. tg. rewrite decide_True by done. lia.
        -- rewrite (Hid i x Hx). lia.
      * intros r Hr'. rewrite Hfr by (intros H; apply Hr'; el). tg.
        rewrite decide_False; [done|]. intros ->. apply Hr'. el.
Qed.

Lemma NoDup_blocks_ne {A} (lA lB lC lD : list A) xA xB xC xD :
  NoDup (lA ++ lB ++ lC ++ lD) -> xA ∈ lA -> xB ∈ lB -> xC ∈ lC -> xD ∈ lD ->
  xA <> xB /\ xA <> xC /\ xA <> xD /\ xB <> xC /\ xB <> xD /\ xC <> xD.
Proof.
  intros Hnd HA HB HC HD.
  apply NoDup_app in Hnd as (_ & HAo & Hnd).
  apply NoDup_app in Hnd as (_ & HBo & Hnd).
  apply NoDup_app in Hnd as (_ & HCo & _).
  specialize (HAo xA HA). specialize (HBo xB HB). specialize (HCo xC HC).
  repeat setoid_rewrite elem_of_app in HAo. repeat setoid_rewrite elem_of_app in HBo.
  split_and!; intros E; subst; tauto.
Qed.

Lemma parents_of_split (segs : list segment) p :
  p ∈ parents_of segs -> exists N1 l N2, segs = N1 ++ (p, l) :: N2.
Proof.
  intros (l & Hin)%elem_of_parents_of.
  apply list_elem_of_split in Hin as (N1 & N2 & ->). eauto.
Qed.

Lemma views_same t t' :
  (forall z, nd t' z = nd t z) -> (forall r, rev_of t' r = rev_of t r) ->
  forall z, get_next t' z = get_next t z /\ get_prev t' z = get_prev t z /\
            lid t' z = lid t z.
Proof.
  intros Hn Hr z. unfold get_next, get_prev, lid. by rewrite !Hn, !Hr.
Qed.

Lemma perm4 {A} (a b c d : list A) : d ++ c ++ b ++ a ≡ₚ a ++ b ++ c ++ d.
Proof.
  rewrite (Permutation_app_comm c (b ++ a)), (Permutation_app_comm b a).
  rewrite (Permutation_app_comm d). by rewrite <-!app_assoc.
Qed.

Lemma Rep_parents_le t segs : Rep t segs -> _n_parents t <= _n_cities t.
Proof.
  intros HR. pose proof (segs_length_le _ (Rep_nonempty_segs _ _ HR)) as Hle.
  rewrite (Rep_tour_length _ _ HR), <-parents_of_length, (rep_parents _ _ HR) in Hle.
  rewrite length_seqZ in Hle. pose proof (rep_n_parents _ _ HR). lia.
Qed.

(** The second and third phase of [double_bridge_move]: once the four nodes
    end their segments, the four reconnections and the renumbering of the
    parents turn the blocks [A B C D] of the tour into [D C B A]. *)
Lemma double_bridge_reconnect fuel t SA SB SC SD a b c d an bn cn dn :
  Rep t (SA ++ SB ++ SC ++ SD) ->
  head (tour_of SA) = Some an -> last (tour_of SA) = Some b ->
  head (tour_of SB) = Some bn -> last (tour_of SB) = Some c ->
  head (tour_of SC) = Some cn -> last (tour_of SC) = Some d ->
  head (tour_of SD) = Some dn -> last (tour_of SD) = Some a ->
  (Z.to_nat (_n_cities t) < fuel)%nat ->
  let t4 := connect_forward (connect_forward (connect_forward
              (connect_forward t a cn) d bn) c an) b dn in
  exists t' segs', renumber_parents fuel t4 (head_parent_node t4) 0 = Some t' /\
    Rep t' segs' /\ same_shape t t' /\
    tour_rep t' (tour_of SD ++ tour_of SC ++ tour_of SB ++ tour_of SA).
Proof.
  intros HR HhA HlA HhB HlB HhC HlC HhD HlD Hf t4.
  pose proof (rep_segs _ _ HR) as Hok.
  rewrite !Forall_app in Hok. destruct Hok as (HokA & HokB & HokC & HokD).
  (* the nodes *)
  pose proof (Rep_NoDup_tour _ _ HR) as HndT. rewrite !tour_of_app in HndT.
  destruct (NoDup_blocks_ne _ _ _ _ b c d a HndT) as (Hbc & Hbd & Hba & Hcd & Hca & Hda);
    [by apply last_Some_elem_of..|].
  destruct (NoDup_blocks_ne _ _ _ _ an bn cn dn HndT) as (Hn1 & Hn2 & Hn3 & Hn4 & Hn5 & Hn6);
    [by apply head_Some_elem_of..|].
  pose proof (rep_link _ _ HR) as Hlk. apply cchain_chain in Hlk.
  rewrite !tour_of_app, !chain_app in Hlk.
  destruct Hlk as (HcA & (HcB & (HcC & HcD & _) & _) & _).
  (* the parents *)
  pose proof (rep_parents _ _ HR) as Hperm.
  assert (NoDup (parents_of (SA ++ SB ++ SC ++ SD))) as HndP
    by (rewrite Hperm; apply NoDup_seqZ).
  rewrite !parents_of_app in HndP.
  pose proof (segs_head_parent _ _ _ HokA HhA) as HphA.
  pose proof (segs_head_parent _ _ _ HokB HhB) as HphB.
  pose proof (segs_head_parent _ _ _ HokC HhC) as HphC.
  pose proof (segs_head_parent _ _ _ HokD HhD) as HphD.
  pose proof (segs_last_parent _ _ _ HokA HlA) as HplA.
  pose proof (segs_last_parent _ _ _ HokB HlB) as HplB.
  pose proof (segs_last_parent _ _ _ HokC HlC) as HplC.
  pose proof (segs_last_parent _ _ _ HokD HlD) as HplD.
  destruct (NoDup_blocks_ne _ _ _ _ _ _ _ _ HndP
              (last_Some_elem_of _ _ HplA) (last_Some_elem_of _ _ HplB)
              (last_Some_elem_of _ _ HplC) (last_Some_elem_of _ _ HplD))
    as (Hq1 & Hq2 & Hq3 & Hq4 & Hq5 & Hq6).
  destruct (NoDup_blocks_ne _ _ _ _ _ _ _ _ HndP
              (head_Some_elem_of _ _ HphA) (head_Some_elem_of _ _ HphB)
              (head_Some_elem_of _ _ HphC) (head_Some_elem_of _ _ HphD))
    as (Hr1 & Hr2 & Hr3 & Hr4 & Hr5 & Hr6).
  pose proof (rep_plink _ _ HR) as Hpl. apply cchain_chain in Hpl.
  rewrite !parents_of_app, !chain_app in Hpl.
  destruct Hpl as (HpA & (HpB & (HpC & HpD & _) & _) & _).
  (* the state after the four reconnections *)
  set (t1 := connect_forward t a cn) in *.
  set (t2 := connect_forward t1 d bn) in *.
  set (t3 := connect_forward t2 c an) in *.
  destruct (connect_forward_views t a cn) as (Hs1 & Hgn1 & Hgp1 & Hpn1 & Hpp1 & Hpf1 & Hnf1).
  destruct (connect_forward_views t1 d bn) as (Hs2 & Hgn2 & Hgp2 & Hpn2 & Hpp2 & Hpf2 & Hnf2).
  destruct (connect_forward_views t2 c an) as (Hs3 & Hgn3 & Hgp3 & Hpn3 & Hpp3 & Hpf3 & Hnf3).
  destruct (connect_forward_views t3 b dn) as (Hs4 & Hgn4 & Hgp4 & Hpn4 & Hpp4 & Hpf4 & Hnf4).
  fold t1 in Hs1, Hgn1, Hgp1, Hpn1, Hpp1, Hpf1, Hnf1.
  fold t2 in Hs2, Hgn2, Hgp2, Hpn2, Hpp2, Hpf2, Hnf2.
  fold t3 in Hs3, Hgn3, Hgp3, Hpn3, Hpp3, Hpf3, Hnf3.
  fold t4 in Hs4, Hgn4, Hgp4, Hpn4, Hpp4, Hpf4, Hnf4.
  assert (forall z, parent_of t4 z = parent_of t z /\ id_of t4 z = id_of t z /\
                    city_of t4 z = city_of t z) as Hnf.
  { intros z. destruct (Hnf4 z) as (-> & -> & ->), (Hnf3 z) as (-> & -> & ->),
      (Hnf2 z) as (-> & -> & ->), (Hnf1 z) as (-> & -> & ->). done. }
  assert (forall r, rev_of t4 r = rev_of t r /\ size_of t4 r = size_of t r /\
             pid_of t4 r = pid_of t r /\ begin_of t4 r = begin_of t r /\
             end_of t4 r = end_of t r) as Hpf.
  { intros r. destruct (Hpf4 r) as (-> & -> & -> & -> & ->),
      (Hpf3 r) as (-> & -> & -> & -> & ->), (Hpf2 r) as (-> & -> & -> & -> & ->),
      (Hpf1 r) as (-> & -> & -> & -> & ->). done. }
  assert (same_shape t t4) as Hs.
  { destruct Hs1 as (? & ? & ? & ?), Hs2 as (? & ? & ? & ?), Hs3 as (? & ? & ? & ?),
      Hs4 as (? & ? & ? & ?). repeat split; congruence. }
  assert (forall z, get_next t4 z =
            if decide (z = b) then dn else if decide (z = c) then an
            else if decide (z = d) then bn else if decide (z = a) then cn
            else get_next t z) as Hgn.
  { intros z. rewrite Hgn4, Hgn3, Hgn2, Hgn1. done. }
  assert (forall z, get_prev t4 z =
            if decide (z = dn) then b else if decide (z = an) then c
            else if decide (z = bn) then d else if decide (z = cn) then a
            else get_prev t z) as Hgp.
  { intros z. rewrite Hgp4, Hgp3, Hgp2, Hgp1. done. }
  assert (forall r, pnext_of t4 r =
            if decide (r = parent_of t b) then parent_of t dn
            else if decide (r = parent_of t c) then parent_of t an
            else if decide (r = parent_of t d) then parent_of t bn
            else if decide (r = parent_of t a) then parent_of t cn
            else pnext_of t r) as Hpn.
  { intros r. rewrite Hpn4, Hpn3, Hpn2, Hpn1.
    destruct (Hnf3 b) as (-> & _), (Hnf2 b) as (-> & _), (Hnf1 b) as (-> & _).
    destruct (Hnf3 dn) as (-> & _), (Hnf2 dn) as (-> & _), (Hnf1 dn) as (-> & _).
    destruct (Hnf2 c) as (-> & _), (Hnf1 c) as (-> & _).
    destruct (Hnf2 an) as (-> & _), (Hnf1 an) as (-> & _).
    destruct (Hnf1 d) as (-> & _), (Hnf1 bn) as (-> & _). done. }
  assert (forall r, pprev_of t4 r =
            if decide (r = parent_of t dn) then parent_of t b
            else if decide (r = parent_of t an) then parent_of t c
            else if decide (r = parent_of t bn) then parent_of t d
            else if decide (r = parent_of t cn) then parent_of t a
            else pprev_of t r) as Hpp.
  { intros r. rewrite Hpp4, Hpp3, Hpp2, Hpp1.
    destruct (Hnf3 b) as (-> & _), (Hnf2 b) as (-> & _), (Hnf1 b) as (-> & _).
    destruct (Hnf3 dn) as (-> & _), (Hnf2 dn) as (-> & _), (Hnf1 dn) as (-> & _).
    destruct (Hnf2 c) as (-> & _), (Hnf1 c) as (-> & _).
    destruct (Hnf2 an) as (-> & _), (Hnf1 an) as (-> & _).
    destruct (Hnf1 d) as (-> & _), (Hnf1 bn) as (-> & _). done. }
  clearbody t4. clear Hs1 Hgn1 Hgp1 Hpn1 Hpp1 Hpf1 Hnf1 Hs2 Hgn2 Hgp2 Hpn2 Hpp2 Hpf2 Hnf2
    Hs3 Hgn3 Hgp3 Hpn3 Hpp3 Hpf3 Hnf3 Hs4 Hgn4 Hgp4 Hpn4 Hpp4 Hpf4 Hnf4.
  clear t3 t2 t1.
  (* the new cyclic order of the nodes *)
  assert (cchain (link t4) (tour_of SD ++ tour_of SC ++ tour_of SB ++ tour_of SA)) as Hlk4.
  { apply (rewire4 (link t) (link t4) _ _ _ _ b c d a an bn cn dn HndT); try done.
    - intros x y [Hx Hy] ? ? ? ? ? ? ? ?. unfold link. rewrite Hgn, Hgp. by dsimp.
    - unfold link. rewrite Hgn, Hgp. by dsimp.
    - unfold link. rewrite Hgn, Hgp. by dsimp.
    - unfold link. rewrite Hgn, Hgp. by dsimp.
    - unfold link. rewrite Hgn, Hgp. by dsimp. }
  (* the new cyclic order of the parents *)
  assert (cchain (fun p q => pnext_of t4 p = q /\ pprev_of t4 q = p)
            (parents_of SD ++ parents_of SC ++ parents_of SB ++ parents_of SA)) as Hpl4.
  { apply (rewire4 (plink t) _ _ _ _ _ _ _ _ _ _ _ _ _ HndP HpA HpB HpC HpD
             HphA HplA HphB HplB HphC HplC HphD HplD).
    - intros x y (Hx & Hy & _) ? ? ? ? ? ? ? ?. rewrite Hpn, Hpp. by dsimp.
    - rewrite Hpn, Hpp. by dsimp.
    - rewrite Hpn, Hpp. by dsimp.
    - rewrite Hpn, Hpp. by dsimp.
    - rewrite Hpn, Hpp. by dsimp. }
  clear Hgn Hgp Hpn Hpp Hbc Hbd Hba Hcd Hca Hda Hn1 Hn2 Hn3 Hn4 Hn5 Hn6
    Hq1 Hq2 Hq3 Hq4 Hq5 Hq6 Hr1 Hr2 Hr3 Hr4 Hr5 Hr6.
  (* cut the new cyclic list of segments at the head parent *)
  pose proof (rep_n_parents _ _ HR) as Hnp.
  unfold head_parent_node.
  assert (0 ∈ parents_of (SD ++ SC ++ SB ++ SA)) as H0in.
  { rewrite !parents_of_app, perm4, <-!parents_of_app, Hperm. apply elem_of_seqZ. lia. }
  destruct (parents_of_split _ _ H0in) as (N1 & l0 & N2 & EN).
  set (Q := parents_of N2 ++ parents_of N1).
  assert (parents_of SD ++ parents_of SC ++ parents_of SB ++ parents_of SA
          = parents_of N1 ++ 0 :: parents_of N2) as EP.
  { by rewrite <-!parents_of_app, EN, parents_of_app, parents_of_cons. }
  assert (tour_of SD ++ tour_of SC ++ tour_of SB ++ tour_of SA
          = tour_of N1 ++ l0 ++ tour_of N2) as ET.
  { by rewrite <-!tour_of_app, EN, tour_of_app, tour_of_cons. }
  rewrite EP in Hpl4.
  apply (cchain_rotate _ (parents_of N1) (0 :: parents_of N2)) in Hpl4.
  simpl in Hpl4. fold Q in Hpl4.
  assert (0 :: Q ≡ₚ seqZ 0 (_n_parents t)) as HQperm.
  { rewrite <-Hperm, !parents_of_app, <-perm4, EP. unfold Q.
    by rewrite (Permutation_app_comm (parents_of N1)). }
  assert (NoDup (0 :: Q)) as HndQ by (rewrite HQperm; apply NoDup_seqZ).
  assert (length (0 :: Q) = Z.to_nat (_n_parents t)) as HlenQ
    by (by rewrite HQperm, length_seqZ).
  pose proof (Rep_parents_le _ _ HR) as Hple.
  pose proof Hpl4 as Hch4. rewrite cchain_cons in Hch4.
  destruct (renumber_parents_spec Q fuel t4 0 0) as (t' & E & Hsh' & Hn' & Hr' & Hid & _).
  { rewrite app_comm_cons in Hch4. apply chain_app_l in Hch4.
    eapply chain_mono; [|exact Hch4]. by intros x y [? _]. }
  { unfold head_parent_node.
    destruct (cchain_wrap _ _ (default 0 (last Q)) 0 Hpl4) as [Hw _]; [done| |done].
    rewrite last_cons. by destruct (last Q). }
  { unfold head_parent_node. by apply NoDup_cons in HndQ as [? _]. }
  { done. }
  { simpl in HlenQ. lia. }
  pose proof (views_same t4 t' Hn' (fun r => proj1 (Hr' r))) as Hv'.
  assert (same_shape t t') as Hst.
  { destruct Hs as (? & ? & ? & ?), Hsh' as (? & ? & ? & ?). repeat split; congruence. }
  assert (forall p, size_of t' p = size_of t p /\ fbegin_of t' p = fbegin_of t p /\
                    fend_of t' p = fend_of t p) as Hpar'.
  { intros p. unfold forward_begin_node, forward_end_node.
    destruct (Hr' p) as (E1 & E2 & _ & _ & E3 & E4), (Hpf p) as (F1 & F2 & _ & F3 & F4).
    by rewrite E1, E2, E3, E4, F1, F2, F3, F4. }
  assert (forall x, parent_of t' x = parent_of t x /\ lid t' x = lid t x) as Hnode'.
  { intros x. destruct (Hv' x) as (_ & _ & ->). rewrite Hn'.
    destruct (Hnf x) as (Hx1 & Hx2 & _). split; [done|].
    apply lid_frame; [done|done|]. intros r. by destruct (Hpf r) as (-> & _). }
  assert (Forall (seg_ok t') (SD ++ SC ++ SB ++ SA)) as Hok'.
  { rewrite !Forall_app. split_and!;
      (eapply Forall_impl; [eassumption|]); intros [p l] Hs0;
      (apply (seg_ok_frame t); [done|apply Hpar'|apply Hpar'|apply Hpar'|]);
      intros x _; apply Hnode'. }
  exists t', ((0, l0) :: N2 ++ N1). split; [done|].
  assert (Rep t' ((0, l0) :: N2 ++ N1)) as HR'.
  { apply (Rep_intro t t' (SA ++ SB ++ SC ++ SD)); [done|done|..].
    - rewrite parents_of_cons, !parents_of_app. fold Q. rewrite HQperm.
      by rewrite <-Hperm, !parents_of_app.
    - rewrite tour_of_cons, !tour_of_app, <-perm4, ET.
      by rewrite (Permutation_app_comm (tour_of N1)), <-app_assoc.
    - rewrite parents_of_cons, parents_of_app. fold Q. rewrite cchain_cons.
      apply chain_lookup. intros i x y Hx Hy.
      destruct (proj1 (chain_lookup _ _) Hch4 i x y Hx Hy) as [Hxy Hyx].
      destruct (Hr' x) as (_ & _ & _ & Ex & _). destruct (Hr' y) as (_ & _ & Ey & _).
      unfold plink. rewrite Ex, Ey. split_and!; [done|done|].
      destruct Hst as (-> & _).
      rewrite app_comm_cons in Hx, Hy.
      assert (i < length (0%Z :: Q))%nat as Hi.
      { apply lookup_lt_Some in Hy. rewrite length_app in Hy. simpl in Hy. simpl. lia. }
      rewrite lookup_app_l in Hx by done. rewrite (Hid i x Hx).
      destruct (decide (S i < length (0%Z :: Q))%nat) as [Hlt|Hge].
      + rewrite lookup_app_l in Hy by done. rewrite (Hid _ y Hy).
        rewrite Z.rem_small by lia. lia.
      + rewrite lookup_app_r in Hy by lia.
        replace (S i - length (0%Z :: Q))%nat with 0%nat in Hy by lia.
        injection Hy as <-. rewrite (Hid 0%nat 0 eq_refl).
        replace (0 + Z.of_nat i + 1) with (_n_parents t) by lia.
        rewrite Z.rem_same by lia. done.
    - intros p Hp. rewrite !parents_of_app, <-perm4, EP in Hp.
      assert (p ∈ 0 :: Q) as Hp'.
      { unfold Q. revert Hp. rewrite !elem_of_app, !elem_of_cons, !elem_of_app. tauto. }
      apply list_elem_of_lookup in Hp' as [i Hi]. rewrite (Hid i p Hi).
      apply lookup_lt_Some in Hi. lia.
    - rewrite EN in Hok'. rewrite Forall_app, Forall_cons in Hok'.
      rewrite Forall_cons, Forall_app. tauto.
    - rewrite tour_of_cons, tour_of_app, app_assoc.
      apply cchain_rotate. rewrite <-ET.
      eapply cchain_mono; [|exact Hlk4]. intros x y [Hx Hy]. unfold link.
      destruct (Hv' x) as (-> & _). destruct (Hv' y) as (_ & -> & _). done.
    - intros x. rewrite Hn'. by destruct (Hnf x) as (_ & _ & ?). }
  split_and!; [done|done|].
  pose proof (Rep_tour_rep _ _ HR') as Htr.
  rewrite tour_of_cons, tour_of_app, app_assoc in Htr.
  apply tour_rep_rotate in Htr. by rewrite <-ET in Htr.
Qed.

Lemma raw_tour_tour_rep t a L :
  valid t -> is_city_valid t a = true -> get_raw_tour t a forward = a :: L ->
  tour_rep t (a :: L).
Proof.
  intros Hv Ha E. destruct (valid_tour_from t a Hv Ha) as (segs & L' & _ & Htr).
  destruct Hv as [Ho _]. rewrite (get_raw_tour_forward t a L' Htr Ho) in E.
  by injection E as <-.
Qed.

Lemma tour_rep_views t t' L :
  tour_rep t L -> same_shape t t' ->
  (forall y, get_next t' y = get_next t y) -> (forall y, get_prev t' y = get_prev t y) ->
  (forall y, city_of t' y = city_of t y) -> tour_rep t' L.
Proof.
  intros (H1 & H2 & H3) (_ & E2 & E3 & _) Hn Hp Hc. split_and!.
  - eapply cchain_mono; [|exact H1]. intros x y [? ?]. unfold link. by rewrite Hn, Hp.
  - by rewrite E2, E3.
  - eapply Forall_impl; [exact H3|]. intros x Hx. simpl. by rewrite Hc.
Qed.

Lemma cchain4_links {A} (R : A -> A -> Prop) (lA lB lC lD : list A) eA eB eC eD hA hB hC hD :
  cchain R (lA ++ lB ++ lC ++ lD) ->
  head lA = Some hA -> last lA = Some eA -> head lB = Some hB -> last lB = Some eB ->
  head lC = Some hC -> last lC = Some eC -> head lD = Some hD -> last lD = Some eD ->
  R eA hB /\ R eB hC /\ R eC hD /\ R eD hA.
Proof.
  intros Hc HhA HlA HhB HlB HhC HlC HhD HlD.
  assert (lA <> [] /\ lB <> [] /\ lC <> [] /\ lD <> []) as (HnA & HnB & HnC & HnD).
  { split_and!; by intros ->. }
  pose proof (cchain_chain _ _ Hc) as Hch. rewrite !chain_app in Hch.
  destruct Hch as (_ & (_ & (_ & _ & HCD) & HBC) & HAB).
  split_and!.
  - apply HAB; [done|]. by rewrite head_app_ne.
  - apply HBC; [done|]. by rewrite head_app_ne.
  - by apply HCD.
  - eapply cchain_wrap; [exact Hc|by rewrite head_app_ne|].
    rewrite !last_app_ne; first [done | by destruct lC | by destruct lB].
Qed.

(** The double bridge move: with the tour read from [a] as
    [a L1 b L2 c L3 d L4], the four nodes in pairwise different segments, the
    result encodes the tour [a L3 d L2 c L1 b L4]. *)
Lemma double_bridge_spec fuel t a b c d L1 L2 L3 L4 :
  valid t -> is_city_valid t a = true ->
  get_raw_tour t a forward = a :: L1 ++ b :: L2 ++ c :: L3 ++ d :: L4 ->
  NoDup [parent_of t a; parent_of t b; parent_of t c; parent_of t d] ->
  (Z.to_nat (_n_cities t) < fuel)%nat ->
  exists t', double_bridge_move fuel t a b c d = Some t' /\ valid t' /\ same_shape t t' /\
    tour_rep t' (a :: (L3 ++ [d]) ++ (L2 ++ [c]) ++ (L1 ++ [b]) ++ L4).
Proof.
  intros Hv Ha Eraw Hpar Hf.
  pose proof (raw_tour_tour_rep t a _ Hv Ha Eraw) as Htr.
  destruct Hv as [Ho [segs HR]].
  assert (forall x, x ∈ a :: L1 ++ b :: L2 ++ c :: L3 ++ d :: L4 ->
            _origin_city t <= x < _origin_city t + _n_cities t) as Hrange.
  { intros x Hx. by apply (tour_rep_range _ _ _ Htr). }
  pose proof (Hrange a ltac:(el)) as Hra. pose proof (Hrange b ltac:(el)) as Hrb.
  pose proof (Hrange c ltac:(el)) as Hrc. pose proof (Hrange d ltac:(el)) as Hrd.
  clear Hrange.
  apply NoDup_cons in Hpar as [Hab Hpar]. apply NoDup_cons in Hpar as [Hbc Hpar].
  apply NoDup_cons in Hpar as [Hcd _].
  assert (parent_of t a <> parent_of t b /\ parent_of t a <> parent_of t c /\
          parent_of t a <> parent_of t d /\ parent_of t b <> parent_of t c /\
          parent_of t b <> parent_of t d /\ parent_of t c <> parent_of t d)
    as (Nab & Nac & Nad & Nbc & Nbd & Ncd).
  { revert Hab Hbc Hcd. rewrite !elem_of_cons, !elem_of_nil. intros. split_and!; tauto. }
  clear Hab Hbc Hcd.
  (* the four split-and-merge steps *)
  destruct (sam_spec fuel t segs a HR) as
    (t1 & segs1 & E1 & HR1 & Hs1 & Hn1 & Hp1 & Hc1 & Pa1 & Fa1 & Ho1);
    [by apply (Rep_elem_of_tour _ _ _ HR)|done|].
  pose proof Hs1 as (Sp1 & Sc1 & So1 & _).
  assert (forall x, _origin_city t <= x < _origin_city t + _n_cities t ->
            x ∈ tour_of segs) as Hin0.
  { intros x Hx. by apply (Rep_elem_of_tour _ _ _ HR). }
  destruct (Ho1 b (Hin0 b Hrb)) as [Pb1 _]; [congruence|].
  destruct (Ho1 c (Hin0 c Hrc)) as [Pc1 _]; [congruence|].
  destruct (Ho1 d (Hin0 d Hrd)) as [Pd1 _]; [congruence|].
  clear Ho1 Hin0.
  assert (forall x, _origin_city t <= x < _origin_city t + _n_cities t ->
            x ∈ tour_of segs1) as Hin1.
  { intros x Hx. apply (Rep_elem_of_tour _ _ _ HR1). by rewrite So1, Sc1. }
  destruct (sam_spec fuel t1 segs1 b HR1) as
    (t2 & segs2 & E2 & HR2 & Hs2 & Hn2 & Hp2 & Hc2 & Pb2 & Fb2 & Ho2);
    [by apply Hin1|lia|].
  pose proof Hs2 as (Sp2 & Sc2 & So2 & _).
  destruct (Ho2 a (Hin1 a Hra)) as [Pa2 Fa2]; [congruence|].
  destruct (Ho2 c (Hin1 c Hrc)) as [Pc2 _]; [congruence|].
  destruct (Ho2 d (Hin1 d Hrd)) as [Pd2 _]; [congruence|].
  specialize (Fa2 Fa1). clear Ho2 Hin1.
  assert (forall x, _origin_city t <= x < _origin_city t + _n_cities t ->
            x ∈ tour_of segs2) as Hin2.
  { intros x Hx. apply (Rep_elem_of_tour _ _ _ HR2). by rewrite So2, Sc2, So1, Sc1. }
  destruct (sam_spec fuel t2 segs2 c HR2) as
    (t3 & segs3 & E3 & HR3 & Hs3 & Hn3 & Hp3 & Hc3 & Pc3 & Fc3 & Ho3);
    [by apply Hin2|lia|].
  pose proof Hs3 as (Sp3 & Sc3 & So3 & _).
  destruct (Ho3 a (Hin2 a Hra)) as [Pa3 Fa3]; [congruence|].
  destruct (Ho3 b (Hin2 b Hrb)) as [Pb3 Fb3]; [congruence|].
  destruct (Ho3 d (Hin2 d Hrd)) as [Pd3 _]; [congruence|].
  specialize (Fa3 Fa2). specialize (Fb3 Fb2). clear Ho3 Hin2.
  assert (forall x, _origin_city t <= x < _origin_city t + _n_cities t ->
            x ∈ tour_of segs3) as Hin3.
  { intros x Hx. apply (Rep_elem_of_tour _ _ _ HR3).
    by rewrite So3, Sc3, So2, Sc2, So1, Sc1. }
  destruct (sam_spec fuel t3 segs3 d HR3) as
    (t4 & segs4 & E4 & HR4 & Hs4 & Hn4 & Hp4 & Hc4 & Pd4 & Fd4 & Ho4);
    [by apply Hin3|lia|].
  pose proof Hs4 as (Sp4 & Sc4 & So4 & _).
  destruct (Ho4 a (Hin3 a Hra)) as [Pa4 Fa4]; [congruence|].
  destruct (Ho4 b (Hin3 b Hrb)) as [Pb4 Fb4]; [congruence|].
  destruct (Ho4 c (Hin3 c Hrc)) as [Pc4 Fc4]; [congruence|].
  specialize (Fa4 Fa3). specialize (Fb4 Fb3). specialize (Fc4 Fc3). clear Ho4 Hin3.
  assert (forall y, get_next t4 y = get_next t y) as Hn by
    (intros y; by rewrite Hn4, Hn3, Hn2, Hn1).
  assert (forall y, get_prev t4 y = get_prev t y) as Hp by
    (intros y; by rewrite Hp4, Hp3, Hp2, Hp1).
  assert (forall y, city_of t4 y = city_of t y) as Hc by
    (intros y; by rewrite Hc4, Hc3, Hc2, Hc1).
  assert (same_shape t t4) as Hs.
  { destruct Hs1 as (? & ? & ? & ?), Hs2 as (? & ? & ? & ?), Hs3 as (? & ? & ? & ?),
      Hs4 as (? & ? & ? & ?). repeat split; congruence. }
  pose proof (tour_rep_views _ _ _ Htr Hs Hn Hp Hc) as Htr4.
  (* the four blocks *)
  destruct (double_bridge_blocks t4 segs4 a b c d L1 L2 L3 L4 HR4 Htr4 Fa4 Fb4 Fc4 Fd4)
    as (SA & SB & SC & SD & HRb & TA & TB & TC & TD).
  assert (exists an, head (tour_of SA) = Some an) as [an HhA]
    by (rewrite TA; destruct L1; simpl; eauto).
  assert (exists bn, head (tour_of SB) = Some bn) as [bn HhB]
    by (rewrite TB; destruct L2; simpl; eauto).
  assert (exists cn, head (tour_of SC) = Some cn) as [cn HhC]
    by (rewrite TC; destruct L3; simpl; eauto).
  assert (exists dn, head (tour_of SD) = Some dn) as [dn HhD]
    by (rewrite TD; destruct L4; simpl; eauto).
  assert (last (tour_of SA) = Some b) as HlA by (by rewrite TA, last_snoc).
  assert (last (tour_of SB) = Some c) as HlB by (by rewrite TB, last_snoc).
  assert (last (tour_of SC) = Some d) as HlC by (by rewrite TC, last_snoc).
  assert (last (tour_of SD) = Some a) as HlD by (by rewrite TD, last_snoc).
  pose proof (rep_link _ _ HRb) as Hlk. rewrite !tour_of_app in Hlk.
  destruct (cchain4_links _ _ _ _ _ _ _ _ _ _ _ _ _ Hlk HhA HlA HhB HlB HhC HlC HhD HlD)
    as ([Lb _] & [Lc _] & [Ld _] & [La _]).
  rewrite Hn in La, Lb, Lc, Ld.
  destruct (double_bridge_reconnect fuel t4 SA SB SC SD a b c d an bn cn dn HRb
              HhA HlA HhB HlB HhC HlC HhD HlD) as (t' & segs' & E & HR' & Hs' & Htr');
    [lia|].
  exists t'. split_and!.
  - unfold double_bridge_move. cbv zeta. rewrite E1. simpl. rewrite E2. simpl.
    rewrite E3. simpl. rewrite E4. simpl. rewrite La, Lb, Lc, Ld. exact E.
  - split; [|by exists segs'].
    destruct Hs as (_ & _ & ? & _), Hs' as (_ & _ & ? & _). lia.
  - destruct Hs as (? & ? & ? & ?), Hs' as (? & ? & ? & ?). repeat split; congruence.
  - rewrite TA, TB, TC, TD in Htr'.
    rewrite <-(app_assoc L4 [a]) in Htr'. apply tour_rep_rotate in Htr'.
    revert Htr'. by rewrite <-!app_assoc.
Qed.

Lemma tour_rep_next_head t X x Y h :
  tour_rep t (X ++ x :: Y) -> head (Y ++ X) = Some h -> get_next t x = h.
Proof.
  intros Htr%tour_rep_rotate Hh. simpl in Htr. destruct Htr as (Hc & _).
  destruct (Y ++ X) as [|h' Z]; [done|]. injection Hh as ->.
  rewrite cchain_cons in Hc. simpl in Hc. by destruct Hc as [[? _] _].
Qed.

Lemma head_app_default {A} (L : list A) x Y : head (L ++ x :: Y) = Some (default x (head L)).
Proof. by destruct L. Qed.

(** The successors of the four nodes on a tour [a L1 b L2 c L3 d L4]. *)
Lemma tour_rep_four_next t a b c d L1 L2 L3 L4 :
  tour_rep t (a :: L1 ++ b :: L2 ++ c :: L3 ++ d :: L4) ->
  get_next t a = default b (head L1) /\ get_next t b = default c (head L2) /\
  get_next t c = default d (head L3) /\ get_next t d = default a (head L4).
Proof.
  intros Htr. split_and!.
  - apply (tour_rep_next_head t [] a (L1 ++ b :: L2 ++ c :: L3 ++ d :: L4)); [done|].
    by rewrite app_nil_r, head_app_default.
  - apply (tour_rep_next_head t (a :: L1) b (L2 ++ c :: L3 ++ d :: L4)); [done|].
    by rewrite <-app_assoc, <-app_comm_cons, head_app_default.
  - apply (tour_rep_next_head t (a :: L1 ++ b :: L2) c (L3 ++ d :: L4)).
    + by replace ((a :: L1 ++ b :: L2) ++ c :: L3 ++ d :: L4)
        with (a :: L1 ++ b :: L2 ++ c :: L3 ++ d :: L4) by leq.
    + by rewrite <-app_assoc, <-app_comm_cons, head_app_default.
  - apply (tour_rep_next_head t (a :: L1 ++ b :: L2 ++ c :: L3) d L4).
    + by replace ((a :: L1 ++ b :: L2 ++ c :: L3) ++ d :: L4)
        with (a :: L1 ++ b :: L2 ++ c :: L3 ++ d :: L4) by leq.
    + by rewrite head_app_default.
Qed.

(** C4.  On a valid tree whose tour read forward from [a] is
    [a L1 b L2 c L3 d L4], with [a], [b], [c], [d] in pairwise different
    segments, [double_bridge_move a b c d] returns (for every fuel above the
    number of cities) a valid tree over the same cities whose tour read
    forward from [a] is [a L3 d L2 c L1 b L4]: the forward arcs from [a],
    [b], [c], [d] now lead to the former successors of [c], [d], [a], [b], and
    no longer to their own former successors.  On the 12-city tour of the
    test suite, [double_bridge_move 12 5 11 8] yields the raw tour
    [2 5 4 1 12 3 6 8 9 10 7 11] from city 2. *)
Theorem double_bridge_move_arcs :
  (forall fuel t a b c d L1 L2 L3 L4,
     valid t -> is_city_valid t a = true ->
     get_raw_tour t a forward = a :: L1 ++ b :: L2 ++ c :: L3 ++ d :: L4 ->
     NoDup [parent_of t a; parent_of t b; parent_of t c; parent_of t d] ->
     (Z.to_nat (_n_cities t) < fuel)%nat ->
     exists t', double_bridge_move fuel t a b c d = Some t' /\
       valid t' /\ same_shape t t' /\
       get_raw_tour t' a forward = a :: (L3 ++ [d]) ++ (L2 ++ [c]) ++ (L1 ++ [b]) ++ L4 /\
       get_next t' a = get_next t c /\ get_next t' b = get_next t d /\
       get_next t' c = get_next t a /\ get_next t' d = get_next t b /\
       get_next t' a <> get_next t a /\ get_next t' b <> get_next t b /\
       get_next t' c <> get_next t c /\ get_next t' d <> get_next t d) /\
  (fun t' => get_raw_tour t' 2 forward) <$> double_bridge_move 100 tree12 12 5 11 8
    = Some [2; 5; 4; 1; 12; 3; 6; 8; 9; 10; 7; 11].
Proof.
  split; [|vm_compute; reflexivity].
  intros fuel t a b c d L1 L2 L3 L4 Hv Ha Eraw Hpar Hf.
  destruct (double_bridge_spec fuel t a b c d L1 L2 L3 L4 Hv Ha Eraw Hpar Hf)
    as (t' & E & Hv' & Hs & Htr').
  pose proof (raw_tour_tour_rep t a _ Hv Ha Eraw) as Htr.
  destruct (tour_rep_four_next t a b c d L1 L2 L3 L4 Htr) as (Na & Nb & Nc & Nd).
  assert (tour_rep t' (a :: L3 ++ d :: L2 ++ c :: L1 ++ b :: L4)) as Htr2.
  { by replace (a :: L3 ++ d :: L2 ++ c :: L1 ++ b :: L4)
      with (a :: (L3 ++ [d]) ++ (L2 ++ [c]) ++ (L1 ++ [b]) ++ L4) by leq. }
  destruct (tour_rep_four_next t' a d c b L3 L2 L1 L4 Htr2) as (Na' & Nd' & Nc' & Nb').
  assert (forall x, x ∈ a :: L1 ++ b :: L2 ++ c :: L3 ++ d :: L4 -> is_city_valid t x = true)
    as Hval.
  { intros x Hx. apply is_city_valid_range. by apply (tour_rep_range _ _ _ Htr). }
  pose proof (Hval b ltac:(el)) as Hb. pose proof (Hval c ltac:(el)) as Hc.
  pose proof (Hval d ltac:(el)) as Hd.
  destruct (valid_neighbors t a Hv Ha) as (_ & _ & Ia & _).
  destruct (valid_neighbors t b Hv Hb) as (_ & _ & Ib & _).
  destruct (valid_neighbors t c Hv Hc) as (_ & _ & Ic & _).
  destruct (valid_neighbors t d Hv Hd) as (_ & _ & Id & _).
  assert (a <> c /\ b <> d) as [Hac Hbd].
  { revert Hpar. rewrite !NoDup_cons, !elem_of_cons. intros (H1 & H2 & _).
    split; intros ->; tauto. }
  exists t'. split_and!; try done.
  - destruct Hv' as [Ho _]. by apply get_raw_tour_forward.
  - congruence.
  - congruence.
  - congruence.
  - congruence.
  - rewrite Na', <-Nc. congruence.
  - rewrite Nb', <-Nd. congruence.
  - rewrite Nc', <-Na. congruence.
  - rewrite Nd', <-Nb. congruence.
Qed.

Lemma double_bridge_move_arcs_witness :
  exists t', double_bridge_move 100 tree12 12 5 11 8 = Some t' /\
    valid t' /\ same_shape tree12 t' /\
    get_raw_tour t' 12 forward = 12 :: ([3; 6] ++ [8]) ++ ([9; 10; 7] ++ [11]) ++ ([2] ++ [5]) ++ [4; 1] /\
    get_next t' 12 = get_next tree12 11 /\ get_next t' 5 = get_next tree12 8 /\
    get_next t' 11 = get_next tree12 12 /\ get_next t' 8 = get_next tree12 5 /\
    get_next t' 12 <> get_next tree12 12 /\ get_next t' 5 <> get_next tree12 5 /\
    get_next t' 11 <> get_next tree12 11 /\ get_next t' 8 <> get_next tree12 8.
Proof.
  apply (proj1 double_bridge_move_arcs 100%nat tree12 12 5 11 8 [2] [9; 10; 7] [3; 6] [4; 1]).
  - apply check_valid_sound. vm_compute. reflexivity.
  - vm_compute. reflexivity.
  - vm_compute. reflexivity.
  - apply (bool_decide_unpack _). vm_compute. exact I.
  - vm_compute. lia.
Defined.

(** * Every tree a client can build is valid *)

Lemma reverse_keeps_valid fuel t a b t' :
  valid t -> is_city_valid t a = true -> is_city_valid t b = true ->
  (Z.to_nat (_n_cities t) < fuel)%nat ->
  reverse fuel t a b = Some t' -> valid t' /\ same_shape t t'.
Proof.
  intros Hv Ha Hb Hf E.
  destruct (decide (a = b \/ get_next t b = a)) as [Hnop|Hgo].
  - rewrite reverse_nop in E by done. injection E as <-. split; [done|apply same_shape_refl].
  - destruct (reverse_valid fuel t a b Hv Ha Hb) as (t'' & _ & _ & E' & Hv' & Hs & _);
      [tauto|tauto|done|]. by simplify_eq.
Qed.

Lemma flip_keeps_valid fuel t a b c d t' :
  valid t -> is_city_valid t a = true -> is_city_valid t c = true ->
  (get_next t a = b /\ get_next t c = d) \/ (get_prev t a = b /\ get_prev t c = d) ->
  (Z.to_nat (_n_cities t) < fuel)%nat ->
  flip fuel t a b c d = Some t' -> valid t' /\ same_shape t t'.
Proof.
  intros Hv Ha Hc Hadj Hf E.
  destruct (valid_neighbors t a Hv Ha) as (Hna & Hpa & _).
  destruct (valid_neighbors t c Hv Hc) as (Hnc & Hpc & _).
  assert (is_city_valid t b = true /\ is_city_valid t d = true) as [Hb Hd].
  { destruct Hadj as [[<- <-]|[<- <-]]; done. }
  unfold flip in E. cbv zeta in E.
  destruct (_ || _); [injection E as <-; split; [done|apply same_shape_refl]|].
  destruct (is_approximately_shorter t b c d a), (bool_decide (get_next t a = b));
    (eapply reverse_keeps_valid; [exact Hv| | |exact Hf|exact E]; done).
Qed.

(** Outside the range of the cities the arena only holds default nodes:
    [set_raw_tour] does not write them, and no mutator changes a [city]
    field. *)
Lemma default_arena_lookup {A} (d : A) len x : default d (default_arena d len !! x) = d.
Proof.
  unfold default_arena. destruct (list_to_map _ !! x) as [v|] eqn:E; [|done].
  apply elem_of_list_to_map_2 in E. apply list_elem_of_fmap in E as (i & [= _ ->] & _). done.
Qed.

Lemma set_raw_tour_frame (t : TwoLevelTree) order x :
  NoDup order -> Z.of_nat (length order) = _n_cities t ->
  2 <= _n_parents t -> _n_parents t <= _n_cities t ->
  x ∉ order -> nd (set_raw_tour t order) x = nd t x.
Proof.
  intros Hnd Hlen Hnp Hn Hx. unfold set_raw_tour.
  pose proof (for_loop_inv (fun k (s : TwoLevelTree) => same_shape t s /\ nd s x = nd t x)
    (Z.to_nat (n_segments t)) 0
    (set_raw_tour_segment order (n_segments t) (Z.quot (_n_cities t) (n_segments t))
       (at_ order 0) (at_ order (Z.of_nat (length order) - 1))) t) as Hloop.
  unfold n_segments in *. rewrite Z.add_0_l, Z2Nat.id in Hloop by lia.
  apply Hloop.
  - split; [apply same_shape_refl|done].
  - intros k s Hk (Hsh & Hnx). pose proof Hsh as (E1 & E2 & E3 & E4).
    pose proof (set_raw_tour_segment_spec order k s) as Hseg. cbv zeta in Hseg.
    unfold n_segments in Hseg. rewrite E1, E2 in Hseg.
    destruct Hseg as (Hsh' & _ & _ & _ & Hfr); [done|done|done|done|lia|].
    split.
    + destruct Hsh' as (? & ? & ? & ?). repeat split; congruence.
    + rewrite Hfr; [done|]. intros i Hi ->. apply Hx. apply at_elem_of.
      destruct (raw_shape t s order k i Hsh) as (Eb & Ee & _).
      destruct (raw_begin_end t k Hnp Hn) as (? & ? & ? & _); [lia|]. lia.
Qed.

Lemma reachable_outside t x :
  reachable t -> is_city_valid t x = false -> city_of t x = -1.
Proof.
  induction 1 as [n origin order Hn Ho Hperm|t t' Hr IH Hm]; intros Hx.
  - pose proof (new_tree_parents n origin Hn) as [H1 H2].
    assert (NoDup order) as Hnd by (rewrite Hperm; apply NoDup_seqZ).
    assert (Z.of_nat (length order) = n) as Hlen by (rewrite Hperm, length_seqZ; lia).
    destruct (set_raw_tour_state (new_tree n origin) order Hnd Hlen H1 H2) as (Hsh & _).
    rewrite (is_city_valid_shape_eq _ _ x Hsh) in Hx.
    rewrite set_raw_tour_frame; [|done..|].
    + unfold nd. simpl. by rewrite default_arena_lookup.
    + rewrite Hperm, elem_of_seqZ. intros Hin.
      assert (is_city_valid (new_tree n origin) x = true); [|congruence].
      apply is_city_valid_range. simpl. lia.
  - destruct (mutation_keeps_cities _ _ Hm) as [Hsh Hcity].
    rewrite Hcity. apply IH. by rewrite <-(is_city_valid_shape_eq _ _ x Hsh).
Qed.

(** The start of a raw tour is a city of the tree. *)
Lemma raw_tour_start_valid t a L :
  valid t -> (forall x, is_city_valid t x = false -> city_of t x = -1) ->
  get_raw_tour t a forward = a :: L -> is_city_valid t a = true.
Proof.
  intros [Ho [segs HR]] Hout E. unfold get_raw_tour, get_node in E.
  pose proof (Rep_parents_le _ _ HR) as Hle. pose proof (rep_n_parents _ _ HR) as Hnp.
  destruct (Z.to_nat (_n_cities t)) as [|k] eqn:Ek; [lia|]. simpl in E.
  injection E as E _.
  case_bool_decide as Ha.
  - exfalso.
    assert (is_city_valid t (_origin_city t) = true) as Hv by (apply is_city_valid_range; lia).
    pose proof (Rep_valid_node _ _ _ HR Hv) as Hin.
    pose proof (rep_city _ _ HR) as Hc. rewrite Forall_forall in Hc.
    rewrite (Hc _ Hin) in E. lia.
  - destruct (is_city_valid t a) eqn:Hv; [done|]. rewrite (Hout a Hv) in E. lia.
Qed.

Lemma mutation_valid t t' :
  valid t -> (forall x, is_city_valid t x = false -> city_of t x = -1) ->
  mutation t t' -> valid t' /\ same_shape t t'.
Proof.
  intros Hv Hout [fuel a b Ha Hb Hf E|fuel a b c d Ha Hc Hadj _ Hf E
            |fuel a b c d L1 L2 L3 L4 Eraw Hpar Hf E|fuel s i d Hs Hk Hf E].
  - exact (reverse_keeps_valid fuel t a b t' Hv Ha Hb Hf E).
  - exact (flip_keeps_valid fuel t a b c d t' Hv Ha Hc Hadj Hf E).
  - pose proof (raw_tour_start_valid t a _ Hv Hout Eraw) as Ha.
    destruct (double_bridge_spec fuel t a b c d L1 L2 L3 L4 Hv Ha Eraw Hpar Hf)
      as (t'' & E' & Hv' & Hs & _). by simplify_eq.
  - destruct (split_and_merge_valid fuel t s i d Hv Hs Hk Hf) as (t'' & E' & Hv' & Hs' & _).
    by simplify_eq.
Qed.

Lemma reachable_valid t : reachable t -> valid t.
Proof.
  induction 1 as [n origin order Hn Ho Hperm|t t' Hr IH Hm].
  - by apply set_raw_tour_valid.
  - by destruct (mutation_valid t t' IH (fun x => reachable_outside t x Hr) Hm).
Qed.

Lemma tree14_reachable : reachable tree14.
Proof.
  apply reachable_init; [lia|lia|]. apply (bool_decide_unpack _). vm_compute. exact I.
Qed.

(** C1.  On every tree built by [set_raw_tour] from a permutation of the
    cities and any sequence of public mutations, for all nodes [a] and [b],
    [reverse] returns (for every fuel above the number of cities) a tree that
    is again such a tree, and valid.  It returns the tree unchanged when
    [a = b] or [get_next b = a].  Otherwise, if the raw tour read forward
    from [a] is the path from [a] to [b] followed by the other cities, the
    raw tour of the result read forward from [b] is that path reversed,
    followed by the other cities in the same order. *)
Theorem reverse_reverses_path fuel t a b :
  reachable t -> is_city_valid t a = true -> is_city_valid t b = true ->
  (Z.to_nat (_n_cities t) < fuel)%nat ->
  exists t', reverse fuel t a b = Some t' /\ reachable t' /\ valid t' /\
    (a = b \/ get_next t b = a -> t' = t) /\
    (a <> b -> get_next t b <> a ->
     forall path rest,
       get_raw_tour t a forward = path ++ rest -> last path = Some b ->
       get_raw_tour t' b forward = lrev path ++ rest).
Proof.
  intros Hr Ha Hb Hf. pose proof (reachable_valid t Hr) as Hv.
  destruct (reverse_path_valid fuel t a b Hv Ha Hb Hf) as (t' & E & Hv' & Hnop & Hrev).
  exists t'. split_and!; try done.
  apply (reachable_step t t' Hr). by apply (mutation_reverse t t' fuel a b).
Qed.

Lemma reverse_reverses_path_witness :
  exists t', reverse 100 tree14 8 1 = Some t' /\ reachable t' /\ valid t' /\
    (8 = 1 \/ get_next tree14 1 = 8 -> t' = tree14) /\
    (8 <> 1 -> get_next tree14 1 <> 8 ->
     forall path rest,
       get_raw_tour tree14 8 forward = path ++ rest -> last path = Some 1 ->
       get_raw_tour t' 1 forward = lrev path ++ rest).
Proof.
  apply (reverse_reverses_path 100 tree14 8 1).
  - apply reachable_init; [lia|lia|]. apply (bool_decide_unpack _). vm_compute. exact I.
  - vm_compute. reflexivity.
  - vm_compute. reflexivity.
  - vm_compute. lia.
Defined.

(** * The ring of parents *)

Lemma cchain_neighbors {A} (R : A -> A -> Prop) (l : list A) x :
  cchain R l -> x ∈ l -> exists y z, y ∈ l /\ z ∈ l /\ R x y /\ R z x.
Proof.
  intros Hc (l1 & l2 & ->)%list_elem_of_split.
  apply (cchain_rotate _ l1 (x :: l2)) in Hc. simpl in Hc.
  pose proof (cchain_chain _ _ Hc) as Hch.
  destruct (l2 ++ l1) as [|y l'] eqn:E.
  - apply app_eq_nil in E as [-> ->]. exists x, x.
    rewrite cchain_cons in Hc. simpl in Hc. destruct Hc as [Hxx _].
    split_and!; try done; el.
  - assert (forall u, u ∈ y :: l' -> u ∈ l1 ++ x :: l2) as Hin.
    { intros u. rewrite <-E. el. }
    destruct (list_snoc_inv (y :: l')) as (l'' & z & E'); [done|].
    exists y, z. split_and!.
    + apply Hin. el.
    + apply Hin. rewrite E'. el.
    + by apply chain_cons in Hch as [? _].
    + eapply cchain_wrap; [exact Hc|done|]. rewrite E', app_comm_cons. apply last_snoc.
Qed.

Lemma parent_walk_chain t l : forall p,
  chain (fun u v => pnext_of t u = v) (p :: l) ->
  parent_walk t (S (length l)) p = p :: l.
Proof.
  induction l as [|q l IH]; intros p Hc; [done|].
  apply chain_cons in Hc as [Hpq Hc].
  change (parent_walk t (S (length (q :: l))) p)
    with (p :: parent_walk t (S (length l)) (pnext_of t p)).
  rewrite Hpq. f_equal. by apply IH.
Qed.

Lemma rotation_perm c n :
  0 <= c < n -> (fun i => (c + i) mod n) <$> seqZ 0 n ≡ₚ seqZ 0 n.
Proof.
  intros Hc.
  assert (seqZ 0 n = seqZ 0 (n - c) ++ seqZ (0 + (n - c)) c) as E1.
  { rewrite <-seqZ_app by lia. f_equal. lia. }
  assert (seqZ 0 n = seqZ 0 c ++ seqZ (0 + c) (n - c)) as E2.
  { rewrite <-seqZ_app by lia. f_equal. lia. }
  rewrite E1 at 1. rewrite E2. rewrite fmap_app, !Z.add_0_l.
  rewrite (list_fmap_ext _ (Z.add c) (seqZ 0 (n - c))).
  2:{ intros i x Hx%list_elem_of_lookup_2%elem_of_seqZ. apply Z.mod_small. lia. }
  rewrite (list_fmap_ext _ (Z.add (c - n)) (seqZ (n - c) c)).
  2:{ intros i x Hx%list_elem_of_lookup_2%elem_of_seqZ. symmetry.
      apply (Z.mod_unique_pos _ _ 1); lia. }
  rewrite !fmap_add_seqZ. replace (c - n + (n - c)) with 0 by lia. rewrite Z.add_0_r.
  apply Permutation_app_comm.
Qed.

Lemma Rep_pid_perm t segs :
  Rep t segs ->
  (fun p => pid_of t p) <$> seqZ 0 (_n_parents t) ≡ₚ seqZ 0 (_n_parents t).
Proof.
  intros HR. pose proof (rep_parents _ _ HR) as Hperm.
  pose proof (rep_n_parents _ _ HR) as Hnp.
  rewrite <-Hperm at 1.
  destruct (parents_of segs) as [|h L] eqn:EL.
  { apply Permutation_length in Hperm. rewrite length_seqZ in Hperm. simpl in Hperm. lia. }
  pose proof (rep_plink _ _ HR) as Hpl. rewrite EL, cchain_cons in Hpl.
  rewrite app_comm_cons in Hpl. apply chain_app_l in Hpl.
  pose proof (rep_pid _ _ HR) as Hpid. rewrite EL in Hpid.
  assert (0 <= pid_of t h < _n_parents t) as Hh by (by apply Forall_cons in Hpid as [? _]).
  assert (length (h :: L) = Z.to_nat (_n_parents t)) as Hlen
    by (by rewrite Hperm, length_seqZ).
  assert ((fun p => pid_of t p) <$> h :: L
          = (fun i => (pid_of t h + i) mod _n_parents t) <$> seqZ 0 (_n_parents t)) as ->.
  { apply list_eq. intros i. rewrite !list_lookup_fmap.
    destruct (decide (i < length (h :: L))%nat) as [Hi|Hi].
    - destruct (lookup_lt_is_Some_2 (h :: L) i Hi) as [x Hx]. rewrite Hx.
      rewrite lookup_seqZ_lt by lia. simpl. f_equal.
      destruct (chain_rem_offset (fun p => pid_of t p) (_n_parents t) (h :: L) h i x)
        as [E|[-> E]]; [|done|lia|lia|done|done|].
      + eapply chain_mono; [|exact Hpl]. by intros u v (_ & _ & ?).
      + simpl in Hx. injection Hx as <-. rewrite ?Z.add_0_r, ?Z.add_0_l.
        symmetry. apply Z.mod_small. lia.
    - rewrite lookup_ge_None_2 by lia. rewrite lookup_seqZ_ge by lia. done. }
  by apply rotation_perm.
Qed.

Lemma Rep_parent_ring t segs p :
  Rep t segs -> 0 <= p < _n_parents t ->
  0 <= pnext_of t p < _n_parents t /\ 0 <= pprev_of t p < _n_parents t /\
  pprev_of t (pnext_of t p) = p /\ pnext_of t (pprev_of t p) = p /\
  pid_of t (pnext_of t p) = Z.rem (pid_of t p + 1) (_n_parents t) /\
  0 <= pid_of t p < _n_parents t.
Proof.
  intros HR Hp. pose proof (rep_parents _ _ HR) as Hperm.
  assert (forall q, q ∈ parents_of segs <-> 0 <= q < _n_parents t) as Hin.
  { intros q. rewrite Hperm, elem_of_seqZ. lia. }
  destruct (cchain_neighbors _ _ p (rep_plink _ _ HR)) as (y & z & Hy & Hz & Hpy & Hzp);
    [by apply Hin|].
  destruct Hpy as (E1 & E2 & E3). destruct Hzp as (E4 & E5 & _).
  pose proof (rep_pid _ _ HR) as Hpid. rewrite Forall_forall in Hpid.
  rewrite E1, E2, E5, E4. apply Hin in Hy, Hz.
  pose proof (Hpid p (proj2 (Hin p) Hp)) as Hpp.
  split_and!; try done; lia.
Qed.

Lemma Rep_parent_walk t segs :
  Rep t segs ->
  parent_walk t (Z.to_nat (_n_parents t)) (head_parent_node t) ≡ₚ seqZ 0 (_n_parents t).
Proof.
  intros HR. pose proof (rep_parents _ _ HR) as Hperm.
  pose proof (rep_n_parents _ _ HR) as Hnp. unfold head_parent_node.
  assert (0 ∈ parents_of segs) as H0 by (rewrite Hperm; apply elem_of_seqZ; lia).
  apply list_elem_of_split in H0 as (L1 & L2 & EL).
  pose proof (rep_plink _ _ HR) as Hpl. rewrite EL in Hpl.
  apply (cchain_rotate _ L1 (0 :: L2)) in Hpl. simpl in Hpl.
  rewrite cchain_cons, app_comm_cons in Hpl. apply chain_app_l in Hpl.
  assert (0 :: L2 ++ L1 ≡ₚ seqZ 0 (_n_parents t)) as Hp'.
  { rewrite <-Hperm, EL. by rewrite (Permutation_app_comm L1). }
  assert (Z.to_nat (_n_parents t) = S (length (L2 ++ L1))) as ->.
  { apply Permutation_length in Hp'. rewrite length_seqZ in Hp'. simpl in Hp'. lia. }
  rewrite (parent_walk_chain t (L2 ++ L1) 0); [done|].
  eapply chain_mono; [|exact Hpl]. by intros u v (? & _).
Qed.

(** C7.  On every tree built by [set_raw_tour] and any sequence of public
    mutations, with [P] the number of parents: every parent [p] has its
    [next] and [prev] among the parents, [p.next.prev = p], [p.prev.next = p]
    and [p.next.id = (p.id + 1) mod P]; the IDs of the parents are a
    permutation of [0, ..., P - 1]; the walk along [next] from the head
    parent visits every parent exactly once in [P] steps; and each mutation
    keeps [P] and leads to such a tree again. *)
Theorem parent_ids_cyclic t :
  reachable t ->
  (forall p, 0 <= p < _n_parents t ->
     0 <= pnext_of t p < _n_parents t /\ 0 <= pprev_of t p < _n_parents t /\
     pprev_of t (pnext_of t p) = p /\ pnext_of t (pprev_of t p) = p /\
     pid_of t (pnext_of t p) = (pid_of t p + 1) mod _n_parents t /\
     pid_of t (pnext_of t p) = Z.rem (pid_of t p + 1) (_n_parents t)) /\
  (fun p => pid_of t p) <$> seqZ 0 (_n_parents t) ≡ₚ seqZ 0 (_n_parents t) /\
  parent_walk t (Z.to_nat (_n_parents t)) (head_parent_node t) ≡ₚ seqZ 0 (_n_parents t) /\
  (forall t', mutation t t' -> _n_parents t' = _n_parents t /\ reachable t').
Proof.
  intros Hr. pose proof (reachable_valid t Hr) as Hv. pose proof Hv as [_ [segs HR]].
  split_and!.
  - intros p Hp.
    destruct (Rep_parent_ring t segs p HR Hp) as (H1 & H2 & H3 & H4 & H5 & H6).
    assert (pid_of t (pnext_of t p) = (pid_of t p + 1) mod _n_parents t) as H7.
    { rewrite H5. apply Z.rem_mod_nonneg; lia. }
    split_and!; try done; lia.
  - by apply (Rep_pid_perm t segs).
  - by apply (Rep_parent_walk t segs).
  - intros t' Hm.
    destruct (mutation_valid t t' Hv (fun x => reachable_outside t x Hr) Hm) as [_ (E & _)].
    split; [done|]. by apply (reachable_step t t').
Qed.

Lemma parent_ids_cyclic_witness :
  (forall p, 0 <= p < _n_parents tree23 ->
     0 <= pnext_of tree23 p < _n_parents tree23 /\
     0 <= pprev_of tree23 p < _n_parents tree23 /\
     pprev_of tree23 (pnext_of tree23 p) = p /\ pnext_of tree23 (pprev_of tree23 p) = p /\
     pid_of tree23 (pnext_of tree23 p) = (pid_of tree23 p + 1) mod _n_parents tree23 /\
     pid_of tree23 (pnext_of tree23 p) = Z.rem (pid_of tree23 p + 1) (_n_parents tree23)) /\
  (fun p => pid_of tree23 p) <$> seqZ 0 (_n_parents tree23) ≡ₚ seqZ 0 (_n_parents tree23) /\
  parent_walk tree23 (Z.to_nat (_n_parents tree23)) (head_parent_node tree23)
    ≡ₚ seqZ 0 (_n_parents tree23) /\
  (forall t', mutation tree23 t' -> _n_parents t' = _n_parents tree23 /\ reachable t').
Proof.
  apply (parent_ids_cyclic tree23).
  apply reachable_init; [lia|lia|]. apply (bool_decide_unpack _). vm_compute. exact I.
Defined.

(** * Local IDs within a segment *)

Lemma Rep_segment_ids t p l1 x l2 R :
  Rep t ((p, l1 ++ x :: l2) :: R) ->
  parent_of t x = p /\ parent_of t (fbegin_of t p) = p /\ parent_of t (fend_of t p) = p /\
  lid t x = lid t (fbegin_of t p) + Z.of_nat (length l1) /\
  lid t (fend_of t p) = lid t x + Z.of_nat (length l2) /\
  size_of t p = Z.of_nat (length l1) + 1 + Z.of_nat (length l2) /\
  (forall y, head l2 = Some y ->
     get_next t x = y /\ parent_of t y = p /\ lid t y = lid t x + 1) /\
  (forall y, y ∈ l1 ++ x :: l2 -> lid t y = lid t x -> y = x).
Proof.
  intros HR. pose proof (rep_segs _ _ HR) as Hok. apply Forall_cons in Hok as [Hs _].
  destruct Hs as (Hsize & Hhead & Hlast & Hpar & Hch). simpl in *.
  rewrite Forall_forall in Hpar.
  assert ((l1 ++ x :: l2) !! length l1 = Some x) as Hlx by apply list_lookup_middle, eq_refl.
  pose proof (chain_offset (lid t) _ _ _ _ Hch Hhead Hlx) as Ex.
  pose proof (chain_offset_last (lid t) _ _ _ Hch Hhead Hlast) as Ee.
  rewrite length_app in Ee, Hsize. simpl in Ee, Hsize.
  split_and!.
  - apply Hpar. el.
  - apply Hpar. by apply head_Some_elem_of.
  - apply Hpar. by apply last_Some_elem_of.
  - done.
  - lia.
  - lia.
  - intros y Hy. destruct l2 as [|y' l2]; [done|]. injection Hy as ->.
    split_and!.
    + pose proof (rep_link _ _ HR) as Hlk. apply cchain_chain in Hlk.
      rewrite tour_of_cons in Hlk. apply chain_app_l in Hlk.
      by apply chain_elem in Hlk as [? _].
    + apply Hpar. el.
    + by apply chain_elem in Hch.
  - intros y Hy Hlid. apply list_elem_of_lookup in Hy as [i Hi].
    pose proof (chain_offset (lid t) _ _ _ _ Hch Hhead Hi) as Ey.
    assert (i = length l1) as -> by lia. congruence.
Qed.

(** C6 (amended).  On every tree built by [set_raw_tour] and any sequence
    of public mutations, within the segment of a node [x] with parent [p]:
    the local IDs are distinct; stepping to the logical successor inside the
    segment changes the ID by exactly one, upwards when the parent's reverse
    bit is clear and downwards when it is set; accordingly the IDs of the
    segment lie between those of the logical-forward begin and end nodes,
    the begin node holding the minimum when the reverse bit is clear and the
    maximum when it is set; and the two end IDs are [size - 1] apart, so the
    IDs are contiguous. *)
Theorem local_ids_contiguous t x :
  reachable t -> is_city_valid t x = true ->
  let p := parent_of t x in
  0 <= p < _n_parents t /\
  parent_of t (fbegin_of t p) = p /\ parent_of t (fend_of t p) = p /\
  (x <> fend_of t p ->
     parent_of t (get_next t x) = p /\
     id_of t (get_next t x) = id_of t x + (if rev_of t p then -1 else 1)) /\
  (if rev_of t p
   then id_of t (fend_of t p) <= id_of t x <= id_of t (fbegin_of t p)
   else id_of t (fbegin_of t p) <= id_of t x <= id_of t (fend_of t p)) /\
  Z.abs (id_of t (fend_of t p) - id_of t (fbegin_of t p)) + 1 = size_of t p /\
  (forall y, is_city_valid t y = true -> parent_of t y = p -> id_of t y = id_of t x ->
     y = x).
Proof.
  intros Hr Hx p. pose proof (reachable_valid t Hr) as [_ [segs HR]].
  pose proof (Rep_valid_node _ _ _ HR Hx) as Hin.
  destruct (Rep_locate _ _ _ HR Hin) as (l1 & l2 & q & l3 & R0 & HR0). fold p in HR0.
  destruct (Rep_segment_ids t p l1 x l2 _ HR0)
    as (Hpx & Hpb & Hpe & Eb & Ee & Esz & Hnext & Huniq).
  pose proof (lid_of_parent t x p Hpx) as Lx.
  pose proof (lid_of_parent t _ p Hpb) as Lb.
  pose proof (lid_of_parent t _ p Hpe) as Le.
  assert (0 <= p < _n_parents t) as Hrange.
  { pose proof (rep_parents _ _ HR0) as Hperm.
    assert (p ∈ parents_of ((p, l1 ++ x :: l2) :: (q, l3) :: R0)) as Hp
      by (rewrite parents_of_cons; el).
    rewrite Hperm in Hp. apply elem_of_seqZ in Hp. lia. }
  split_and!; [lia|lia|done|done|..].
  - intros Hne. destruct l2 as [|y l2].
    + exfalso. apply Hne. simpl in Ee.
      symmetry. apply Huniq; [|lia].
      destruct (Rep_seg_ends _ _ p (l1 ++ [x]) HR0) as (_ & _ & _ & ? & _); [el|done].
    + destruct (Hnext y eq_refl) as (-> & Hpy & Ly). split; [done|].
      rewrite (lid_of_parent t y p Hpy) in Ly. destruct (rev_of t p); lia.
  - destruct (rev_of t p); lia.
  - destruct (rev_of t p); lia.
  - intros y Hy Hpy Hid.
    pose proof (Rep_valid_node _ _ _ HR0 Hy) as Hyin.
    rewrite tour_of_cons in Hyin. apply elem_of_app in Hyin as [Hyin|Hyin].
    + apply Huniq; [done|]. rewrite (lid_of_parent t y p Hpy), Lx. by rewrite Hid.
    + by destruct (Rep_rest_elem _ _ _ _ _ HR0 Hyin).
Qed.

Lemma local_ids_contiguous_witness :
  let p := parent_of tree14 4 in
  0 <= p < _n_parents tree14 /\
  parent_of tree14 (fbegin_of tree14 p) = p /\ parent_of tree14 (fend_of tree14 p) = p /\
  (4 <> fend_of tree14 p ->
     parent_of tree14 (get_next tree14 4) = p /\
     id_of tree14 (get_next tree14 4) = id_of tree14 4 + (if rev_of tree14 p then -1 else 1)) /\
  (if rev_of tree14 p
   then id_of tree14 (fend_of tree14 p) <= id_of tree14 4 <= id_of tree14 (fbegin_of tree14 p)
   else id_of tree14 (fbegin_of tree14 p) <= id_of tree14 4 <= id_of tree14 (fend_of tree14 p)) /\
  Z.abs (id_of tree14 (fend_of tree14 p) - id_of tree14 (fbegin_of tree14 p)) + 1
    = size_of tree14 p /\
  (forall y, is_city_valid tree14 y = true -> parent_of tree14 y = p ->
     id_of tree14 y = id_of tree14 4 -> y = 4).
Proof.
  apply (local_ids_contiguous tree14 4).
  - apply reachable_init; [lia|lia|]. apply (bool_decide_unpack _). vm_compute. exact I.
  - vm_compute. reflexivity.
Defined.

(** C6, counterexample: the IDs need not increase along the
    logical-forward traversal.  After [reverse 8 1] on the
    14-city tree of the test suite the segment [8 4 1] is read backwards:
    the logical successor of [1] is [4], in the same segment, and the local
    ID goes down from 2 to 1. *)
Lemma local_ids_counterexample :
  ~ (forall t x, reachable t -> is_city_valid t x = true ->
       parent_of t (get_next t x) = parent_of t x ->
       id_of t x < id_of t (get_next t x)).
Proof.
  intros H.
  assert (exists t', reverse 100 tree14 8 1 = Some t' /\ is_city_valid t' 1 = true /\
            parent_of t' (get_next t' 1) = parent_of t' 1 /\
            id_of t' (get_next t' 1) < id_of t' 1) as (t' & E & Hv & Hp & Hid).
  { vm_compute. eexists. split; [reflexivity|]. by vm_compute. }
  assert (reachable t') as Hr.
  { apply (reachable_step tree14 t' tree14_reachable).
    apply (mutation_reverse tree14 t' 100 8 1); [by vm_compute..| |done]. vm_compute. lia. }
  specialize (H t' 1 Hr Hv Hp). lia.
Qed.

(** * The order query [is_between] *)

(** [is_between] in terms of the logical-forward IDs. *)
Lemma is_between_lid t a b c :
  is_between t a b c =
  if bool_decide (parent_of t a = parent_of t b) && bool_decide (parent_of t b = parent_of t c)
  then
    if bool_decide (lid t a < lid t c)
    then bool_decide (lid t a < lid t b) && bool_decide (lid t b < lid t c)
    else bool_decide (lid t a < lid t b) || bool_decide (lid t b < lid t c)
  else if bool_decide (parent_of t a <> parent_of t b)
          && bool_decide (parent_of t a <> parent_of t c)
          && bool_decide (parent_of t b <> parent_of t c)
  then
    if bool_decide (pid_of t (parent_of t c) > pid_of t (parent_of t a))
    then bool_decide (pid_of t (parent_of t b) > pid_of t (parent_of t a))
         && bool_decide (pid_of t (parent_of t b) < pid_of t (parent_of t c))
    else bool_decide (pid_of t (parent_of t b) > pid_of t (parent_of t a))
         || bool_decide (pid_of t (parent_of t b) < pid_of t (parent_of t c))
  else if bool_decide (parent_of t a = parent_of t b) then bool_decide (lid t a < lid t b)
  else if bool_decide (parent_of t b = parent_of t c) then bool_decide (lid t b < lid t c)
  else negb (bool_decide (lid t a < lid t c)).
Proof.
  unfold is_between. cbv zeta.
  destruct (bool_decide (parent_of t a = parent_of t b)) eqn:Eab;
    destruct (bool_decide (parent_of t b = parent_of t c)) eqn:Ebc; cbn [andb].
  - apply bool_decide_eq_true_1 in Eab, Ebc. unfold lid. rewrite <-Ebc, <-Eab.
    destruct (rev_of t (parent_of t a)).
    + rewrite (bool_decide_ext (- id_of t a < - id_of t c) (id_of t c < id_of t a)) by lia.
      rewrite (bool_decide_ext (- id_of t a < - id_of t b) (id_of t b < id_of t a)) by lia.
      rewrite (bool_decide_ext (- id_of t b < - id_of t c) (id_of t b > id_of t c)) by lia.
      done.
    + rewrite (bool_decide_ext (id_of t a < id_of t c) (id_of t c > id_of t a)) by lia.
      rewrite (bool_decide_ext (id_of t a < id_of t b) (id_of t b > id_of t a)) by lia.
      done.
  - apply bool_decide_eq_true_1 in Eab. apply bool_decide_eq_false_1 in Ebc.
    rewrite (bool_decide_eq_false_2 (parent_of t a <> parent_of t b)) by tauto.
    cbn [andb]. unfold lid. rewrite <-Eab.
    destruct (rev_of t (parent_of t a)); [|done].
    apply bool_decide_ext. lia.
  - apply bool_decide_eq_true_1 in Ebc. apply bool_decide_eq_false_1 in Eab.
    rewrite (bool_decide_eq_false_2 (parent_of t b <> parent_of t c)) by tauto.
    rewrite andb_false_r. unfold lid. rewrite <-Ebc.
    destruct (rev_of t (parent_of t b)); [|done].
    apply bool_decide_ext. lia.
  - apply bool_decide_eq_false_1 in Ebc, Eab.
    rewrite (bool_decide_eq_true_2 (parent_of t a <> parent_of t b)) by done.
    rewrite (bool_decide_eq_true_2 (parent_of t b <> parent_of t c)) by done.
    rewrite andb_true_r. cbn [andb].
    destruct (bool_decide (parent_of t a <> parent_of t c)) eqn:Eac; [done|].
    apply bool_decide_eq_false_1 in Eac.
    assert (parent_of t a = parent_of t c) as Eac'.
    { destruct (decide (parent_of t a = parent_of t c)); tauto. }
    unfold lid. rewrite <-Eac'.
    destruct (rev_of t (parent_of t a)); [|done].
    f_equal. apply bool_decide_ext. lia.
Qed.

Lemma before_app {A} (X Y : list A) b c : b ∈ X -> c ∈ Y -> before (X ++ Y) b c.
Proof.
  intros (u & v & ->)%list_elem_of_split (w & z & ->)%list_elem_of_split.
  exists u, (v ++ w), z. by rewrite <-!app_assoc.
Qed.

Lemma before_embed {A} (X l Y : list A) b c : before l b c -> before (X ++ l ++ Y) b c.
Proof.
  intros (L1 & L2 & L3 & ->). exists (X ++ L1), L2, (L3 ++ Y).
  rewrite <-!app_assoc. simpl. by rewrite <-!app_assoc.
Qed.

Lemma before_asym {A} (T : list A) b c : NoDup T -> before T b c -> before T c b -> False.
Proof.
  intros Hnd (L1 & L2 & L3 & E1) (M1 & M2 & M3 & E2).
  assert (T !! length L1 = Some b) as Hb1 by (rewrite E1; apply list_lookup_middle, eq_refl).
  assert (T !! length (L1 ++ b :: L2) = Some c) as Hc1.
  { rewrite E1. replace (L1 ++ b :: L2 ++ c :: L3) with ((L1 ++ b :: L2) ++ c :: L3) by leq.
    apply list_lookup_middle, eq_refl. }
  assert (T !! length M1 = Some c) as Hc2 by (rewrite E2; apply list_lookup_middle, eq_refl).
  assert (T !! length (M1 ++ c :: M2) = Some b) as Hb2.
  { rewrite E2. replace (M1 ++ c :: M2 ++ b :: M3) with ((M1 ++ c :: M2) ++ b :: M3) by leq.
    apply list_lookup_middle, eq_refl. }
  pose proof (NoDup_lookup _ _ _ _ Hnd Hb1 Hb2) as Eb.
  pose proof (NoDup_lookup _ _ _ _ Hnd Hc1 Hc2) as Ec.
  rewrite !length_app in Eb, Ec. simpl in Eb, Ec. lia.
Qed.

Lemma before_total {A} (T : list A) b c :
  b ∈ T -> c ∈ T -> b <> c -> before T b c \/ before T c b.
Proof.
  intros (u & v & ->)%list_elem_of_split Hc Hbc.
  rewrite elem_of_app, elem_of_cons in Hc. destruct Hc as [Hc|[->|Hc]]; [|done|].
  - right. apply list_elem_of_split in Hc as (w & z & ->).
    exists w, z, v. by rewrite <-!app_assoc.
  - left. apply list_elem_of_split in Hc as (w & z & ->). by exists u, w, z.
Qed.

(** Inside a segment the order is the order of the logical-forward IDs. *)
Lemma before_lid (f : Z -> Z) (l : list Z) b c :
  chain (fun x y => f y = f x + 1) l -> b ∈ l -> c ∈ l -> b <> c ->
  (f b < f c /\ before l b c) \/ (f c < f b /\ before l c b).
Proof.
  intros Hch Hb Hc Hbc.
  destruct (before_total l b c Hb Hc Hbc) as [H|H]; [left|right]; (split; [|done]).
  - destruct H as (L1 & L2 & L3 & ->).
    apply (chain_offset_lt f (L1 ++ b :: L2) (c :: L3)); [|el|el].
    by rewrite <-app_assoc.
  - destruct H as (L1 & L2 & L3 & ->).
    apply (chain_offset_lt f (L1 ++ c :: L2) (b :: L3)); [|el|el].
    by rewrite <-app_assoc.
Qed.

(** The parents' IDs count the segments cyclically from the segment of [a]. *)
Lemma pid_order_true A np ib ic :
  0 <= A < np -> 0 < ib -> ib < ic -> ic < np ->
  (if bool_decide ((A + ic) mod np > A)
   then bool_decide ((A + ib) mod np > A) && bool_decide ((A + ib) mod np < (A + ic) mod np)
   else bool_decide ((A + ib) mod np > A) || bool_decide ((A + ib) mod np < (A + ic) mod np))
  = true.
Proof.
  intros HA Hb Hbc Hc.
  assert ((A + ib) mod np = if decide (A + ib < np) then A + ib else A + ib - np) as ->.
  { case_decide; [apply Z.mod_small; lia|]. symmetry. apply (Z.mod_unique_pos _ _ 1); lia. }
  assert ((A + ic) mod np = if decide (A + ic < np) then A + ic else A + ic - np) as ->.
  { case_decide; [apply Z.mod_small; lia|]. symmetry. apply (Z.mod_unique_pos _ _ 1); lia. }
  repeat case_decide; repeat case_bool_decide; simpl; try done; lia.
Qed.

Lemma pid_order_false A np ib ic :
  0 <= A < np -> 0 < ic -> ic < ib -> ib < np ->
  (if bool_decide ((A + ic) mod np > A)
   then bool_decide ((A + ib) mod np > A) && bool_decide ((A + ib) mod np < (A + ic) mod np)
   else bool_decide ((A + ib) mod np > A) || bool_decide ((A + ib) mod np < (A + ic) mod np))
  = false.
Proof.
  intros HA Hb Hbc Hc.
  assert ((A + ib) mod np = if decide (A + ib < np) then A + ib else A + ib - np) as ->.
  { case_decide; [apply Z.mod_small; lia|]. symmetry. apply (Z.mod_unique_pos _ _ 1); lia. }
  assert ((A + ic) mod np = if decide (A + ic < np) then A + ic else A + ic - np) as ->.
  { case_decide; [apply Z.mod_small; lia|]. symmetry. apply (Z.mod_unique_pos _ _ 1); lia. }
  repeat case_decide; repeat case_bool_decide; simpl; try done; lia.
Qed.

Lemma Rep_pid_index t p l (Ra : list segment) q lq (Rb : list segment) :
  Rep t ((p, l) :: Ra ++ (q, lq) :: Rb) ->
  pid_of t q = (pid_of t p + (Z.of_nat (length Ra) + 1)) mod _n_parents t /\
  Z.of_nat (length Ra) + Z.of_nat (length Rb) + 2 = _n_parents t /\
  0 <= pid_of t p < _n_parents t.
Proof.
  intros HR. pose proof (rep_parents _ _ HR) as Hperm.
  pose proof (rep_n_parents _ _ HR) as Hnp.
  pose proof (rep_pid _ _ HR) as Hpid.
  pose proof (rep_plink _ _ HR) as Hpl.
  rewrite parents_of_cons, parents_of_app, parents_of_cons in Hperm, Hpid, Hpl.
  apply Forall_cons in Hpid as [Hp _].
  apply cchain_chain in Hpl.
  assert ((p :: parents_of Ra ++ q :: parents_of Rb) !! S (length Ra) = Some q) as Hq.
  { rewrite app_comm_cons. apply list_lookup_middle. simpl. by rewrite parents_of_length. }
  assert (chain (fun u v => pid_of t v = Z.rem (pid_of t u + 1) (_n_parents t))
            (p :: parents_of Ra ++ q :: parents_of Rb)) as Hch.
  { eapply chain_mono; [|exact Hpl]. by intros u v (_ & _ & ?). }
  pose proof (chain_rem_offset (fun r => pid_of t r) (_n_parents t) _ p _ q Hch eq_refl
                ltac:(lia) ltac:(lia) Hq) as [E|[? _]]; [|done].
  apply Permutation_length in Hperm. rewrite length_seqZ in Hperm.
  simpl in Hperm. rewrite length_app in Hperm. simpl in Hperm.
  rewrite !parents_of_length in Hperm.
  split; [|split; [lia|done]]. rewrite E. f_equal. lia.
Qed.

Lemma before_embed_l {A} (l Y : list A) b c : before l b c -> before (l ++ Y) b c.
Proof. apply (before_embed [] l Y). Qed.

Lemma before_embed_r {A} (X l : list A) b c : before l b c -> before (X ++ l) b c.
Proof. intros H. apply (before_embed X l []) in H. by rewrite app_nil_r in H. Qed.

Lemma Rep_parents_distinct t (S1 : list segment) q1 m1 S2 q2 m2 S3 :
  Rep t (S1 ++ (q1, m1) :: S2 ++ (q2, m2) :: S3) -> q1 <> q2.
Proof.
  intros HR. pose proof (rep_parents _ _ HR) as Hperm.
  assert (NoDup (parents_of (S1 ++ (q1, m1) :: S2 ++ (q2, m2) :: S3))) as Hnd
    by (rewrite Hperm; apply NoDup_seqZ).
  rewrite parents_of_app, parents_of_cons, parents_of_app, parents_of_cons in Hnd.
  apply NoDup_app in Hnd as (_ & _ & Hnd). apply NoDup_cons in Hnd as [Hq _].
  intros ->. apply Hq. el.
Qed.

(** Decide the tests of [is_between] from the hypotheses. *)
Ltac bd :=
  repeat match goal with
  | |- context [bool_decide ?P] =>
      first [ rewrite (bool_decide_eq_true_2 P) by (first [lia | congruence])
            | rewrite (bool_decide_eq_false_2 P) by (first [lia | congruence]) ]
  end;
  cbn [andb orb negb].

(** With the segment of [a] listed first, the tour after [a] runs through
    the rest of that segment, the other segments, and the part of the
    segment before [a]; [is_between a b c] tells which of [b] and [c] comes
    first on it. *)
Lemma is_between_before t p l1 a l2 (R : list segment) b c :
  Rep t ((p, l1 ++ a :: l2) :: R) ->
  b ∈ l2 ++ tour_of R ++ l1 -> c ∈ l2 ++ tour_of R ++ l1 -> b <> c ->
  if is_between t a b c then before (l2 ++ tour_of R ++ l1) b c
  else before (l2 ++ tour_of R ++ l1) c b.
Proof.
  intros HR Hb Hc Hbc.
  pose proof (rep_segs _ _ HR) as Hok. apply Forall_cons in Hok as [Hs HokR].
  destruct Hs as (_ & _ & _ & Hpar & Hch). simpl in Hpar, Hch.
  rewrite Forall_forall in Hpar.
  assert (parent_of t a = p) as Pa by (apply Hpar; el).
  assert (forall y, y ∈ l1 -> parent_of t y = p /\ lid t y < lid t a) as H1.
  { intros y Hy. split; [apply Hpar; el|].
    apply (chain_offset_lt (lid t) l1 (a :: l2)); [done|done|el]. }
  assert (forall y, y ∈ l2 -> parent_of t y = p /\ lid t a < lid t y) as H2.
  { intros y Hy. split; [apply Hpar; el|].
    apply (chain_offset_lt (lid t) (l1 ++ [a]) l2); [by rewrite <-app_assoc|el|done]. }
  assert (forall y, y ∈ tour_of R -> parent_of t y <> p) as HRp.
  { intros y Hy. by destruct (Rep_rest_elem _ _ _ _ _ HR Hy). }
  assert (chain (fun x y => lid t y = lid t x + 1) l1 /\
          chain (fun x y => lid t y = lid t x + 1) l2) as [Hch1 Hch2].
  { apply chain_app in Hch as (? & Hch & _). split; [done|]. by apply chain_tail in Hch. }
  clear Hpar Hch.
  rewrite is_between_lid.
  rewrite !elem_of_app in Hb, Hc.
  destruct Hb as [Hb|[Hb|Hb]]; destruct Hc as [Hc|[Hc|Hc]].
  - (* both behind [a] in its segment *)
    destruct (H2 b Hb) as [Pb Lb]. destruct (H2 c Hc) as [Pc Lc].
    destruct (before_lid (lid t) l2 b c Hch2 Hb Hc Hbc) as [[Hlt Hbf]|[Hlt Hbf]]; bd;
      by apply before_embed_l.
  - destruct (H2 b Hb) as [Pb Lb]. pose proof (HRp c Hc) as Pc. bd.
    apply before_app; [done|el].
  - destruct (H2 b Hb) as [Pb Lb]. destruct (H1 c Hc) as [Pc Lc]. bd.
    apply before_app; [done|el].
  - pose proof (HRp b Hb) as Pb. destruct (H2 c Hc) as [Pc Lc]. bd.
    apply before_app; [done|el].
  - (* both in other segments *)
    pose proof (HRp b Hb) as Pb. pose proof (HRp c Hc) as Pc.
    pose proof Hb as Hb'. apply elem_of_tour_of in Hb' as (qb & lb & Hqb & Hblb).
    apply list_elem_of_split in Hqb as (Ra & Rr & ->).
    destruct (Rep_segment_of t _ qb lb b HR) as (Eb & _); [el|done|].
    rewrite tour_of_app, tour_of_cons in Hc |- *.
    rewrite !elem_of_app in Hc. destruct Hc as [Hc|[Hc|Hc]].
    + (* the segment of [c] comes first *)
      apply elem_of_tour_of in Hc as (qc & lc & Hqc & Hclc).
      apply list_elem_of_split in Hqc as (Rc & Rb & ->).
      destruct (Rep_segment_of t _ qc lc c HR) as (Ec & _); [el|done|].
      rewrite <-app_assoc in HR. simpl in HR.
      pose proof (Rep_parents_distinct t ((p, l1 ++ a :: l2) :: Rc) qc lc Rb qb lb Rr HR) as Hne.
      destruct (Rep_pid_index t p _ Rc qc lc (Rb ++ (qb, lb) :: Rr) HR) as (Ic & Nc & HA).
      replace (Rc ++ (qc, lc) :: Rb ++ (qb, lb) :: Rr)
        with ((Rc ++ (qc, lc) :: Rb) ++ (qb, lb) :: Rr) in HR by leq.
      destruct (Rep_pid_index t p _ _ qb lb Rr HR) as (Ib & Nb & _).
      rewrite length_app in Ib, Nb, Nc. simpl in Ib, Nb, Nc. unfold segment in *.
      rewrite (bool_decide_eq_false_2 (parent_of t a = parent_of t b)) by congruence.
      rewrite (bool_decide_eq_true_2 (parent_of t a <> parent_of t b)) by congruence.
      rewrite (bool_decide_eq_true_2 (parent_of t a <> parent_of t c)) by congruence.
      rewrite (bool_decide_eq_true_2 (parent_of t b <> parent_of t c)) by congruence.
      cbn [andb]. rewrite Pa, Eb, Ec, Ib, Ic.
      rewrite pid_order_false by lia.
      rewrite tour_of_app, tour_of_cons, <-!app_assoc.
      apply before_embed_r.
      replace (tour_of Rc ++ lc ++ tour_of Rb ++ lb ++ tour_of Rr ++ l1)
        with ((tour_of Rc ++ lc) ++ tour_of Rb ++ lb ++ tour_of Rr ++ l1) by leq.
      apply before_app; el.
    + (* the same segment *)
      destruct (Rep_segment_of t _ qb lb c HR) as (Ec & _); [el|done|].
      assert (chain (fun x y => lid t y = lid t x + 1) lb) as Hchb.
      { rewrite Forall_app, Forall_cons in HokR. by destruct HokR as (_ & (_ & _ & _ & _ & ?) & _). }
      destruct (before_lid (lid t) lb b c Hchb Hblb Hc Hbc) as [[Hlt Hbf]|[Hlt Hbf]]; bd;
        rewrite <-!app_assoc; apply before_embed_r, before_embed_r, before_embed_l; done.
    + (* the segment of [b] comes first *)
      apply elem_of_tour_of in Hc as (qc & lc & Hqc & Hclc).
      apply list_elem_of_split in Hqc as (Rb & Rc & ->).
      destruct (Rep_segment_of t _ qc lc c HR) as (Ec & _); [el|done|].
      pose proof (Rep_parents_distinct t ((p, l1 ++ a :: l2) :: Ra) qb lb Rb qc lc Rc HR) as Hne.
      destruct (Rep_pid_index t p _ Ra qb lb (Rb ++ (qc, lc) :: Rc) HR) as (Ib & Nb & HA).
      replace (Ra ++ (qb, lb) :: Rb ++ (qc, lc) :: Rc)
        with ((Ra ++ (qb, lb) :: Rb) ++ (qc, lc) :: Rc) in HR by leq.
      destruct (Rep_pid_index t p _ _ qc lc Rc HR) as (Ic & Nc & _).
      rewrite length_app in Ic, Nb, Nc. simpl in Ic, Nb, Nc. unfold segment in *.
      rewrite (bool_decide_eq_false_2 (parent_of t a = parent_of t b)) by congruence.
      rewrite (bool_decide_eq_true_2 (parent_of t a <> parent_of t b)) by congruence.
      rewrite (bool_decide_eq_true_2 (parent_of t a <> parent_of t c)) by congruence.
      rewrite (bool_decide_eq_true_2 (parent_of t b <> parent_of t c)) by congruence.
      cbn [andb]. rewrite Pa, Eb, Ec, Ib, Ic.
      rewrite pid_order_true by lia.
      rewrite tour_of_app, tour_of_cons, <-!app_assoc.
      apply before_embed_r.
      replace (tour_of Ra ++ lb ++ tour_of Rb ++ lc ++ tour_of Rc ++ l1)
        with ((tour_of Ra ++ lb) ++ tour_of Rb ++ lc ++ tour_of Rc ++ l1) by leq.
      apply before_app; el.
  - pose proof (HRp b Hb) as Pb. destruct (H1 c Hc) as [Pc Lc]. bd.
    apply before_embed_r, before_app; done.
  - destruct (H1 b Hb) as [Pb Lb]. destruct (H2 c Hc) as [Pc Lc]. bd.
    apply before_app; [done|el].
  - destruct (H1 b Hb) as [Pb Lb]. pose proof (HRp c Hc) as Pc. bd.
    apply before_embed_r, before_app; done.
  - (* both before [a] in its segment *)
    destruct (H1 b Hb) as [Pb Lb]. destruct (H1 c Hc) as [Pc Lc].
    destruct (before_lid (lid t) l1 b c Hch1 Hb Hc Hbc) as [[Hlt Hbf]|[Hlt Hbf]]; bd;
      by apply before_embed_r, before_embed_r.
Qed.

(** C2.  On a valid tree, for pairwise distinct nodes [a], [b], [c]:
    [is_between a b c] is true exactly when the raw tour read forward from
    [a] meets [b] strictly before [c]. *)
Theorem is_between_order t a b c :
  valid t ->
  is_city_valid t a = true -> is_city_valid t b = true -> is_city_valid t c = true ->
  a <> b -> a <> c -> b <> c ->
  (is_between t a b c = true <->
   exists L1 L2 L3, get_raw_tour t a forward = a :: L1 ++ b :: L2 ++ c :: L3).
Proof.
  intros [Ho [segs HR]] Ha Hb Hc Hab Hac Hbc.
  pose proof (Rep_valid_node _ _ _ HR Ha) as Hin.
  destruct (Rep_locate _ _ _ HR Hin) as (l1 & l2 & q & l3 & R0 & HR0).
  set (p := parent_of t a) in *. set (R := (q, l3) :: R0) in *.
  set (T := l2 ++ tour_of R ++ l1).
  assert (tour_rep t (a :: T)) as Htr.
  { pose proof (Rep_tour_rep _ _ HR0) as Htr. rewrite tour_of_cons, <-app_assoc in Htr.
    apply tour_rep_rotate in Htr. simpl in Htr. unfold T. by rewrite <-app_assoc in Htr. }
  pose proof (get_raw_tour_forward t a T Htr Ho) as Eraw.
  assert (forall y, is_city_valid t y = true -> y <> a -> y ∈ T) as HinT.
  { intros y Hy Hya. apply is_city_valid_range in Hy.
    apply (tour_rep_range _ _ _ Htr) in Hy. apply elem_of_cons in Hy as [?|?]; done. }
  pose proof (HinT b Hb ltac:(congruence)) as HbT.
  pose proof (HinT c Hc ltac:(congruence)) as HcT.
  pose proof (is_between_before t p l1 a l2 R b c HR0 HbT HcT Hbc) as Hbw. fold T in Hbw.
  rewrite Eraw. split.
  - intros E. rewrite E in Hbw. destruct Hbw as (L1 & L2 & L3 & ->). by exists L1, L2, L3.
  - intros (L1 & L2 & L3 & E). injection E as E.
    destruct (is_between t a b c); [done|]. exfalso.
    apply (before_asym T b c); [|by exists L1, L2, L3|done].
    pose proof (tour_rep_NoDup _ _ Htr) as Hnd. by apply NoDup_cons in Hnd as [_ ?].
Qed.

Lemma is_between_order_witness :
  is_between tree10 3 8 10 = true <->
  exists L1 L2 L3, get_raw_tour tree10 3 forward = 3 :: L1 ++ 8 :: L2 ++ 10 :: L3.
Proof.
  apply (is_between_order tree10 3 8 10).
  - apply check_valid_sound. vm_compute. reflexivity.
  - vm_compute. reflexivity.
  - vm_compute. reflexivity.
  - vm_compute. reflexivity.
  - lia.
  - lia.
  - lia.
Defined.

(** * Further properties of the queries and of construction *)

(** X1.  On a valid tree the raw tour read backward from a city is the raw
    tour read forward from it with the cities behind the first reversed. *)
Theorem raw_tour_backward_is_reverse t c :
  valid t -> is_city_valid t c = true ->
  get_raw_tour t c backward = c :: lrev (tail (get_raw_tour t c forward)).
Proof.
  intros Hv Hc. destruct (valid_tour_from t c Hv Hc) as (segs & L & _ & Htr).
  destruct Hv as [Ho _].
  by rewrite (get_raw_tour_forward t c L Htr Ho), (get_raw_tour_backward t c L Htr Ho).
Qed.

Lemma raw_tour_backward_is_reverse_witness :
  get_raw_tour tree14 6 backward = 6 :: lrev (tail (get_raw_tour tree14 6 forward)).
Proof.
  apply (raw_tour_backward_is_reverse tree14 6).
  - apply check_valid_sound. vm_compute. reflexivity.
  - vm_compute. reflexivity.
Defined.

(** X2.  On a valid tree the raw tour from any city lists every city of the
    tree exactly once, starting with that city. *)
Theorem raw_tour_is_permutation t c d :
  valid t -> is_city_valid t c = true ->
  get_raw_tour t c d ≡ₚ seqZ (_origin_city t) (_n_cities t) /\
  NoDup (get_raw_tour t c d) /\ head (get_raw_tour t c d) = Some c.
Proof.
  intros Hv Hc. destruct (valid_tour_from t c Hv Hc) as (segs & L & _ & Htr).
  destruct Hv as [Ho _]. pose proof Htr as (_ & Hperm & _).
  assert (get_raw_tour t c d ≡ₚ c :: L /\ head (get_raw_tour t c d) = Some c) as [Hp Hh].
  { destruct d.
    - by rewrite (get_raw_tour_forward t c L Htr Ho).
    - rewrite (get_raw_tour_backward t c L Htr Ho). split; [|done].
      by rewrite reverse_Permutation. }
  split_and!; [by rewrite Hp|rewrite Hp, Hperm; apply NoDup_seqZ|done].
Qed.

Lemma raw_tour_is_permutation_witness :
  get_raw_tour tree23 19 backward ≡ₚ seqZ (_origin_city tree23) (_n_cities tree23) /\
  NoDup (get_raw_tour tree23 19 backward) /\ head (get_raw_tour tree23 19 backward) = Some 19.
Proof.
  apply (raw_tour_is_permutation tree23 19 backward).
  - apply check_valid_sound. vm_compute. reflexivity.
  - vm_compute. reflexivity.
Defined.

(** X3.  [get_next] and [get_prev] are inverse to each other on the cities
    of a valid tree, and stay among them. *)
Theorem next_prev_inverse t x :
  valid t -> is_city_valid t x = true ->
  get_prev t (get_next t x) = x /\ get_next t (get_prev t x) = x /\
  is_city_valid t (get_next t x) = true /\ is_city_valid t (get_prev t x) = true.
Proof.
  intros Hv Hx. destruct (valid_neighbors t x Hv Hx) as (H1 & H2 & H3 & H4). done.
Qed.

Lemma next_prev_inverse_witness :
  get_prev tree10 (get_next tree10 7) = 7 /\ get_next tree10 (get_prev tree10 7) = 7 /\
  is_city_valid tree10 (get_next tree10 7) = true /\
  is_city_valid tree10 (get_prev tree10 7) = true.
Proof.
  apply (next_prev_inverse tree10 7).
  - apply check_valid_sound. vm_compute. reflexivity.
  - vm_compute. reflexivity.
Defined.

(** X4.  On a valid tree [has_edge] does not depend on the order of its
    two arguments. *)
Theorem has_edge_symmetric t a b :
  valid t -> is_city_valid t a = true -> is_city_valid t b = true ->
  has_edge t a b = has_edge t b a.
Proof.
  intros Hv Ha Hb.
  destruct (valid_neighbors t a Hv Ha) as (_ & _ & Ha1 & Ha2).
  destruct (valid_neighbors t b Hv Hb) as (_ & _ & Hb1 & Hb2).
  unfold has_edge.
  rewrite (bool_decide_ext (get_next t a = b) (get_prev t b = a)) by (split; congruence).
  rewrite (bool_decide_ext (get_prev t a = b) (get_next t b = a)) by (split; congruence).
  apply orb_comm.
Qed.

Lemma has_edge_symmetric_witness : has_edge tree12 12 2 = has_edge tree12 2 12.
Proof.
  apply (has_edge_symmetric tree12 12 2).
  - apply check_valid_sound. vm_compute. reflexivity.
  - vm_compute. reflexivity.
  - vm_compute. reflexivity.
Defined.

(** X5.  [connect_arc_forward p q] makes [q] the logical successor of [p]
    and [p] the logical predecessor of [q]; it changes no other successor
    or predecessor, no parent record, and no ID, parent or city of a node. *)
Theorem connect_arc_forward_links t p q :
  get_next (connect_arc_forward t p q) p = q /\
  get_prev (connect_arc_forward t p q) q = p /\
  (forall z, z <> p -> get_next (connect_arc_forward t p q) z = get_next t z) /\
  (forall z, z <> q -> get_prev (connect_arc_forward t p q) z = get_prev t z) /\
  (forall r, pa (connect_arc_forward t p q) r = pa t r) /\
  (forall z, id_of (connect_arc_forward t p q) z = id_of t z /\
             parent_of (connect_arc_forward t p q) z = parent_of t z /\
             city_of (connect_arc_forward t p q) z = city_of t z).
Proof.
  split_and!.
  - rewrite get_next_connect_arc_forward. by rewrite decide_True.
  - rewrite get_prev_connect_arc_forward. by rewrite decide_True.
  - intros z Hz. rewrite get_next_connect_arc_forward. by rewrite decide_False.
  - intros z Hz. rewrite get_prev_connect_arc_forward. by rewrite decide_False.
  - intros r. by rewrite pa_connect_arc_forward.
  - intros z. by rewrite id_of_connect_arc_forward, parent_of_connect_arc_forward,
      city_of_connect_arc_forward.
Qed.

Lemma valid_parent_range t x :
  valid t -> is_city_valid t x = true ->
  0 <= parent_of t x < _n_parents t /\
  0 <= pid_of t (parent_of t x) < _n_parents t /\ 2 <= _n_parents t.
Proof.
  intros [_ [segs HR]] Hx. pose proof (Rep_valid_node _ _ _ HR Hx) as Hin.
  destruct (Rep_locate _ _ _ HR Hin) as (l1 & l2 & q & l3 & R0 & HR0).
  pose proof (rep_parents _ _ HR0) as Hperm.
  assert (parent_of t x ∈ parents_of ((parent_of t x, l1 ++ x :: l2) :: (q, l3) :: R0)) as Hp
    by (rewrite parents_of_cons; el).
  rewrite Hperm in Hp. apply elem_of_seqZ in Hp.
  assert (0 <= parent_of t x < _n_parents t) as Hr by lia.
  destruct (Rep_parent_ring t _ _ HR0 Hr) as (_ & _ & _ & _ & _ & Hid).
  pose proof (rep_n_parents _ _ HR). done.
Qed.

(** X6.  On a valid tree [count_n_segments] returns a number of segments
    between one and the number of parents. *)
Theorem count_n_segments_range t a b :
  valid t -> is_city_valid t a = true -> is_city_valid t b = true ->
  1 <= count_n_segments t a b <= _n_parents t.
Proof.
  intros Hv Ha Hb.
  destruct (valid_parent_range t a Hv Ha) as (_ & Hpa & Hnp).
  destruct (valid_parent_range t b Hv Hb) as (_ & Hpb & _).
  unfold count_n_segments, n_segments. cbv zeta.
  case_bool_decide; [destruct (_ || _); lia|]. case_bool_decide; lia.
Qed.

Lemma count_n_segments_range_witness :
  1 <= count_n_segments tree23 20 8 <= _n_parents tree23.
Proof.
  apply (count_n_segments_range tree23 20 8).
  - apply check_valid_sound. vm_compute. reflexivity.
  - vm_compute. reflexivity.
  - vm_compute. reflexivity.
Defined.

(** The loop of [actual_segment_sizes] along a chain of parents. *)
Lemma segment_sizes_loop_spec t start P : forall fuel p,
  chain (fun u v => pnext_of t u = v) (p :: P) ->
  pnext_of t (default p (last P)) = start -> start ∉ P -> (length P < fuel)%nat ->
  segment_sizes_loop fuel t start p = Some ((fun r => size_of t r) <$> (p :: P)).
Proof.
  induction P as [|q P IH]; intros fuel p Hch Hlast Hs Hf.
  - destruct fuel as [|f]; [simpl in Hf; lia|]. simpl in Hlast |- *. rewrite Hlast.
    by rewrite bool_decide_eq_false_2 by (intros H; by apply H).
  - destruct fuel as [|f]; [simpl in Hf; lia|].
    apply chain_cons in Hch as [Hpq Hch]. simpl. rewrite Hpq.
    rewrite bool_decide_eq_true_2 by (intros ->; apply Hs; el).
    rewrite (IH f q Hch); [done| |by intros ?; apply Hs; el|simpl in Hf; lia].
    rewrite <-Hlast, last_cons. by destruct (last P).
Qed.

Lemma sizes_sum t (S : list segment) :
  Forall (seg_ok t) S ->
  foldr Z.add 0 ((fun r => size_of t r) <$> parents_of S) = Z.of_nat (length (tour_of S)) /\
  Forall (fun s => 0 < s) ((fun r => size_of t r) <$> parents_of S).
Proof.
  induction S as [|[p l] S IH]; intros Hok.
  - rewrite parents_of_nil, tour_of_nil. done.
  - apply Forall_cons in Hok as [Hs Hok]. destruct (IH Hok) as [IH1 IH2].
    pose proof (seg_ok_nonempty _ _ _ Hs) as Hne. destruct Hs as (Hsz & _). simpl in Hsz.
    rewrite parents_of_cons, tour_of_cons, fmap_cons, length_app. simpl. split.
    + rewrite IH1. lia.
    + apply Forall_cons. split; [|done]. destruct l; [done|]. simpl in Hsz. lia.
Qed.

(** X7.  On a valid tree, started at a city of the tree,
    [actual_segment_sizes] returns (for every fuel above the number of
    cities) the sizes of all the segments in the order of the walk along
    [next] from the segment of that city: as many sizes as there are
    parents, all positive, summing up to the number of cities. *)
Theorem actual_segment_sizes_sum fuel t c :
  valid t -> is_city_valid t c = true -> (Z.to_nat (_n_cities t) < fuel)%nat ->
  exists sizes, actual_segment_sizes fuel t c = Some sizes /\
    sizes = (fun r => size_of t r)
              <$> parent_walk t (Z.to_nat (_n_parents t)) (get_parent_node t c) /\
    length sizes = Z.to_nat (_n_parents t) /\
    Forall (fun s => 0 < s) sizes /\
    foldr Z.add 0 sizes = _n_cities t.
Proof.
  intros [Ho [segs HR]] Hc Hf. pose proof (Rep_valid_node _ _ _ HR Hc) as Hin.
  destruct (Rep_locate _ _ _ HR Hin) as (l1 & l2 & q & l3 & R0 & HR0).
  set (p := parent_of t c) in *. set (S0 := (p, l1 ++ c :: l2) :: (q, l3) :: R0) in *.
  pose proof (rep_plink _ _ HR0) as Hpl.
  pose proof (rep_parents _ _ HR0) as Hperm.
  assert (exists Q, parents_of S0 = p :: Q) as [Q EQ] by (unfold S0; rewrite parents_of_cons; eauto).
  rewrite EQ in Hpl, Hperm.
  assert (NoDup (p :: Q)) as Hnd by (rewrite Hperm; apply NoDup_seqZ).
  assert (length (p :: Q) = Z.to_nat (_n_parents t)) as Hlen by (by rewrite Hperm, length_seqZ).
  pose proof (Rep_parents_le _ _ HR0) as Hle.
  assert (chain (fun u v => pnext_of t u = v) (p :: Q)) as Hch.
  { pose proof (cchain_chain _ _ Hpl) as H. eapply chain_mono; [|exact H]. by intros u v (? & _). }
  destruct (sizes_sum t S0 (rep_segs _ _ HR0)) as [Hsum Hpos]. rewrite EQ in Hsum, Hpos.
  exists ((fun r => size_of t r) <$> (p :: Q)).
  split_and!.
  - unfold actual_segment_sizes, get_parent_node, get_node. rewrite Hc. fold p.
    apply segment_sizes_loop_spec; [done| |by apply NoDup_cons in Hnd as [? _]|simpl in Hlen; lia].
    destruct (cchain_wrap _ _ (default p (last Q)) p Hpl) as [Hw _]; [done| |done].
    rewrite last_cons. by destruct (last Q).
  - unfold get_parent_node, get_node. fold p. rewrite <-Hlen. simpl length.
    by rewrite (parent_walk_chain t Q p Hch).
  - by rewrite length_fmap.
  - done.
  - rewrite Hsum, (Rep_tour_length _ _ HR0). pose proof (rep_n_parents _ _ HR0). lia.
Qed.

Lemma actual_segment_sizes_sum_witness :
  exists sizes, actual_segment_sizes 100 tree23 11 = Some sizes /\
    sizes = (fun r => size_of tree23 r)
              <$> parent_walk tree23 (Z.to_nat (_n_parents tree23)) (get_parent_node tree23 11) /\
    length sizes = Z.to_nat (_n_parents tree23) /\
    Forall (fun s => 0 < s) sizes /\
    foldr Z.add 0 sizes = _n_cities tree23.
Proof.
  apply (actual_segment_sizes_sum 100 tree23 11).
  - apply check_valid_sound. vm_compute. reflexivity.
  - vm_compute. reflexivity.
  - vm_compute. lia.
Defined.

(** X8.  [set_raw_tour] on a tree with at least two parents and as many
    cities, given a permutation [order] of the cities: the result is valid,
    its raw tour read forward from [order[0]] is [order], and segment [k]
    is not reversed, has ID [k], begins at [order[k * len]] and holds [len]
    cities, where [len] is the number of cities divided by the number of
    parents, except that the last segment takes all the remaining cities. *)
Theorem set_raw_tour_layout (t : TwoLevelTree) order :
  2 <= _n_parents t <= _n_cities t -> 0 <= _origin_city t ->
  order ≡ₚ seqZ (_origin_city t) (_n_cities t) ->
  let t' := set_raw_tour t order in
  let len := Z.quot (_n_cities t) (_n_parents t) in
  valid t' /\ same_shape t t' /\
  get_raw_tour t' (at_ order 0) forward = order /\
  (forall k, 0 <= k < _n_parents t ->
     rev_of t' k = false /\ pid_of t' k = k /\
     begin_of t' k = at_ order (k * len) /\
     size_of t' k = if bool_decide (k = _n_parents t - 1) then _n_cities t - k * len else len).
Proof.
  intros [Hnp Hn] Ho Hperm t' len.
  assert (NoDup order) as Hnd by (rewrite Hperm; apply NoDup_seqZ).
  assert (Z.of_nat (length order) = _n_cities t) as Hlen
    by (rewrite Hperm, length_seqZ; lia).
  destruct (set_raw_tour_state t order Hnd Hlen Hnp Hn) as (Hsh & Hpa & _).
  pose proof (set_raw_tour_Rep t order Hnp Hn Hperm) as HR. fold t' in Hsh, Hpa, HR.
  pose proof Hsh as (_ & _ & Eo & _).
  split_and!.
  - split; [lia|by eexists].
  - done.
  - pose proof (Rep_tour_rep _ _ HR) as Htr.
    rewrite (raw_segments_tour t order Hnp Hn Hlen) in Htr.
    destruct order as [|x L]; [simpl in Hlen; lia|].
    change (at_ (x :: L) 0) with x. apply get_raw_tour_forward; [done|lia].
  - intros k Hk. rewrite (Hpa k Hk). unfold raw_parent, raw_end, raw_begin. simpl.
    fold len. split_and!; try done. case_bool_decide; lia.
Qed.

Lemma set_raw_tour_layout_witness :
  let t' := set_raw_tour (new_tree 14 1) order14 in
  let len := Z.quot (_n_cities (new_tree 14 1)) (_n_parents (new_tree 14 1)) in
  valid t' /\ same_shape (new_tree 14 1) t' /\
  get_raw_tour t' (at_ order14 0) forward = order14 /\
  (forall k, 0 <= k < _n_parents (new_tree 14 1) ->
     rev_of t' k = false /\ pid_of t' k = k /\
     begin_of t' k = at_ order14 (k * len) /\
     size_of t' k = if bool_decide (k = _n_parents (new_tree 14 1) - 1)
                    then _n_cities (new_tree 14 1) - k * len else len).
Proof.
  apply (set_raw_tour_layout (new_tree 14 1) order14).
  - vm_compute. split; discriminate.
  - vm_compute. discriminate.
  - apply (bool_decide_unpack _). vm_compute. exact I.
Defined.

(** X9.  Copy construction keeps the tour: the copy of a valid tree is
    valid, has the same parameters, and has the same raw tour from every
    city in both directions. *)
Theorem copy_keeps_tour other :
  valid other ->
  valid (copy_tree other) /\ same_shape other (copy_tree other) /\
  (forall c d, is_city_valid other c = true ->
     get_raw_tour (copy_tree other) c d = get_raw_tour other c d).
Proof.
  intros Hv. pose proof Hv as [Ho [segs HR]].
  assert (is_city_valid other (_origin_city other) = true) as Hoc.
  { apply is_city_valid_range. pose proof (Rep_parents_le _ _ HR).
    pose proof (rep_n_parents _ _ HR). lia. }
  destruct (valid_tour_from other _ Hv Hoc) as (_ & L & _ & Htr).
  assert (get_raw_tour other (-1) forward = _origin_city other :: L) as Eraw.
  { rewrite <-(get_raw_tour_forward other _ L Htr Ho). unfold get_raw_tour.
    rewrite bool_decide_eq_true_2 by lia. by rewrite bool_decide_eq_false_2 by lia. }
  unfold copy_tree. rewrite Eraw.
  set (t0 := mkTree _ _ _ _ _ _).
  assert (same_shape other t0) as Hs0 by (by repeat split).
  pose proof (rep_n_parents _ _ HR) as Hnp. pose proof (Rep_parents_le _ _ HR) as Hle.
  pose proof Htr as (_ & Hperm & _).
  assert (NoDup (_origin_city other :: L)) as Hnd by (rewrite Hperm; apply NoDup_seqZ).
  assert (Z.of_nat (length (_origin_city other :: L)) = _n_cities t0) as Hlen.
  { rewrite Hperm, length_seqZ. simpl. lia. }
  destruct (set_raw_tour_state t0 (_origin_city other :: L) Hnd Hlen) as (Hsh & _);
    [done|done|].
  pose proof (set_raw_tour_Rep t0 (_origin_city other :: L)) as HR'.
  specialize (HR' Hnp Hle Hperm).
  pose proof (Rep_tour_rep _ _ HR') as Htr'.
  rewrite (raw_segments_tour t0 _ Hnp Hle Hlen) in Htr'.
  assert (same_shape other (set_raw_tour t0 (_origin_city other :: L))) as Hs.
  { destruct Hs0 as (? & ? & ? & ?), Hsh as (? & ? & ? & ?). repeat split; congruence. }
  split_and!.
  - split; [destruct Hs as (_ & _ & -> & _); done|by eexists].
  - done.
  - intros c d Hc. by apply (get_raw_tour_tour_rep_eq other _ (_origin_city other :: L)).
Qed.

Lemma copy_keeps_tour_witness :
  valid (copy_tree tree14) /\ same_shape tree14 (copy_tree tree14) /\
  (forall c d, is_city_valid tree14 c = true ->
     get_raw_tour (copy_tree tree14) c d = get_raw_tour tree14 c d).
Proof.
  apply (copy_keeps_tour tree14).
  apply check_valid_sound. vm_compute. reflexivity.
Defined.

Lemma Rep_segment_pred t p l1 x l2 R y :
  Rep t ((p, l1 ++ x :: l2) :: R) -> last l1 = Some y ->
  get_prev t x = y /\ parent_of t y = p /\ lid t x = lid t y + 1.
Proof.
  intros HR Hy. apply last_Some in Hy as [l1' ->].
  pose proof (rep_segs _ _ HR) as Hok. apply Forall_cons in Hok as [Hs _].
  destruct Hs as (_ & _ & _ & Hpar & Hch). simpl in Hpar, Hch.
  rewrite Forall_forall in Hpar. rewrite <-app_assoc in Hch. simpl in Hch.
  split_and!.
  - pose proof (rep_link _ _ HR) as Hlk. apply cchain_chain in Hlk.
    rewrite tour_of_cons in Hlk. apply chain_app_l in Hlk.
    rewrite <-app_assoc in Hlk. simpl in Hlk. by apply chain_elem in Hlk as [_ ?].
  - apply Hpar. el.
  - by apply chain_elem in Hch.
Qed.

(** X10.  The invariant stated in the header for the IDs of segment nodes:
    on a valid tree, if a node is not the end node of its segment, its
    physical [next] lies in the same segment and has the next ID; the begin
    node of the segment has the minimum ID and the end node the maximum, and
    they are [size - 1] apart. *)
Theorem physical_ids_increase t x :
  valid t -> is_city_valid t x = true ->
  let p := parent_of t x in
  (x <> end_of t p ->
     parent_of t (next_of t x) = p /\ id_of t (next_of t x) = id_of t x + 1) /\
  id_of t (begin_of t p) <= id_of t x <= id_of t (end_of t p) /\
  id_of t (end_of t p) - id_of t (begin_of t p) + 1 = size_of t p.
Proof.
  intros [_ [segs HR]] Hx p. pose proof (Rep_valid_node _ _ _ HR Hx) as Hin.
  destruct (Rep_locate _ _ _ HR Hin) as (l1 & l2 & q & l3 & R0 & HR0). fold p in HR0.
  destruct (Rep_segment_ids t p l1 x l2 _ HR0)
    as (Hpx & Hpb & Hpe & Eb & Ee & Esz & Hnext & Huniq).
  pose proof (fun y => Rep_segment_pred t p l1 x l2 _ y HR0) as Hpred.
  destruct (Rep_seg_ends _ _ p (l1 ++ x :: l2) HR0) as (Hhd & Hla & Hbin & Hein & _); [el|].
  pose proof (lid_of_parent t x p Hpx) as Lx.
  pose proof (lid_of_parent t _ p Hpb) as Lb.
  pose proof (lid_of_parent t _ p Hpe) as Le.
  unfold get_next, get_prev in Hnext, Hpred. fold p in Hnext, Hpred.
  unfold forward_begin_node, forward_end_node in *.
  destruct (rev_of t p) eqn:Hrev.
  - assert (x <> end_of t p -> exists y, last l1 = Some y) as Hl1.
    { intros Hne. destruct l1 as [|z l1] using rev_ind; [|rewrite last_snoc; eauto].
      simpl in Hhd. congruence. }
    split_and!; [|lia|lia|lia].
    intros Hne. destruct (Hl1 Hne) as [y Hy].
    destruct (Hpred y Hy) as (-> & Hpy & Ly).
    rewrite (lid_of_parent t y p Hpy), Hrev in Ly. split; [done|lia].
  - assert (x <> end_of t p -> exists y, head l2 = Some y) as Hl2.
    { intros Hne. destruct l2 as [|z l2]; [|simpl; eauto].
      rewrite last_snoc in Hla. congruence. }
    split_and!; [|lia|lia|lia].
    intros Hne. destruct (Hl2 Hne) as [y Hy].
    destruct (Hnext y Hy) as (-> & Hpy & Ly).
    rewrite (lid_of_parent t y p Hpy), Hrev in Ly. split; [done|lia].
Qed.

Lemma physical_ids_increase_witness :
  let p := parent_of tree23 16 in
  (16 <> end_of tree23 p ->
     parent_of tree23 (next_of tree23 16) = p /\
     id_of tree23 (next_of tree23 16) = id_of tree23 16 + 1) /\
  id_of tree23 (begin_of tree23 p) <= id_of tree23 16 <= id_of tree23 (end_of tree23 p) /\
  id_of tree23 (end_of tree23 p) - id_of tree23 (begin_of tree23 p) + 1 = size_of tree23 p.
Proof.
  apply (physical_ids_increase tree23 16).
  - apply check_valid_sound. vm_compute. reflexivity.
  - vm_compute. reflexivity.
Defined.

(** X11.  [relabel_id a b a_id] along a chain of physical [next] pointers
    from [a] to [b]: it returns (for every fuel above the length of the
    chain), gives [a] the ID [a_id] and every later node of the chain the ID
    of its predecessor plus one, and changes nothing else: no parent record,
    no link, parent or city of a node, and no ID outside the chain. *)
Theorem relabel_id_consecutive fuel t a b a_id rest :
  NoDup (a :: rest) -> chain (fun x y => next_of t x = y) (a :: rest) ->
  last (a :: rest) = Some b -> (length rest < fuel)%nat ->
  exists t', relabel_id fuel t a b a_id = Some t' /\
    (forall q, pa t' q = pa t q) /\ same_shape t t' /\
    (forall x, next_of t' x = next_of t x /\ prev_of t' x = prev_of t x /\
               parent_of t' x = parent_of t x /\ city_of t' x = city_of t x) /\
    (forall x, x ∉ a :: rest -> id_of t' x = id_of t x) /\
    id_of t' a = a_id /\
    chain (fun x y => id_of t' y = id_of t' x + 1) (a :: rest).
Proof.
  intros Hnd Hch Hl Hf.
  destruct (relabel_id_spec fuel t a b a_id rest Hnd Hch Hl Hf)
    as (t' & E & H1 & H2 & H3 & H4 & H5 & H6 & H7 & H8 & H9).
  exists t'. split; [done|]. split; [done|]. split; [done|].
  split; [intros x; by split_and!|]. by split_and!.
Qed.

Lemma relabel_id_consecutive_witness :
  exists t', relabel_id 5 tree14 8 1 10 = Some t' /\
    (forall q, pa t' q = pa tree14 q) /\ same_shape tree14 t' /\
    (forall x, next_of t' x = next_of tree14 x /\ prev_of t' x = prev_of tree14 x /\
               parent_of t' x = parent_of tree14 x /\ city_of t' x = city_of tree14 x) /\
    (forall x, x ∉ 8 :: [4; 1] -> id_of t' x = id_of tree14 x) /\
    id_of t' 8 = 10 /\
    chain (fun x y => id_of t' y = id_of t' x + 1) (8 :: [4; 1]).
Proof.
  apply (relabel_id_consecutive 5 tree14 8 1 10 [4; 1]).
  - apply (bool_decide_unpack _). vm_compute. exact I.
  - apply chain_cons. split; [vm_compute; reflexivity|].
    apply chain_cons. split; [vm_compute; reflexivity|exact I].
  - reflexivity.
  - cbn [length]. lia.
Defined.
